(** * odsluchane-to-spotify: a shallow embedding of the synchronisation engine

    The development follows the layout of the repository:
    - [src/common/string.ts]   normalisation and song keys,
    - [src/common/fetch.ts]    the retrying request layer,
    - [src/cli/utils.ts]       the window planner and argument helpers,
    - [src/odsluchane/utils.ts] the Europe/Warsaw clock predicates,
    - [src/spotify/index.ts]   the playlist index and the batched add,
    - [src/cli/index.ts]       candidate scoring and the sync orchestrator,
    - [src/odsluchane/index.ts] the rows of a page and the song labels,
    - [src/common/date.ts]     the date argument,
    - [src/spotify/auth.ts]    the update of the .env file.

    Part I holds the definitions, Part II the theorems. *)

From Stdlib Require Import ZArith QArith Qminmax Lia Lqa List Sorted Ascii String.
From Equations Require Import Equations.
From stdpp Require Import gmap list pretty.
Import ListNotations.
Local Open Scope Z_scope.

(* ===================================================================== *)
(** * Part I. The model *)
(* ===================================================================== *)

(** ** JavaScript strings

    A JavaScript string is a sequence of UTF-16 code units.  ASCII
    literals are written [js "..."]. *)

Abbreviation jsstring := (list Z).

Definition js (s : string) : jsstring :=
  map (fun a => Z.of_nat (nat_of_ascii a)) (list_ascii_of_string s).

(** [a === b] on strings. *)
Definition jsEq (a b : jsstring) : bool := bool_decide (a = b).

(** Truthiness of a string: non-empty. *)
Definition truthy (s : jsstring) : bool :=
  match s with [] => false | _ :: _ => true end.

(** [String(n)] for an integer [n]. *)
Definition numberToString (n : Z) : jsstring := js (pretty n).

Fixpoint isPrefix (sub s : jsstring) : bool :=
  match sub, s with
  | [], _ => true
  | _ :: _, [] => false
  | a :: sub', b :: s' => (a =? b) && isPrefix sub' s'
  end.

(** [s.includes(sub)] *)
Fixpoint includes (s sub : jsstring) : bool :=
  isPrefix sub s ||
  match s with
  | [] => false
  | _ :: r => includes r sub
  end.

(** [s.indexOf(sub)], [None] standing for -1. *)
Fixpoint indexOf (s sub : jsstring) : option nat :=
  if isPrefix sub s then Some O
  else match s with
       | [] => None
       | _ :: r => S <$> indexOf r sub
       end.

(** [parts.join(sep)] *)
Fixpoint join (sep : jsstring) (parts : list jsstring) : jsstring :=
  match parts with
  | [] => []
  | [p] => p
  | p :: rest => p ++ sep ++ join sep rest
  end.

(** White space and line terminators, as [String.prototype.trim] strips them. *)
Definition isLineTerminator (c : Z) : bool :=
  (c =? 10) || (c =? 13) || (c =? 8232) || (c =? 8233).

Definition isWhiteSpace (c : Z) : bool :=
  (c =? 9) || (c =? 11) || (c =? 12) || (c =? 32) || (c =? 160) ||
  (c =? 5760) || ((8192 <=? c) && (c <=? 8202)) || (c =? 8239) ||
  (c =? 8287) || (c =? 12288) || (c =? 65279) || isLineTerminator c.

Fixpoint trimStart (s : jsstring) : jsstring :=
  match s with
  | [] => []
  | c :: r => if isWhiteSpace c then trimStart r else s
  end.

Definition trimEnd (s : jsstring) : jsstring := rev (trimStart (rev s)).

Definition trim (s : jsstring) : jsstring := trimEnd (trimStart s).

(** ** src/common/string.ts *)

(** [String.prototype.toLowerCase] and [String.prototype.normalize('NFKD')]
    are the engine's Unicode tables; the embedding takes them as an
    interface. *)
Class UnicodeOps := {
  toLowerCase : jsstring -> jsstring;
  normalizeNFKD : jsstring -> jsstring
}.

(** The class [\w] of a regular expression without the [u] flag. *)
Definition isWordChar (c : Z) : bool :=
  ((48 <=? c) && (c <=? 57)) || ((65 <=? c) && (c <=? 90)) ||
  (c =? 95) || ((97 <=? c) && (c <=? 122)).

(** [[a-z0-9]] *)
Definition isLowerAlnum (c : Z) : bool :=
  ((48 <=? c) && (c <=? 57)) || ((97 <=? c) && (c <=? 122)).

(** The class of code units U+0300 to U+036F. *)
Definition isCombiningMark (c : Z) : bool := (768 <=? c) && (c <=? 879).

(** The replacement of every code unit U+0300 to U+036F by the empty string. *)
Definition stripMarks (s : jsstring) : jsstring :=
  List.filter (fun c => negb (isCombiningMark c)) s.

(** The lazy body [.*?] followed by the closing bracket: the shortest run
    of characters other than line terminators that ends at [close];
    returns what follows the closing bracket. *)
Fixpoint lazyUntil (close : Z) (s : jsstring) : option jsstring :=
  match s with
  | [] => None
  | c :: r =>
      if c =? close then Some r
      else if isLineTerminator c then None
      else lazyUntil close r
  end.

(** A match of [\(.*?\)|\[.*?\]] that starts with [c]; returns the text after
    the match. *)
Definition bracketAt (c : Z) (r : jsstring) : option jsstring :=
  if c =? 40 then lazyUntil 41 r
  else if c =? 91 then lazyUntil 93 r
  else None.

Lemma lazyUntil_length close s r :
  lazyUntil close s = Some r -> (length r < length s)%nat.
Proof.
  induction s as [|c s IH]; simpl; [discriminate|].
  destruct (c =? close); [intros [= ->]; lia|].
  destruct (isLineTerminator c); [discriminate|].
  intros H. apply IH in H. lia.
Qed.

Lemma bracketAt_length c r rest :
  bracketAt c r = Some rest -> (length rest < S (length r))%nat.
Proof.
  unfold bracketAt. intros H.
  destruct (c =? 40); [apply lazyUntil_length in H; lia|].
  destruct (c =? 91); [apply lazyUntil_length in H; lia|discriminate].
Qed.

Definition inspect {A} (a : A) : {b | a = b} := exist _ a eq_refl.

(** [.replace(/\(.*?\)|\[.*?\]/g, ' ')]: scanning from the left, every match
    is replaced by one space and the scan resumes after it. *)
Equations? removeBrackets (s : jsstring) : jsstring by wf (length s) lt :=
  removeBrackets [] := [];
  removeBrackets (c :: r) with inspect (bracketAt c r) => {
    | exist _ (Some rest) E := 32 :: removeBrackets rest;
    | exist _ None E := c :: removeBrackets r }.
Proof.
  - simpl. eapply bracketAt_length; eassumption.
  - simpl. lia.
Qed.

(** Case-insensitive match of a lower-case ASCII pattern letter [p]: with
    the [i] flag and no [u] flag only the letter and its ASCII capital
    canonicalise to the same code unit. *)
Definition eqIgnoreCase (p c : Z) : bool := (c =? p) || (c =? p - 32).

(** The literal [word] matched at the head of [s]; returns the rest. *)
Fixpoint matchWord (word s : jsstring) : option jsstring :=
  match word with
  | [] => Some s
  | p :: word' =>
      match s with
      | [] => None
      | c :: r => if eqIgnoreCase p c then matchWord word' r else None
      end
  end.

Definition isWordAt (s : jsstring) : bool :=
  match s with
  | [] => false
  | c :: _ => isWordChar c
  end.

Definition noLineTerminator (s : jsstring) : bool :=
  forallb (fun c => negb (isLineTerminator c)) s.

(** [\.?\b.*$] after the word, whose last letter is a word character: the
    optional dot is tried first (then the boundary needs a word character
    after it), then the empty alternative (the boundary needs a non-word
    character or the end); [.*$] needs the rest free of line terminators. *)
Definition clauseTail (rest : jsstring) : bool :=
  match rest with
  | c :: rest' => (c =? 46) && isWordAt rest' && noLineTerminator rest'
  | [] => false
  end
  || (negb (isWordAt rest) && noLineTerminator rest).

(** [\b<word>\.?\b.*$] at a position whose preceding code unit is [prev]. *)
Definition clauseMatchesAt (word : jsstring) (prev : option Z) (s : jsstring) : bool :=
  xorb (from_option isWordChar false prev) (isWordAt s) &&
  match matchWord word s with
  | Some rest => clauseTail rest
  | None => false
  end.

(** [.replace(/\b<word>\.?\b.*$/gi, ' ')]: the leftmost match runs to the
    end of the string, so it is the only one. *)
Fixpoint removeClauseFrom (word : jsstring) (prev : option Z) (s : jsstring) : jsstring :=
  if clauseMatchesAt word prev s then [32]
  else match s with
       | [] => []
       | c :: r => c :: removeClauseFrom word (Some c) r
       end.

Definition removeClause (word s : jsstring) : jsstring :=
  removeClauseFrom word None s.

(** [.replace(/[^a-z0-9]+/g, ' ')]; [inRun] tells that the previous code
    unit already belonged to the run being replaced. *)
Fixpoint collapseFrom (inRun : bool) (s : jsstring) : jsstring :=
  match s with
  | [] => []
  | c :: r =>
      if isLowerAlnum c then c :: collapseFrom false r
      else if inRun then collapseFrom true r
      else 32 :: collapseFrom true r
  end.

Definition collapse (s : jsstring) : jsstring := collapseFrom false s.

(** [cleanupSpaces] collapses [\s+] to one space and trims. *)
Fixpoint cleanupSpacesFrom (inRun : bool) (s : jsstring) : jsstring :=
  match s with
  | [] => []
  | c :: r =>
      if isWhiteSpace c then
        if inRun then cleanupSpacesFrom true r else 32 :: cleanupSpacesFrom true r
      else c :: cleanupSpacesFrom false r
  end.

Definition cleanupSpaces (value : jsstring) : jsstring :=
  trim (cleanupSpacesFrom false value).

Section StringTs.
Context {U : UnicodeOps}.

(** The three Unicode steps of [normalize]. *)
Definition decompose (value : jsstring) : jsstring :=
  stripMarks (normalizeNFKD (toLowerCase value)).

(** The regular-expression steps and the final [trim]. *)
Definition finish (s : jsstring) : jsstring :=
  trim (collapse (removeClause (js "ft") (removeClause (js "feat") (removeBrackets s)))).

Definition normalize (value : jsstring) : jsstring :=
  finish (decompose value).

Definition buildSongKey (artist title : jsstring) : jsstring :=
  normalize artist ++ js "|" ++ normalize title.

End StringTs.

(** *** The Unicode tables on Basic Latin and Latin-1 Supplement

    An instance of the interface that agrees with the engine on strings
    whose code units lie in U+0000 to U+00FF; other code units are left
    as they are.  It serves to evaluate the functions on such strings. *)

Definition latin1Lower (c : Z) : Z :=
  if ((65 <=? c) && (c <=? 90)) || ((192 <=? c) && (c <=? 222) && negb (c =? 215))
  then c + 32 else c.

(** The combining mark of the canonical decomposition of the letter at
    offset [k] in the rows U+00C0 and U+00E0; 0 when the letter does not
    decompose. *)
Definition latin1Mark (k : Z) : Z :=
  if (k =? 0) || (k =? 8) || (k =? 12) || (k =? 18) || (k =? 25) then 768
  else if (k =? 1) || (k =? 9) || (k =? 13) || (k =? 19) || (k =? 26) || (k =? 29) then 769
  else if (k =? 2) || (k =? 10) || (k =? 14) || (k =? 20) || (k =? 27) then 770
  else if (k =? 3) || (k =? 17) || (k =? 21) then 771
  else if (k =? 4) || (k =? 11) || (k =? 15) || (k =? 22) || (k =? 28) then 776
  else if k =? 5 then 778
  else if k =? 7 then 807
  else 0.

(** The base letter (as a capital) at offset [k] of those rows. *)
Definition latin1Base (k : Z) : Z :=
  if k <=? 5 then 65
  else if k =? 7 then 67
  else if k <=? 11 then 69
  else if k <=? 15 then 73
  else if k =? 17 then 78
  else if k <=? 22 then 79
  else if k <=? 28 then 85
  else 89.

Definition latin1Decompose (c : Z) : jsstring :=
  if c =? 160 then [32]
  else if c =? 168 then [32; 776]
  else if c =? 170 then [97]
  else if c =? 175 then [32; 772]
  else if c =? 178 then [50]
  else if c =? 179 then [51]
  else if c =? 180 then [32; 769]
  else if c =? 181 then [956]
  else if c =? 184 then [32; 807]
  else if c =? 185 then [49]
  else if c =? 186 then [111]
  else if c =? 188 then [49; 8260; 52]
  else if c =? 189 then [49; 8260; 50]
  else if c =? 190 then [51; 8260; 52]
  else if (192 <=? c) && (c <=? 222) then
    if latin1Mark (c - 192) =? 0 then [c]
    else [latin1Base (c - 192); latin1Mark (c - 192)]
  else if c =? 255 then [121; 776]
  else if (224 <=? c) && (c <=? 254) then
    if latin1Mark (c - 224) =? 0 then [c]
    else [latin1Base (c - 224) + 32; latin1Mark (c - 224)]
  else [c].

Definition Latin1 : UnicodeOps := {|
  toLowerCase := map latin1Lower;
  normalizeNFKD := flat_map latin1Decompose
|}.

(** ** JavaScript numbers, as far as the request layer needs them

    Arithmetic is exact; [JsNaN] and the infinities are kept because
    [Number(header)] can produce them. *)

Inductive JsNumber :=
| JsNaN
| JsFinite (q : Q)
| JsPosInf
| JsNegInf.

Definition jsOfZ (z : Z) : JsNumber := JsFinite (inject_Z z).

(** [a > b] *)
Definition jsGt (a b : JsNumber) : bool :=
  match a, b with
  | JsNaN, _ | _, JsNaN => false
  | JsPosInf, JsPosInf => false
  | JsPosInf, _ => true
  | _, JsPosInf => false
  | JsNegInf, _ => false
  | JsFinite _, JsNegInf => true
  | JsFinite x, JsFinite y => negb (Qle_bool x y)
  end.

(** [Math.max(a, b)] *)
Definition jsMax (a b : JsNumber) : JsNumber :=
  match a, b with
  | JsNaN, _ | _, JsNaN => JsNaN
  | JsPosInf, _ | _, JsPosInf => JsPosInf
  | JsNegInf, x | x, JsNegInf => x
  | JsFinite x, JsFinite y => if Qle_bool x y then JsFinite y else JsFinite x
  end.

(** [a * k] for a positive finite [k] *)
Definition jsScale (a : JsNumber) (k : Z) : JsNumber :=
  match a with
  | JsFinite x => JsFinite (x * inject_Z k)
  | other => other
  end.

(** [Number(text)] and [Date.parse(text)] are the engine's parsers;
    [Date.parse] yields a time in milliseconds or NaN ([None]). *)
Class JsParsers := {
  Number : jsstring -> JsNumber;
  Date_parse : jsstring -> option Z
}.

(** ** src/common/fetch.ts *)

Definition MIN_RETRY_AFTER_MS : Z := 1500.
Definition MAX_RETRY_AFTER_MS : Z := 10000.
Definition BACKOFF_STEP_MS : Z := 1500.
Definition DEFAULT_RETRY_ATTEMPTS : Z := 4.
Definition DEFAULT_REQUEST_TIMEOUT_MS : Z := 30000.

(** What the request layer reads of a [Response]. *)
Record Response := {
  status : Z;
  retryAfterHeader : option jsstring;   (* [headers.get('retry-after')] *)
  responseId : nat                      (* tells responses apart *)
}.

(** What one call of [fetch] does: it resolves with a response or rejects
    (network failure, timeout, abort). *)
Inductive FetchOutcome :=
| Resolves (response : Response)
| Rejects (reason : nat).

Inductive FetchError :=
| RetryableFetchError (delayMs : JsNumber)
| FetchRejection (reason : nat).

(** The world of one [fetchWithRetry] call: the outcome of the n-th call
    of [fetch] and the value of [Date.now()] while its response is
    examined. *)
Record FetchWorld := {
  fetchOutcome : nat -> FetchOutcome;
  dateNow : nat -> Z
}.

Inductive FetchEvent :=
| FetchCall (attempt : nat)
| FetchDelay (ms : JsNumber).

Section FetchTs.
Context {P : JsParsers}.

Definition getRetryAfterMilliseconds (response : Response) (now : Z) : JsNumber :=
  match retryAfterHeader response with
  | None => jsOfZ MIN_RETRY_AFTER_MS
  | Some header =>
      if negb (truthy header) then jsOfZ MIN_RETRY_AFTER_MS
      else
        match Number header with
        | JsNaN =>
            match Date_parse header with
            | None => jsOfZ MIN_RETRY_AFTER_MS
            | Some timestamp => jsMax (jsOfZ (timestamp - now)) (jsOfZ MIN_RETRY_AFTER_MS)
            end
        | seconds => jsMax (jsScale seconds 1000) (jsOfZ MIN_RETRY_AFTER_MS)
        end
  end.

Definition getBackoffDelayMilliseconds (attempt : Z) : JsNumber :=
  jsMax (jsOfZ (attempt * BACKOFF_STEP_MS)) (jsOfZ MIN_RETRY_AFTER_MS).

(** The variables the callbacks of [fetchWithRetry] close over. *)
Record RetryVars := {
  attempt : nat;
  nextDelayMs : JsNumber
}.

(** The body of the [try] block, given what [fetch] did. *)
Definition tryBlock (isLastAttempt : bool) (currentAttempt : nat) (now : Z)
    (nextDelay : JsNumber) (outcome : FetchOutcome)
    : JsNumber * (FetchError + Response) :=
  match outcome with
  | Rejects reason => (nextDelay, inl (FetchRejection reason))
  | Resolves response =>
      if (status response =? 429) && negb isLastAttempt then
        let retryAfterMs := getRetryAfterMilliseconds response now in
        if jsGt retryAfterMs (jsOfZ MAX_RETRY_AFTER_MS) then (nextDelay, inr response)
        else (retryAfterMs, inl (RetryableFetchError retryAfterMs))
      else if (500 <=? status response) && negb isLastAttempt then
        let d := getBackoffDelayMilliseconds (Z.of_nat currentAttempt + 1) in
        (d, inl (RetryableFetchError d))
      else (nextDelay, inr response)
  end.

(** The [catch] block. *)
Definition catchBlock (isLastAttempt : bool) (currentAttempt : nat)
    (nextDelay : JsNumber) (error : FetchError) : JsNumber * FetchError :=
  if isLastAttempt then (nextDelay, error)
  else match error with
       | RetryableFetchError _ => (nextDelay, error)
       | FetchRejection _ =>
           let d := getBackoffDelayMilliseconds (Z.of_nat currentAttempt + 1) in
           (d, RetryableFetchError d)
       end.

(** One call of the function handed to [retry]. *)
Definition attemptOnce (world : FetchWorld) (totalAttempts : Z) (vars : RetryVars)
    : RetryVars * (FetchError + Response) :=
  let currentAttempt := attempt vars in
  let isLastAttempt := totalAttempts - 1 <=? Z.of_nat currentAttempt in
  let '(d, r) := tryBlock isLastAttempt currentAttempt (dateNow world currentAttempt)
                   (nextDelayMs vars) (fetchOutcome world currentAttempt) in
  match r with
  | inr response => ({| attempt := S currentAttempt; nextDelayMs := d |}, inr response)
  | inl error =>
      let '(d', e') := catchBlock isLastAttempt currentAttempt d error in
      ({| attempt := S currentAttempt; nextDelayMs := d' |}, inl e')
  end.

Definition shouldRetry (error : FetchError) : bool :=
  match error with
  | RetryableFetchError _ => true
  | FetchRejection _ => false
  end.

(** [retry(func, { retries, shouldRetry, delay })] of es-toolkit: [func]
    is called up to [retries] times; an error that [shouldRetry] refuses
    is thrown at once, otherwise the loop sleeps for [delay()] and goes
    on; when the calls are used up the last error is thrown.
    [remaining] counts the iterations left. *)
Fixpoint retryLoop (world : FetchWorld) (totalAttempts : Z) (remaining : nat)
    (vars : RetryVars) (lastError : option FetchError)
    : list FetchEvent * option (FetchError + Response) :=
  match remaining with
  | O => ([], inl <$> lastError)
  | S remaining' =>
      let '(vars1, r) := attemptOnce world totalAttempts vars in
      match r with
      | inr response => ([FetchCall (attempt vars)], Some (inr response))
      | inl error =>
          if shouldRetry error then
            let delayMs := nextDelayMs vars1 in
            let vars2 := {| attempt := attempt vars1; nextDelayMs := jsOfZ 0 |} in
            let '(events, result) :=
              retryLoop world totalAttempts remaining' vars2 (Some error) in
            (FetchCall (attempt vars) :: FetchDelay delayMs :: events, result)
          else ([FetchCall (attempt vars)], Some (inl error))
      end
  end.

(** [fetchWithRetry(url, init, options)] where [maxRetries] is
    [options.maxRetries ?? DEFAULT_RETRY_ATTEMPTS].  The result is [None]
    only if [retry] ends without any call, which [totalAttempts >= 1]
    excludes. *)
Definition fetchWithRetry (world : FetchWorld) (maxRetries : Z)
    : list FetchEvent * option (FetchError + Response) :=
  let totalAttempts := Z.max 1 maxRetries in
  retryLoop world totalAttempts (Z.to_nat totalAttempts)
    {| attempt := O; nextDelayMs := jsOfZ 0 |} None.
End FetchTs.

(** ** src/cli/utils.ts *)

Record TimeWindow := {
  from : Z;
  to : Z
}.

(** The loop of [buildWindows]; [None] when [fuel] iterations do not end it. *)
Fixpoint buildWindowsLoop (fuel : nat) (from timeTo windowHours : Z)
    : option (list TimeWindow) :=
  if from <? timeTo then
    match fuel with
    | O => None
    | S fuel' =>
        cons {| from := from; to := Z.min (from + windowHours) timeTo |}
          <$> buildWindowsLoop fuel' (from + windowHours) timeTo windowHours
    end
  else Some [].

(** [buildWindows(timeFrom, timeTo, windowHours)] for arguments that are
    safe integers (at most 2^53 - 1 in absolute value): a sum that the
    loop forms is then exact, or beyond 2^53 and so beyond [timeTo],
    where the window ends at [timeTo] and the loop stops.  The sync
    command calls it with hours of 0 to 24 and a step of 1 or 2.  A step
    of at least one hour ends the loop within [timeTo - timeFrom]
    iterations; with a step of zero or less over a range that is not
    empty the condition of the loop never fails, the call returns no
    list (it pushes windows until the array or the memory is
    exhausted), and the result here is [None]. *)
Definition buildWindows (timeFrom timeTo windowHours : Z) : option (list TimeWindow) :=
  buildWindowsLoop (Z.to_nat (timeTo - timeFrom)) timeFrom timeTo windowHours.

Definition normalizePlaylistId (playlist : jsstring) : jsstring :=
  let trimmed := trim playlist in
  if negb (includes trimmed (js "spotify.com/playlist/")) then trimmed
  else
    let withoutPrefix :=
      match indexOf trimmed (js "/playlist/") with
      | Some slashIndex => drop (slashIndex + 10) trimmed
      | None => drop 9 trimmed
      end in
    trim match indexOf withoutPrefix (js "?") with
         | None => withoutPrefix
         | Some queryIndex => take queryIndex withoutPrefix
         end.

(** ** src/common/date.ts and src/odsluchane/utils.ts *)

Record ParsedInputDate := {
  dateDay : Z;
  dateMonth : Z;
  dateYear : Z
}.

(** What [getNowInWarsawParts] reads off the clock in Europe/Warsaw. *)
Record WarsawNowParts := {
  year : Z;
  month : Z;
  day : Z;
  hour : Z;
  minute : Z
}.

Definition dateKey (year month day : Z) : Z := year * 10000 + month * 100 + day.

(** [isWindowFullyInPastInWarsaw(date, windowToHour)], with the clock
    reading and the parsed [date] as arguments. *)
Definition isWindowFullyInPastInWarsaw (nowParts : WarsawNowParts)
    (targetDate : ParsedInputDate) (windowToHour : Z) : bool :=
  let todayKey := dateKey (year nowParts) (month nowParts) (day nowParts) in
  let targetKey := dateKey (dateYear targetDate) (dateMonth targetDate) (dateDay targetDate) in
  if targetKey <? todayKey then true
  else if todayKey <? targetKey then false
  else
    let nowMinutes := hour nowParts * 60 + minute nowParts in
    let windowEndMinutes := windowToHour * 60 in
    windowEndMinutes <=? nowMinutes.

Definition isWindowFullyInFutureInWarsaw (nowParts : WarsawNowParts)
    (targetDate : ParsedInputDate) (windowFromHour : Z) : bool :=
  let todayKey := dateKey (year nowParts) (month nowParts) (day nowParts) in
  let targetKey := dateKey (dateYear targetDate) (dateMonth targetDate) (dateDay targetDate) in
  if todayKey <? targetKey then true
  else if targetKey <? todayKey then false
  else
    let nowMinutes := hour nowParts * 60 + minute nowParts in
    let windowStartMinutes := windowFromHour * 60 in
    nowMinutes <? windowStartMinutes.

(** ** src/spotify/types.ts and src/spotify/index.ts *)

Record SpotifyArtist := { artistName : jsstring }.

Record SpotifyAlbum := {
  album_type : jsstring;
  albumName : jsstring
}.

Record SpotifyTrack := {
  trackId : jsstring;
  trackUri : jsstring;
  trackName : jsstring;
  artists : list SpotifyArtist;
  popularity : option Z;          (* [None]: null or undefined *)
  album : SpotifyAlbum
}.

Record PlaylistTrackItem := {
  itemTrack : option SpotifyTrack;   (* [track] *)
  itemItem : option SpotifyTrack     (* [item] *)
}.

Record SpotifyPlaylistTrackIndex := {
  trackIds : gset jsstring;
  songKeys : gset jsstring
}.

Record AddPayload := {
  payloadUris : list jsstring;
  payloadPosition : option Z
}.

(** [chunk(arr, size)] of es-toolkit, for a positive [size]. *)
Equations? chunk {A} (size : nat) (arr : list A) : list (list A) by wf (length arr) lt :=
  chunk size [] := [];
  chunk 0 (x :: arr) := [];
  chunk (S n) (x :: arr) := (x :: take n arr) :: chunk (S n) (drop n arr).
Proof. simpl. rewrite length_drop. lia. Qed.

(** The bodies of the POST requests of
    [addTracksToPlaylist(playlistId, uris, options)], in the order sent. *)
Definition addTracksToPlaylist (uris : list jsstring) (position : option Z)
    : list AddPayload :=
  let chunks := chunk 100 uris in
  let iterableChunks :=
    match position with
    | Some 0 => rev chunks
    | _ => chunks
    end in
  map (fun chunkItem => {| payloadUris := chunkItem; payloadPosition := position |})
    iterableChunks.

(** The Web API's "add items to playlist": the items are inserted in the
    order given at [position], or appended when no position is sent. *)
Definition applyPayload (playlist : list jsstring) (payload : AddPayload) : list jsstring :=
  match payloadPosition payload with
  | Some p => take (Z.to_nat p) playlist ++ payloadUris payload ++ drop (Z.to_nat p) playlist
  | None => playlist ++ payloadUris payload
  end.

Section SpotifyIndex.
Context {U : UnicodeOps}.

(** The key of a track of the service: its artists' names joined by
    spaces, and its name. *)
Definition trackSongKey (track : SpotifyTrack) : jsstring :=
  buildSongKey (join (js " ") (map artistName (artists track))) (trackName track).

(** One iteration of the inner loop of [getPlaylistTrackIndex]. *)
Definition indexItem (index : SpotifyPlaylistTrackIndex) (item : PlaylistTrackItem)
    : SpotifyPlaylistTrackIndex :=
  match (match itemItem item with Some t => Some t | None => itemTrack item end) with
  | None => index
  | Some track =>
      if negb (truthy (trackId track)) || negb (truthy (trackName track))
         || (length (artists track) =? 0)%nat
      then index
      else {| trackIds := trackIds index ∪ {[trackId track]};
              songKeys := songKeys index ∪ {[trackSongKey track]} |}
  end.

(** [getPlaylistTrackIndex] over the pages the service returns. *)
Definition getPlaylistTrackIndex (pages : list (list PlaylistTrackItem))
    : SpotifyPlaylistTrackIndex :=
  foldl (fun index page => foldl indexItem index page)
    {| trackIds := ∅; songKeys := ∅ |} pages.
End SpotifyIndex.

Definition canCurrentUserWritePlaylist (currentUserId ownerId : jsstring)
    (collaborative : bool) : bool :=
  jsEq currentUserId ownerId || collaborative.

(** ** src/odsluchane/types.ts *)

Record SourceUrl := {       (* the query of [buildSourceUrl] *)
  url_r : jsstring;
  url_date : jsstring;
  url_time_from : jsstring;
  url_time_to : jsstring
}.

Record ScrapedSong := {
  playedAt : jsstring;
  rawLabel : jsstring;
  artist : jsstring;
  title : jsstring;
  sourceUrl : SourceUrl
}.

Definition buildSourceUrl (stationId date : jsstring) (timeFrom timeTo : Z) : SourceUrl :=
  {| url_r := stationId; url_date := date;
     url_time_from := numberToString timeFrom; url_time_to := numberToString timeTo |}.

(** ** src/cli/index.ts: candidate scoring *)

Record ScoredCandidate := {
  track : SpotifyTrack;
  score : Q
}.

(** Insertion of [x], which stood before every element of the sorted [l],
    for the comparator [cmp]: [x] stays in front of the elements it does
    not compare greater than. *)
Fixpoint insertSorted {A} (cmp : A -> A -> Q) (x : A) (l : list A) : list A :=
  match l with
  | [] => [x]
  | y :: l' => if Qle_bool (cmp x y) 0 then x :: l else y :: insertSorted cmp x l'
  end.

(** [arr.toSorted(cmp)]: the stable sort. *)
Definition toSorted {A} (cmp : A -> A -> Q) (arr : list A) : list A :=
  foldr (insertSorted cmp) [] arr.

Definition isAlbum (track : SpotifyTrack) : bool := jsEq (album_type (album track)) (js "album").
Definition isSingle (track : SpotifyTrack) : bool := jsEq (album_type (album track)) (js "single").

(** The second half of [chooseBestTrack]: from the scored candidates to
    the chosen track; [None] is the thrown error. *)
Definition pickBest (scored : list ScoredCandidate) : option SpotifyTrack :=
  let sortedByScore := toSorted (fun a b => score b - score a)%Q scored in
  match sortedByScore with
  | [] => None
  | best :: _ =>
      match List.find (fun candidate => isAlbum (track candidate)) sortedByScore with
      | Some bestAlbumCandidate =>
          if isSingle (track best) && Qle_bool (score best - 12) (score bestAlbumCandidate)
          then Some (track bestAlbumCandidate)
          else Some (track best)
      | None => Some (track best)
      end
  end.

Section Scoring.
Context {U : UnicodeOps}.

Definition titleScore (expectedTitle trackTitle : jsstring) : Q :=
  if jsEq trackTitle expectedTitle then 120
  else if includes trackTitle expectedTitle || includes expectedTitle trackTitle then 75
  else 0.

Definition hasArtistMatch (expectedArtist : jsstring) (trackArtists : list jsstring) : bool :=
  existsb (fun artist =>
             jsEq artist expectedArtist || includes artist expectedArtist
             || includes expectedArtist artist)
          trackArtists.

(** The callback of [candidates.map] in [chooseBestTrack]. *)
Definition scoreTrack (song : ScrapedSong) (track : SpotifyTrack) : ScoredCandidate :=
  let expectedTitle := normalize (title song) in
  let expectedArtist := normalize (artist song) in
  let trackTitle := normalize (trackName track) in
  let trackArtists :=
    List.filter truthy (map (fun artist => normalize (artistName artist)) (artists track)) in
  let score := 0%Q in
  let score := (score + titleScore expectedTitle trackTitle)%Q in
  let score :=
    if truthy expectedArtist && hasArtistMatch expectedArtist trackArtists
    then (score + 100)%Q else score in
  let score := if isAlbum track then (score + 28)%Q else score in
  let score := if isSingle track then (score - 12)%Q else score in
  let score :=
    (score + inject_Z (Z.min (default 0%Z (popularity track)) 100%Z) / 15)%Q in
  {| track := track; score := score |}.

Definition chooseBestTrack (song : ScrapedSong) (candidates : list SpotifyTrack)
    : option SpotifyTrack :=
  pickBest (map (scoreTrack song) candidates).
End Scoring.

(** ** src/common/types.ts and src/cli/index.ts: the sync command *)

(** *** Plain objects used as maps

    [stationPlaylists] and [scrapedWindows] are plain objects: the own
    properties are the map ([JSON.parse] makes every key of the file an
    own property, [JSON.stringify] writes the own properties), and a
    key that is not an own property is looked up on [Object.prototype]. *)

(** The property names of [Object.prototype]. *)
Definition objectPrototypeKeys : list jsstring :=
  [js "constructor"; js "__defineGetter__"; js "__defineSetter__"; js "hasOwnProperty";
   js "__lookupGetter__"; js "__lookupSetter__"; js "isPrototypeOf";
   js "propertyIsEnumerable"; js "toString"; js "valueOf"; js "__proto__";
   js "toLocaleString"].

Definition isInheritedKey (key : jsstring) : bool :=
  existsb (jsEq key) objectPrototypeKeys.

(** [String(Object.prototype[key])] for a key of [objectPrototypeKeys]:
    the accessor [__proto__] gives [Object.prototype] itself, the other
    members are built-in functions ([constructor] is [Object]).  Every
    use that the sync command makes of a playlist id is through this
    text (a template or [encodeURIComponent]). *)
Definition inheritedMemberText (key : jsstring) : jsstring :=
  if jsEq key (js "__proto__") then js "[object Object]"
  else js "function "
         ++ (if jsEq key (js "constructor") then js "Object" else key)
         ++ js "() { [native code] }".

(** [object[key]] where the own values are strings: the own value, or
    the inherited member (never falsy), or [undefined]. *)
Definition getProperty (object : gmap jsstring jsstring) (key : jsstring)
    : option jsstring :=
  match object !! key with
  | Some value => Some value
  | None => if isInheritedKey key then Some (inheritedMemberText key) else None
  end.

(** [object[key] = value] for a string [value]: an own property is
    written or made, except that [__proto__], when it is not an own
    property, is the accessor of [Object.prototype], whose setter
    ignores a string. *)
Definition setProperty (object : gmap jsstring jsstring) (key value : jsstring)
    : gmap jsstring jsstring :=
  match object !! key with
  | Some _ => <[key := value]> object
  | None => if jsEq key (js "__proto__") then object else <[key := value]> object
  end.

(** The [State] of the source, and with it what the process has put on
    the members of [Object.prototype]: [markWindowProcessed] writes
    there when the station id names such a member and is not an own
    key of [scrapedWindows].  [inheritedWindows] is no property of the
    state object, so [saveState] does not write it to the file and
    [loadState], in a later process, starts from none.  A process marks
    and looks up under one station id, that of its run: what a mark
    under "__proto__" puts on [Object.prototype] itself is kept under
    that id, and is not shown to a lookup under another id. *)
Record State := {
  version : Z;
  stationPlaylists : gmap jsstring jsstring;
  scrapedWindows : gmap jsstring (gmap jsstring (gmap jsstring bool));
  inheritedWindows : gmap jsstring (gmap jsstring (gmap jsstring bool))
}.

Record SyncStats := {
  windowsPlanned : nat;
  windowsSkippedAlreadyDone : nat;
  windowsSkippedFuture : nat;
  windowsProcessed : nat;
  windowsNotMarkedNotInPast : nat;
  songsScraped : nat;
  songsDuplicateSkipped : nat;
  songsAlreadyInPlaylistSkipped : nat;
  songsMatched : nat;
  songsUnmatched : nat;
  tracksAdded : nat
}.

(** A value of [ParsedArgs]: a string or a flag. *)
Inductive ArgValue :=
| ArgString (s : jsstring)
| ArgBool (b : bool).

Definition argTruthy (v : option ArgValue) : bool :=
  match v with
  | Some (ArgString s) => truthy s
  | Some (ArgBool b) => b
  | None => false
  end.

(** [String(v)] *)
Definition argToString (v : ArgValue) : jsstring :=
  match v with
  | ArgString s => s
  | ArgBool true => js "true"
  | ArgBool false => js "false"
  end.

(** The arguments of [runSyncCommand] once the station is resolved, the
    date validated by [parseInputDate] and the numbers read by
    [parseIntegerString]. *)
Record SyncArgs := {
  stationId : jsstring;
  date : jsstring;
  targetDate : ParsedInputDate;      (* [parseInputDate(date)] *)
  timeFrom : Z;
  timeTo : Z;
  windowHours : Z;
  sourceDelayMs : Z;
  spotifyDelayMs : Z;
  dryRun : bool;
  force : bool;
  playlist : option ArgValue
}.

Inductive Error :=
| InvalidFromTo
| InvalidWindow
| NoPlaylistMapped
| PlaylistNotWritable
| NoCandidateTracks
| SpotifyRequestFailed
| SourceRequestFailed
| WindowLoopDoesNotEnd.

(** The calls that leave the process, in the order made. *)
Inductive Event :=
| EvLoadState
| EvSaveState (st : State)
| EvGetCurrentUser
| EvGetPlaylistMeta (playlistId : jsstring)
| EvGetPlaylistTrackIndex (playlistId : jsstring)
| EvScrape (url : SourceUrl)
| EvSearch (query : jsstring) (limit : Z)
| EvAddTracks (playlistId : jsstring) (uris : list jsstring) (position : option Z)
| EvDelay (ms : Z).

Record SpotifyPlaylistMeta := {
  metaId : jsstring;
  metaName : jsstring;
  metaOwnerId : jsstring;
  metaCollaborative : bool
}.

(** The collaborators of one run.  A request that fails (and so throws)
    answers [None].  Each window is visited once in a run, so the clock
    readings, the searches and the outcome of the add are given per
    window.  The Spotify credentials that [new SpotifyClient()] reads
    from the environment are taken to be set: without them the
    constructor throws before the first request, an outcome that the
    model leaves out. *)
Record Env := {
  currentUser : option jsstring;
  playlistMeta : jsstring -> option SpotifyPlaylistMeta;
  playlistPages : jsstring -> option (list (list PlaylistTrackItem));
  nowAtFutureCheck : TimeWindow -> WarsawNowParts;
  nowAtPastCheck : TimeWindow -> WarsawNowParts;
  scrapeSongsFromSource : SourceUrl -> option (list ScrapedSong);
  searchTracks : TimeWindow -> nat -> jsstring -> Z -> option (list SpotifyTrack);
  addTracksSucceeds : TimeWindow -> bool
}.

(** *** Effects: the state file, the calls made, and thrown errors *)

Record Res (A : Type) := mkRes {
  outcome : Error + A;
  diskAfter : option State;       (* the content of state.json; [None]: unreadable *)
  events : list Event
}.
Arguments mkRes {A}.
Arguments outcome {A}.
Arguments diskAfter {A}.
Arguments events {A}.

Definition M (A : Type) : Type := option State -> Res A.

Definition ret {A} (a : A) : M A := fun disk => mkRes (inr a) disk [].

Definition throw {A} (e : Error) : M A := fun disk => mkRes (inl e) disk [].

Definition bind {A B} (m : M A) (k : A -> M B) : M B := fun disk =>
  let r := m disk in
  match outcome r with
  | inl e => mkRes (inl e) (diskAfter r) (events r)
  | inr a =>
      let r' := k a (diskAfter r) in
      mkRes (outcome r') (diskAfter r') (events r ++ events r')
  end.

Definition emit (e : Event) : M unit := fun disk => mkRes (inr tt) disk [e].

(** The answer of a collaborator, thrown as [e] when the request failed. *)
Definition answer {A} (o : option A) (e : Error) : M A :=
  match o with
  | Some a => ret a
  | None => throw e
  end.

Declare Scope run_scope.
Delimit Scope run_scope with run.
Notation "x <- m ;; k" := (bind m (fun x => k))
  (at level 100, m at next level, right associativity) : run_scope.
Notation "m ;;; k" := (bind m (fun _ => k))
  (at level 100, right associativity) : run_scope.
Local Open Scope run_scope.

Definition APP_VERSION : Z := 1.
Definition DEFAULT_TIME_FROM : Z := 0.
Definition DEFAULT_TIME_TO : Z := 24.
Definition DEFAULT_WINDOW_HOURS : Z := 2.
Definition DEFAULT_SOURCE_DELAY_MS : Z := 2500.
Definition DEFAULT_SPOTIFY_DELAY_MS : Z := 120.

(** What [loadState] makes of the file: the parsed maps, or empty maps
    when the file is missing or unreadable. *)
Definition parseState (disk : option State) : State :=
  match disk with
  | Some parsed =>
      {| version := APP_VERSION;
         stationPlaylists := stationPlaylists parsed;
         scrapedWindows := scrapedWindows parsed;
         inheritedWindows := ∅ |}
  | None =>
      {| version := APP_VERSION; stationPlaylists := ∅; scrapedWindows := ∅;
         inheritedWindows := ∅ |}
  end.

Definition loadState : M State := fun disk =>
  mkRes (inr (parseState disk)) disk [EvLoadState].

(** [saveState(state)]: the call and the file are given with the state
    in memory; of it [JSON.stringify] writes the own properties, which
    are all that [parseState] reads of the file. *)
Definition saveState (state : State) : M unit := fun _ =>
  mkRes (inr tt) (Some state) [EvSaveState state].

(** [state.scrapedWindows[stationId]]: the own entry, or for a station
    id that names a member of [Object.prototype] that member, with what
    the process has put on it.  The dates and window keys looked up
    next are texts of digits and dashes ([parseInputDate],
    [windowKeyOf]) and name nothing that is inherited. *)
Definition windowsOfStation (state : State) (stationId : jsstring)
    : option (gmap jsstring (gmap jsstring bool)) :=
  match scrapedWindows state !! stationId with
  | Some byDate => Some byDate
  | None =>
      if isInheritedKey stationId
      then Some (default ∅ (inheritedWindows state !! stationId))
      else None
  end.

Definition isWindowAlreadyProcessed (state : State) (stationId date windowKey : jsstring)
    : bool :=
  match windowsOfStation state stationId with
  | Some byDate =>
      match byDate !! date with
      | Some byWindow => default false (byWindow !! windowKey)
      | None => false
      end
  | None => false
  end.

(** [state.scrapedWindows[stationId] ??= {}] assigns only when the
    lookup is nullish: for a station id that is no own key and names a
    member of [Object.prototype], nothing is assigned and the next two
    statements write on that member. *)
Definition markWindowProcessed (state : State) (stationId date windowKey : jsstring)
    : State :=
  let byDate := default ∅ (windowsOfStation state stationId) in
  let byWindow := default ∅ (byDate !! date) in
  let marked := <[date := <[windowKey := true]> byWindow]> byDate in
  match scrapedWindows state !! stationId with
  | None =>
      if isInheritedKey stationId then
        {| version := version state;
           stationPlaylists := stationPlaylists state;
           scrapedWindows := scrapedWindows state;
           inheritedWindows := <[stationId := marked]> (inheritedWindows state) |}
      else
        {| version := version state;
           stationPlaylists := stationPlaylists state;
           scrapedWindows := <[stationId := marked]> (scrapedWindows state);
           inheritedWindows := inheritedWindows state |}
  | Some _ =>
      {| version := version state;
         stationPlaylists := stationPlaylists state;
         scrapedWindows := <[stationId := marked]> (scrapedWindows state);
         inheritedWindows := inheritedWindows state |}
  end.

(** [`${window.from}-${window.to}`] *)
Definition windowKeyOf (window : TimeWindow) : jsstring :=
  numberToString (from window) ++ js "-" ++ numberToString (to window).

(** The local variables of [runSyncCommand] that the loops update. *)
Record Mem := {
  state : State;
  stats : SyncStats;
  runSeenSongKeys : gset jsstring;
  playlistIndex : SpotifyPlaylistTrackIndex
}.

Definition emptyStats : SyncStats :=
  {| windowsPlanned := 0; windowsSkippedAlreadyDone := 0; windowsSkippedFuture := 0;
     windowsProcessed := 0; windowsNotMarkedNotInPast := 0; songsScraped := 0;
     songsDuplicateSkipped := 0; songsAlreadyInPlaylistSkipped := 0; songsMatched := 0;
     songsUnmatched := 0; tracksAdded := 0 |}.

(** [stats.windowsPlanned = n] *)
Definition setWindowsPlanned (n : nat) (s : SyncStats) : SyncStats :=
  {| windowsPlanned := n;
     windowsSkippedAlreadyDone := windowsSkippedAlreadyDone s;
     windowsSkippedFuture := windowsSkippedFuture s;
     windowsProcessed := windowsProcessed s;
     windowsNotMarkedNotInPast := windowsNotMarkedNotInPast s;
     songsScraped := songsScraped s;
     songsDuplicateSkipped := songsDuplicateSkipped s;
     songsAlreadyInPlaylistSkipped := songsAlreadyInPlaylistSkipped s;
     songsMatched := songsMatched s;
     songsUnmatched := songsUnmatched s;
     tracksAdded := tracksAdded s |}.

(** The counters that the loops increase. *)
Inductive Counter :=
| WindowsSkippedAlreadyDone
| WindowsSkippedFuture
| WindowsProcessed
| WindowsNotMarkedNotInPast
| SongsScraped
| SongsDuplicateSkipped
| SongsAlreadyInPlaylistSkipped
| SongsMatched
| SongsUnmatched
| TracksAdded.

(** [stats.<counter> += n] *)
Definition bump (c : Counter) (n : nat) (s : SyncStats) : SyncStats :=
  let plus (c' : Counter) (v : nat) : nat :=
    match c, c' with
    | WindowsSkippedAlreadyDone, WindowsSkippedAlreadyDone
    | WindowsSkippedFuture, WindowsSkippedFuture
    | WindowsProcessed, WindowsProcessed
    | WindowsNotMarkedNotInPast, WindowsNotMarkedNotInPast
    | SongsScraped, SongsScraped
    | SongsDuplicateSkipped, SongsDuplicateSkipped
    | SongsAlreadyInPlaylistSkipped, SongsAlreadyInPlaylistSkipped
    | SongsMatched, SongsMatched
    | SongsUnmatched, SongsUnmatched
    | TracksAdded, TracksAdded => (v + n)%nat
    | _, _ => v
    end in
  {| windowsPlanned := windowsPlanned s;
     windowsSkippedAlreadyDone := plus WindowsSkippedAlreadyDone (windowsSkippedAlreadyDone s);
     windowsSkippedFuture := plus WindowsSkippedFuture (windowsSkippedFuture s);
     windowsProcessed := plus WindowsProcessed (windowsProcessed s);
     windowsNotMarkedNotInPast := plus WindowsNotMarkedNotInPast (windowsNotMarkedNotInPast s);
     songsScraped := plus SongsScraped (songsScraped s);
     songsDuplicateSkipped := plus SongsDuplicateSkipped (songsDuplicateSkipped s);
     songsAlreadyInPlaylistSkipped :=
       plus SongsAlreadyInPlaylistSkipped (songsAlreadyInPlaylistSkipped s);
     songsMatched := plus SongsMatched (songsMatched s);
     songsUnmatched := plus SongsUnmatched (songsUnmatched s);
     tracksAdded := plus TracksAdded (tracksAdded s) |}.

Definition withStats (f : SyncStats -> SyncStats) (mem : Mem) : Mem :=
  {| state := state mem; stats := f (stats mem);
     runSeenSongKeys := runSeenSongKeys mem; playlistIndex := playlistIndex mem |}.

Definition withState (st : State) (mem : Mem) : Mem :=
  {| state := st; stats := stats mem;
     runSeenSongKeys := runSeenSongKeys mem; playlistIndex := playlistIndex mem |}.

(** [runSeenSongKeys.add(songKey)] *)
Definition seeSongKey (songKey : jsstring) (mem : Mem) : Mem :=
  {| state := state mem; stats := stats mem;
     runSeenSongKeys := runSeenSongKeys mem ∪ {[songKey]};
     playlistIndex := playlistIndex mem |}.

(** [playlistIndex.songKeys.add(songKey)] *)
Definition indexSongKey (songKey : jsstring) (mem : Mem) : Mem :=
  {| state := state mem; stats := stats mem;
     runSeenSongKeys := runSeenSongKeys mem;
     playlistIndex :=
       {| trackIds := trackIds (playlistIndex mem);
          songKeys := songKeys (playlistIndex mem) ∪ {[songKey]} |} |}.

(** [playlistIndex.trackIds.add(id)] *)
Definition indexTrackId (id : jsstring) (mem : Mem) : Mem :=
  {| state := state mem; stats := stats mem;
     runSeenSongKeys := runSeenSongKeys mem;
     playlistIndex :=
       {| trackIds := trackIds (playlistIndex mem) ∪ {[id]};
          songKeys := songKeys (playlistIndex mem) |} |}.

Section Sync.
Context {U : UnicodeOps}.
Variable env : Env.
Variable args : SyncArgs.

(** [findTrackForSong(spotify, song)] for the song at [index] of [window]. *)
Definition findTrackForSong (window : TimeWindow) (index : nat) (song : ScrapedSong)
    : M (option SpotifyTrack) :=
  let queryParts :=
    (if truthy (title song) then [js "track:" ++ title song] else []) ++
    (if truthy (artist song) then [js "artist:" ++ artist song] else []) in
  let joined := trim (join (js " ") queryParts) in
  let query := if truthy joined then joined else rawLabel song in
  emit (EvSearch query 10) ;;;
  candidates <- answer (searchTracks env window index query 10) SpotifyRequestFailed ;;
  match candidates with
  | [] => ret None
  | _ :: _ =>
      match chooseBestTrack song candidates with
      | Some chosen => ret (Some chosen)
      | None => throw NoCandidateTracks
      end
  end.

(** The body of the loop over [songs.entries()]. *)
Definition processSong (window : TimeWindow) (index : nat) (song : ScrapedSong)
    (acc : Mem * list jsstring) : M (Mem * list jsstring) :=
  let '(mem, urisToAdd) := acc in
  let songKey := buildSongKey (artist song) (title song) in
  if decide (songKey ∈ runSeenSongKeys mem) then
    ret (withStats (bump SongsDuplicateSkipped 1) mem, urisToAdd)
  else if decide (songKey ∈ songKeys (playlistIndex mem)) then
    ret (withStats (bump SongsAlreadyInPlaylistSkipped 1) (seeSongKey songKey mem),
         urisToAdd)
  else
    (if (0 <? spotifyDelayMs args) && (0 <? index)%nat
     then emit (EvDelay (spotifyDelayMs args)) else ret tt) ;;;
    spotifyTrack <- findTrackForSong window index song ;;
    match spotifyTrack with
    | None =>
        ret (withStats (bump SongsUnmatched 1) (seeSongKey songKey mem), urisToAdd)
    | Some spotifyTrack =>
        let matchedSongKey := trackSongKey spotifyTrack in
        if decide (trackId spotifyTrack ∈ trackIds (playlistIndex mem)) then
          ret (withStats (bump SongsAlreadyInPlaylistSkipped 1)
                 (indexSongKey matchedSongKey
                    (indexSongKey songKey (seeSongKey songKey mem))),
               urisToAdd)
        else
          ret (withStats (bump SongsMatched 1)
                 (indexSongKey matchedSongKey
                    (indexSongKey songKey
                       (indexTrackId (trackId spotifyTrack)
                          (seeSongKey songKey mem)))),
               urisToAdd ++ [trackUri spotifyTrack])
    end.

(** The loop over the songs of a window, from position [index]. *)
Fixpoint processSongs (window : TimeWindow) (index : nat) (songs : list ScrapedSong)
    (acc : Mem * list jsstring) : M (Mem * list jsstring) :=
  match songs with
  | [] => ret acc
  | song :: rest =>
      acc' <- processSong window index song acc ;;
      processSongs window (S index) rest acc'
  end.

(** The body of the loop over the windows. *)
Definition processWindow (playlistId : jsstring) (window : TimeWindow) (mem : Mem)
    : M Mem :=
  let windowKey := windowKeyOf window in
  if isWindowFullyInFutureInWarsaw (nowAtFutureCheck env window) (targetDate args)
       (from window)
  then ret (withStats (bump WindowsSkippedFuture 1) mem)
  else if negb (force args)
          && isWindowAlreadyProcessed (state mem) (stationId args) (date args) windowKey
  then ret (withStats (bump WindowsSkippedAlreadyDone 1) mem)
  else
    let sourceUrl := buildSourceUrl (stationId args) (date args) (from window) (to window) in
    emit (EvScrape sourceUrl) ;;;
    songs <- answer (scrapeSongsFromSource env sourceUrl) SourceRequestFailed ;;
    let mem := withStats (bump SongsScraped (length songs)) mem in
    acc <- processSongs window 0 songs (mem, []) ;;
    let '(mem, urisToAdd) := acc in
    mem <- (if negb (dryRun args) && (0 <? length urisToAdd)%nat then
              emit (EvAddTracks playlistId (rev urisToAdd) (Some 0)) ;;;
              (if addTracksSucceeds env window then ret tt
               else throw SpotifyRequestFailed) ;;;
              ret (withStats (bump TracksAdded (length urisToAdd)) mem)
            else ret mem) ;;
    mem <- (if negb (dryRun args)
               && isWindowFullyInPastInWarsaw (nowAtPastCheck env window)
                    (targetDate args) (to window)
            then
              let state' :=
                markWindowProcessed (state mem) (stationId args) (date args) windowKey in
              saveState state' ;;;
              ret (withState state' mem)
            else if negb (dryRun args)
            then ret (withStats (bump WindowsNotMarkedNotInPast 1) mem)
            else ret mem) ;;
    let mem := withStats (bump WindowsProcessed 1) mem in
    (if 0 <? sourceDelayMs args then emit (EvDelay (sourceDelayMs args)) else ret tt) ;;;
    ret mem.

Fixpoint processWindows (playlistId : jsstring) (windows : list TimeWindow) (mem : Mem)
    : M Mem :=
  match windows with
  | [] => ret mem
  | window :: rest =>
      mem' <- processWindow playlistId window mem ;;
      processWindows playlistId rest mem'
  end.

(** [state.stationPlaylists[stationId] = normalizePlaylistId(String(args.playlist))] *)
Definition mapStation (state : State) : State :=
  {| version := version state;
     stationPlaylists :=
       setProperty (stationPlaylists state) (stationId args)
         (normalizePlaylistId (from_option argToString [] (playlist args)));
     scrapedWindows := scrapedWindows state;
     inheritedWindows := inheritedWindows state |}.

(** [runSyncCommand(args)] from the check of the hour range on; the
    result is the memory at the end, whose [stats] the summary prints. *)
Definition runSyncCommand : M Mem :=
  (if (timeFrom args <? 0) || (23 <? timeFrom args) || (timeTo args <? 1)
      || (24 <? timeTo args) || (timeTo args <=? timeFrom args)
   then throw InvalidFromTo else ret tt) ;;;
  (if (windowHours args <? 1) || (2 <? windowHours args)
   then throw InvalidWindow else ret tt) ;;;
  state <- loadState ;;
  state <- (if argTruthy (playlist args) then
              let state' := mapStation state in
              saveState state' ;;;
              ret state'
            else ret state) ;;
  match getProperty (stationPlaylists state) (stationId args) with
  | None => throw NoPlaylistMapped
  | Some playlistId =>
      if negb (truthy playlistId) then throw NoPlaylistMapped
      else
        emit EvGetCurrentUser ;;;
        currentUserId <- answer (currentUser env) SpotifyRequestFailed ;;
        emit (EvGetPlaylistMeta playlistId) ;;;
        meta <- answer (playlistMeta env playlistId) SpotifyRequestFailed ;;
        (if negb (canCurrentUserWritePlaylist currentUserId (metaOwnerId meta)
                    (metaCollaborative meta))
            && negb (dryRun args)
         then throw PlaylistNotWritable else ret tt) ;;;
        emit (EvGetPlaylistTrackIndex playlistId) ;;;
        pages <- answer (playlistPages env playlistId) SpotifyRequestFailed ;;
        let playlistIndex := getPlaylistTrackIndex pages in
        match buildWindows (timeFrom args) (timeTo args) (windowHours args) with
        | None => throw WindowLoopDoesNotEnd
        | Some windows =>
            let stats := setWindowsPlanned (length windows) emptyStats in
            processWindows playlistId windows
              {| state := state; stats := stats; runSeenSongKeys := ∅;
                 playlistIndex := playlistIndex |}
        end
  end.
End Sync.

(** ** src/odsluchane/index.ts: splitSongLabel *)

Record SplitSongLabelResult := {
  splitArtist : jsstring;          (* [artist] *)
  splitTitle : jsstring            (* [title] *)
}.

(** [' - '], then with an en dash (U+2013), then with an em dash (U+2014). *)
Definition separators : list jsstring := [[32; 45; 32]; [32; 8211; 32]; [32; 8212; 32]].

(** The loop of [splitSongLabel] over the separators left to try. *)
Fixpoint splitSongLabelWith (remaining : list jsstring) (rawLabel : jsstring)
    : SplitSongLabelResult :=
  match remaining with
  | [] => {| splitArtist := []; splitTitle := trim rawLabel |}
  | separator :: rest =>
      match indexOf rawLabel separator with
      | Some (S i) =>
          {| splitArtist := trim (take (S i) rawLabel);
             splitTitle := trim (drop (S i + length separator) rawLabel) |}
      | _ => splitSongLabelWith rest rawLabel
      end
  end.

Definition splitSongLabel (rawLabel : jsstring) : SplitSongLabelResult :=
  splitSongLabelWith separators rawLabel.

(** ** src/cli/utils.ts: parseIntegerString, filterSelectOptionsByName *)

Definition isDecimalDigit (c : Z) : bool := (48 <=? c) && (c <=? 57).

(** [/^-?\d+$/.test(value)] *)
Definition isIntegerText (value : jsstring) : bool :=
  let digits := match value with
                | c :: r => if c =? 45 then r else value
                | [] => []
                end in
  truthy digits && forallb isDecimalDigit digits.

Fixpoint digitsValue (acc : Z) (digits : jsstring) : Z :=
  match digits with
  | [] => acc
  | c :: r => digitsValue (acc * 10 + (c - 48)) r
  end.

(** [Number.parseInt(value, 10)] of a text that passed [isIntegerText],
    as the exact integer. *)
Definition parseInt10 (value : jsstring) : Z :=
  match value with
  | c :: r => if c =? 45 then - digitsValue 0 r else digitsValue 0 value
  | [] => 0
  end.

Definition MAX_SAFE_INTEGER : Z := 9007199254740991.

Inductive IntegerError :=
| ExpectedInteger
| ExpectedSafeInteger.

(** [parseIntegerString(rawValue, argName)].  A double holds every
    integer up to 2^53 exactly and rounds a larger one to a value of at
    least 2^53, so [Number.isSafeInteger(parsed)] is the bound on the
    exact value. *)
Definition parseIntegerString (rawValue : jsstring) : IntegerError + Z :=
  let value := trim rawValue in
  if negb (isIntegerText value) then inl ExpectedInteger
  else
    let parsed := parseInt10 value in
    if negb (Z.abs parsed <=? MAX_SAFE_INTEGER) then inl ExpectedSafeInteger
    else inr parsed.

Section SelectOptions.
Context {U : UnicodeOps} {T : Type} (searchText : T -> jsstring).

Definition filterSelectOptionsByName (options : list T) (nameFilter : jsstring) : list T :=
  if negb (truthy nameFilter) then options
  else
    let query := normalize nameFilter in
    if negb (truthy query) then options
    else List.filter (fun option => includes (normalize (searchText option)) query) options.
End SelectOptions.

(** ** src/cli/index.ts: resolveStationForSync, escapeHtml *)

Record StationOption := {
  stationOptionId : jsstring;      (* [id] *)
  stationOptionName : jsstring;    (* [name] *)
  groupName : jsstring
}.

(** [typeof v === 'string' ? f(v) : ''] *)
Definition stringArg (v : option ArgValue) (f : jsstring -> jsstring) : jsstring :=
  match v with
  | Some (ArgString s) => f s
  | _ => []
  end.

Inductive StationError :=
| MissingStation
| StationCatalogFailed
| NoStationMatches
| StationNameAmbiguous (matched : nat).

(** [`${stationItem.name} ${stationItem.groupName} ${stationItem.id}`] *)
Definition stationSearchText (stationItem : StationOption) : jsstring :=
  stationOptionName stationItem ++ js " " ++ groupName stationItem ++ js " "
    ++ stationOptionId stationItem.

(** [resolveStationForSync(args)], the station id of its result.
    [catalog] is the answer of [fetchStationsFromOdsluchane], [None] when
    it throws; with [--station] given the catalog serves the label only. *)
Definition resolveStationForSync {U : UnicodeOps} (catalog : option (list StationOption))
    (station stationNameArg : option ArgValue) : StationError + jsstring :=
  let stationIdArg := stringArg station trim in
  if truthy stationIdArg then inr stationIdArg
  else
    let stationName := stringArg stationNameArg cleanupSpaces in
    if negb (truthy stationName) then inl MissingStation
    else
      match catalog with
      | None => inl StationCatalogFailed
      | Some stations =>
          match filterSelectOptionsByName stationSearchText stations stationName with
          | [] => inl NoStationMatches
          | [stationItem] => inr (stationOptionId stationItem)
          | matchingStations => inl (StationNameAmbiguous (length matchingStations))
          end
      end.

(** [s.replaceAll(pattern, replacement)] for a non-empty [pattern] and a
    [replacement] without a dollar sign: the occurrences of [pattern] are
    taken from the left without overlap.  [skip] counts the characters
    of a replaced occurrence still to pass. *)
Fixpoint replaceAllFrom (skip : nat) (pattern replacement s : jsstring) : jsstring :=
  match s with
  | [] => []
  | c :: r =>
      match skip with
      | S k => replaceAllFrom k pattern replacement r
      | O =>
          if isPrefix pattern s
          then replacement ++ replaceAllFrom (length pattern - 1) pattern replacement r
          else c :: replaceAllFrom 0 pattern replacement r
      end
  end.

Definition replaceAll (pattern replacement s : jsstring) : jsstring :=
  replaceAllFrom 0 pattern replacement s.

Definition escapeHtml (value : jsstring) : jsstring :=
  replaceAll [39] (js "&#39;")
    (replaceAll [34] (js "&quot;")
       (replaceAll (js ">") (js "&gt;")
          (replaceAll (js "<") (js "&lt;")
             (replaceAll (js "&") (js "&amp;") value)))).

(** ** src/common/string.ts: decodeHtmlEntities *)

Definition hexDigitValue (c : Z) : option Z :=
  if isDecimalDigit c then Some (c - 48)
  else if (97 <=? c) && (c <=? 102) then Some (c - 87)
  else if (65 <=? c) && (c <=? 70) then Some (c - 55)
  else None.

Definition decimalDigitValue (c : Z) : option Z :=
  if isDecimalDigit c then Some (c - 48) else None.

(** The rest of a numeric reference: one or more digits, then a
    semicolon.  The result is the number read and the count of characters
    taken, the semicolon included. *)
Fixpoint readReference (digitValue : Z -> option Z) (radix acc : Z) (count : nat)
    (s : jsstring) : option (Z * nat) :=
  match s with
  | [] => None
  | c :: r =>
      match digitValue c with
      | Some d => readReference digitValue radix (acc * radix + d) (S count) r
      | None => if (c =? 59) && negb (Nat.eqb count 0) then Some (acc, S count) else None
      end
  end.

(** [/&#(\d+);/] at the start of [s]: the number and the length of the match. *)
Definition matchDecimalReference (s : jsstring) : option (Z * nat) :=
  if isPrefix (js "&#") s
  then '(n, taken) ← readReference decimalDigitValue 10 0 0 (drop 2 s); Some (n, (2 + taken)%nat)
  else None.

(** [/&#x([0-9a-f]+);/i] at the start of [s]. *)
Definition matchHexReference (s : jsstring) : option (Z * nat) :=
  if isPrefix (js "&#x") s || isPrefix (js "&#X") s
  then '(n, taken) ← readReference hexDigitValue 16 0 0 (drop 3 s); Some (n, (3 + taken)%nat)
  else None.

(** [String.fromCodePoint(codePoint)] for an integer that is not
    negative; [None] is the RangeError above U+10FFFF. *)
Definition fromCodePoint (codePoint : Z) : option jsstring :=
  if 1114111 <? codePoint then None
  else if codePoint <? 65536 then Some [codePoint]
  else Some [55296 + (codePoint - 65536) / 1024; 56320 + (codePoint - 65536) mod 1024].

(** [s.replace(regex, (_, code) => String.fromCodePoint(parseInt(code, radix)))]
    for a global regex given by its matcher; [None] when a call throws. *)
Fixpoint decodeReferencesFrom (matchAt : jsstring -> option (Z * nat)) (skip : nat)
    (s : jsstring) : option jsstring :=
  match s with
  | [] => Some []
  | c :: r =>
      match skip with
      | S k => decodeReferencesFrom matchAt k r
      | O =>
          match matchAt s with
          | Some (codePoint, matched) =>
              text ← fromCodePoint codePoint;
              rest ← decodeReferencesFrom matchAt (matched - 1) r;
              Some (text ++ rest)
          | None => cons c <$> decodeReferencesFrom matchAt 0 r
          end
      end
  end.

Definition decodeReferences (matchAt : jsstring -> option (Z * nat)) (s : jsstring)
    : option jsstring :=
  decodeReferencesFrom matchAt 0 s.

(** [decodeHtmlEntities(value)]; [None] when it throws. *)
Definition decodeHtmlEntities (value : jsstring) : option jsstring :=
  let named :=
    replaceAll (js "&gt;") (js ">")
      (replaceAll (js "&lt;") (js "<")
         (replaceAll (js "&amp;") (js "&")
            (replaceAll (js "&#039;") [39]
               (replaceAll (js "&quot;") [34] value)))) in
  decimal ← decodeReferences matchDecimalReference named;
  decodeReferences matchHexReference decimal.

(** ** src/spotify/auth.ts: upsertEnvVar *)

Definition prependTo (c : Z) (lines : list jsstring) : list jsstring :=
  match lines with
  | line :: rest => (c :: line) :: rest
  | [] => [[c]]
  end.

(** [content.split(/\r?\n/)]: a line ends at a line feed, and a carriage
    return just before it belongs to the line break. *)
Fixpoint splitLines (content : jsstring) : list jsstring :=
  match content with
  | [] => [[]]
  | c :: r =>
      if c =? 10 then [] :: splitLines r
      else
        match r with
        | c' :: r' =>
            if (c =? 13) && (c' =? 10) then [] :: splitLines r'
            else prependTo c (splitLines r)
        | [] => prependTo c (splitLines r)
        end
  end.

(** The loop of [upsertEnvVar] over the lines left, with its variables
    [nextLines] and [inserted]. *)
Fixpoint upsertLoop (prefix entry : jsstring) (lines nextLines : list jsstring)
    (inserted : bool) : list jsstring * bool :=
  match lines with
  | [] => (nextLines, inserted)
  | line :: rest =>
      if isPrefix prefix (trimStart line) then
        if inserted then upsertLoop prefix entry rest nextLines true
        else upsertLoop prefix entry rest (nextLines ++ [entry]) true
      else upsertLoop prefix entry rest (nextLines ++ [line]) inserted
  end.

(** [nextLines] when the loop and the block after it are done. *)
Definition upsertLines (lines : list jsstring) (key value : jsstring) : list jsstring :=
  let prefix := key ++ js "=" in
  let entry := key ++ js "=" ++ value in
  let '(nextLines, inserted) := upsertLoop prefix entry lines [] false in
  if inserted then nextLines
  else
    (match last nextLines with
     | Some lastLine => if truthy lastLine then nextLines ++ [[]] else nextLines
     | None => nextLines
     end) ++ [entry].

Fixpoint dropNewlines (s : jsstring) : jsstring :=
  match s with
  | [] => []
  | c :: r => if c =? 10 then dropNewlines r else s
  end.

(** [s.replace(/\n+$/g, '')] *)
Definition stripTrailingNewlines (s : jsstring) : jsstring := rev (dropNewlines (rev s)).

(** [upsertEnvVar(filePath, key, value)] as a function of the content
    read (empty when the file does not exist) to the content written. *)
Definition upsertEnvVar (content key value : jsstring) : jsstring :=
  let lines := if truthy content then splitLines content else [] in
  stripTrailingNewlines (join [10] (upsertLines lines key value)) ++ [10].

(** ** src/cli/index.ts: runMapCommand *)

(** [runMapCommand(args)]; the interactive flow it falls back to is a
    parameter. *)
Definition runMapCommand
    (runInteractiveMapFlow : State -> jsstring -> jsstring -> M unit)
    (station playlist stationNameArg playlistNameArg : option ArgValue) : M unit :=
  state <- loadState ;;
  let stationArg := stringArg station trim in
  let playlistArg := stringArg playlist normalizePlaylistId in
  let stationName := stringArg stationNameArg cleanupSpaces in
  let playlistName := stringArg playlistNameArg cleanupSpaces in
  if truthy stationArg && truthy playlistArg then
    saveState
      {| version := version state;
         stationPlaylists := setProperty (stationPlaylists state) stationArg playlistArg;
         scrapedWindows := scrapedWindows state;
         inheritedWindows := inheritedWindows state |}
  else runInteractiveMapFlow state stationName playlistName.

(** ** src/common/date.ts: parseInputDate *)

(** *** The day arithmetic of [Date], after ECMAScript 21.4.1 *)

Definition msPerDay : Z := 86400000.

Definition Day (t : Z) : Z := t / msPerDay.

Definition DaysInYear (y : Z) : Z :=
  if negb (y mod 4 =? 0) then 365
  else if negb (y mod 100 =? 0) then 366
  else if negb (y mod 400 =? 0) then 365
  else 366.

Definition DayFromYear (y : Z) : Z :=
  365 * (y - 1970) + (y - 1969) / 4 - (y - 1901) / 100 + (y - 1601) / 400.

(** The largest year [y] with [DayFromYear y <= day]: an estimate from
    the mean length of a year, corrected by at most one. *)
Definition YearFromDay (day : Z) : Z :=
  let estimate := 1970 + (day * 400) / 146097 in
  if day <? DayFromYear estimate then estimate - 1
  else if DayFromYear (estimate + 1) <=? day then estimate + 1
  else estimate.

Definition YearFromTime (t : Z) : Z := YearFromDay (Day t).

Definition InLeapYear (t : Z) : Z :=
  if DaysInYear (YearFromTime t) =? 366 then 1 else 0.

Definition DayWithinYear (t : Z) : Z := Day t - DayFromYear (YearFromTime t).

(** The day within the year on which month [m] (from 0) starts. *)
Definition monthStart (m leap : Z) : Z :=
  if m =? 0 then 0
  else if m =? 1 then 31
  else if m =? 2 then 59 + leap
  else if m =? 3 then 90 + leap
  else if m =? 4 then 120 + leap
  else if m =? 5 then 151 + leap
  else if m =? 6 then 181 + leap
  else if m =? 7 then 212 + leap
  else if m =? 8 then 243 + leap
  else if m =? 9 then 273 + leap
  else if m =? 10 then 304 + leap
  else 334 + leap.

Definition MonthFromTime (t : Z) : Z :=
  let d := DayWithinYear t in
  let leap := InLeapYear t in
  if d <? 31 then 0
  else if d <? 59 + leap then 1
  else if d <? 90 + leap then 2
  else if d <? 120 + leap then 3
  else if d <? 151 + leap then 4
  else if d <? 181 + leap then 5
  else if d <? 212 + leap then 6
  else if d <? 243 + leap then 7
  else if d <? 273 + leap then 8
  else if d <? 304 + leap then 9
  else if d <? 334 + leap then 10
  else 11.

Definition DateFromTime (t : Z) : Z :=
  DayWithinYear t - monthStart (MonthFromTime t) (InLeapYear t) + 1.

(** [MakeDay(year, month, date)] *)
Definition MakeDay (year month date : Z) : Z :=
  let ym := year + month / 12 in
  let mn := month mod 12 in
  DayFromYear ym + monthStart mn (if DaysInYear ym =? 366 then 1 else 0) + date - 1.

(** [Date.UTC(year, month, day, 12, 0, 0)]; [None] is NaN. *)
Definition DateUTC (year month day : Z) : option Z :=
  let yr := if (0 <=? year) && (year <=? 99) then 1900 + year else year in
  let tv := MakeDay yr month day * msPerDay + 12 * 3600000 in
  if Z.abs tv <=? 8640000000000000 then Some tv else None.

Inductive DateError :=
| InvalidDateFormat
| InvalidCalendarDate.

(** [parseInputDate(date)] *)
Definition parseInputDate (date : jsstring) : DateError + ParsedInputDate :=
  match date with
  | [d1; d2; h1; m1; m2; h2; y1; y2; y3; y4] =>
      if forallb isDecimalDigit [d1; d2; m1; m2; y1; y2; y3; y4] && (h1 =? 45) && (h2 =? 45)
      then
        let day := parseInt10 [d1; d2] in
        let month := parseInt10 [m1; m2] in
        let year := parseInt10 [y1; y2; y3; y4] in
        match DateUTC year (month - 1) day with
        | Some parsedDate =>
            if negb (DateFromTime parsedDate =? day)
               || negb (MonthFromTime parsedDate + 1 =? month)
               || negb (YearFromTime parsedDate =? year)
            then inl InvalidCalendarDate
            else inr {| dateDay := day; dateMonth := month; dateYear := year |}
        | None => inl InvalidCalendarDate
        end
      else inl InvalidDateFormat
  | _ => inl InvalidDateFormat
  end.

(** ** src/odsluchane/index.ts: the rows of the page *)

(** What the scraper reads of a table cell: [$(cell).text()] and
    [$(cell).find('a.title-link').first().text()]. *)
Record TableCell := {
  cellText : jsstring;
  titleLinkText : jsstring
}.

(** One turn of the loop of [scrapeSongsFromSource] over the rows, a
    row given by its [td] cells; [None] when the row is passed over. *)
Definition songOfRow (url : SourceUrl) (cells : list TableCell) : option ScrapedSong :=
  match cells with
  | timeCell :: titleCell :: _ =>
      let rawLabel :=
        cleanupSpaces (if truthy (titleLinkText titleCell) then titleLinkText titleCell
                       else cellText titleCell) in
      if negb (truthy rawLabel) then None
      else
        let playedAt := cleanupSpaces (cellText timeCell) in
        if negb (truthy playedAt) || (5 <? length playedAt)%nat
           || negb (includes playedAt (js ":"))
        then None
        else
          let parsed := splitSongLabel rawLabel in
          Some {| playedAt := playedAt; rawLabel := rawLabel;
                  artist := splitArtist parsed; title := splitTitle parsed;
                  sourceUrl := url |}
  | _ => None
  end.

(** The songs [scrapeSongsFromSource] returns for the rows of the page. *)
Definition songsOfRows (url : SourceUrl) (rows : list (list TableCell)) : list ScrapedSong :=
  omap (songOfRow url) rows.

(** ** src/odsluchane/utils.ts: getTodayDateInWarsaw *)

(** [s.padStart(targetLength, pad)] for a one-character [pad]. *)
Definition padStart (targetLength : nat) (pad : Z) (s : jsstring) : jsstring :=
  repeat pad (targetLength - length s) ++ s.

(** [getTodayDateInWarsaw()], with the day, month and year read off the
    clock in Europe/Warsaw as arguments. *)
Definition getTodayDateInWarsaw (day month year : Z) : jsstring :=
  padStart 2 48 (numberToString day) ++ js "-" ++ padStart 2 48 (numberToString month)
    ++ js "-" ++ padStart 4 48 (numberToString year).

(* ===================================================================== *)
(** * Part II. Theorems *)
(* ===================================================================== *)

(** ** The window planner *)

(** The number of strides of width [w] needed to cover [x] hours. *)
Definition strides (x w : Z) : nat := Z.to_nat ((x + w - 1) / w).

(** The [k]-th window of the plan from [f] to [t] in steps of [w]. *)
Definition nthWindow (f t w : Z) (k : nat) : TimeWindow :=
  {| from := f + Z.of_nat k * w; to := Z.min (f + (Z.of_nat k + 1) * w) t |}.

Lemma strides_done x w : 0 < w -> x <= 0 -> strides x w = O.
Proof.
  intros Hw Hx. unfold strides.
  assert ((x + w - 1) / w <= 0); [|lia].
  assert ((x + w - 1) / w < 1); [|lia].
  apply Z.div_lt_upper_bound; lia.
Qed.

Lemma strides_step x w : 0 < w -> 0 < x -> strides x w = S (strides (x - w) w).
Proof.
  intros Hw Hx. unfold strides.
  replace (x + w - 1) with ((x - w + w - 1) + 1 * w) by lia.
  rewrite Z.div_add by lia.
  assert (0 <= (x - w + w - 1) / w) by (apply Z.div_pos; lia).
  lia.
Qed.

Lemma buildWindowsLoop_spec w t : 0 < w ->
  forall fuel f, t - f <= Z.of_nat fuel ->
    exists ws, buildWindowsLoop fuel f t w = Some ws /\
               length ws = strides (t - f) w /\
               forall k, (k < length ws)%nat -> ws !! k = Some (nthWindow f t w k).
Proof.
  intros Hw. induction fuel as [|fuel IH]; intros f Hfuel.
  - exists []. simpl. destruct (Z.ltb_spec f t); [lia|].
    rewrite strides_done by lia. repeat split; simpl; intros; lia.
  - simpl. destruct (Z.ltb_spec f t) as [Hlt|Hge].
    + destruct (IH (f + w)) as (ws & -> & Hlen & Hnth); [lia|].
      eexists. split; [reflexivity|]. split.
      * simpl. rewrite Hlen, (strides_step (t - f)) by lia.
        do 2 f_equal. lia.
      * intros [|k] Hk; simpl.
        -- unfold nthWindow. do 2 f_equal; simpl; lia.
        -- rewrite Hnth by (simpl in Hk; lia).
           unfold nthWindow. do 2 f_equal; [|f_equal]; lia.
    + exists []. rewrite strides_done by lia. repeat split; simpl; intros; lia.
Qed.

Lemma buildWindows_spec f t w : 0 < w ->
  exists ws, buildWindows f t w = Some ws /\
             length ws = strides (t - f) w /\
             forall k, (k < length ws)%nat -> ws !! k = Some (nthWindow f t w k).
Proof.
  intros Hw. apply buildWindowsLoop_spec; [assumption|]. lia.
Qed.

Lemma strides_bound x w k : 0 < w -> (k < strides x w)%nat -> Z.of_nat k * w < x.
Proof.
  intros Hw Hk. unfold strides in Hk.
  assert (Hk' : Z.of_nat k < (x + w - 1) / w) by lia.
  assert (0 <= (x + w - 1) / w) by lia.
  pose proof (Z.mul_div_le (x + w - 1) w Hw). nia.
Qed.

Lemma strides_last x w k : 0 < w -> 0 < x -> S k = strides x w -> x <= (Z.of_nat k + 1) * w.
Proof.
  intros Hw Hx Hk. unfold strides in Hk.
  assert (Hk' : Z.of_nat k + 1 = (x + w - 1) / w) by lia.
  pose proof (Z.mod_pos_bound (x + w - 1) w Hw).
  pose proof (Z.div_mod (x + w - 1) w ltac:(lia)). nia.
Qed.

(** C5.  For [0 <= fromHour < toHour <= 24] and a window size of 1 or 2,
    [buildWindows] returns the plan obtained by striding from [fromHour]
    in steps of the window size with the end of each window clamped to
    [toHour]: the windows are non-empty, the first starts at [fromHour],
    each starts where the previous one ends, the last ends at [toHour],
    and every window but the last has the full size; and
    [buildWindows(0, 5, 2)] is [0-2, 2-4, 4-5]. *)
Theorem buildWindows_covers (fromHour toHour windowSizeHours : Z) :
  0 <= fromHour < toHour -> toHour <= 24 ->
  windowSizeHours = 1 \/ windowSizeHours = 2 ->
  exists ws,
    buildWindows fromHour toHour windowSizeHours = Some ws /\
    length ws = strides (toHour - fromHour) windowSizeHours /\
    (forall k, (k < length ws)%nat ->
       ws !! k = Some (nthWindow fromHour toHour windowSizeHours k)) /\
    from <$> head ws = Some fromHour /\
    to <$> last ws = Some toHour /\
    (forall k a b, ws !! k = Some a -> ws !! S k = Some b -> to a = from b) /\
    (forall k a, ws !! k = Some a ->
       from a < to a /\ to a - from a <= windowSizeHours /\
       ((S k < length ws)%nat -> to a - from a = windowSizeHours)) /\
    buildWindows 0 5 2 =
      Some [{| from := 0; to := 2 |}; {| from := 2; to := 4 |}; {| from := 4; to := 5 |}].
Proof.
  intros Hrange Hto Hw.
  assert (Hpos : 0 < windowSizeHours) by lia.
  destruct (buildWindows_spec fromHour toHour windowSizeHours Hpos)
    as (ws & Hws & Hlen & Hnth).
  assert (Hne : (0 < length ws)%nat).
  { rewrite Hlen, (strides_step (toHour - fromHour)) by lia. lia. }
  assert (Hget : forall k a, ws !! k = Some a ->
            (k < length ws)%nat /\ a = nthWindow fromHour toHour windowSizeHours k).
  { intros k a Hk. pose proof (lookup_lt_Some _ _ _ Hk) as Hlt.
    rewrite Hnth in Hk by assumption. split; [assumption|congruence]. }
  exists ws. split; [assumption|]. split; [assumption|]. split; [assumption|].
  split; [|split; [|split; [|split]]].
  - rewrite head_lookup, Hnth by assumption. simpl. f_equal. lia.
  - rewrite last_lookup.
    destruct (length ws) as [|n] eqn:En; [lia|]. simpl.
    rewrite Hnth by lia. simpl. f_equal.
    pose proof (strides_last (toHour - fromHour) windowSizeHours n Hpos ltac:(lia)
                  ltac:(congruence)). lia.
  - intros k a b Ha Hb.
    apply Hget in Ha as [Hka ->]. apply Hget in Hb as [Hkb ->]. simpl.
    rewrite Hlen in Hkb.
    pose proof (strides_bound _ _ _ Hpos Hkb). lia.
  - intros k a Ha. apply Hget in Ha as [Hka ->]. simpl.
    pose proof Hka as Hka'. rewrite Hlen in Hka'.
    pose proof (strides_bound _ _ _ Hpos Hka').
    split; [lia|]. split; [lia|].
    intros Hnext. rewrite Hlen in Hnext.
    pose proof (strides_bound _ _ _ Hpos Hnext). lia.
  - reflexivity.
Qed.

Lemma buildWindows_covers_witness :
  exists ws,
    buildWindows 0 5 2 = Some ws /\
    length ws = strides (5 - 0) 2 /\
    (forall k, (k < length ws)%nat -> ws !! k = Some (nthWindow 0 5 2 k)) /\
    from <$> head ws = Some 0 /\
    to <$> last ws = Some 5 /\
    (forall k a b, ws !! k = Some a -> ws !! S k = Some b -> to a = from b) /\
    (forall k a, ws !! k = Some a ->
       from a < to a /\ to a - from a <= 2 /\
       ((S k < length ws)%nat -> to a - from a = 2)) /\
    buildWindows 0 5 2 =
      Some [{| from := 0; to := 2 |}; {| from := 2; to := 4 |}; {| from := 4; to := 5 |}].
Proof.
  apply (buildWindows_covers 0 5 2); [lia | lia | right; reflexivity].
Defined.

(** ** The request layer *)

Section FetchFacts.
Context {P : JsParsers}.

Lemma jsMax_min_not_nan a :
  a <> JsNaN -> jsMax a (jsOfZ MIN_RETRY_AFTER_MS) <> JsNaN.
Proof.
  intros Ha. destruct a; unfold jsOfZ; simpl; try congruence.
  destruct (Qle_bool _ _); discriminate.
Qed.

Lemma jsMax_min_ge a :
  jsGt (jsOfZ MIN_RETRY_AFTER_MS) (jsMax a (jsOfZ MIN_RETRY_AFTER_MS)) = false.
Proof.
  destruct a; unfold jsOfZ; simpl; try reflexivity.
  destruct (Qle_bool q _) eqn:E; simpl.
  - reflexivity.
  - apply negb_false_iff, Qle_bool_iff.
    destruct (Qlt_le_dec q (inject_Z MIN_RETRY_AFTER_MS)) as [Hlt|Hle]; [|exact Hle].
    apply Qlt_le_weak, Qle_bool_iff in Hlt. congruence.
Qed.

(** The hint is a number, and at least 1500 ms. *)
Lemma getRetryAfterMilliseconds_clamped response now :
  getRetryAfterMilliseconds response now <> JsNaN /\
  jsGt (jsOfZ MIN_RETRY_AFTER_MS) (getRetryAfterMilliseconds response now) = false.
Proof.
  unfold getRetryAfterMilliseconds.
  destruct (retryAfterHeader response) as [header|]; [|split; [discriminate|reflexivity]].
  destruct (negb (truthy header)); [split; [discriminate|reflexivity]|].
  destruct (Number header) eqn:EN.
  - destruct (Date_parse header); [|split; [discriminate|reflexivity]].
    split; [apply jsMax_min_not_nan; discriminate|apply jsMax_min_ge].
  - split; [apply jsMax_min_not_nan; discriminate|apply jsMax_min_ge].
  - split; [discriminate|reflexivity].
  - split; [discriminate|reflexivity].
Qed.

Lemma retryLoop_429_not_last world totalAttempts remaining vars lastError response :
  fetchOutcome world (attempt vars) = Resolves response ->
  status response = 429 ->
  Z.of_nat (attempt vars) < totalAttempts - 1 ->
  let hint := getRetryAfterMilliseconds response (dateNow world (attempt vars)) in
  retryLoop world totalAttempts (S remaining) vars lastError =
    if jsGt hint (jsOfZ MAX_RETRY_AFTER_MS)
    then ([FetchCall (attempt vars)], Some (inr response))
    else
      let next :=
        retryLoop world totalAttempts remaining
          {| attempt := S (attempt vars); nextDelayMs := jsOfZ 0 |}
          (Some (RetryableFetchError hint)) in
      (FetchCall (attempt vars) :: FetchDelay hint :: next.1, next.2).
Proof.
  intros Hout Hstatus Hlast hint. cbn [retryLoop].
  unfold attemptOnce, tryBlock. rewrite Hout, Hstatus.
  destruct (Z.leb_spec (totalAttempts - 1) (Z.of_nat (attempt vars))); [lia|].
  cbn [negb andb Z.eqb Pos.eqb]. fold hint.
  destruct (jsGt hint (jsOfZ MAX_RETRY_AFTER_MS)); [reflexivity|].
  cbn. destruct (retryLoop _ _ _ _ _). reflexivity.
Qed.

Lemma retryLoop_last world totalAttempts remaining vars lastError response :
  fetchOutcome world (attempt vars) = Resolves response ->
  totalAttempts - 1 <= Z.of_nat (attempt vars) ->
  retryLoop world totalAttempts (S remaining) vars lastError =
    ([FetchCall (attempt vars)], Some (inr response)).
Proof.
  intros Hout Hlast. cbn [retryLoop].
  unfold attemptOnce, tryBlock. rewrite Hout.
  destruct (Z.leb_spec (totalAttempts - 1) (Z.of_nat (attempt vars))); [|lia].
  rewrite !andb_false_r. reflexivity.
Qed.
End FetchFacts.

(** What the retry-after header says, in milliseconds, before the clamp:
    the seconds of a numeric header times 1000, or the distance from now
    to the date of a header that parses as a date; [None] when the header
    is absent, empty or unparseable. *)
Definition headerHint {P : JsParsers} (response : Response) (now : Z) : option JsNumber :=
  match retryAfterHeader response with
  | None => None
  | Some header =>
      if truthy header then
        match Number header with
        | JsNaN => (fun timestamp => jsOfZ (timestamp - now)) <$> Date_parse header
        | seconds => Some (jsScale seconds 1000)
        end
      else None
  end.

(** C9.  In [fetchWithRetry] a response with status 429 on an attempt that
    is not the last one is retried after the retry-after hint: the header's
    seconds in milliseconds, or the time left until the header's date, or
    1500 ms when the header is absent or unparseable, and never less than
    1500 ms; unless that hint is above 10000 ms, when the response is
    returned as it is and nothing more is tried.  On the last attempt the
    response is returned whatever the header says. *)
Theorem fetchWithRetry_rate_limited {P : JsParsers}
    (world : FetchWorld) (totalAttempts : Z) (remaining : nat)
    (vars : RetryVars) (lastError : option FetchError) (response : Response) :
  fetchOutcome world (attempt vars) = Resolves response ->
  status response = 429 ->
  let now := dateNow world (attempt vars) in
  let hint := getRetryAfterMilliseconds response now in
  let run := retryLoop world totalAttempts (S remaining) vars lastError in
  (* the hint *)
  hint = match headerHint response now with
         | Some ms => jsMax ms (jsOfZ 1500)
         | None => jsOfZ 1500
         end /\
  hint <> JsNaN /\ jsGt (jsOfZ 1500) hint = false /\
  (* not the last attempt *)
  (Z.of_nat (attempt vars) < totalAttempts - 1 ->
     (jsGt hint (jsOfZ 10000) = true ->
        run = ([FetchCall (attempt vars)], Some (inr response))) /\
     (jsGt hint (jsOfZ 10000) = false ->
        let next :=
          retryLoop world totalAttempts remaining
            {| attempt := S (attempt vars); nextDelayMs := jsOfZ 0 |}
            (Some (RetryableFetchError hint)) in
        run = (FetchCall (attempt vars) :: FetchDelay hint :: next.1, next.2))) /\
  (* the last attempt *)
  (totalAttempts - 1 <= Z.of_nat (attempt vars) ->
     run = ([FetchCall (attempt vars)], Some (inr response))) /\
  (* the loop is entered with all attempts left *)
  (forall maxRetries,
     fetchWithRetry world maxRetries =
       retryLoop world (Z.max 1 maxRetries) (Z.to_nat (Z.max 1 maxRetries))
         {| attempt := O; nextDelayMs := jsOfZ 0 |} None).
Proof.
  intros Hout Hstatus now hint run.
  split; [|split; [|split; [|split; [|split]]]].
  - unfold hint, getRetryAfterMilliseconds, headerHint.
    destruct (retryAfterHeader response) as [header|]; [|reflexivity].
    destruct (truthy header); [|reflexivity]. simpl.
    destruct (Number header); try reflexivity.
    destruct (Date_parse header); reflexivity.
  - apply getRetryAfterMilliseconds_clamped.
  - apply getRetryAfterMilliseconds_clamped.
  - intros Hnot. unfold run.
    rewrite (retryLoop_429_not_last _ _ _ _ _ _ Hout Hstatus Hnot). fold now hint.
    split; intros Hgt; change (jsOfZ 10000) with (jsOfZ MAX_RETRY_AFTER_MS) in Hgt;
      rewrite Hgt; reflexivity.
  - intros Hlast. apply retryLoop_last; assumption.
  - reflexivity.
Qed.

(** Parsers that agree with the engine on unsigned decimal integers and
    answer NaN elsewhere; they serve to run the request layer on examples. *)
Fixpoint parseDigits (acc : Z) (s : jsstring) : option Z :=
  match s with
  | [] => Some acc
  | c :: r => if (48 <=? c) && (c <=? 57) then parseDigits (acc * 10 + (c - 48)) r else None
  end.

Definition DecimalParsers : JsParsers := {|
  Number := fun text =>
    match text with
    | [] => JsFinite 0
    | _ :: _ => from_option jsOfZ JsNaN (parseDigits 0 text)
    end;
  Date_parse := fun _ => None
|}.

Definition rateLimitedOnce : FetchWorld := {|
  fetchOutcome := fun n =>
    match n with
    | O => Resolves {| status := 429; retryAfterHeader := Some (js "2"); responseId := 0 |}
    | _ => Resolves {| status := 200; retryAfterHeader := None; responseId := n |}
    end;
  dateNow := fun _ => 0
|}.

Lemma fetchWithRetry_rate_limited_witness :
  fetchOutcome rateLimitedOnce 0 =
    Resolves {| status := 429; retryAfterHeader := Some (js "2"); responseId := 0 |} /\
  @fetchWithRetry DecimalParsers rateLimitedOnce 4 =
    ([FetchCall 0; FetchDelay (JsFinite 2000); FetchCall 1],
     Some (inr {| status := 200; retryAfterHeader := None; responseId := 1 |})).
Proof.
  split; [reflexivity|].
  pose proof (@fetchWithRetry_rate_limited DecimalParsers rateLimitedOnce 4 3
                {| attempt := O; nextDelayMs := jsOfZ 0 |} None
                {| status := 429; retryAfterHeader := Some (js "2"); responseId := 0 |}
                eq_refl eq_refl) as (_ & _ & _ & Hnot & _ & Hentry).
  rewrite Hentry.
  destruct (Hnot ltac:(simpl; lia)) as [_ Hretry].
  change (Z.to_nat (Z.max 1 4)) with 4%nat. change (Z.max 1 4) with 4.
  rewrite (Hretry eq_refl). reflexivity.
Defined.

(** ** The batched add *)

Lemma chunk_concat {A} (n : nat) (arr : list A) : concat (chunk (S n) arr) = arr.
Proof.
  remember (S n) as size eqn:Hsize. revert n Hsize.
  funelim (chunk size arr); intros m Hsize; simp chunk; try reflexivity; try discriminate.
  simpl. rewrite (H n eq_refl), take_drop. reflexivity.
Qed.

Lemma applyPayloads_top (chunks : list (list jsstring)) (playlist : list jsstring) :
  foldl applyPayload playlist
    (map (fun chunkItem => {| payloadUris := chunkItem; payloadPosition := Some 0 |})
         (rev chunks))
  = concat chunks ++ playlist.
Proof.
  revert playlist. induction chunks as [|c chunks IH]; intros playlist; [reflexivity|].
  simpl. rewrite map_app, foldl_app, IH. simpl.
  unfold applyPayload. simpl. rewrite <- app_assoc. reflexivity.
Qed.

(** The requests of one add at position 0 leave the items on top of the
    playlist in the order given. *)
Lemma addTracksToPlaylist_top (uris playlist : list jsstring) :
  foldl applyPayload playlist (addTracksToPlaylist uris (Some 0)) = uris ++ playlist.
Proof.
  unfold addTracksToPlaylist. rewrite applyPayloads_top, chunk_concat. reflexivity.
Qed.

(** ** The orchestrator: effects of the loops *)

Definition isAddEvent (e : Event) : bool :=
  match e with EvAddTracks _ _ _ => true | _ => false end.

Definition isSaveEvent (e : Event) : bool :=
  match e with EvSaveState _ => true | _ => false end.

Definition isScrapeEvent (e : Event) : bool :=
  match e with EvScrape _ => true | _ => false end.


(** The events of the matching pipeline proper: searches and pacing. *)
Definition isMatchingEvent (e : Event) : bool :=
  match e with EvSearch _ _ | EvDelay _ => true | _ => false end.

(** A computation that leaves the state file alone and whose calls all
    satisfy [P]. *)
Definition Frame {A} (P : Event -> Prop) (m : M A) : Prop :=
  forall disk, Forall P (events (m disk)) /\ diskAfter (m disk) = disk.

Lemma bind_inl {A B} (m : M A) (k : A -> M B) disk e :
  outcome (m disk) = inl e ->
  bind m k disk = mkRes (inl e) (diskAfter (m disk)) (events (m disk)).
Proof. intros H. unfold bind. rewrite H. reflexivity. Qed.

Lemma bind_inr {A B} (m : M A) (k : A -> M B) disk a :
  outcome (m disk) = inr a ->
  bind m k disk =
    mkRes (outcome (k a (diskAfter (m disk)))) (diskAfter (k a (diskAfter (m disk))))
          (events (m disk) ++ events (k a (diskAfter (m disk)))).
Proof. intros H. unfold bind. rewrite H. reflexivity. Qed.

(** A result with earlier calls put in front. *)
Definition prepend {A} (evs : list Event) (r : Res A) : Res A :=
  mkRes (outcome r) (diskAfter r) (evs ++ events r).

Lemma bind_inr' {A B} (m : M A) (k : A -> M B) disk a :
  outcome (m disk) = inr a ->
  bind m k disk = prepend (events (m disk)) (k a (diskAfter (m disk))).
Proof. intros H. unfold bind. rewrite H. reflexivity. Qed.

Lemma bind_ret {A B} (a : A) (k : A -> M B) disk : bind (ret a) k disk = k a disk.
Proof. unfold bind, ret. simpl. destruct (k a disk); reflexivity. Qed.

Lemma bind_emit {B} e (k : unit -> M B) disk :
  bind (emit e) k disk = prepend [e] (k tt disk).
Proof. reflexivity. Qed.

Lemma bind_throw {A B} e (k : A -> M B) disk :
  bind (throw e) k disk = mkRes (inl e) disk [].
Proof. reflexivity. Qed.

Lemma frame_ret {A} P (a : A) : Frame P (ret a).
Proof. intros disk. split; [constructor|reflexivity]. Qed.

Lemma frame_throw {A} P e : Frame P (@throw A e).
Proof. intros disk. split; [constructor|reflexivity]. Qed.

Lemma frame_emit (P : Event -> Prop) e : P e -> Frame P (emit e).
Proof. intros H disk. split; [repeat constructor; assumption|reflexivity]. Qed.

Lemma frame_answer {A} P (o : option A) e : Frame P (answer o e).
Proof. destruct o; [apply frame_ret|apply frame_throw]. Qed.

Lemma frame_bind {A B} P (m : M A) (k : A -> M B) :
  Frame P m -> (forall a, Frame P (k a)) -> Frame P (bind m k).
Proof.
  intros Hm Hk disk. destruct (Hm disk) as [He Hd].
  destruct (outcome (m disk)) as [e|a] eqn:Ho.
  - rewrite (bind_inl _ _ _ _ Ho). simpl. split; assumption.
  - rewrite (bind_inr _ _ _ _ Ho). simpl. rewrite Hd.
    destruct (Hk a disk) as [He' Hd'].
    split; [apply Forall_app; split; assumption|assumption].
Qed.

Lemma frame_weaken {A} (P Q : Event -> Prop) (m : M A) :
  (forall e, P e -> Q e) -> Frame P m -> Frame Q m.
Proof.
  intros HPQ Hm disk. destruct (Hm disk) as [He Hd].
  split; [eapply Forall_impl; eassumption|assumption].
Qed.

Section SyncEffects.
Context {U : UnicodeOps}.
Variable env : Env.
Variable args : SyncArgs.

Definition Matching (e : Event) : Prop := isMatchingEvent e = true.

Lemma findTrackForSong_frame window index song :
  Frame Matching (findTrackForSong env window index song).
Proof.
  unfold findTrackForSong.
  apply frame_bind; [apply frame_emit; reflexivity|intros _].
  apply frame_bind; [apply frame_answer|intros [|c cs]].
  - apply frame_ret.
  - destruct (chooseBestTrack song (c :: cs)); [apply frame_ret|apply frame_throw].
Qed.

Lemma processSong_frame window index song acc :
  Frame Matching (processSong env args window index song acc).
Proof.
  destruct acc as [mem urisToAdd]. unfold processSong.
  destruct (decide _); [apply frame_ret|].
  destruct (decide _); [apply frame_ret|].
  apply frame_bind.
  { destruct (_ && _); [apply frame_emit; reflexivity|apply frame_ret]. }
  intros _. apply frame_bind; [apply findTrackForSong_frame|].
  intros [t|]; [|apply frame_ret].
  destruct (decide _); apply frame_ret.
Qed.

Lemma processSongs_frame window songs : forall index acc,
  Frame Matching (processSongs env args window index songs acc).
Proof.
  induction songs as [|song rest IH]; intros index acc; simpl.
  - apply frame_ret.
  - apply frame_bind; [apply processSong_frame|]. intros acc'. apply IH.
Qed.
End SyncEffects.

Section WindowStep.
Context {U : UnicodeOps}.
Variable env : Env.
Variable args : SyncArgs.

(** Whether the loop body skips the window, given the memory so far. *)
Definition skipsAsFuture (window : TimeWindow) : bool :=
  isWindowFullyInFutureInWarsaw (nowAtFutureCheck env window) (targetDate args)
    (from window).

Definition skipsAsDone (window : TimeWindow) (st : State) : bool :=
  negb (force args)
  && isWindowAlreadyProcessed st (stationId args) (date args) (windowKeyOf window).

Definition endIsPast (window : TimeWindow) : bool :=
  isWindowFullyInPastInWarsaw (nowAtPastCheck env window) (targetDate args) (to window).

Lemma processWindow_future playlistId window mem disk :
  skipsAsFuture window = true ->
  processWindow env args playlistId window mem disk =
    mkRes (inr (withStats (bump WindowsSkippedFuture 1) mem)) disk [].
Proof.
  unfold skipsAsFuture, processWindow. intros ->. reflexivity.
Qed.

Lemma processWindow_done playlistId window mem disk :
  skipsAsFuture window = false ->
  skipsAsDone window (state mem) = true ->
  processWindow env args playlistId window mem disk =
    mkRes (inr (withStats (bump WindowsSkippedAlreadyDone 1) mem)) disk [].
Proof.
  unfold skipsAsFuture, skipsAsDone, processWindow. intros -> ->. reflexivity.
Qed.

Lemma processWindow_scrape_fails playlistId window mem disk :
  skipsAsFuture window = false ->
  skipsAsDone window (state mem) = false ->
  scrapeSongsFromSource env
    (buildSourceUrl (stationId args) (date args) (from window) (to window)) = None ->
  processWindow env args playlistId window mem disk =
    mkRes (inl SourceRequestFailed) disk
      [EvScrape (buildSourceUrl (stationId args) (date args) (from window) (to window))].
Proof.
  unfold skipsAsFuture, skipsAsDone, processWindow. intros -> -> Hs.
  unfold bind, emit, answer. simpl. rewrite Hs. reflexivity.
Qed.

Lemma processWindow_songs_fail playlistId window mem disk songs e :
  skipsAsFuture window = false ->
  skipsAsDone window (state mem) = false ->
  scrapeSongsFromSource env
    (buildSourceUrl (stationId args) (date args) (from window) (to window)) = Some songs ->
  outcome (processSongs env args window 0 songs
             (withStats (bump SongsScraped (length songs)) mem, []) disk) = inl e ->
  processWindow env args playlistId window mem disk =
    mkRes (inl e) disk
      (EvScrape (buildSourceUrl (stationId args) (date args) (from window) (to window))
       :: events (processSongs env args window 0 songs
                    (withStats (bump SongsScraped (length songs)) mem, []) disk)).
Proof.
  unfold skipsAsFuture, skipsAsDone, processWindow. intros -> -> Hs Ho.
  destruct (processSongs_frame env args window songs 0
              (withStats (bump SongsScraped (length songs)) mem, []) disk) as [_ Hd].
  cbn [negb andb]. rewrite bind_emit, Hs. cbn [answer]. rewrite bind_ret.
  rewrite (bind_inl _ _ _ _ Ho), Hd. reflexivity.
Qed.

(** The window is scraped and its songs are matched: what the rest of
    the loop body does with the accumulated URIs. *)
Lemma processWindow_processed playlistId window mem disk songs mem1 urisToAdd :
  skipsAsFuture window = false ->
  skipsAsDone window (state mem) = false ->
  scrapeSongsFromSource env
    (buildSourceUrl (stationId args) (date args) (from window) (to window)) = Some songs ->
  outcome (processSongs env args window 0 songs
             (withStats (bump SongsScraped (length songs)) mem, []) disk)
    = inr (mem1, urisToAdd) ->
  let url := buildSourceUrl (stationId args) (date args) (from window) (to window) in
  let matching :=
    events (processSongs env args window 0 songs
              (withStats (bump SongsScraped (length songs)) mem, []) disk) in
  let adds := negb (dryRun args) && (0 <? length urisToAdd)%nat in
  let addEvent := EvAddTracks playlistId (rev urisToAdd) (Some 0) in
  let marks := negb (dryRun args) && endIsPast window in
  let mem2 := if adds then withStats (bump TracksAdded (length urisToAdd)) mem1 else mem1 in
  let state' :=
    markWindowProcessed (state mem2) (stationId args) (date args) (windowKeyOf window) in
  let mem3 :=
    if marks then withState state' mem2
    else if negb (dryRun args) then withStats (bump WindowsNotMarkedNotInPast 1) mem2
    else mem2 in
  processWindow env args playlistId window mem disk =
    if adds && negb (addTracksSucceeds env window)
    then mkRes (inl SpotifyRequestFailed) disk (EvScrape url :: matching ++ [addEvent])
    else
      mkRes (inr (withStats (bump WindowsProcessed 1) mem3))
        (if marks then Some state' else disk)
        (EvScrape url :: matching
           ++ (if adds then [addEvent] else [])
           ++ (if marks then [EvSaveState state'] else [])
           ++ (if 0 <? sourceDelayMs args then [EvDelay (sourceDelayMs args)] else [])).
Proof.
  unfold skipsAsFuture, skipsAsDone, endIsPast, processWindow. intros -> -> Hs Ho.
  destruct (processSongs_frame env args window songs 0
              (withStats (bump SongsScraped (length songs)) mem, []) disk) as [_ Hd].
  cbn zeta. cbn [negb andb]. rewrite bind_emit, Hs. cbn [answer]. rewrite bind_ret.
  rewrite (bind_inr' _ _ _ _ Ho), Hd.
  destruct (dryRun args); cbn [negb andb].
  - unfold bind, ret, emit, prepend. cbn.
    destruct (0 <? sourceDelayMs args); cbn; rewrite ?app_nil_r; reflexivity.
  - destruct (0 <? length urisToAdd)%nat; cbn [negb andb].
    + destruct (addTracksSucceeds env window); cbn [negb andb].
      * unfold bind, ret, emit, saveState, prepend. cbn.
        destruct (isWindowFullyInPastInWarsaw _ _ _); cbn;
          destruct (0 <? sourceDelayMs args); cbn; rewrite ?app_nil_r; reflexivity.
      * unfold bind, ret, emit, throw, prepend. cbn. reflexivity.
    + unfold bind, ret, emit, saveState, prepend. cbn.
      destruct (isWindowFullyInPastInWarsaw _ _ _); cbn;
        destruct (0 <? sourceDelayMs args); cbn; rewrite ?app_nil_r; reflexivity.
Qed.
End WindowStep.

Lemma filter_none {A} (p q : A -> bool) (l : list A) :
  (forall x, q x = true -> p x = false) ->
  Forall (fun x => q x = true) l -> List.filter p l = [].
Proof.
  intros Hpq Hl. induction Hl as [|x l Hx _ IH]; simpl; [reflexivity|].
  rewrite (Hpq x Hx). exact IH.
Qed.

Lemma matching_no_add (evs : list Event) :
  Forall Matching evs -> List.filter isAddEvent evs = [].
Proof. apply filter_none. intros []; simpl; congruence. Qed.

Lemma matching_no_save (evs : list Event) :
  Forall Matching evs -> List.filter isSaveEvent evs = [].
Proof. apply filter_none. intros []; simpl; congruence. Qed.

(** C8.  A window processed without dry-run whose song loop accumulated
    the URIs [urisToAdd] makes exactly one add request when the list is
    not empty: the accumulated URIs in reverse order at position 0, whose
    batches leave them, in that order, on top of what the playlist held;
    when nothing accumulated no add request is made. *)
Theorem window_add_request {U : UnicodeOps} (env : Env) (args : SyncArgs)
    (playlistId : jsstring) (window : TimeWindow) (mem : Mem) (disk : option State)
    (songs : list ScrapedSong) (mem1 : Mem) (urisToAdd : list jsstring) :
  dryRun args = false ->
  skipsAsFuture env args window = false ->
  skipsAsDone args window (state mem) = false ->
  scrapeSongsFromSource env
    (buildSourceUrl (stationId args) (date args) (from window) (to window)) = Some songs ->
  outcome (processSongs env args window 0 songs
             (withStats (bump SongsScraped (length songs)) mem, []) disk)
    = inr (mem1, urisToAdd) ->
  List.filter isAddEvent (events (processWindow env args playlistId window mem disk)) =
    match urisToAdd with
    | [] => []
    | _ :: _ => [EvAddTracks playlistId (rev urisToAdd) (Some 0)]
    end /\
  forall playlist : list jsstring,
    foldl applyPayload playlist (addTracksToPlaylist (rev urisToAdd) (Some 0)) =
      rev urisToAdd ++ playlist.
Proof.
  intros Hdry Hfut Hdone Hscrape Hsongs.
  split; [|intros playlist; apply addTracksToPlaylist_top].
  rewrite (processWindow_processed env args playlistId window mem disk songs mem1 urisToAdd
             Hfut Hdone Hscrape Hsongs).
  rewrite Hdry. cbn [negb andb].
  pose proof (proj1 (processSongs_frame env args window songs 0
                (withStats (bump SongsScraped (length songs)) mem, []) disk)) as Hm.
  apply matching_no_add in Hm.
  destruct urisToAdd as [|u us].
  - cbn [length Nat.ltb Nat.leb andb]. cbn [events].
    cbn [List.filter isAddEvent]. rewrite !List.filter_app, Hm.
    destruct (endIsPast env args _), (0 <? sourceDelayMs args); reflexivity.
  - change (0 <? length (u :: us))%nat with true. cbn [andb].
    destruct (addTracksSucceeds env window); cbn [negb events].
    + cbn [List.filter isAddEvent]. rewrite !List.filter_app, Hm.
      destruct (endIsPast env args _), (0 <? sourceDelayMs args); reflexivity.
    + cbn [List.filter isAddEvent]. rewrite !List.filter_app, Hm. reflexivity.
Qed.

(** ** Candidate scoring *)

(** [b] is the first element of [l] with the greatest score. *)
Definition IsFirstMax {A} (sc : A -> Q) (l : list A) (b : A) : Prop :=
  exists l1 l2, l = l1 ++ b :: l2 /\
                Forall (fun x => sc x < sc b)%Q l1 /\
                Forall (fun x => sc x <= sc b)%Q l2.

Section SortFacts.
Context {A : Type} (sc : A -> Q).

(** The comparator of [chooseBestTrack]: descending score. *)
Definition descending (a b : A) : Q := (sc b - sc a)%Q.

Lemma descending_le x y : Qle_bool (descending x y) 0 = true <-> (sc y <= sc x)%Q.
Proof. unfold descending. rewrite Qle_bool_iff. split; intros H; lra. Qed.

Lemma descending_gt x y : Qle_bool (descending x y) 0 = false -> (sc x < sc y)%Q.
Proof.
  intros H. destruct (Qlt_le_dec (sc x) (sc y)) as [Hlt|Hle]; [exact Hlt|].
  apply descending_le in Hle. congruence.
Qed.

Lemma toSorted_nil_inv (l : list A) : toSorted descending l = [] -> l = [].
Proof.
  destruct l as [|x l]; [reflexivity|]. simpl.
  destruct (toSorted descending l) as [|y r]; simpl; [discriminate|].
  destruct (Qle_bool _ _); discriminate.
Qed.

Lemma toSorted_head (l : list A) b r :
  toSorted descending l = b :: r -> IsFirstMax sc l b.
Proof.
  revert b r. induction l as [|x l IH]; intros b r; simpl; [discriminate|].
  destruct (toSorted descending l) as [|y r'] eqn:Es; simpl.
  - intros [= <- <-]. apply toSorted_nil_inv in Es as ->.
    exists [], []. repeat split; constructor.
  - destruct (IH y r' eq_refl) as (l1 & l2 & -> & H1 & H2).
    destruct (Qle_bool (descending x y) 0) eqn:E.
    + intros [= <- <-]. apply descending_le in E.
      exists [], (l1 ++ y :: l2). split; [reflexivity|]. split; [constructor|].
      apply Forall_app. split.
      * eapply Forall_impl; [exact H1|]. simpl. intros z Hz. lra.
      * constructor; [exact E|].
        eapply Forall_impl; [exact H2|]. simpl. intros z Hz. lra.
    + intros [= <- <-]. apply descending_gt in E.
      exists (x :: l1), l2. split; [reflexivity|]. split; [|exact H2].
      constructor; assumption.
Qed.

Definition Descending (l : list A) : Prop :=
  StronglySorted (fun a b => sc b <= sc a)%Q l.

Lemma insertSorted_elem x (l : list A) (Q : A -> Prop) :
  Q x -> Forall Q l -> Forall Q (insertSorted descending x l).
Proof.
  intros Hx Hl. induction Hl as [|y l Hy Hl IH]; simpl.
  - repeat constructor; assumption.
  - destruct (Qle_bool _ _); repeat constructor; assumption.
Qed.

Lemma insertSorted_sorted x (l : list A) :
  Descending l -> Descending (insertSorted descending x l).
Proof.
  intros Hl. induction Hl as [|y l Hl IH Hy]; simpl.
  - repeat constructor.
  - destruct (Qle_bool (descending x y) 0) eqn:E.
    + apply descending_le in E. constructor; [constructor; assumption|].
      constructor; [exact E|].
      eapply Forall_impl; [exact Hy|]. simpl. intros z Hz. lra.
    + apply descending_gt in E. constructor; [exact IH|].
      apply insertSorted_elem; [lra|exact Hy].
Qed.

Lemma toSorted_sorted (l : list A) : Descending (toSorted descending l).
Proof.
  induction l as [|x l IH]; simpl; [constructor|].
  apply insertSorted_sorted, IH.
Qed.

Lemma insertSorted_front x (l : list A) :
  Forall (fun z => sc z <= sc x)%Q l -> insertSorted descending x l = x :: l.
Proof.
  intros Hl. destruct Hl as [|z l' Hz _]; simpl; [reflexivity|].
  apply descending_le in Hz. rewrite Hz. reflexivity.
Qed.

Lemma filter_insertSorted (p : A -> bool) x (l : list A) :
  Descending l ->
  List.filter p (insertSorted descending x l) =
    if p x then insertSorted descending x (List.filter p l) else List.filter p l.
Proof.
  intros Hl. induction Hl as [|y l Hl IH Hy]; simpl.
  - destruct (p x); reflexivity.
  - destruct (Qle_bool (descending x y) 0) eqn:E; simpl.
    + destruct (p x), (p y); simpl; rewrite ?E; try reflexivity.
      symmetry. apply insertSorted_front.
      apply descending_le in E.
      apply Forall_forall. intros z Hz.
      apply list_elem_of_In, filter_In in Hz. destruct Hz as [Hz _].
      apply list_elem_of_In in Hz. rewrite Forall_forall in Hy. specialize (Hy z Hz). simpl in Hy. lra.
    + rewrite IH. destruct (p x), (p y); simpl; rewrite ?E; reflexivity.
Qed.

(** The sort is stable: it commutes with taking a sublist by a predicate. *)
Lemma filter_toSorted (p : A -> bool) (l : list A) :
  List.filter p (toSorted descending l) = toSorted descending (List.filter p l).
Proof.
  induction l as [|x l IH]; simpl; [reflexivity|].
  rewrite filter_insertSorted by apply toSorted_sorted.
  rewrite IH. destruct (p x); reflexivity.
Qed.

Lemma find_filter (p : A -> bool) (l : list A) :
  List.find p l = head (List.filter p l).
Proof.
  induction l as [|x l IH]; simpl; [reflexivity|].
  destruct (p x); [reflexivity|exact IH].
Qed.

Lemma find_toSorted (p : A -> bool) (l : list A) :
  match List.find p (toSorted descending l) with
  | Some a => IsFirstMax sc (List.filter p l) a
  | None => List.filter p l = []
  end.
Proof.
  rewrite find_filter, filter_toSorted.
  destruct (toSorted descending (List.filter p l)) as [|a r] eqn:E; simpl.
  - apply toSorted_nil_inv in E. exact E.
  - eapply toSorted_head; eassumption.
Qed.

(** The first greatest element is determined by the list. *)
Lemma IsFirstMax_unique (l : list A) b b' :
  IsFirstMax sc l b -> IsFirstMax sc l b' -> b = b'.
Proof.
  intros (l1 & l2 & -> & H1 & H2) (l1' & l2' & E & H1' & H2').
  revert l1' E H1'. induction l1 as [|x l1 IH]; intros l1' E H1'.
  - destruct l1' as [|y l1']; simpl in E; [congruence|].
    injection E as <- ->. inversion H1' as [|? ? Hb _]; subst.
    exfalso. rewrite Forall_app in H2. destruct H2 as [_ H2].
    inversion H2 as [|? ? Hb' _]; subst. lra.
  - destruct l1' as [|y l1']; simpl in E.
    + injection E as <- <-. inversion H1 as [|? ? Hb _]; subst.
      exfalso. rewrite Forall_app in H2'. destruct H2' as [_ H2'].
      inversion H2' as [|? ? Hb' _]; subst. lra.
    + injection E as <- E. inversion H1; subst. inversion H1'; subst.
      eapply IH; eassumption.
Qed.
End SortFacts.

Lemma Forall_of_map {A B} (f : A -> B) (P : B -> Prop) (l : list A) :
  Forall P (map f l) -> Forall (fun x => P (f x)) l.
Proof.
  induction l as [|x l IH]; simpl; intros H; [constructor|].
  inversion H; subst. constructor; [assumption|apply IH; assumption].
Qed.

Lemma IsFirstMax_map {A B} (f : A -> B) (sc : B -> Q) (l : list A) (b' : B) :
  IsFirstMax sc (map f l) b' ->
  exists b, b' = f b /\ IsFirstMax (fun x => sc (f x)) l b.
Proof.
  intros (l1' & l2' & E & H1 & H2).
  apply map_eq_app in E as (l1 & r & -> & <- & E).
  apply map_eq_cons in E as (b & l2 & -> & <- & <-).
  exists b. split; [reflexivity|]. exists l1, l2. split; [reflexivity|].
  split.
  - apply (Forall_of_map f (fun y => sc y < sc (f b))%Q). assumption.
  - apply (Forall_of_map f (fun y => sc y <= sc (f b))%Q). assumption.
Qed.

Lemma filter_map_comm {A B} (f : A -> B) (p : B -> bool) (l : list A) :
  List.filter p (map f l) = map f (List.filter (fun x => p (f x)) l).
Proof.
  induction l as [|x l IH]; simpl; [reflexivity|].
  destruct (p (f x)); simpl; rewrite IH; reflexivity.
Qed.

(** The choice among scored candidates: the first of the greatest score,
    unless it is a single and the first of the greatest score among the
    albums is at most 12 below it. *)
Lemma pickBest_spec (scored : list ScoredCandidate) :
  scored <> [] ->
  exists best,
    IsFirstMax score scored best /\
    match List.filter (fun c => isAlbum (track c)) scored with
    | [] => pickBest scored = Some (track best)
    | _ :: _ =>
        exists bestAlbum,
          IsFirstMax score (List.filter (fun c => isAlbum (track c)) scored) bestAlbum /\
          pickBest scored =
            Some (if isSingle (track best)
                     && Qle_bool (score best - 12) (score bestAlbum)
                  then track bestAlbum else track best)
    end.
Proof.
  intros Hne. unfold pickBest.
  change (fun a b : ScoredCandidate => (score b - score a)%Q) with (descending score).
  destruct (toSorted (descending score) scored) as [|best r] eqn:Es.
  { apply toSorted_nil_inv in Es. contradiction. }
  exists best. split; [eapply toSorted_head; eassumption|].
  pose proof (find_toSorted score (fun c => isAlbum (track c)) scored) as Hf.
  rewrite Es in Hf.
  destruct (List.find _ (best :: r)) as [bestAlbum|].
  - destruct (List.filter _ scored) as [|c cs] eqn:Ef.
    + destruct Hf as (l1 & l2 & E & _). destruct l1; discriminate.
    + exists bestAlbum. split; [exact Hf|].
      destruct (isSingle (track best) && Qle_bool _ _); reflexivity.
  - rewrite Hf. reflexivity.
Qed.

Section ScoringFacts.
Context {U : UnicodeOps}.

Definition scoreOf (song : ScrapedSong) (candidate : SpotifyTrack) : Q :=
  score (scoreTrack song candidate).

(** The four parts of a candidate's score. *)
Definition titlePoints (song : ScrapedSong) (candidate : SpotifyTrack) : Q :=
  let expected := normalize (title song) in
  let found := normalize (trackName candidate) in
  if jsEq found expected then 120
  else if includes found expected || includes expected found then 75
  else 0.

Definition artistPoints (song : ScrapedSong) (candidate : SpotifyTrack) : Q :=
  let expected := normalize (artist song) in
  if truthy expected
     && existsb (fun a =>
                   let found := normalize (artistName a) in
                   truthy found
                   && (jsEq found expected || includes found expected
                       || includes expected found))
                (artists candidate)
  then 100 else 0.

Definition releasePoints (candidate : SpotifyTrack) : Q :=
  if isAlbum candidate then 28 else if isSingle candidate then -12 else 0.

Definition popularityPoints (candidate : SpotifyTrack) : Q :=
  inject_Z (Z.min (default 0%Z (popularity candidate)) 100) / 15.

(** The artist part as the claim words it: any artist of the candidate,
    also one whose normalized name is empty. *)
Definition artistPointsAsClaimed (song : ScrapedSong) (candidate : SpotifyTrack) : Q :=
  let expected := normalize (artist song) in
  if truthy expected
     && existsb (fun a =>
                   let found := normalize (artistName a) in
                   jsEq found expected || includes found expected
                   || includes expected found)
                (artists candidate)
  then 100 else 0.

Definition scoreAsClaimed (song : ScrapedSong) (candidate : SpotifyTrack) : Q :=
  titlePoints song candidate + artistPointsAsClaimed song candidate
  + releasePoints candidate + popularityPoints candidate.

Lemma existsb_filter_map {A B} (f : A -> B) (keep p : B -> bool) (l : list A) :
  existsb p (List.filter keep (map f l)) = existsb (fun a => keep (f a) && p (f a)) l.
Proof.
  induction l as [|x l IH]; simpl; [reflexivity|].
  destruct (keep (f x)); simpl; rewrite IH; reflexivity.
Qed.

Lemma album_not_single candidate : isAlbum candidate = true -> isSingle candidate = false.
Proof.
  unfold isAlbum, isSingle, jsEq. intros H.
  apply bool_decide_eq_true in H. rewrite H.
  apply bool_decide_eq_false. intros E. vm_compute in E. discriminate.
Qed.

Lemma scoreOf_parts song candidate :
  (scoreOf song candidate ==
     titlePoints song candidate + artistPoints song candidate
     + releasePoints candidate + popularityPoints candidate)%Q.
Proof.
  unfold scoreOf, scoreTrack, titlePoints, artistPoints, releasePoints,
    popularityPoints, titleScore, hasArtistMatch.
  cbn [score]. rewrite existsb_filter_map.
  set (artistMatch := truthy _ && existsb _ _).
  set (t := if jsEq _ _ then _ else _).
  set (pop := (inject_Z _ / 15)%Q).
  destruct (isAlbum candidate) eqn:Ea.
  - rewrite (album_not_single _ Ea). destruct artistMatch; ring.
  - destruct (isSingle candidate), artistMatch; ring.
Qed.

Lemma chooseBestTrack_choice song candidates :
  candidates <> [] ->
  exists best,
    IsFirstMax (scoreOf song) candidates best /\
    match List.filter isAlbum candidates with
    | [] => chooseBestTrack song candidates = Some best
    | _ :: _ =>
        exists bestAlbum,
          IsFirstMax (scoreOf song) (List.filter isAlbum candidates) bestAlbum /\
          chooseBestTrack song candidates =
            Some (if isSingle best
                     && Qle_bool (scoreOf song best - 12) (scoreOf song bestAlbum)
                  then bestAlbum else best)
    end.
Proof.
  intros Hne. unfold chooseBestTrack.
  destruct (pickBest_spec (map (scoreTrack song) candidates)) as (best' & Hbest & Hpick).
  { destruct candidates; [contradiction|discriminate]. }
  apply IsFirstMax_map in Hbest as (best & -> & Hbest).
  exists best. split; [exact Hbest|].
  rewrite filter_map_comm in Hpick. cbn [track scoreTrack] in Hpick.
  change (fun x => isAlbum x) with isAlbum in Hpick.
  destruct (List.filter isAlbum candidates) as [|c cs] eqn:Ef.
  - exact Hpick.
  - cbn [map] in Hpick. destruct Hpick as (bestAlbum' & Halbum & Hpick).
    change (scoreTrack song c :: map (scoreTrack song) cs)
      with (map (scoreTrack song) (c :: cs)) in Halbum.
    apply IsFirstMax_map in Halbum as (bestAlbum & -> & Halbum).
    exists bestAlbum. split; [exact Halbum|]. exact Hpick.
Qed.
End ScoringFacts.

(** The choice the claimed scoring would make. *)
Definition chooseAsClaimed {U : UnicodeOps} (song : ScrapedSong)
    (candidates : list SpotifyTrack) : option SpotifyTrack :=
  pickBest (map (fun c => {| track := c; score := scoreAsClaimed song c |}) candidates).

(** *** Examples to run the model on *)

Definition demoDate : ParsedInputDate :=
  {| dateDay := 24; dateMonth := 2; dateYear := 2026 |}.

Definition demoSong (a t : string) (w : TimeWindow) : ScrapedSong :=
  {| playedAt := js "00:10"; rawLabel := js a ++ js " - " ++ js t;
     artist := js a; title := js t;
     sourceUrl := buildSourceUrl (js "40") (js "24-02-2026") (from w) (to w) |}.

Definition demoTrack (i a t ty : string) (p : Z) : SpotifyTrack :=
  {| trackId := js i; trackUri := js "spotify:track:" ++ js i; trackName := js t;
     artists := [{| artistName := js a |}]; popularity := Some p;
     album := {| album_type := js ty; albumName := js t |} |}.

Definition waterloo : ScrapedSong := demoSong "Abba" "Waterloo" {| from := 0; to := 2 |}.

(** An exact title by an artist whose name normalizes to the empty
    string, and a longer title by the expected artist. *)
Definition byChkChkChk : SpotifyTrack := demoTrack "t1" "!!!" "Waterloo" "album" 0.
Definition byAbbaLive : SpotifyTrack := demoTrack "t2" "ABBA" "Waterloo Live" "album" 0.

(** C1, as stated, fails.  The claim gives +100 when some artist of the
    candidate has a normalized name contained in the expected artist; the
    name "!!!" normalizes to the empty string, which every string contains.
    So the claimed score of the first candidate is 248 against 203 for the
    second, and the claimed choice is the first; the code drops empty
    artist names before matching, scores 148 and 203, and returns the
    second. *)
Lemma chooseBestTrack_empty_artist_counterexample :
  @normalize Latin1 (js "!!!") = [] /\
  includes (@normalize Latin1 (js "Abba")) [] = true /\
  (@scoreAsClaimed Latin1 waterloo byChkChkChk == 248)%Q /\
  (@scoreAsClaimed Latin1 waterloo byAbbaLive == 203)%Q /\
  (@scoreOf Latin1 waterloo byChkChkChk == 148)%Q /\
  (@scoreOf Latin1 waterloo byAbbaLive == 203)%Q /\
  @chooseAsClaimed Latin1 waterloo [byChkChkChk; byAbbaLive] = Some byChkChkChk /\
  @chooseBestTrack Latin1 waterloo [byChkChkChk; byAbbaLive] = Some byAbbaLive /\
  @chooseBestTrack Latin1 waterloo [byChkChkChk; byAbbaLive]
    <> @chooseAsClaimed Latin1 waterloo [byChkChkChk; byAbbaLive].
Proof.
  repeat split; try (vm_compute; reflexivity).
  vm_compute. discriminate.
Qed.

Lemma single_not_album candidate : isSingle candidate = true -> isAlbum candidate = false.
Proof.
  intros Hs. destruct (isAlbum candidate) eqn:Ea; [|reflexivity].
  rewrite (album_not_single _ Ea) in Hs. discriminate.
Qed.

(** Evaluates the comparisons between closed rationals in the goal. *)
Ltac decide_comparisons :=
  repeat match goal with
         | |- context [Qle_bool ?a ?b] =>
             let v := eval vm_compute in (Qle_bool a b) in
             change (Qle_bool a b) with v
         end.

(** C1, amended.  For every song and every non-empty candidate list,
    [chooseBestTrack] scores a candidate by the sum of: 120 for an equal
    normalized title, else 75 when one normalized title contains the
    other, else 0; 100 when the expected artist is not empty and some
    artist of the candidate has a non-empty normalized name equal to,
    containing or contained in it; 28 for an album, -12 for a single, else
    0; and min(popularity, 100) / 15.  It returns the first candidate of
    the greatest score, unless that one is a single and the first album of
    the greatest score among the albums is at most 12 points below it,
    which is then returned.  On scores alone: a single at 150 loses to an
    album at 140 and beats an album at 100. *)
Theorem chooseBestTrack_scoring {U : UnicodeOps} (song : ScrapedSong)
    (candidates : list SpotifyTrack) :
  candidates <> [] ->
  (forall c,
     (scoreOf song c ==
        titlePoints song c + artistPoints song c + releasePoints c + popularityPoints c)%Q) /\
  (exists best,
     IsFirstMax (scoreOf song) candidates best /\
     match List.filter isAlbum candidates with
     | [] => chooseBestTrack song candidates = Some best
     | _ :: _ =>
         exists bestAlbum,
           IsFirstMax (scoreOf song) (List.filter isAlbum candidates) bestAlbum /\
           chooseBestTrack song candidates =
             Some (if isSingle best
                      && Qle_bool (scoreOf song best - 12) (scoreOf song bestAlbum)
                   then bestAlbum else best)
     end) /\
  (forall single album,
     isSingle single = true -> isAlbum album = true ->
     pickBest [{| track := single; score := 150 |}; {| track := album; score := 140 |}]
       = Some album /\
     pickBest [{| track := album; score := 140 |}; {| track := single; score := 150 |}]
       = Some album /\
     pickBest [{| track := single; score := 150 |}; {| track := album; score := 100 |}]
       = Some single /\
     pickBest [{| track := album; score := 100 |}; {| track := single; score := 150 |}]
       = Some single).
Proof.
  intros Hne. split; [intros c; apply scoreOf_parts|].
  split; [apply chooseBestTrack_choice; exact Hne|].
  intros single album Hs Ha.
  pose proof (single_not_album _ Hs) as Hsa.
  unfold pickBest, toSorted. cbn [foldr insertSorted score track].
  repeat (decide_comparisons; cbn [List.find track score andb]; rewrite ?Hsa, ?Ha, ?Hs).
  repeat split; reflexivity.
Qed.

Lemma chooseBestTrack_scoring_witness :
  [byChkChkChk; byAbbaLive] <> [] /\
  @chooseBestTrack Latin1 waterloo [byChkChkChk; byAbbaLive] = Some byAbbaLive.
Proof.
  split; [discriminate|].
  destruct (@chooseBestTrack_scoring Latin1 waterloo [byChkChkChk; byAbbaLive]
              ltac:(discriminate)) as (_ & _ & _).
  vm_compute. reflexivity.
Defined.

(** ** The orchestrator: from the command to the window loop *)

Definition validRange (args : SyncArgs) : bool :=
  negb ((timeFrom args <? 0) || (23 <? timeFrom args) || (timeTo args <? 1)
        || (24 <? timeTo args) || (timeTo args <=? timeFrom args))
  && negb ((windowHours args <? 1) || (2 <? windowHours args)).

(** The state, the file and the calls once the state is loaded and the
    [--playlist] argument, if any, is recorded. *)
Definition stateAfterLoad (args : SyncArgs) (disk : option State) : State :=
  if argTruthy (playlist args) then mapStation args (parseState disk) else parseState disk.

Definition diskAfterLoad (args : SyncArgs) (disk : option State) : option State :=
  if argTruthy (playlist args) then Some (mapStation args (parseState disk)) else disk.

Definition loadEvents (args : SyncArgs) (disk : option State) : list Event :=
  EvLoadState ::
  if argTruthy (playlist args) then [EvSaveState (mapStation args (parseState disk))] else [].

Definition isSetupEvent (e : Event) : bool :=
  match e with
  | EvGetCurrentUser | EvGetPlaylistMeta _ | EvGetPlaylistTrackIndex _ => true
  | _ => false
  end.

Definition initialMem {U : UnicodeOps} (st : State) (pages : list (list PlaylistTrackItem))
    (windows : list TimeWindow) : Mem :=
  {| state := st; stats := setWindowsPlanned (length windows) emptyStats;
     runSeenSongKeys := ∅; playlistIndex := getPlaylistTrackIndex pages |}.

(** How a run ended before it reached the window loop, or the loop it
    reached. *)
Inductive RunShape {U : UnicodeOps} (env : Env) (args : SyncArgs) (disk : option State)
    : Res Mem -> Prop :=
| RunRejected e :
    validRange args = false ->
    RunShape env args disk (mkRes (inl e) disk [])
| RunStopped e tail :
    validRange args = true ->
    Forall (fun ev => isSetupEvent ev = true) tail ->
    RunShape env args disk
      (mkRes (inl e) (diskAfterLoad args disk) (loadEvents args disk ++ tail))
| RunLooped playlistId currentUserId meta pages windows :
    validRange args = true ->
    getProperty (stationPlaylists (stateAfterLoad args disk)) (stationId args)
      = Some playlistId ->
    truthy playlistId = true ->
    currentUser env = Some currentUserId ->
    playlistMeta env playlistId = Some meta ->
    negb (canCurrentUserWritePlaylist currentUserId (metaOwnerId meta)
            (metaCollaborative meta))
    && negb (dryRun args) = false ->
    playlistPages env playlistId = Some pages ->
    buildWindows (timeFrom args) (timeTo args) (windowHours args) = Some windows ->
    RunShape env args disk
      (prepend
         (loadEvents args disk
          ++ [EvGetCurrentUser; EvGetPlaylistMeta playlistId;
              EvGetPlaylistTrackIndex playlistId])
         (processWindows env args playlistId windows
            (initialMem (stateAfterLoad args disk) pages windows)
            (diskAfterLoad args disk))).

Lemma prepend_prepend {A} evs evs' (r : Res A) :
  prepend evs (prepend evs' r) = prepend (evs ++ evs') r.
Proof. unfold prepend. simpl. rewrite app_assoc. reflexivity. Qed.

Lemma prepend_mkRes {A} evs (o : Error + A) d evs' :
  prepend evs (mkRes o d evs') = mkRes o d (evs ++ evs').
Proof. reflexivity. Qed.

Lemma bind_loadState {B} (k : State -> M B) disk :
  bind loadState k disk = prepend [EvLoadState] (k (parseState disk) disk).
Proof. reflexivity. Qed.

Lemma bind_saveState {B} st (k : unit -> M B) disk :
  bind (saveState st) k disk = prepend [EvSaveState st] (k tt (Some st)).
Proof. reflexivity. Qed.

Lemma bind_assoc {A B C} (m : M A) (f : A -> M B) (g : B -> M C) disk :
  bind (bind m f) g disk = bind m (fun a => bind (f a) g) disk.
Proof.
  unfold bind. destruct (outcome (m disk)); simpl; [reflexivity|].
  destruct (outcome (f a (diskAfter (m disk)))); simpl; rewrite ?app_assoc; reflexivity.
Qed.

Lemma runSyncCommand_shape {U : UnicodeOps} env args disk :
  RunShape env args disk (runSyncCommand env args disk).
Proof.
  unfold runSyncCommand.
  destruct (validRange args) eqn:Hvalid; unfold validRange in Hvalid.
  2: { apply andb_false_iff in Hvalid as [H|H]; apply negb_false_iff in H.
       - rewrite H. rewrite bind_throw. apply RunRejected.
         unfold validRange. rewrite H. reflexivity.
       - destruct (_ || _ || _ || _ || _) eqn:H1.
         + rewrite bind_throw. apply RunRejected.
           unfold validRange. rewrite H1. reflexivity.
         + rewrite bind_ret, H, bind_throw. apply RunRejected.
           unfold validRange. rewrite H1, H. reflexivity. }
  apply andb_true_iff in Hvalid as [H1 H2].
  apply negb_true_iff in H1, H2. rewrite H1, H2, !bind_ret.
  assert (Hvalid : validRange args = true).
  { unfold validRange. rewrite H1, H2. reflexivity. }
  clear H1 H2.
  rewrite bind_loadState.
  assert (Epre : forall r : Res Mem,
            prepend [EvLoadState]
              (prepend (if argTruthy (playlist args)
                        then [EvSaveState (mapStation args (parseState disk))] else []) r)
            = prepend (loadEvents args disk) r).
  { intros r. rewrite prepend_prepend. reflexivity. }
  assert (Hstep : forall k : State -> M Mem,
            bind (if argTruthy (playlist args)
                  then bind (saveState (mapStation args (parseState disk)))
                         (fun _ => ret (mapStation args (parseState disk)))
                  else ret (parseState disk)) k disk
            = prepend (if argTruthy (playlist args)
                       then [EvSaveState (mapStation args (parseState disk))] else [])
                (k (stateAfterLoad args disk) (diskAfterLoad args disk))).
  { intros k. unfold stateAfterLoad, diskAfterLoad.
    destruct (argTruthy (playlist args)).
    - rewrite bind_assoc, bind_saveState, bind_ret. reflexivity.
    - rewrite bind_ret. unfold prepend. destruct (k _ _); reflexivity. }
  rewrite Hstep, Epre. clear Hstep Epre.
  set (pre := loadEvents args disk).
  set (state0 := stateAfterLoad args disk).
  set (disk0 := diskAfterLoad args disk).
  destruct (getProperty (stationPlaylists state0) (stationId args))
    as [playlistId|] eqn:Hpid.
  2: { unfold throw. rewrite prepend_mkRes.
       apply (RunStopped env args disk _ []); [assumption|constructor]. }
  destruct (truthy playlistId) eqn:Htruthy; cbn [negb].
  2: { unfold throw. rewrite prepend_mkRes.
       apply (RunStopped env args disk _ []); [assumption|constructor]. }
  rewrite bind_emit, prepend_prepend.
  destruct (currentUser env) as [currentUserId|] eqn:Huser; cbn [answer].
  2: { rewrite bind_throw, prepend_mkRes, app_nil_r. rewrite <- ?app_assoc.
       apply RunStopped; [assumption|repeat constructor]. }
  rewrite bind_ret, bind_emit, prepend_prepend.
  destruct (playlistMeta env playlistId) as [meta|] eqn:Hmeta; cbn [answer].
  2: { rewrite bind_throw, prepend_mkRes, app_nil_r. rewrite <- ?app_assoc.
       apply RunStopped; [assumption|repeat constructor]. }
  rewrite bind_ret.
  destruct (negb (canCurrentUserWritePlaylist _ _ _) && negb (dryRun args)) eqn:Hwritable.
  { rewrite bind_throw, prepend_mkRes, app_nil_r. rewrite <- ?app_assoc.
    apply RunStopped; [assumption|repeat constructor]. }
  rewrite bind_ret, bind_emit, prepend_prepend.
  destruct (playlistPages env playlistId) as [pages|] eqn:Hpages; cbn [answer].
  2: { rewrite bind_throw, prepend_mkRes, app_nil_r. rewrite <- ?app_assoc.
       apply RunStopped; [assumption|repeat constructor]. }
  rewrite bind_ret.
  destruct (buildWindows _ _ _) as [windows|] eqn:Hwindows.
  2: { unfold throw. rewrite prepend_mkRes, app_nil_r. rewrite <- ?app_assoc.
       apply RunStopped; [assumption|repeat constructor]. }
  rewrite <- ?app_assoc. cbn [app].
  eapply RunLooped; eassumption.
Qed.

(** The run reaches the window loop when the requests before it answer. *)
Lemma runSyncCommand_reaches_loop {U : UnicodeOps} env args disk
    playlistId currentUserId meta pages windows :
  validRange args = true ->
  getProperty (stationPlaylists (stateAfterLoad args disk)) (stationId args)
    = Some playlistId ->
  truthy playlistId = true ->
  currentUser env = Some currentUserId ->
  playlistMeta env playlistId = Some meta ->
  negb (canCurrentUserWritePlaylist currentUserId (metaOwnerId meta)
          (metaCollaborative meta))
  && negb (dryRun args) = false ->
  playlistPages env playlistId = Some pages ->
  buildWindows (timeFrom args) (timeTo args) (windowHours args) = Some windows ->
  runSyncCommand env args disk =
    prepend
      (loadEvents args disk
       ++ [EvGetCurrentUser; EvGetPlaylistMeta playlistId;
           EvGetPlaylistTrackIndex playlistId])
      (processWindows env args playlistId windows
         (initialMem (stateAfterLoad args disk) pages windows)
         (diskAfterLoad args disk)).
Proof.
  intros Hv Hpid Htruthy Huser Hmeta Hwritable Hpages Hwin.
  unfold runSyncCommand.
  unfold validRange in Hv. apply andb_true_iff in Hv as [H1 H2].
  apply negb_true_iff in H1, H2. rewrite H1, H2, !bind_ret.
  rewrite bind_loadState.
  assert (Hstep : forall k : State -> M Mem,
            bind (if argTruthy (playlist args)
                  then bind (saveState (mapStation args (parseState disk)))
                         (fun _ => ret (mapStation args (parseState disk)))
                  else ret (parseState disk)) k disk
            = prepend (if argTruthy (playlist args)
                       then [EvSaveState (mapStation args (parseState disk))] else [])
                (k (stateAfterLoad args disk) (diskAfterLoad args disk))).
  { intros k. unfold stateAfterLoad, diskAfterLoad.
    destruct (argTruthy (playlist args)).
    - rewrite bind_assoc, bind_saveState, bind_ret. reflexivity.
    - rewrite bind_ret. unfold prepend. destruct (k _ _); reflexivity. }
  rewrite Hstep, prepend_prepend. clear Hstep.
  assert (Epre : [EvLoadState]
                 ++ (if argTruthy (playlist args)
                     then [EvSaveState (mapStation args (parseState disk))] else [])
                 = loadEvents args disk) by reflexivity.
  rewrite Epre. clear Epre.
  rewrite Hpid, Htruthy. cbn [negb].
  rewrite bind_emit, prepend_prepend, Huser. cbn [answer].
  rewrite bind_ret, bind_emit, prepend_prepend, Hmeta. cbn [answer].
  rewrite bind_ret, Hwritable, bind_ret, bind_emit, prepend_prepend, Hpages. cbn [answer].
  rewrite bind_ret, Hwin. rewrite <- !app_assoc. reflexivity.
Qed.

(** ** The orchestrator: one song *)

(** What the loop body decides for a song. *)
Inductive Verdict :=
| Duplicate                              (* seen earlier in this run *)
| AlreadyByKey                           (* its key is in the playlist index *)
| SearchFailed (e : Error)
| Unmatched
| AlreadyById (found : SpotifyTrack)     (* the match is in the playlist index *)
| Proposed (found : SpotifyTrack).

Section SongStep.
Context {U : UnicodeOps}.
Variable env : Env.
Variable args : SyncArgs.

Definition searchQuery (song : ScrapedSong) : jsstring :=
  let queryParts :=
    (if truthy (title song) then [js "track:" ++ title song] else []) ++
    (if truthy (artist song) then [js "artist:" ++ artist song] else []) in
  let joined := trim (join (js " ") queryParts) in
  if truthy joined then joined else rawLabel song.

(** The answer of [findTrackForSong]. *)
Definition searchOutcome (window : TimeWindow) (index : nat) (song : ScrapedSong)
    : Error + option SpotifyTrack :=
  match searchTracks env window index (searchQuery song) 10 with
  | None => inl SpotifyRequestFailed
  | Some [] => inr None
  | Some (c :: cs) =>
      match chooseBestTrack song (c :: cs) with
      | Some chosen => inr (Some chosen)
      | None => inl NoCandidateTracks
      end
  end.

Lemma findTrackForSong_result window index song disk :
  findTrackForSong env window index song disk =
    mkRes (searchOutcome window index song) disk [EvSearch (searchQuery song) 10].
Proof.
  unfold findTrackForSong, searchOutcome. fold (searchQuery song).
  rewrite bind_emit.
  destruct (searchTracks env window index (searchQuery song) 10) as [[|c cs]|];
    cbn [answer]; rewrite ?bind_ret, ?bind_throw; try reflexivity.
  destruct (chooseBestTrack song (c :: cs)); reflexivity.
Qed.

Definition verdict (seen : gset jsstring) (index : SpotifyPlaylistTrackIndex)
    (window : TimeWindow) (position : nat) (song : ScrapedSong) : Verdict :=
  let songKey := buildSongKey (artist song) (title song) in
  if decide (songKey ∈ seen) then Duplicate
  else if decide (songKey ∈ songKeys index) then AlreadyByKey
  else match searchOutcome window position song with
       | inl e => SearchFailed e
       | inr None => Unmatched
       | inr (Some found) =>
           if decide (trackId found ∈ trackIds index) then AlreadyById found
           else Proposed found
       end.

(** The calls a verdict took. *)
Definition verdictEvents (v : Verdict) (position : nat) (song : ScrapedSong) : list Event :=
  match v with
  | Duplicate | AlreadyByKey => []
  | _ =>
      (if (0 <? spotifyDelayMs args) && (0 <? position)%nat
       then [EvDelay (spotifyDelayMs args)] else [])
      ++ [EvSearch (searchQuery song) 10]
  end.

(** The memory and the accumulated URIs after a verdict. *)
Definition applyVerdict (v : Verdict) (song : ScrapedSong) (acc : Mem * list jsstring)
    : Mem * list jsstring :=
  let '(mem, urisToAdd) := acc in
  let songKey := buildSongKey (artist song) (title song) in
  match v with
  | Duplicate => (withStats (bump SongsDuplicateSkipped 1) mem, urisToAdd)
  | AlreadyByKey =>
      (withStats (bump SongsAlreadyInPlaylistSkipped 1) (seeSongKey songKey mem),
       urisToAdd)
  | SearchFailed _ => acc
  | Unmatched =>
      (withStats (bump SongsUnmatched 1) (seeSongKey songKey mem), urisToAdd)
  | AlreadyById found =>
      (withStats (bump SongsAlreadyInPlaylistSkipped 1)
         (indexSongKey (trackSongKey found)
            (indexSongKey songKey (seeSongKey songKey mem))),
       urisToAdd)
  | Proposed found =>
      (withStats (bump SongsMatched 1)
         (indexSongKey (trackSongKey found)
            (indexSongKey songKey
               (indexTrackId (trackId found) (seeSongKey songKey mem)))),
       urisToAdd ++ [trackUri found])
  end.

Lemma processSong_verdict window position song mem urisToAdd disk :
  let v := verdict (runSeenSongKeys mem) (playlistIndex mem) window position song in
  processSong env args window position song (mem, urisToAdd) disk =
    mkRes match v with
          | SearchFailed e => inl e
          | _ => inr (applyVerdict v song (mem, urisToAdd))
          end
          disk (verdictEvents v position song).
Proof.
  unfold processSong, verdict. cbn zeta.
  destruct (decide _); [reflexivity|].
  destruct (decide _); [reflexivity|].
  assert (Hpace : forall k : unit -> M (Mem * list jsstring),
            bind (if (0 <? spotifyDelayMs args) && (0 <? position)%nat
                  then emit (EvDelay (spotifyDelayMs args)) else ret tt) k disk
            = prepend (if (0 <? spotifyDelayMs args) && (0 <? position)%nat
                       then [EvDelay (spotifyDelayMs args)] else []) (k tt disk)).
  { intros k. destruct (_ && _); [apply bind_emit|].
    rewrite bind_ret. unfold prepend. destruct (k tt disk); reflexivity. }
  rewrite Hpace. clear Hpace.
  unfold bind. rewrite findTrackForSong_result. cbn [outcome diskAfter events].
  destruct (searchOutcome window position song) as [e|[found|]];
    cbn [applyVerdict verdictEvents]; try reflexivity.
  all: try destruct (decide _); cbn [ret outcome diskAfter events prepend];
    rewrite ?app_nil_r; reflexivity.
Qed.
End SongStep.

(** ** The orchestrator: one window *)

Section WindowShapes.
Context {U : UnicodeOps}.
Variable env : Env.
Variable args : SyncArgs.
Variable playlistId : jsstring.

Definition windowUrl (window : TimeWindow) : SourceUrl :=
  buildSourceUrl (stationId args) (date args) (from window) (to window).

(** The song loop of a window, started as the loop body starts it. *)
Definition songLoop (window : TimeWindow) (songs : list ScrapedSong) (mem : Mem)
    (disk : option State) : Res (Mem * list jsstring) :=
  processSongs env args window 0 songs
    (withStats (bump SongsScraped (length songs)) mem, []) disk.

(** The memory at the end of a processed window: after the add, and
    after the mark or the count of the unmarked window. *)
Definition afterAdd (mem1 : Mem) (urisToAdd : list jsstring) : Mem :=
  if negb (dryRun args) && (0 <? length urisToAdd)%nat
  then withStats (bump TracksAdded (length urisToAdd)) mem1 else mem1.

Definition markedState (window : TimeWindow) (st : State) : State :=
  markWindowProcessed st (stationId args) (date args) (windowKeyOf window).

Definition afterMark (window : TimeWindow) (mem2 : Mem) : Mem :=
  if negb (dryRun args) && endIsPast env args window
  then withState (markedState window (state mem2)) mem2
  else if negb (dryRun args) then withStats (bump WindowsNotMarkedNotInPast 1) mem2
  else mem2.

(** The ways the loop body ends. *)
Inductive WindowShape (window : TimeWindow) (mem : Mem) (disk : option State)
    : Res Mem -> Prop :=
| WindowFuture :
    skipsAsFuture env args window = true ->
    WindowShape window mem disk
      (mkRes (inr (withStats (bump WindowsSkippedFuture 1) mem)) disk [])
| WindowDone :
    skipsAsFuture env args window = false ->
    skipsAsDone args window (state mem) = true ->
    WindowShape window mem disk
      (mkRes (inr (withStats (bump WindowsSkippedAlreadyDone 1) mem)) disk [])
| WindowScrapeFailed :
    skipsAsFuture env args window = false ->
    skipsAsDone args window (state mem) = false ->
    scrapeSongsFromSource env (windowUrl window) = None ->
    WindowShape window mem disk
      (mkRes (inl SourceRequestFailed) disk [EvScrape (windowUrl window)])
| WindowSongsFailed songs e :
    skipsAsFuture env args window = false ->
    skipsAsDone args window (state mem) = false ->
    scrapeSongsFromSource env (windowUrl window) = Some songs ->
    outcome (songLoop window songs mem disk) = inl e ->
    WindowShape window mem disk
      (mkRes (inl e) disk
         (EvScrape (windowUrl window) :: events (songLoop window songs mem disk)))
| WindowAddFailed songs mem1 urisToAdd :
    skipsAsFuture env args window = false ->
    skipsAsDone args window (state mem) = false ->
    scrapeSongsFromSource env (windowUrl window) = Some songs ->
    outcome (songLoop window songs mem disk) = inr (mem1, urisToAdd) ->
    dryRun args = false -> urisToAdd <> [] ->
    addTracksSucceeds env window = false ->
    WindowShape window mem disk
      (mkRes (inl SpotifyRequestFailed) disk
         (EvScrape (windowUrl window) :: events (songLoop window songs mem disk)
            ++ [EvAddTracks playlistId (rev urisToAdd) (Some 0)]))
| WindowProcessed songs mem1 urisToAdd :
    skipsAsFuture env args window = false ->
    skipsAsDone args window (state mem) = false ->
    scrapeSongsFromSource env (windowUrl window) = Some songs ->
    outcome (songLoop window songs mem disk) = inr (mem1, urisToAdd) ->
    (dryRun args = false -> urisToAdd <> [] -> addTracksSucceeds env window = true) ->
    let marks := negb (dryRun args) && endIsPast env args window in
    let mem3 := afterMark window (afterAdd mem1 urisToAdd) in
    WindowShape window mem disk
      (mkRes (inr (withStats (bump WindowsProcessed 1) mem3))
         (if marks then Some (state mem3) else disk)
         (EvScrape (windowUrl window) :: events (songLoop window songs mem disk)
            ++ (if negb (dryRun args) && (0 <? length urisToAdd)%nat
                then [EvAddTracks playlistId (rev urisToAdd) (Some 0)] else [])
            ++ (if marks then [EvSaveState (state mem3)] else [])
            ++ (if 0 <? sourceDelayMs args then [EvDelay (sourceDelayMs args)] else []))).

Lemma processWindow_shape window mem disk :
  WindowShape window mem disk (processWindow env args playlistId window mem disk).
Proof.
  destruct (skipsAsFuture env args window) eqn:Hfut.
  { rewrite processWindow_future by assumption. apply WindowFuture; assumption. }
  destruct (skipsAsDone args window (state mem)) eqn:Hdone.
  { rewrite processWindow_done by assumption. apply WindowDone; assumption. }
  destruct (scrapeSongsFromSource env (windowUrl window)) as [songs|] eqn:Hscrape.
  2: { rewrite processWindow_scrape_fails by assumption.
       apply WindowScrapeFailed; assumption. }
  destruct (outcome (songLoop window songs mem disk)) as [e|[mem1 urisToAdd]] eqn:Hsongs.
  { rewrite (processWindow_songs_fail env args playlistId window mem disk songs e)
      by assumption.
    apply (WindowSongsFailed window mem disk songs e); assumption. }
  rewrite (processWindow_processed env args playlistId window mem disk songs mem1
             urisToAdd) by assumption.
  destruct (negb (dryRun args) && (0 <? length urisToAdd)%nat
            && negb (addTracksSucceeds env window)) eqn:Hfail.
  - apply andb_true_iff in Hfail as [Hfail Hadd].
    apply andb_true_iff in Hfail as [Hdry Hlen].
    apply negb_true_iff in Hdry, Hadd.
    eapply WindowAddFailed; try eassumption.
    destruct urisToAdd; [discriminate|discriminate].
  - assert (Hok : dryRun args = false -> urisToAdd <> [] ->
                  addTracksSucceeds env window = true).
    { intros Hdry Hne. rewrite Hdry in Hfail. cbn [negb andb] in Hfail.
      destruct urisToAdd; [contradiction|]. cbn in Hfail.
      apply negb_false_iff in Hfail. exact Hfail. }
    pose proof (WindowProcessed window mem disk songs mem1 urisToAdd
                  Hfut Hdone Hscrape Hsongs Hok) as Hshape.
    cbn zeta in Hshape. unfold afterMark, afterAdd, markedState in Hshape.
    destruct (negb (dryRun args) && endIsPast env args window) eqn:Hmarks;
      cbn [state withState] in Hshape; exact Hshape.
Qed.
End WindowShapes.

(** ** Plain objects as maps *)

Lemma getProperty_own object key value :
  object !! key = Some value -> getProperty object key = Some value.
Proof. unfold getProperty. intros ->. reflexivity. Qed.

Lemma getProperty_not_inherited object key :
  isInheritedKey key = false -> getProperty object key = object !! key.
Proof. unfold getProperty. intros ->. destruct (object !! key); reflexivity. Qed.

(** The assignment makes or writes an own property. *)
Definition assigns (object : gmap jsstring jsstring) (key : jsstring) : Prop :=
  key <> js "__proto__" \/ is_Some (object !! key).

Lemma setProperty_assigns object key value :
  assigns object key -> setProperty object key value = <[key := value]> object.
Proof.
  unfold assigns, setProperty, jsEq. intros [Hne|[v Hv]].
  - rewrite bool_decide_eq_false_2 by exact Hne. destruct (object !! key); reflexivity.
  - rewrite Hv. reflexivity.
Qed.

Lemma setProperty_ignored object value :
  object !! js "__proto__" = None -> setProperty object (js "__proto__") value = object.
Proof. unfold setProperty. intros ->. reflexivity. Qed.

Lemma getProperty_after_set object key value :
  truthy value = true ->
  exists found,
    getProperty (setProperty object key value) key = Some found /\
    truthy found = true /\
    (assigns object key -> found = value).
Proof.
  intros Hvalue. unfold setProperty.
  destruct (object !! key) as [old|] eqn:Eown.
  - exists value. split; [|auto]. apply getProperty_own, lookup_insert_eq.
  - destruct (jsEq key (js "__proto__")) eqn:Eproto.
    + apply bool_decide_eq_true in Eproto. subst key.
      exists (js "[object Object]"). split; [|split].
      * unfold getProperty. rewrite Eown. reflexivity.
      * reflexivity.
      * intros [Hne|[v Hv]]; [contradiction|congruence].
    + exists value. split; [|auto]. apply getProperty_own, lookup_insert_eq.
Qed.

Lemma setProperty_other object key value other :
  other <> key -> setProperty object key value !! other = object !! other.
Proof.
  intros Hne. unfold setProperty.
  destruct (object !! key); [|destruct (jsEq key (js "__proto__"))];
    rewrite ?lookup_insert_ne by congruence; reflexivity.
Qed.

(** ** The processed-window memory *)

(** The entry of a station after a mark. *)
Lemma windowsOfStation_mark st s d k s' :
  windowsOfStation (markWindowProcessed st s d k) s' =
    if decide (s = s')
    then Some (<[d := <[k := true]> (default ∅ (default ∅ (windowsOfStation st s) !! d))]>
                 (default ∅ (windowsOfStation st s)))
    else windowsOfStation st s'.
Proof.
  unfold markWindowProcessed, windowsOfStation.
  destruct (scrapedWindows st !! s) as [byDate|] eqn:Es.
  - cbn [scrapedWindows inheritedWindows]. destruct (decide (s = s')) as [<-|Hs].
    + rewrite lookup_insert_eq. reflexivity.
    + rewrite lookup_insert_ne by assumption. reflexivity.
  - destruct (isInheritedKey s) eqn:Ei; cbn [scrapedWindows inheritedWindows].
    + destruct (decide (s = s')) as [<-|Hs].
      * rewrite Es, Ei, lookup_insert_eq. reflexivity.
      * rewrite lookup_insert_ne by assumption. reflexivity.
    + destruct (decide (s = s')) as [<-|Hs].
      * rewrite lookup_insert_eq. reflexivity.
      * rewrite lookup_insert_ne by assumption. reflexivity.
Qed.



(** The lookup of a window in the entry of its station. *)
Definition windowIn (entry : option (gmap jsstring (gmap jsstring bool)))
    (d k : jsstring) : bool :=
  match entry with
  | Some byDate =>
      match byDate !! d with
      | Some byWindow => default false (byWindow !! k)
      | None => false
      end
  | None => false
  end.

Lemma windowIn_marked entry d k d' k' :
  windowIn (Some (<[d := <[k := true]> (default ∅ (default ∅ entry !! d))]>
                    (default ∅ entry))) d' k' =
    if decide (d = d' /\ k = k') then true else windowIn entry d' k'.
Proof.
  unfold windowIn.
  destruct (decide (d = d')) as [<-|Hd].
  - rewrite lookup_insert_eq.
    destruct (decide (k = k')) as [<-|Hk].
    + rewrite lookup_insert_eq, decide_True by auto. reflexivity.
    + rewrite lookup_insert_ne by assumption.
      rewrite decide_False by (intros (_ & ?); contradiction).
      destruct entry as [byDate|]; simpl.
      * destruct (byDate !! d); simpl; [reflexivity|]. rewrite lookup_empty. reflexivity.
      * rewrite !lookup_empty. simpl. rewrite lookup_empty. reflexivity.
  - rewrite lookup_insert_ne by assumption.
    rewrite decide_False by (intros (? & _); contradiction).
    destruct entry as [byDate|]; simpl; [reflexivity|]. rewrite lookup_empty. reflexivity.
Qed.

Lemma isWindowAlreadyProcessed_mark st s d k s' d' k' :
  isWindowAlreadyProcessed (markWindowProcessed st s d k) s' d' k' =
    if decide (s = s' /\ d = d' /\ k = k') then true
    else isWindowAlreadyProcessed st s' d' k'.
Proof.
  change (windowIn (windowsOfStation (markWindowProcessed st s d k) s') d' k' =
          if decide (s = s' /\ d = d' /\ k = k') then true
          else windowIn (windowsOfStation st s') d' k').
  rewrite windowsOfStation_mark.
  destruct (decide (s = s')) as [<-|Hs].
  - rewrite windowIn_marked.
    destruct (decide (d = d' /\ k = k')) as [[<- <-]|Hn].
    + rewrite decide_True by auto. reflexivity.
    + rewrite decide_False by (intros (_ & ? & ?); apply Hn; auto). reflexivity.
  - rewrite decide_False by (intros (? & _ & _); contradiction). reflexivity.
Qed.


(** Marking removes nothing. *)
Lemma mark_keeps st s d k s' d' k' :
  isWindowAlreadyProcessed st s' d' k' = true ->
  isWindowAlreadyProcessed (markWindowProcessed st s d k) s' d' k' = true.
Proof.
  intros H. rewrite isWindowAlreadyProcessed_mark. destruct (decide _); [reflexivity|exact H].
Qed.

Lemma isWindowAlreadyProcessed_ext st st' s d k :
  scrapedWindows st = scrapedWindows st' ->
  inheritedWindows st = inheritedWindows st' ->
  isWindowAlreadyProcessed st s d k = isWindowAlreadyProcessed st' s d k.
Proof.
  unfold isWindowAlreadyProcessed, windowsOfStation. intros -> ->. reflexivity.
Qed.

(** *** What the state file holds of the marks *)

(** The marks of a station end up in the file: its id is an own key of
    [scrapedWindows], or names no member of [Object.prototype]. *)
Definition marksAreSaved (st : State) (s : jsstring) : bool :=
  match scrapedWindows st !! s with
  | Some _ => true
  | None => negb (isInheritedKey s)
  end.

(** The window is an own entry of [scrapedWindows]. *)
Definition recordedOnFile (st : State) (s d k : jsstring) : bool :=
  windowIn (scrapedWindows st !! s) d k.

Lemma recordedOnFile_ext st st' s d k :
  scrapedWindows st = scrapedWindows st' ->
  recordedOnFile st s d k = recordedOnFile st' s d k.
Proof. unfold recordedOnFile. intros ->. reflexivity. Qed.

Lemma recordedOnFile_processed st s d k :
  recordedOnFile st s d k = true -> isWindowAlreadyProcessed st s d k = true.
Proof.
  unfold recordedOnFile, isWindowAlreadyProcessed, windowsOfStation, windowIn.
  destruct (scrapedWindows st !! s); [auto|discriminate].
Qed.


(** A state just loaded has nothing on the inherited members, which
    hold no date. *)
Lemma loaded_recordedOnFile st s d k :
  inheritedWindows st = ∅ ->
  isWindowAlreadyProcessed st s d k = recordedOnFile st s d k.
Proof.
  unfold recordedOnFile, isWindowAlreadyProcessed, windowsOfStation, windowIn.
  intros ->. destruct (scrapedWindows st !! s); [reflexivity|].
  destruct (isInheritedKey s); [|reflexivity].
  rewrite lookup_empty. simpl. rewrite lookup_empty. reflexivity.
Qed.

Lemma parseState_inherited disk : inheritedWindows (parseState disk) = ∅.
Proof. destruct disk; reflexivity. Qed.

Lemma parsed_recordedOnFile disk s d k :
  isWindowAlreadyProcessed (parseState disk) s d k = recordedOnFile (parseState disk) s d k.
Proof. apply loaded_recordedOnFile, parseState_inherited. Qed.

Lemma scrapedWindows_mark st s d k :
  scrapedWindows (markWindowProcessed st s d k) =
    if marksAreSaved st s
    then <[s := <[d := <[k := true]> (default ∅ (default ∅ (scrapedWindows st !! s) !! d))]>
                  (default ∅ (scrapedWindows st !! s))]> (scrapedWindows st)
    else scrapedWindows st.
Proof.
  unfold markWindowProcessed, marksAreSaved, windowsOfStation.
  destruct (scrapedWindows st !! s); [reflexivity|].
  destruct (isInheritedKey s); reflexivity.
Qed.

Lemma recordedOnFile_mark st s d k s' d' k' :
  recordedOnFile (markWindowProcessed st s d k) s' d' k' =
    if decide (s = s' /\ d = d' /\ k = k') then marksAreSaved st s
    else recordedOnFile st s' d' k'.
Proof.
  unfold recordedOnFile. rewrite scrapedWindows_mark.
  destruct (marksAreSaved st s) eqn:Hsaved.
  - destruct (decide (s = s')) as [<-|Hs].
    + rewrite lookup_insert_eq, windowIn_marked.
      destruct (decide (d = d' /\ k = k')) as [[<- <-]|Hn].
      * rewrite decide_True by auto. reflexivity.
      * rewrite decide_False by (intros (_ & ? & ?); apply Hn; auto). reflexivity.
    + rewrite lookup_insert_ne by assumption.
      rewrite decide_False by (intros (? & _ & _); contradiction). reflexivity.
  - destruct (decide _) as [(<- & <- & <-)|_]; [|reflexivity].
    unfold marksAreSaved in Hsaved. unfold windowIn.
    destruct (scrapedWindows st !! s); [discriminate|reflexivity].
Qed.

Lemma marksAreSaved_ext st st' s :
  scrapedWindows st = scrapedWindows st' -> marksAreSaved st s = marksAreSaved st' s.
Proof. unfold marksAreSaved. intros ->. reflexivity. Qed.


Lemma parseState_Some st : scrapedWindows (parseState (Some st)) = scrapedWindows st.
Proof. reflexivity. Qed.

Lemma parseState_version disk : version (parseState disk) = APP_VERSION.
Proof. destruct disk; reflexivity. Qed.

Lemma parseState_fixed st :
  version st = APP_VERSION -> inheritedWindows st = ∅ -> parseState (Some st) = st.
Proof. destruct st as [v sp sw iw]. cbn. intros -> ->. reflexivity. Qed.

Lemma mapStation_windows args st : scrapedWindows (mapStation args st) = scrapedWindows st.
Proof. reflexivity. Qed.

Lemma stateAfterLoad_windows args disk :
  scrapedWindows (stateAfterLoad args disk) = scrapedWindows (parseState disk).
Proof. unfold stateAfterLoad. destruct (argTruthy _); reflexivity. Qed.

Lemma stateAfterLoad_inherited args disk :
  inheritedWindows (stateAfterLoad args disk) = ∅.
Proof.
  unfold stateAfterLoad. destruct (argTruthy _); [cbn [mapStation inheritedWindows]|];
    apply parseState_inherited.
Qed.

Lemma diskAfterLoad_windows args disk :
  scrapedWindows (parseState (diskAfterLoad args disk)) = scrapedWindows (parseState disk).
Proof. unfold diskAfterLoad. destruct (argTruthy _); reflexivity. Qed.

Lemma stateAfterLoad_processed args disk s d k :
  isWindowAlreadyProcessed (stateAfterLoad args disk) s d k
    = isWindowAlreadyProcessed (parseState disk) s d k.
Proof.
  apply isWindowAlreadyProcessed_ext; [apply stateAfterLoad_windows|].
  rewrite stateAfterLoad_inherited, parseState_inherited. reflexivity.
Qed.

Lemma diskAfterLoad_processed args disk s d k :
  isWindowAlreadyProcessed (parseState (diskAfterLoad args disk)) s d k
    = isWindowAlreadyProcessed (parseState disk) s d k.
Proof.
  apply isWindowAlreadyProcessed_ext; [apply diskAfterLoad_windows|].
  rewrite !parseState_inherited. reflexivity.
Qed.

(** ** The orchestrator: what the song loop leaves alone *)

Section SongLoopFacts.
Context {U : UnicodeOps}.
Variable env : Env.
Variable args : SyncArgs.

(** A relation between memories that every non-failing verdict respects
    is respected by the song loop. *)
Lemma processSongs_rel (R : Mem -> Mem -> Prop) :
  (forall m, R m m) ->
  (forall a b c, R a b -> R b c -> R a c) ->
  (forall v song mem uris,
     (forall e, v <> SearchFailed e) -> R mem (applyVerdict v song (mem, uris)).1) ->
  forall window songs position mem uris disk mem' uris',
    outcome (processSongs env args window position songs (mem, uris) disk)
      = inr (mem', uris') ->
    R mem mem'.
Proof.
  intros Hrefl Htrans Hstep window songs.
  induction songs as [|song rest IH]; intros position mem uris disk mem' uris' Hout.
  - cbn in Hout. injection Hout as <- <-. apply Hrefl.
  - cbn [processSongs] in Hout.
    pose proof (processSong_verdict env args window position song mem uris disk) as Hv.
    cbn zeta in Hv.
    set (v := verdict env (runSeenSongKeys mem) (playlistIndex mem) window position song)
      in *.
    destruct (outcome (processSong env args window position song (mem, uris) disk))
      as [e|[mem1 uris1]] eqn:Ho.
    + rewrite (bind_inl _ _ _ _ Ho) in Hout. discriminate.
    + rewrite (bind_inr' _ _ _ _ Ho) in Hout. cbn [prepend outcome] in Hout.
      apply IH in Hout. eapply Htrans; [|exact Hout].
      rewrite Hv in Ho. cbn [outcome] in Ho.
      assert (Hnf : forall e, v <> SearchFailed e).
      { intros e E. rewrite E in Ho. discriminate. }
      specialize (Hstep v song mem uris Hnf).
      assert (E : applyVerdict v song (mem, uris) = (mem1, uris1)).
      { destruct v; congruence. }
      rewrite E in Hstep. exact Hstep.
Qed.

(** The fields the song loop never writes. *)
Definition SameWindowData (mem mem' : Mem) : Prop :=
  state mem' = state mem /\
  windowsPlanned (stats mem') = windowsPlanned (stats mem) /\
  windowsSkippedAlreadyDone (stats mem') = windowsSkippedAlreadyDone (stats mem) /\
  windowsSkippedFuture (stats mem') = windowsSkippedFuture (stats mem) /\
  windowsProcessed (stats mem') = windowsProcessed (stats mem) /\
  windowsNotMarkedNotInPast (stats mem') = windowsNotMarkedNotInPast (stats mem) /\
  tracksAdded (stats mem') = tracksAdded (stats mem).

Lemma songLoop_same_window_data window songs mem disk mem1 urisToAdd :
  outcome (songLoop env args window songs mem disk) = inr (mem1, urisToAdd) ->
  SameWindowData mem mem1.
Proof.
  intros Hout. unfold songLoop in Hout.
  apply (processSongs_rel SameWindowData) in Hout.
  - unfold SameWindowData in *. cbn in Hout. exact Hout.
  - intros m. unfold SameWindowData. repeat split; reflexivity.
  - unfold SameWindowData. intros a b c Hab Hbc.
    destruct Hab as (? & ? & ? & ? & ? & ? & ?), Hbc as (? & ? & ? & ? & ? & ? & ?).
    repeat split; congruence.
  - intros v song m uris _. unfold SameWindowData.
    destruct v; cbn; repeat split; reflexivity.
Qed.

(** The sets that suppress duplicates only grow. *)
Definition Grows (mem mem' : Mem) : Prop :=
  runSeenSongKeys mem ⊆ runSeenSongKeys mem' /\
  songKeys (playlistIndex mem) ⊆ songKeys (playlistIndex mem') /\
  trackIds (playlistIndex mem) ⊆ trackIds (playlistIndex mem').

Lemma Grows_refl mem : Grows mem mem.
Proof. unfold Grows. repeat split; reflexivity. Qed.

Lemma Grows_trans a b c : Grows a b -> Grows b c -> Grows a c.
Proof.
  unfold Grows. intros (? & ? & ?) (? & ? & ?). repeat split; set_solver.
Qed.

Lemma applyVerdict_grows v song mem uris :
  Grows mem (applyVerdict v song (mem, uris)).1.
Proof. unfold Grows. destruct v; cbn; repeat split; set_solver. Qed.

Lemma processSongs_grows window songs position mem uris disk mem' uris' :
  outcome (processSongs env args window position songs (mem, uris) disk)
    = inr (mem', uris') ->
  Grows mem mem'.
Proof.
  apply (processSongs_rel Grows).
  - apply Grows_refl.
  - apply Grows_trans.
  - intros v song m u _. apply applyVerdict_grows.
Qed.
End SongLoopFacts.

(** ** The orchestrator: marking a window *)

Section Marking.
Context {U : UnicodeOps}.
Variable env : Env.
Variable args : SyncArgs.

(** The window is marked by the loop body: dry-run is off, the window is
    not skipped, and its end is in the past when the body asks. *)
Definition marksWindow (window : TimeWindow) (st : State) : bool :=
  negb (dryRun args) && negb (skipsAsFuture env args window)
  && negb (skipsAsDone args window st) && endIsPast env args window.

Lemma state_afterAdd mem1 uris : state (afterAdd args mem1 uris) = state mem1.
Proof. unfold afterAdd. destruct (_ && _); reflexivity. Qed.

Lemma processWindow_memory playlistId window mem disk :
  let r := processWindow env args playlistId window mem disk in
  let marked := marksWindow window (state mem) in
  (forall e, outcome r = inl e ->
     diskAfter r = disk /\ List.filter isSaveEvent (events r) = []) /\
  (forall mem', outcome r = inr mem' ->
     state mem' = (if marked then markedState args window (state mem) else state mem) /\
     diskAfter r = (if marked then Some (state mem') else disk) /\
     List.filter isSaveEvent (events r) =
       (if marked then [EvSaveState (state mem')] else []) /\
     (dryRun args = false -> skipsAsFuture env args window = false ->
      skipsAsDone args window (state mem) = false ->
      endIsPast env args window = false ->
      windowsNotMarkedNotInPast (stats mem')
        = S (windowsNotMarkedNotInPast (stats mem)))).
Proof.
  cbn zeta. unfold marksWindow.
  destruct (processWindow_shape env args playlistId window mem disk)
    as [Hfut|Hfut Hdone|Hfut Hdone Hscrape|songs e Hfut Hdone Hscrape Hsongs
       |songs mem1 uris Hfut Hdone Hscrape Hsongs Hdry Hne Hadd
       |songs mem1 uris Hfut Hdone Hscrape Hsongs Hadd];
    cbn [outcome diskAfter events].
  - rewrite Hfut, andb_false_r. split; [discriminate|].
    intros mem' [= <-]. repeat split; try reflexivity. congruence.
  - rewrite Hdone, andb_false_r. split; [discriminate|].
    intros mem' [= <-]. repeat split; try reflexivity. congruence.
  - split; [|discriminate]. intros _ _. split; reflexivity.
  - split; [|discriminate]. intros _ _. split; [reflexivity|].
    cbn [List.filter isSaveEvent]. apply matching_no_save.
    apply (processSongs_frame env args window songs).
  - split; [|discriminate]. intros _ _. split; [reflexivity|].
    cbn [List.filter isSaveEvent]. rewrite List.filter_app.
    rewrite matching_no_save by apply (processSongs_frame env args window songs).
    reflexivity.
  - split; [discriminate|]. intros mem' [= <-].
    pose proof (songLoop_same_window_data env args window songs mem disk mem1 uris Hsongs)
      as (Hst & _ & _ & _ & _ & Hnm & _).
    subst marks mem3. rewrite Hfut, Hdone. cbn [negb]. rewrite !andb_true_r.
    assert (Hsave : List.filter isSaveEvent
                      (events (songLoop env args window songs mem disk)) = []).
    { apply matching_no_save. apply (processSongs_frame env args window songs). }
    unfold afterMark.
    destruct (negb (dryRun args) && endIsPast env args window) eqn:Hmarks.
    + cbn [withStats withState state stats].
      rewrite state_afterAdd, Hst.
      repeat split; try reflexivity.
      * cbn [List.filter isSaveEvent]. rewrite !List.filter_app, Hsave.
        destruct (negb (dryRun args) && (0 <? length uris)%nat),
          (0 <? sourceDelayMs args); reflexivity.
      * intros Hd _ _ Hpast. rewrite Hd, Hpast in Hmarks. discriminate.
    + destruct (dryRun args) eqn:Hd; cbn [negb andb] in *.
      * cbn [withStats state stats]. rewrite state_afterAdd, Hst.
        repeat split; try reflexivity; try discriminate.
        cbn [List.filter isSaveEvent]. rewrite !List.filter_app, Hsave.
        destruct (0 <? sourceDelayMs args); reflexivity.
      * cbn [withStats state stats]. rewrite state_afterAdd, Hst.
        repeat split; try reflexivity.
        -- cbn [List.filter isSaveEvent]. rewrite !List.filter_app, Hsave.
           destruct (0 <? length uris)%nat, (0 <? sourceDelayMs args); reflexivity.
        -- intros _ _ _ _. unfold afterAdd. rewrite Hd. cbn [negb andb].
           destruct (0 <? length uris)%nat; cbn; rewrite Hnm; lia.
Qed.
End Marking.

Section MemoryLoop.
Context {U : UnicodeOps}.
Variable env : Env.
Variable args : SyncArgs.
Variable playlistId : jsstring.

(** The file and the memory hold the same own entries of
    [scrapedWindows]. *)
Definition InSync (mem : Mem) (disk : option State) : Prop :=
  scrapedWindows (parseState disk) = scrapedWindows (state mem).

(** An entry that this run may add: the key of a planned window whose
    end was in the past when the loop body asked, dry-run being off. *)
Definition ValidMark (windows : list TimeWindow) (s d k : jsstring) : Prop :=
  dryRun args = false /\ s = stationId args /\ d = date args /\
  exists w, In w windows /\ k = windowKeyOf w /\ endIsPast env args w = true.

Lemma ValidMark_cons w windows s d k :
  ValidMark windows s d k -> ValidMark (w :: windows) s d k.
Proof.
  intros (Hd & Hs & Hdate & w' & Hin & Hk & Hpast).
  repeat split; try assumption. exists w'. repeat split; [right|..]; assumption.
Qed.

Lemma processWindow_on_file w mem disk mem1 :
  InSync mem disk ->
  outcome (processWindow env args playlistId w mem disk) = inr mem1 ->
  let disk1 := diskAfter (processWindow env args playlistId w mem disk) in
  InSync mem1 disk1 /\
  (forall s d k,
     recordedOnFile (parseState disk1) s d k = true ->
     recordedOnFile (parseState disk) s d k = true \/ ValidMark [w] s d k) /\
  (forall s d k,
     recordedOnFile (parseState disk) s d k = true ->
     recordedOnFile (parseState disk1) s d k = true).
Proof.
  intros Hsync Ho. cbn zeta.
  pose proof (processWindow_memory env args playlistId w mem disk) as [_ Hok].
  cbn zeta in Hok. destruct (Hok mem1 Ho) as (Hst & Hdisk & _ & _).
  rewrite Hdisk.
  destruct (marksWindow env args w (state mem)) eqn:Hm.
  2: { split; [unfold InSync; rewrite Hst; exact Hsync|]. split; auto. }
  split; [reflexivity|].
  assert (Hread : forall s d k,
            recordedOnFile (parseState (Some (state mem1))) s d k =
              if decide (stationId args = s /\ date args = d /\ windowKeyOf w = k)
              then marksAreSaved (state mem) (stationId args)
              else recordedOnFile (parseState disk) s d k).
  { intros s d k.
    rewrite (recordedOnFile_ext _ (state mem1) s d k (parseState_Some _)).
    rewrite Hst. unfold markedState. rewrite recordedOnFile_mark.
    destruct (decide _); [reflexivity|]. apply recordedOnFile_ext. symmetry. exact Hsync. }
  split; intros s d k H; rewrite Hread in *.
  - destruct (decide _) as [(<- & <- & <-)|_]; [|left; exact H].
    right. unfold marksWindow in Hm.
    apply andb_true_iff in Hm as [Hm Hpast].
    apply andb_true_iff in Hm as [Hm _].
    apply andb_true_iff in Hm as [Hd _]. apply negb_true_iff in Hd.
    repeat split; try assumption.
    exists w. repeat split; [left; reflexivity|assumption].
  - destruct (decide _) as [(<- & <- & <-)|_]; [|exact H].
    rewrite (marksAreSaved_ext _ (parseState disk)) by (symmetry; exact Hsync).
    unfold marksAreSaved. unfold recordedOnFile, windowIn in H.
    destruct (scrapedWindows (parseState disk) !! stationId args); [reflexivity|discriminate].
Qed.

Lemma processWindows_memory windows : forall mem disk,
  InSync mem disk ->
  let r := processWindows env args playlistId windows mem disk in
  (forall s d k,
     recordedOnFile (parseState (diskAfter r)) s d k = true ->
     recordedOnFile (parseState disk) s d k = true \/ ValidMark windows s d k) /\
  (forall s d k,
     recordedOnFile (parseState disk) s d k = true ->
     recordedOnFile (parseState (diskAfter r)) s d k = true) /\
  (forall mem', outcome r = inr mem' -> InSync mem' (diskAfter r)).
Proof.
  induction windows as [|w rest IH]; intros mem disk Hsync; cbn zeta.
  - cbn [processWindows ret outcome diskAfter].
    split; [|split]; [intros s d k H; left; exact H|intros s d k H; exact H|].
    intros mem' [= <-]. exact Hsync.
  - cbn [processWindows].
    pose proof (processWindow_memory env args playlistId w mem disk) as [Hfail _].
    cbn zeta in Hfail.
    destruct (outcome (processWindow env args playlistId w mem disk)) as [e|mem1] eqn:Ho.
    + rewrite (bind_inl _ _ _ _ Ho). cbn [outcome diskAfter].
      destruct (Hfail e eq_refl) as [-> _].
      split; [|split]; [intros s d k H; left; exact H|intros s d k H; exact H|discriminate].
    + rewrite (bind_inr' _ _ _ _ Ho). cbn [prepend outcome diskAfter].
      destruct (processWindow_on_file w mem disk mem1 Hsync Ho) as (Hsync1 & Hnew1 & Hkeep1).
      cbn zeta in Hsync1, Hnew1, Hkeep1.
      destruct (IH mem1 _ Hsync1) as (Hnew & Hkeep & Hinv). cbn zeta in Hnew, Hkeep, Hinv.
      split; [|split].
      * intros s d k H. apply Hnew in H as [H|H]; [|right; apply ValidMark_cons; exact H].
        apply Hnew1 in H as [H|H]; [left; exact H|right].
        destruct H as (Hd & Hs & Hdate & w' & [<-|[]] & Hk & Hpast).
        repeat split; try assumption.
        exists w. repeat split; [left; reflexivity|assumption..].
      * intros s d k H. apply Hkeep, Hkeep1, H.
      * exact Hinv.
Qed.
End MemoryLoop.

(** The windows a run plans. *)
Definition plannedWindows (args : SyncArgs) : list TimeWindow :=
  default [] (buildWindows (timeFrom args) (timeTo args) (windowHours args)).

(** C3.  In every run, also one that ends in an error: the loop body marks
    a window exactly when dry-run is off, the window is not skipped and
    its end is in the past at that moment in Europe/Warsaw; a window
    scraped without dry-run whose end is not yet past keeps the memory
    as it was and is counted in [windowsNotMarkedNotInPast]; marking
    removes no entry; and the entries of the saved memory after the run
    are those before it and entries of planned windows so marked. *)
Theorem marked_only_when_past {U : UnicodeOps} (env : Env) (args : SyncArgs) :
  (* the loop body *)
  (forall playlistId window mem disk mem',
     outcome (processWindow env args playlistId window mem disk) = inr mem' ->
     state mem' =
       (if negb (dryRun args) && negb (skipsAsFuture env args window)
           && negb (skipsAsDone args window (state mem)) && endIsPast env args window
        then markWindowProcessed (state mem) (stationId args) (date args)
               (windowKeyOf window)
        else state mem) /\
     (dryRun args = false -> skipsAsFuture env args window = false ->
      skipsAsDone args window (state mem) = false ->
      endIsPast env args window = false ->
      state mem' = state mem /\
      windowsNotMarkedNotInPast (stats mem')
        = S (windowsNotMarkedNotInPast (stats mem)))) /\
  (* nothing is removed *)
  (forall st s d k s' d' k',
     isWindowAlreadyProcessed st s' d' k' = true ->
     isWindowAlreadyProcessed (markWindowProcessed st s d k) s' d' k' = true) /\
  (* the run *)
  (forall disk s d k,
     let r := runSyncCommand env args disk in
     (isWindowAlreadyProcessed (parseState (diskAfter r)) s d k = true ->
      isWindowAlreadyProcessed (parseState disk) s d k = true \/
      (dryRun args = false /\ s = stationId args /\ d = date args /\
       exists w, In w (plannedWindows args) /\ k = windowKeyOf w /\
                 isWindowFullyInPastInWarsaw (nowAtPastCheck env w) (targetDate args)
                   (to w) = true)) /\
     (isWindowAlreadyProcessed (parseState disk) s d k = true ->
      isWindowAlreadyProcessed (parseState (diskAfter r)) s d k = true) /\
     (forall mem, outcome r = inr mem ->
        scrapedWindows (state mem) = scrapedWindows (parseState (diskAfter r)))).
Proof.
  split; [|split].
  - intros playlistId window mem disk mem' Hout.
    destruct (processWindow_memory env args playlistId window mem disk) as [_ Hok].
    destruct (Hok mem' Hout) as (Hst & _ & _ & Hcount).
    split; [exact Hst|].
    intros Hd Hf Hdone Hpast. split; [|apply Hcount; assumption].
    rewrite Hst. unfold marksWindow. rewrite Hpast, andb_false_r. reflexivity.
  - intros st s d k s' d' k'. apply mark_keeps.
  - intros disk s d k. cbn zeta.
    destruct (runSyncCommand_shape env args disk)
      as [e Hv|e tail Hv Htail|playlistId currentUserId meta pages windows Hv Hpid Htruthy Huser Hmeta Hwritable
         Hpages Hwin];
      cbn [prepend outcome diskAfter].
    + split; [|split]; [intros H; left; exact H|intros H; exact H|discriminate].
    + rewrite !diskAfterLoad_processed.
      split; [|split]; [intros H; left; exact H|intros H; exact H|discriminate].
    + assert (Hsync : InSync (initialMem (stateAfterLoad args disk) pages windows)
                        (diskAfterLoad args disk)).
      { unfold InSync. cbn [initialMem state].
        rewrite stateAfterLoad_windows, diskAfterLoad_windows. reflexivity. }
      destruct (processWindows_memory env args playlistId windows _ _ Hsync)
        as (Hnew & Hkeep & Hinv). cbn zeta in Hnew, Hkeep, Hinv.
      specialize (Hnew s d k). specialize (Hkeep s d k).
      rewrite !parsed_recordedOnFile.
      rewrite (recordedOnFile_ext _ _ s d k (diskAfterLoad_windows args disk))
        in Hnew, Hkeep.
      split; [|split].
      * intros H. apply Hnew in H as [H|H]; [left; exact H|right].
        unfold plannedWindows. rewrite Hwin. exact H.
      * exact Hkeep.
      * intros mem Hout. symmetry. apply Hinv. exact Hout.
Qed.

(** ** Two runs in sequence *)

Definition clockDay (n : WarsawNowParts) : Z := dateKey (year n) (month n) (day n).
Definition clockMinutes (n : WarsawNowParts) : Z := hour n * 60 + minute n.

(** The reading [b] is not earlier than the reading [a]. *)
Definition notEarlier (a b : WarsawNowParts) : Prop :=
  clockDay a < clockDay b \/ (clockDay a = clockDay b /\ clockMinutes a <= clockMinutes b).





Section TwoRuns.
Context {U : UnicodeOps}.
Variable env : Env.
Variable args : SyncArgs.
Variable playlistId : jsstring.




End TwoRuns.

Lemma validRange_bounds args :
  validRange args = true ->
  0 <= timeFrom args < timeTo args /\ timeTo args <= 24 /\
  (windowHours args = 1 \/ windowHours args = 2).
Proof. unfold validRange. lia. Qed.


Lemma afterLoad_sync args disk :
  parseState (diskAfterLoad args disk) = stateAfterLoad args disk.
Proof.
  unfold diskAfterLoad, stateAfterLoad. destruct (argTruthy _); [|reflexivity].
  apply parseState_fixed; [apply parseState_version|apply parseState_inherited].
Qed.










(** *** A run to evaluate: station 40 on 24-02-2026, hours 0 to 4 *)

Definition demoArgs (dry frc : bool) (pl : option ArgValue) : SyncArgs :=
  {| stationId := js "40"; date := js "24-02-2026"; targetDate := demoDate;
     timeFrom := 0; timeTo := 4; windowHours := 2;
     sourceDelayMs := DEFAULT_SOURCE_DELAY_MS; spotifyDelayMs := DEFAULT_SPOTIFY_DELAY_MS;
     dryRun := dry; force := frc; playlist := pl |}.

(** The first window plays Abba and Queen, the second Abba again; the
    service knows "Waterloo" only. *)
Definition demoEnv (now : WarsawNowParts) : Env :=
  {| currentUser := Some (js "me");
     playlistMeta := fun pid =>
       Some {| metaId := pid; metaName := js "Mirror"; metaOwnerId := js "me";
               metaCollaborative := false |};
     playlistPages := fun _ => Some [[]];
     nowAtFutureCheck := fun _ => now;
     nowAtPastCheck := fun _ => now;
     scrapeSongsFromSource := fun url =>
       if jsEq (url_time_from url) (js "0")
       then Some [demoSong "Abba" "Waterloo" {| from := 0; to := 2 |};
                  demoSong "Queen" "Flash" {| from := 0; to := 2 |}]
       else Some [demoSong "ABBA" "Waterloo (Live)" {| from := 2; to := 4 |}];
     searchTracks := fun _ _ query _ =>
       if includes query (js "Waterloo")
       then Some [demoTrack "w1" "ABBA" "Waterloo" "album" 60] else Some [];
     addTracksSucceeds := fun _ => true |}.

Definition nextDay : WarsawNowParts :=
  {| year := 2026; month := 2; day := 25; hour := 10; minute := 0 |}.

Definition sameDayAt3 : WarsawNowParts :=
  {| year := 2026; month := 2; day := 24; hour := 3; minute := 0 |}.

Definition demoDisk : option State :=
  Some {| version := 1; stationPlaylists := {[ js "40" := js "pl1" ]};
          scrapedWindows := ∅; inheritedWindows := ∅ |}.





(** ** Dry run *)

Section DryRun.
Context {U : UnicodeOps}.
Variable env : Env.
Variable args : SyncArgs.
Variable playlistId : jsstring.
Hypothesis Hdry : dryRun args = true.

Lemma processWindow_dry window mem disk :
  let r := processWindow env args playlistId window mem disk in
  diskAfter r = disk /\
  List.filter isAddEvent (events r) = [] /\
  List.filter isSaveEvent (events r) = [] /\
  (forall mem', outcome r = inr mem' ->
     state mem' = state mem /\
     tracksAdded (stats mem') = tracksAdded (stats mem) /\
     windowsNotMarkedNotInPast (stats mem') = windowsNotMarkedNotInPast (stats mem)).
Proof.
  cbn zeta.
  pose proof (fun songs =>
    proj1 (processSongs_frame env args window songs 0
             (withStats (bump SongsScraped (length songs)) mem, []) disk)) as Hm.
  destruct (processWindow_shape env args playlistId window mem disk)
    as [Hfut|Hfut Hdone|Hfut Hdone Hscrape|songs e Hfut Hdone Hscrape Hsongs
       |songs mem1 uris Hfut Hdone Hscrape Hsongs Hd Hne Hadd
       |songs mem1 uris Hfut Hdone Hscrape Hsongs Hadd];
    cbn [outcome diskAfter events].
  - do 3 (split; [reflexivity|]). intros mem' [= <-]. repeat split.
  - do 3 (split; [reflexivity|]). intros mem' [= <-]. repeat split.
  - do 3 (split; [reflexivity|]). discriminate.
  - cbn [List.filter isAddEvent isSaveEvent].
    rewrite matching_no_add, matching_no_save by apply Hm.
    do 3 (split; [reflexivity|]). discriminate.
  - congruence.
  - subst marks mem3. unfold afterMark, afterAdd. rewrite Hdry. cbn [negb andb].
    cbn [List.filter isAddEvent isSaveEvent]. rewrite !List.filter_app.
    rewrite matching_no_add, matching_no_save by apply Hm.
    pose proof (songLoop_same_window_data env args window songs mem disk mem1 uris Hsongs)
      as (Hst & _ & _ & _ & _ & Hnm & Hta).
    split; [reflexivity|].
    split; [destruct (0 <? sourceDelayMs args); reflexivity|].
    split; [destruct (0 <? sourceDelayMs args); reflexivity|].
    intros mem' [= <-]. cbn. repeat split; assumption.
Qed.

Lemma processWindows_dry windows : forall mem disk,
  let r := processWindows env args playlistId windows mem disk in
  diskAfter r = disk /\
  List.filter isAddEvent (events r) = [] /\
  List.filter isSaveEvent (events r) = [] /\
  (forall mem', outcome r = inr mem' ->
     state mem' = state mem /\
     tracksAdded (stats mem') = tracksAdded (stats mem) /\
     windowsNotMarkedNotInPast (stats mem') = windowsNotMarkedNotInPast (stats mem)).
Proof.
  induction windows as [|w rest IH]; intros mem disk; cbn zeta.
  - cbn. do 3 (split; [reflexivity|]). intros mem' [= <-]. repeat split.
  - cbn [processWindows].
    destruct (processWindow_dry w mem disk) as (Hd & Ha & Hs & Hm). cbn zeta in *.
    destruct (outcome (processWindow env args playlistId w mem disk)) as [e|mem1] eqn:Ho.
    + rewrite (bind_inl _ _ _ _ Ho). cbn [outcome diskAfter events].
      do 3 (split; [assumption|]). discriminate.
    + rewrite (bind_inr' _ _ _ _ Ho). cbn [prepend outcome diskAfter events].
      rewrite Hd. destruct (IH mem1 disk) as (Hd' & Ha' & Hs' & Hm'). cbn zeta in *.
      rewrite !List.filter_app, Ha, Ha', Hs, Hs'.
      split; [assumption|]. do 2 (split; [reflexivity|]).
      intros mem' Hout. destruct (Hm' mem' Hout) as (? & ? & ?).
      destruct (Hm mem1 eq_refl) as (? & ? & ?). repeat split; congruence.
Qed.
End DryRun.




Definition demoMem : Mem :=
  @initialMem Latin1 (parseState demoDisk) [[]]
    [{| from := 0; to := 2 |}; {| from := 2; to := 4 |}].

Lemma window_add_request_witness :
  dryRun (demoArgs false false None) = false /\
  List.filter isAddEvent
    (events (@processWindow Latin1 (demoEnv nextDay) (demoArgs false false None) (js "pl1")
               {| from := 0; to := 2 |} demoMem demoDisk))
  = [EvAddTracks (js "pl1") [js "spotify:track:w1"] (Some 0)].
Proof.
  split; [reflexivity|].
  assert (Hsongs : exists mem1,
            outcome (@processSongs Latin1 (demoEnv nextDay) (demoArgs false false None)
                       {| from := 0; to := 2 |} 0
                       [demoSong "Abba" "Waterloo" {| from := 0; to := 2 |};
                        demoSong "Queen" "Flash" {| from := 0; to := 2 |}]
                       (withStats (bump SongsScraped 2) demoMem, []) demoDisk)
            = inr (mem1, [js "spotify:track:w1"])).
  { vm_compute. eexists. reflexivity. }
  destruct Hsongs as [mem1 Hsongs].
  destruct (@window_add_request Latin1 (demoEnv nextDay) (demoArgs false false None)
              (js "pl1") {| from := 0; to := 2 |} demoMem demoDisk
              [demoSong "Abba" "Waterloo" {| from := 0; to := 2 |};
               demoSong "Queen" "Flash" {| from := 0; to := 2 |}]
              mem1 [js "spotify:track:w1"] eq_refl eq_refl eq_refl eq_refl Hsongs)
    as [Hadd _].
  exact Hadd.
Defined.

(** ** Dry run against the run proper *)

Definition withDryRun (b : bool) (args : SyncArgs) : SyncArgs :=
  {| stationId := stationId args; date := date args; targetDate := targetDate args;
     timeFrom := timeFrom args; timeTo := timeTo args; windowHours := windowHours args;
     sourceDelayMs := sourceDelayMs args; spotifyDelayMs := spotifyDelayMs args;
     dryRun := b; force := force args; playlist := playlist args |}.

Lemma withDryRun_same args : withDryRun (dryRun args) args = args.
Proof. destruct args. reflexivity. Qed.

(** The counters of the windows seen and of the matching pipeline: all
    but [tracksAdded] and [windowsNotMarkedNotInPast]. *)
Definition matchingStats (s : SyncStats) : list nat :=
  [windowsPlanned s; windowsSkippedAlreadyDone s; windowsSkippedFuture s;
   windowsProcessed s; songsScraped s; songsDuplicateSkipped s;
   songsAlreadyInPlaylistSkipped s; songsMatched s; songsUnmatched s].

Definition SameMatching (a b : Mem) : Prop :=
  runSeenSongKeys a = runSeenSongKeys b /\
  playlistIndex a = playlistIndex b /\
  matchingStats (stats a) = matchingStats (stats b).

(** The calls other than the add and the save. *)
Definition isPipelineEvent (e : Event) : bool := negb (isAddEvent e || isSaveEvent e).

Lemma matching_all_pipeline (evs : list Event) :
  Forall Matching evs -> List.filter isPipelineEvent evs = evs.
Proof.
  intros H. induction H as [|e evs He _ IH]; [reflexivity|].
  cbn [List.filter]. rewrite IH.
  destruct e; cbn in He |- *; try discriminate; reflexivity.
Qed.

Lemma bump_matchingStats c n a b :
  c <> TracksAdded -> c <> WindowsNotMarkedNotInPast ->
  matchingStats a = matchingStats b ->
  matchingStats (bump c n a) = matchingStats (bump c n b).
Proof.
  unfold matchingStats. intros Hc1 Hc2 H.
  injection H as H1 H2 H3 H4 H5 H6 H7 H8 H9.
  destruct c; cbn; try congruence.
Qed.

Lemma bump_matchingStats_other c n a :
  c = TracksAdded \/ c = WindowsNotMarkedNotInPast ->
  matchingStats (bump c n a) = matchingStats a.
Proof. intros [-> | ->]; reflexivity. Qed.

Section DrySimulation.
Context {U : UnicodeOps}.
Variable env : Env.
Variable args : SyncArgs.
Variable playlistId : jsstring.

Let dry := withDryRun true args.
Let wet := withDryRun false args.

Lemma applyVerdict_same v song memD memN uris :
  SameMatching memD memN ->
  SameMatching (applyVerdict v song (memD, uris)).1 (applyVerdict v song (memN, uris)).1 /\
  (applyVerdict v song (memD, uris)).2 = (applyVerdict v song (memN, uris)).2.
Proof.
  intros (Hseen & Hindex & Hstats). unfold SameMatching.
  destruct v; cbn; rewrite ?Hseen, ?Hindex;
    repeat split; try reflexivity; try assumption;
    apply bump_matchingStats; (discriminate || assumption).
Qed.

Lemma processSongs_same window songs : forall position memD memN uris diskD diskN,
  SameMatching memD memN ->
  let rD := processSongs env dry window position songs (memD, uris) diskD in
  let rN := processSongs env wet window position songs (memN, uris) diskN in
  events rD = events rN /\
  match outcome rN with
  | inr (memN', uris') =>
      exists memD', outcome rD = inr (memD', uris') /\ SameMatching memD' memN'
  | inl e => outcome rD = inl e
  end.
Proof.
  induction songs as [|song rest IH]; intros position memD memN uris diskD diskN Hsame;
    cbn zeta.
  - cbn. split; [reflexivity|]. exists memD. split; [reflexivity|exact Hsame].
  - cbn [processSongs].
    pose proof (processSong_verdict env dry window position song memD uris diskD) as HD.
    pose proof (processSong_verdict env wet window position song memN uris diskN) as HN.
    cbn zeta in HD, HN.
    destruct Hsame as (Hseen & Hindex & Hstats).
    rewrite Hseen, Hindex in HD.
    set (v := verdict env (runSeenSongKeys memN) (playlistIndex memN) window position song)
      in *.
    change (verdictEvents dry v position song) with (verdictEvents wet v position song)
      in HD.
    destruct (applyVerdict_same v song memD memN uris (conj Hseen (conj Hindex Hstats)))
      as [Hsame' Huris'].
    destruct (applyVerdict v song (memD, uris)) as [memD1 urisD1] eqn:ED.
    destruct (applyVerdict v song (memN, uris)) as [memN1 urisN1] eqn:EN.
    cbn [fst snd] in Hsame', Huris'. subst urisD1.
    assert (Hcases : (exists e, v = SearchFailed e) \/
                     (outcome (processSong env dry window position song (memD, uris) diskD)
                        = inr (memD1, urisN1) /\
                      outcome (processSong env wet window position song (memN, uris) diskN)
                        = inr (memN1, urisN1))).
    { rewrite HD, HN. cbn [outcome].
      destruct v; try (right; split; reflexivity). left. eexists. reflexivity. }
    destruct Hcases as [[e Hv]|[HoD HoN]].
    + assert (HoD : outcome (processSong env dry window position song (memD, uris) diskD)
                    = inl e) by (rewrite HD, Hv; reflexivity).
      assert (HoN : outcome (processSong env wet window position song (memN, uris) diskN)
                    = inl e) by (rewrite HN, Hv; reflexivity).
      rewrite (bind_inl _ _ _ _ HoD), (bind_inl _ _ _ _ HoN). cbn [outcome events].
      rewrite HD, HN. split; reflexivity.
    + rewrite (bind_inr' _ _ _ _ HoD), (bind_inr' _ _ _ _ HoN).
      cbn [prepend outcome events].
      destruct (IH (S position) memD1 memN1 urisN1
                  (diskAfter (processSong env dry window position song (memD, uris) diskD))
                  (diskAfter (processSong env wet window position song (memN, uris) diskN))
                  Hsame') as [Hev Hout].
      cbn zeta in Hev, Hout.
      split; [|exact Hout].
      rewrite Hev. f_equal. rewrite HD, HN. reflexivity.
Qed.
End DrySimulation.

(** The keys of a plan are pairwise different: checked on every accepted
    hour range. *)
Definition distinctKeys (f t w : Z) : bool :=
  bool_decide (NoDup (map windowKeyOf (default [] (buildWindows f t w)))).

Definition hours : list Z := List.map Z.of_nat (List.seq 0 25).

Lemma hours_all h : 0 <= h <= 24 -> In h hours.
Proof.
  intros Hh. unfold hours. apply List.in_map_iff. exists (Z.to_nat h).
  split; [lia|]. apply List.in_seq. lia.
Qed.

Lemma distinctKeys_all :
  List.forallb
    (fun f => List.forallb (fun t => List.forallb (distinctKeys f t) [1; 2]) hours)
    hours = true.
Proof. vm_compute. reflexivity. Qed.

Lemma plannedWindows_distinct args :
  validRange args = true -> NoDup (map windowKeyOf (plannedWindows args)).
Proof.
  intros Hv. apply validRange_bounds in Hv as (Hr & Ht & Hw).
  pose proof distinctKeys_all as Hall.
  rewrite List.forallb_forall in Hall.
  specialize (Hall (timeFrom args) (hours_all (timeFrom args) ltac:(lia))).
  rewrite List.forallb_forall in Hall.
  specialize (Hall (timeTo args) (hours_all (timeTo args) ltac:(lia))).
  rewrite List.forallb_forall in Hall.
  assert (Hin : In (windowHours args) [1; 2]) by (cbn; lia).
  specialize (Hall _ Hin). unfold distinctKeys in Hall.
  apply bool_decide_eq_true in Hall. exact Hall.
Qed.

Section DryWindows.
Context {U : UnicodeOps}.
Variable env : Env.
Variable args : SyncArgs.
Variable playlistId : jsstring.

Let dry := withDryRun true args.
Let wet := withDryRun false args.

Lemma skipsAsDone_other w w' st :
  windowKeyOf w' <> windowKeyOf w ->
  skipsAsDone args w' (markedState args w st) = skipsAsDone args w' st.
Proof.
  intros Hne. unfold skipsAsDone, markedState.
  rewrite isWindowAlreadyProcessed_mark.
  rewrite decide_False by (intros (_ & _ & ?); congruence). reflexivity.
Qed.

Lemma processWindow_same w memD memN diskD diskN memN' :
  SameMatching memD memN ->
  skipsAsDone args w (state memD) = skipsAsDone args w (state memN) ->
  outcome (processWindow env wet playlistId w memN diskN) = inr memN' ->
  exists memD',
    outcome (processWindow env dry playlistId w memD diskD) = inr memD' /\
    SameMatching memD' memN' /\
    List.filter isPipelineEvent (events (processWindow env dry playlistId w memD diskD))
      = List.filter isPipelineEvent
          (events (processWindow env wet playlistId w memN diskN)) /\
    state memD' = state memD /\
    (forall w', windowKeyOf w' <> windowKeyOf w ->
       skipsAsDone args w' (state memN') = skipsAsDone args w' (state memN)).
Proof.
  intros Hsame Hskip Hout.
  destruct (skipsAsFuture env args w) eqn:Hfut.
  { rewrite (processWindow_future env wet playlistId w memN diskN Hfut) in Hout |- *.
    rewrite (processWindow_future env dry playlistId w memD diskD Hfut).
    cbn [outcome events] in Hout |- *. injection Hout as <-.
    eexists. split; [reflexivity|]. split; [|repeat split].
    destruct Hsame as (? & ? & ?). repeat split; cbn; try assumption.
    apply bump_matchingStats; (discriminate || assumption). }
  destruct (skipsAsDone args w (state memN)) eqn:Hdone.
  { rewrite (processWindow_done env wet playlistId w memN diskN Hfut Hdone) in Hout |- *.
    rewrite (processWindow_done env dry playlistId w memD diskD Hfut Hskip).
    cbn [outcome events] in Hout |- *. injection Hout as <-.
    eexists. split; [reflexivity|]. split; [|repeat split].
    destruct Hsame as (? & ? & ?). repeat split; cbn; try assumption.
    apply bump_matchingStats; (discriminate || assumption). }
  destruct (scrapeSongsFromSource env (windowUrl args w)) as [songs|] eqn:Hscrape.
  2: { rewrite (processWindow_scrape_fails env wet playlistId w memN diskN Hfut Hdone
                  Hscrape) in Hout. discriminate. }
  assert (Hsame0 : SameMatching (withStats (bump SongsScraped (length songs)) memD)
                     (withStats (bump SongsScraped (length songs)) memN)).
  { destruct Hsame as (? & ? & ?). repeat split; cbn; try assumption.
    apply bump_matchingStats; (discriminate || assumption). }
  destruct (processSongs_same env args w songs 0 _ _ [] diskD diskN Hsame0) as [Hev Hrel].
  cbn zeta in Hev, Hrel.
  change (withDryRun false args) with wet in Hev, Hrel.
  change (withDryRun true args) with dry in Hev, Hrel.
  destruct (outcome (processSongs env wet w 0 songs
                       (withStats (bump SongsScraped (length songs)) memN, []) diskN))
    as [e|[memN1 uris]] eqn:HoN.
  { rewrite (processWindow_songs_fail env wet playlistId w memN diskN songs e Hfut Hdone
               Hscrape HoN) in Hout. discriminate. }
  destruct Hrel as (memD1 & HoD & Hsame1).
  pose proof (processWindow_processed env wet playlistId w memN diskN songs memN1 uris
                Hfut Hdone Hscrape HoN) as HN.
  pose proof (processWindow_processed env dry playlistId w memD diskD songs memD1 uris
                Hfut Hskip Hscrape HoD) as HD.
  cbn zeta in HN, HD.
  change (dryRun wet) with false in HN. change (dryRun dry) with true in HD.
  cbn [negb andb] in HN, HD.
  change (sourceDelayMs wet) with (sourceDelayMs args) in HN.
  change (sourceDelayMs dry) with (sourceDelayMs args) in HD.
  change (stationId wet) with (stationId args) in HN.
  change (date wet) with (date args) in HN.
  change (endIsPast env wet w) with (endIsPast env args w) in HN.
  change (buildSourceUrl (stationId dry) (date dry) (from w) (to w))
    with (windowUrl args w) in HD.
  change (buildSourceUrl (stationId args) (date wet) (from w) (to w))
    with (windowUrl args w) in HN.
  rewrite HD. rewrite HN in Hout |- *. clear HD HN.
  destruct ((0 <? length uris)%nat && negb (addTracksSucceeds env w)) eqn:Hfail;
    [discriminate|].
  cbn [outcome events] in Hout |- *. injection Hout as <-.
  eexists. split; [reflexivity|].
  pose proof (songLoop_same_window_data env wet w songs memN diskN memN1 uris HoN)
    as (HstN & _).
  pose proof (songLoop_same_window_data env dry w songs memD diskD memD1 uris HoD)
    as (HstD & _).
  destruct Hsame1 as (Hseen & Hindex & Hstats).
  split; [|split; [|split]].
  - repeat split.
    + cbn [withStats runSeenSongKeys].
      destruct (0 <? length uris)%nat, (endIsPast env args w); cbn; assumption.
    + cbn [withStats playlistIndex].
      destruct (0 <? length uris)%nat, (endIsPast env args w); cbn; assumption.
    + unfold matchingStats in *. injection Hstats as H1 H2 H3 H4 H5 H6 H7 H8 H9.
      destruct (0 <? length uris)%nat, (endIsPast env args w); cbn; congruence.
  - cbn [List.filter isPipelineEvent isAddEvent isSaveEvent orb negb].
    rewrite !List.filter_app. rewrite Hev. f_equal. f_equal.
    destruct (0 <? length uris)%nat, (endIsPast env args w),
      (0 <? sourceDelayMs args); reflexivity.
  - cbn [withStats state]. exact HstD.
  - intros w' Hne.
    destruct (0 <? length uris)%nat, (endIsPast env args w); cbn [withStats withState state];
      rewrite ?HstN; try reflexivity;
      apply (skipsAsDone_other w w' _ Hne).
Qed.
End DryWindows.

Section DryLoop.
Context {U : UnicodeOps}.
Variable env : Env.
Variable args : SyncArgs.
Variable playlistId : jsstring.

Lemma processWindows_same windows : forall memD memN diskD diskN memN',
  NoDup (map windowKeyOf windows) ->
  SameMatching memD memN ->
  (forall w, In w windows ->
     skipsAsDone args w (state memD) = skipsAsDone args w (state memN)) ->
  outcome (processWindows env (withDryRun false args) playlistId windows memN diskN)
    = inr memN' ->
  exists memD',
    outcome (processWindows env (withDryRun true args) playlistId windows memD diskD)
      = inr memD' /\
    SameMatching memD' memN' /\
    List.filter isPipelineEvent
      (events (processWindows env (withDryRun true args) playlistId windows memD diskD))
    = List.filter isPipelineEvent
        (events (processWindows env (withDryRun false args) playlistId windows memN diskN)).
Proof.
  induction windows as [|w rest IH]; intros memD memN diskD diskN memN' Hnd Hsame Hskip Hout.
  - cbn in Hout |- *. injection Hout as <-. exists memD. repeat split; apply Hsame.
  - cbn [processWindows] in Hout |- *.
    cbn [map] in Hnd. apply NoDup_cons in Hnd as [Hfresh Hnd].
    destruct (outcome (processWindow env (withDryRun false args) playlistId w memN diskN))
      as [e|memN1] eqn:HoN.
    { rewrite (bind_inl _ _ _ _ HoN) in Hout. discriminate. }
    destruct (processWindow_same env args playlistId w memD memN diskD diskN memN1 Hsame
                (Hskip w (or_introl eq_refl)) HoN)
      as (memD1 & HoD & Hsame1 & Hev & HstD & HstN).
    rewrite (bind_inr' _ _ _ _ HoN) in Hout |- *.
    rewrite (bind_inr' _ _ _ _ HoD).
    cbn [prepend outcome events] in Hout |- *.
    assert (Hskip1 : forall w', In w' rest ->
              skipsAsDone args w' (state memD1) = skipsAsDone args w' (state memN1)).
    { intros w' Hin. rewrite HstD, HstN; [apply Hskip; right; exact Hin|].
      intros Heq. apply Hfresh. apply list_elem_of_In. rewrite <- Heq.
      apply List.in_map. exact Hin. }
    destruct (IH memD1 memN1
                (diskAfter (processWindow env (withDryRun true args) playlistId w memD diskD))
                (diskAfter (processWindow env (withDryRun false args) playlistId w memN
                              diskN))
                memN' Hnd Hsame1 Hskip1 Hout) as (memD' & HoD' & Hsame' & Hev').
    exists memD'. split; [exact HoD'|]. split; [exact Hsame'|].
    rewrite !List.filter_app, Hev, Hev'. reflexivity.
Qed.
End DryLoop.

Lemma loadEvents_no_add args disk : List.filter isAddEvent (loadEvents args disk) = [].
Proof. unfold loadEvents. destruct (argTruthy (playlist args)); reflexivity. Qed.

Lemma setup_no_add tail :
  Forall (fun ev => isSetupEvent ev = true) tail -> List.filter isAddEvent tail = [].
Proof. apply filter_none. intros []; simpl; congruence. Qed.

Lemma setup_no_save tail :
  Forall (fun ev => isSetupEvent ev = true) tail -> List.filter isSaveEvent tail = [].
Proof. apply filter_none. intros []; simpl; congruence. Qed.

(** What a dry run saves: at most the state with the station mapped. *)
Definition savesOfLoad (args : SyncArgs) (disk : option State) : list Event :=
  if argTruthy (playlist args) then [EvSaveState (mapStation args (parseState disk))] else [].

Lemma loadEvents_saves args disk :
  List.filter isSaveEvent (loadEvents args disk) = savesOfLoad args disk.
Proof. unfold loadEvents, savesOfLoad. destruct (argTruthy (playlist args)); reflexivity. Qed.

(** A run that completes without dry-run completes with it, after the
    same calls but the adds and the saves, with the same sets and the
    same matching counters. *)
Lemma runSyncCommand_same {U : UnicodeOps} env args disk memN :
  outcome (runSyncCommand env (withDryRun false args) disk) = inr memN ->
  exists memD,
    outcome (runSyncCommand env (withDryRun true args) disk) = inr memD /\
    SameMatching memD memN /\
    List.filter isPipelineEvent (events (runSyncCommand env (withDryRun true args) disk))
    = List.filter isPipelineEvent (events (runSyncCommand env (withDryRun false args) disk)).
Proof.
  intros Hout.
  pose proof (runSyncCommand_shape env (withDryRun false args) disk) as Hshape.
  inversion Hshape
    as [e Hv Heq|e tail Hv Htail Heq
       |playlistId currentUserId meta pages windows Hv Hpid Htruthy Huser Hmeta Hwritable
          Hpages Hwin Heq];
    rewrite <- Heq in Hout; try discriminate.
  clear Hshape.
  assert (Hwritable' :
            negb (canCurrentUserWritePlaylist currentUserId (metaOwnerId meta)
                    (metaCollaborative meta))
            && negb (dryRun (withDryRun true args)) = false) by apply andb_false_r.
  rewrite (runSyncCommand_reaches_loop env (withDryRun true args) disk playlistId
             currentUserId meta pages windows Hv Hpid Htruthy Huser Hmeta Hwritable' Hpages
             Hwin).
  cbn [prepend outcome events] in Hout |- *.
  assert (Hnd : NoDup (map windowKeyOf windows)).
  { pose proof (plannedWindows_distinct args Hv) as Hnd. unfold plannedWindows in Hnd.
    change (buildWindows (timeFrom args) (timeTo args) (windowHours args) = Some windows)
      in Hwin.
    rewrite Hwin in Hnd. exact Hnd. }
  destruct (processWindows_same env args playlistId windows
              (initialMem (stateAfterLoad (withDryRun true args) disk) pages windows)
              (initialMem (stateAfterLoad (withDryRun false args) disk) pages windows)
              (diskAfterLoad (withDryRun true args) disk)
              (diskAfterLoad (withDryRun false args) disk) memN Hnd)
    as (memD & HoD & Hsame & Hev).
  - repeat split.
  - intros w _. reflexivity.
  - exact Hout.
  - exists memD. split; [exact HoD|]. split; [exact Hsame|].
    rewrite !List.filter_app, Hev. f_equal.
    unfold loadEvents. cbn [playlist withDryRun].
    destruct (argTruthy (playlist args)); reflexivity.
Qed.

(** The counters of the dry run as the claim has them: those of the run
    proper on the same input. *)
Definition countsAsIfAdded {U : UnicodeOps} (env : Env) (args : SyncArgs)
    (disk : option State) : Prop :=
  forall memN, outcome (runSyncCommand env (withDryRun false args) disk) = inr memN ->
  exists memD, outcome (runSyncCommand env (withDryRun true args) disk) = inr memD /\
               stats memD = stats memN.

(** C7, as claimed, fails: on the evaluated run the dry run matches one
    song as the run proper does, and leaves [tracksAdded] at 0 where the
    run proper counts 1. *)
Lemma dry_run_counts_counterexample :
  ~ @countsAsIfAdded Latin1 (demoEnv nextDay) (demoArgs true false None) demoDisk /\
  (exists memD memN,
     outcome (@runSyncCommand Latin1 (demoEnv nextDay) (demoArgs true false None) demoDisk)
       = inr memD /\
     outcome (@runSyncCommand Latin1 (demoEnv nextDay) (demoArgs false false None) demoDisk)
       = inr memN /\
     songsMatched (stats memD) = 1%nat /\ songsMatched (stats memN) = 1%nat /\
     tracksAdded (stats memD) = 0%nat /\ tracksAdded (stats memN) = 1%nat).
Proof.
  assert (HN : exists memN,
             outcome (@runSyncCommand Latin1 (demoEnv nextDay) (demoArgs false false None)
                        demoDisk) = inr memN /\
             songsMatched (stats memN) = 1%nat /\ tracksAdded (stats memN) = 1%nat).
  { vm_compute. eexists. split; [reflexivity|]. split; reflexivity. }
  assert (HD : exists memD,
             outcome (@runSyncCommand Latin1 (demoEnv nextDay) (demoArgs true false None)
                        demoDisk) = inr memD /\
             songsMatched (stats memD) = 1%nat /\ tracksAdded (stats memD) = 0%nat).
  { vm_compute. eexists. split; [reflexivity|]. split; reflexivity. }
  destruct HN as (memN & HoN & HmN & HtN). destruct HD as (memD & HoD & HmD & HtD).
  split.
  - intros Hclaim. destruct (Hclaim memN HoN) as (memD' & HoD' & Hstats).
    change (withDryRun true (demoArgs true false None)) with (demoArgs true false None)
      in HoD'.
    rewrite HoD in HoD'. injection HoD' as <-. rewrite Hstats in HtD. congruence.
  - exists memD, memN. repeat split; assumption.
Qed.

(** C7 (amended).  A run with dry-run on makes no add call; the only
    state it can save is the loaded state with the station mapped, when a
    [--playlist] argument is given, so that the processed windows in the
    state file and in the memory at the end are those loaded;
    [tracksAdded] and [windowsNotMarkedNotInPast] stay 0.  A window that
    is not skipped is scraped and its songs go through the song loop;
    and when the run proper on the same input completes, the dry run
    completes after the same calls but the adds and the saves, with the
    same run-seen keys, the same playlist index and the same counters of
    windows and of matching. *)
Theorem dry_run_frame {U : UnicodeOps} (env : Env) (args : SyncArgs) (disk : option State) :
  dryRun args = true ->
  let r := runSyncCommand env args disk in
  List.filter isAddEvent (events r) = [] /\
  (forall st, In (EvSaveState st) (events r) ->
     argTruthy (playlist args) = true /\ st = mapStation args (parseState disk)) /\
  scrapedWindows (parseState (diskAfter r)) = scrapedWindows (parseState disk) /\
  (forall mem', outcome r = inr mem' ->
     scrapedWindows (state mem') = scrapedWindows (parseState disk) /\
     tracksAdded (stats mem') = 0%nat /\
     windowsNotMarkedNotInPast (stats mem') = 0%nat) /\
  (forall playlistId window mem d songs,
     skipsAsFuture env args window = false ->
     skipsAsDone args window (state mem) = false ->
     scrapeSongsFromSource env (windowUrl args window) = Some songs ->
     exists tail,
       events (processWindow env args playlistId window mem d)
         = EvScrape (windowUrl args window)
             :: events (songLoop env args window songs mem d) ++ tail /\
       (tail = [] \/ tail = [EvDelay (sourceDelayMs args)])) /\
  (forall memN,
     outcome (runSyncCommand env (withDryRun false args) disk) = inr memN ->
     exists memD,
       outcome r = inr memD /\ SameMatching memD memN /\
       List.filter isPipelineEvent (events r)
       = List.filter isPipelineEvent
           (events (runSyncCommand env (withDryRun false args) disk))).
Proof.
  intros Hdry. cbn zeta.
  assert (Hsaves : List.filter isSaveEvent (events (runSyncCommand env args disk)) = []
                   \/ List.filter isSaveEvent (events (runSyncCommand env args disk))
                      = savesOfLoad args disk).
  { destruct (runSyncCommand_shape env args disk)
      as [e Hv|e tail Hv Htail
         |playlistId currentUserId meta pages windows Hv Hpid Htruthy Huser Hmeta Hwritable
            Hpages Hwin]; cbn [prepend events].
    - left. reflexivity.
    - right. rewrite List.filter_app, loadEvents_saves, (setup_no_save tail Htail).
      apply app_nil_r.
    - right. rewrite !List.filter_app, loadEvents_saves.
      destruct (processWindows_dry env args playlistId Hdry windows
                  (initialMem (stateAfterLoad args disk) pages windows)
                  (diskAfterLoad args disk)) as (_ & _ & Hs & _).
      cbn zeta in Hs. rewrite Hs. cbn. rewrite !app_nil_r. reflexivity. }
  split; [|split; [|split; [|split; [|split]]]].
  - destruct (runSyncCommand_shape env args disk)
      as [e Hv|e tail Hv Htail
         |playlistId currentUserId meta pages windows Hv Hpid Htruthy Huser Hmeta Hwritable
            Hpages Hwin]; cbn [prepend events].
    + reflexivity.
    + rewrite List.filter_app, loadEvents_no_add, (setup_no_add tail Htail). reflexivity.
    + rewrite !List.filter_app, loadEvents_no_add.
      destruct (processWindows_dry env args playlistId Hdry windows
                  (initialMem (stateAfterLoad args disk) pages windows)
                  (diskAfterLoad args disk)) as (_ & Ha & _ & _).
      cbn zeta in Ha. rewrite Ha. reflexivity.
  - intros st Hin.
    assert (Hin' : In (EvSaveState st)
                     (List.filter isSaveEvent (events (runSyncCommand env args disk)))).
    { apply List.filter_In. split; [exact Hin|reflexivity]. }
    destruct Hsaves as [Hs|Hs]; rewrite Hs in Hin'; [destruct Hin'|].
    unfold savesOfLoad in Hin'. destruct (argTruthy (playlist args)); [|destruct Hin'].
    destruct Hin' as [[= <-]|[]]. split; reflexivity.
  - destruct (runSyncCommand_shape env args disk)
      as [e Hv|e tail Hv Htail
         |playlistId currentUserId meta pages windows Hv Hpid Htruthy Huser Hmeta Hwritable
            Hpages Hwin]; cbn [prepend diskAfter].
    + reflexivity.
    + apply diskAfterLoad_windows.
    + rewrite (proj1 (processWindows_dry env args playlistId Hdry windows _ _)).
      apply diskAfterLoad_windows.
  - intros mem'.
    destruct (runSyncCommand_shape env args disk)
      as [e Hv|e tail Hv Htail
         |playlistId currentUserId meta pages windows Hv Hpid Htruthy Huser Hmeta Hwritable
            Hpages Hwin]; cbn [prepend outcome]; try discriminate.
    intros Hout.
    destruct (processWindows_dry env args playlistId Hdry windows
                (initialMem (stateAfterLoad args disk) pages windows)
                (diskAfterLoad args disk)) as (_ & _ & _ & Hm).
    destruct (Hm mem' Hout) as (Hst & Hta & Hnm).
    rewrite Hst, Hta, Hnm. cbn [initialMem state stats].
    split; [apply stateAfterLoad_windows|]. split; reflexivity.
  - intros playlistId window mem d songs Hfut Hdone Hscrape.
    destruct (outcome (songLoop env args window songs mem d)) as [e|[mem1 uris]] eqn:Hsongs.
    + exists []. split; [|left; reflexivity].
      rewrite (processWindow_songs_fail env args playlistId window mem d songs e Hfut Hdone
                 Hscrape Hsongs).
      cbn [events]. rewrite app_nil_r. reflexivity.
    + pose proof (processWindow_processed env args playlistId window mem d songs mem1 uris
                    Hfut Hdone Hscrape Hsongs) as Hp.
      cbn zeta in Hp. rewrite Hdry in Hp. cbn [negb andb] in Hp. rewrite Hp.
      cbn [events app].
      exists (if 0 <? sourceDelayMs args then [EvDelay (sourceDelayMs args)] else []).
      split; [reflexivity|]. destruct (0 <? sourceDelayMs args); [right|left]; reflexivity.
  - intros memN HoN.
    pose proof (runSyncCommand_same env args disk memN HoN) as Hrun.
    pose proof (withDryRun_same args) as Eargs. rewrite Hdry in Eargs.
    rewrite Eargs in Hrun. exact Hrun.
Qed.

Lemma dry_run_frame_witness :
  let r := @runSyncCommand Latin1 (demoEnv nextDay) (demoArgs true false None) demoDisk in
  dryRun (demoArgs true false None) = true /\
  List.filter isAddEvent (events r) = [] /\
  scrapedWindows (parseState (diskAfter r)) = scrapedWindows (parseState demoDisk) /\
  List.filter isScrapeEvent (events r)
    = [EvScrape (windowUrl (demoArgs true false None) {| from := 0; to := 2 |});
       EvScrape (windowUrl (demoArgs true false None) {| from := 2; to := 4 |})].
Proof.
  cbn zeta. split; [reflexivity|].
  destruct (@dry_run_frame Latin1 (demoEnv nextDay) (demoArgs true false None) demoDisk
              eq_refl) as (Hadd & _ & Hdisk & _).
  split; [exact Hadd|]. split; [exact Hdisk|]. vm_compute. reflexivity.
Defined.

(** ** Duplicate suppression *)

Definition songKeyOf {U : UnicodeOps} (song : ScrapedSong) : jsstring :=
  buildSongKey (artist song) (title song).

(** A key the run has recorded: as run-seen, or in the playlist index. *)
Definition KnownKey (mem : Mem) (k : jsstring) : Prop :=
  k ∈ runSeenSongKeys mem \/ k ∈ songKeys (playlistIndex mem).

Lemma Grows_same_sets a b c :
  runSeenSongKeys c = runSeenSongKeys b -> playlistIndex c = playlistIndex b ->
  Grows a b -> Grows a c.
Proof. unfold Grows. intros -> ->. tauto. Qed.

Lemma Grows_known a b k : Grows a b -> KnownKey a k -> KnownKey b k.
Proof. unfold Grows, KnownKey. intros (? & ? & _) [?|?]; [left|right]; set_solver. Qed.

Lemma bind_ext {A B} (m : M A) (k k' : A -> M B) disk :
  (forall a d, k a d = k' a d) -> bind m k disk = bind m k' disk.
Proof.
  intros Hk. unfold bind. cbn zeta. destruct (outcome (m disk)); [reflexivity|].
  rewrite Hk. reflexivity.
Qed.

Section Suppression.
Context {U : UnicodeOps}.
Variable env : Env.
Variable args : SyncArgs.

Lemma verdict_known seen index window position song :
  songKeyOf song ∈ seen \/ songKeyOf song ∈ songKeys index ->
  verdict env seen index window position song = Duplicate \/
  verdict env seen index window position song = AlreadyByKey.
Proof.
  unfold verdict, songKeyOf. cbn zeta. intros [H|H].
  - rewrite decide_True by exact H. left. reflexivity.
  - destruct (decide _); [left; reflexivity|].
    rewrite decide_True by exact H. right. reflexivity.
Qed.

(** A song whose key is recorded: no call, nothing proposed. *)
Lemma processSong_known window position song mem uris disk :
  KnownKey mem (songKeyOf song) ->
  exists mem',
    processSong env args window position song (mem, uris) disk
      = mkRes (inr (mem', uris)) disk [].
Proof.
  intros Hk. rewrite processSong_verdict. cbn zeta.
  destruct (verdict_known (runSeenSongKeys mem) (playlistIndex mem) window position song Hk)
    as [-> | ->]; cbn [applyVerdict verdictEvents]; eexists; reflexivity.
Qed.

(** A song resolving to a track whose id is recorded: nothing proposed. *)
Lemma processSong_known_id window position song mem uris disk found :
  searchOutcome env window position song = inr (Some found) ->
  trackId found ∈ trackIds (playlistIndex mem) ->
  exists mem',
    outcome (processSong env args window position song (mem, uris) disk)
      = inr (mem', uris).
Proof.
  intros Hfound Hid. rewrite processSong_verdict. cbn zeta. unfold verdict. cbn zeta.
  destruct (decide _); [eexists; reflexivity|].
  destruct (decide _); [eexists; reflexivity|].
  rewrite Hfound. rewrite decide_True by exact Hid. eexists. reflexivity.
Qed.

(** What a song leaves in the memory, whatever became of it. *)
Lemma processSong_records window position song mem uris disk mem' uris' :
  outcome (processSong env args window position song (mem, uris) disk)
    = inr (mem', uris') ->
  Grows mem mem' /\
  songKeyOf song ∈ runSeenSongKeys mem' /\
  (uris' = uris \/
   exists found,
     searchOutcome env window position song = inr (Some found) /\
     uris' = uris ++ [trackUri found] /\
     (~ KnownKey mem (songKeyOf song)) /\
     (trackId found ∉ trackIds (playlistIndex mem)) /\
     trackId found ∈ trackIds (playlistIndex mem') /\
     songKeyOf song ∈ songKeys (playlistIndex mem') /\
     trackSongKey found ∈ songKeys (playlistIndex mem')).
Proof.
  rewrite processSong_verdict. cbn zeta. cbn [outcome]. intros Hout.
  split.
  { set (v := verdict env (runSeenSongKeys mem) (playlistIndex mem) window position song)
      in Hout.
    pose proof (applyVerdict_grows v song mem uris) as Hg.
    assert (E : applyVerdict v song (mem, uris) = (mem', uris'))
      by (destruct v; congruence).
    rewrite E in Hg. exact Hg. }
  revert Hout. unfold verdict, songKeyOf, KnownKey. cbn zeta.
  destruct (decide (_ ∈ runSeenSongKeys mem)) as [Hseen|Hseen].
  { intros [= <- <-]. cbn. split; [exact Hseen|left; reflexivity]. }
  destruct (decide (_ ∈ songKeys (playlistIndex mem))) as [Hkey|Hkey].
  { intros [= <- <-]. cbn. split; [set_solver|left; reflexivity]. }
  destruct (searchOutcome env window position song) as [e|[found|]]; [discriminate|..].
  - destruct (decide (_ ∈ trackIds (playlistIndex mem))) as [Hid|Hid].
    + intros [= <- <-]. cbn. split; [set_solver|left; reflexivity].
    + intros [= <- <-]. cbn. split; [set_solver|]. right. exists found.
      split; [reflexivity|]. split; [reflexivity|].
      split; [tauto|]. split; [exact Hid|].
      repeat split; set_solver.
  - intros [= <- <-]. cbn. split; [set_solver|left; reflexivity].
Qed.

Lemma processSongs_app window l1 : forall l2 position acc disk,
  processSongs env args window position (l1 ++ l2) acc disk
  = bind (processSongs env args window position l1 acc)
      (processSongs env args window (position + length l1) l2) disk.
Proof.
  induction l1 as [|s l1 IH]; intros l2 position acc disk.
  - cbn [app processSongs length]. rewrite Nat.add_0_r, bind_ret. reflexivity.
  - cbn [app processSongs length]. rewrite bind_assoc.
    apply bind_ext. intros acc' disk'. rewrite IH.
    replace (S position + length l1)%nat with (position + S (length l1))%nat by lia.
    reflexivity.
Qed.

(** Every song the loop has passed is recorded as run-seen. *)
Lemma processSongs_records window songs : forall position mem uris disk mem' uris',
  outcome (processSongs env args window position songs (mem, uris) disk)
    = inr (mem', uris') ->
  forall song, In song songs -> songKeyOf song ∈ runSeenSongKeys mem'.
Proof.
  induction songs as [|s rest IH]; intros position mem uris disk mem' uris' Hout song Hin;
    [destruct Hin|].
  cbn [processSongs] in Hout.
  destruct (outcome (processSong env args window position s (mem, uris) disk))
    as [e|[mem1 uris1]] eqn:Ho.
  { rewrite (bind_inl _ _ _ _ Ho) in Hout. discriminate. }
  rewrite (bind_inr' _ _ _ _ Ho) in Hout. cbn [prepend outcome] in Hout.
  destruct Hin as [<-|Hin].
  - apply processSong_records in Ho as (_ & Hrec & _).
    apply processSongs_grows in Hout as (Hsub & _). set_solver.
  - apply (IH _ _ _ _ _ _ Hout song Hin).
Qed.

Lemma processWindow_grows playlistId window mem disk mem' :
  outcome (processWindow env args playlistId window mem disk) = inr mem' ->
  Grows mem mem'.
Proof.
  destruct (processWindow_shape env args playlistId window mem disk)
    as [Hfut|Hfut Hdone|Hfut Hdone Hscrape|songs e Hfut Hdone Hscrape Hsongs
       |songs mem1 uris Hfut Hdone Hscrape Hsongs Hd Hne Hadd
       |songs mem1 uris Hfut Hdone Hscrape Hsongs Hadd];
    cbn [outcome]; try discriminate.
  - intros [= <-]. apply (Grows_same_sets mem mem); [reflexivity..|apply Grows_refl].
  - intros [= <-]. apply (Grows_same_sets mem mem); [reflexivity..|apply Grows_refl].
  - subst marks mem3. intros [= <-].
    apply processSongs_grows in Hsongs.
    apply (Grows_same_sets mem mem1); [| |exact Hsongs];
      unfold afterMark, afterAdd;
      destruct (negb (dryRun args)), (endIsPast env args window), (0 <? length uris)%nat;
      reflexivity.
Qed.

Lemma processWindows_grows playlistId windows : forall mem disk mem',
  outcome (processWindows env args playlistId windows mem disk) = inr mem' ->
  Grows mem mem'.
Proof.
  induction windows as [|w rest IH]; intros mem disk mem' Hout.
  - injection Hout as <-. apply Grows_refl.
  - cbn [processWindows] in Hout.
    destruct (outcome (processWindow env args playlistId w mem disk)) as [e|mem1] eqn:Ho.
    { rewrite (bind_inl _ _ _ _ Ho) in Hout. discriminate. }
    rewrite (bind_inr' _ _ _ _ Ho) in Hout. cbn [prepend outcome] in Hout.
    apply processWindow_grows in Ho. apply IH in Hout.
    apply (Grows_trans _ _ _ Ho Hout).
Qed.

(** Every song of a processed window is recorded as run-seen. *)
Lemma processWindow_records playlistId window mem disk songs mem' :
  skipsAsFuture env args window = false ->
  skipsAsDone args window (state mem) = false ->
  scrapeSongsFromSource env (windowUrl args window) = Some songs ->
  outcome (processWindow env args playlistId window mem disk) = inr mem' ->
  forall song, In song songs -> songKeyOf song ∈ runSeenSongKeys mem'.
Proof.
  intros Hfut Hdone Hscrape.
  destruct (outcome (songLoop env args window songs mem disk)) as [e|[mem1 uris]] eqn:Hsongs.
  { rewrite (processWindow_songs_fail env args playlistId window mem disk songs e Hfut
               Hdone Hscrape Hsongs). discriminate. }
  rewrite (processWindow_processed env args playlistId window mem disk songs mem1 uris Hfut
             Hdone Hscrape Hsongs).
  cbn zeta. destruct (_ && negb (addTracksSucceeds env window)); [discriminate|].
  cbn [outcome]. intros [= <-] song Hin.
  pose proof (processSongs_records window songs 0 _ _ _ _ _ Hsongs song Hin) as Hrec.
  destruct (negb (dryRun args)), (endIsPast env args window), (0 <? length uris)%nat;
    exact Hrec.
Qed.
End Suppression.

(** C4.  What a run has recorded stays recorded through the song loop,
    the loop body and the window loop; every song the loop passes leaves
    its key run-seen, whatever became of it (duplicate, already in the
    playlist, unmatched, matched), and a proposed track was new by key
    and by id and leaves its id and both keys in the index; all songs of
    a processed window are run-seen afterwards.  A song met in any later
    memory with a recorded key is passed without a search and without a
    proposal, and one that resolves to a recorded track id is not
    proposed; in particular a song whose key occurred earlier in the
    same window adds nothing to the URIs of the window. *)
Theorem second_occurrence_never_proposed {U : UnicodeOps} (env : Env) (args : SyncArgs) :
  (forall window position songs mem uris disk mem' uris',
     outcome (processSongs env args window position songs (mem, uris) disk)
       = inr (mem', uris') ->
     Grows mem mem') /\
  (forall playlistId windows mem disk mem',
     outcome (processWindows env args playlistId windows mem disk) = inr mem' ->
     Grows mem mem') /\
  (forall window position song mem uris disk mem' uris',
     outcome (processSong env args window position song (mem, uris) disk)
       = inr (mem', uris') ->
     songKeyOf song ∈ runSeenSongKeys mem' /\
     (uris' = uris \/
      exists found,
        searchOutcome env window position song = inr (Some found) /\
        uris' = uris ++ [trackUri found] /\
        (~ KnownKey mem (songKeyOf song)) /\
        (trackId found ∉ trackIds (playlistIndex mem)) /\
        trackId found ∈ trackIds (playlistIndex mem') /\
        songKeyOf song ∈ songKeys (playlistIndex mem') /\
        trackSongKey found ∈ songKeys (playlistIndex mem'))) /\
  (forall playlistId window mem disk songs mem',
     skipsAsFuture env args window = false ->
     skipsAsDone args window (state mem) = false ->
     scrapeSongsFromSource env (windowUrl args window) = Some songs ->
     outcome (processWindow env args playlistId window mem disk) = inr mem' ->
     forall song, In song songs -> songKeyOf song ∈ runSeenSongKeys mem') /\
  (forall mem1 mem2 window position song uris disk,
     Grows mem1 mem2 -> KnownKey mem1 (songKeyOf song) ->
     exists mem3,
       processSong env args window position song (mem2, uris) disk
         = mkRes (inr (mem3, uris)) disk []) /\
  (forall mem1 mem2 window position song uris disk found,
     Grows mem1 mem2 ->
     searchOutcome env window position song = inr (Some found) ->
     trackId found ∈ trackIds (playlistIndex mem1) ->
     exists mem3,
       outcome (processSong env args window position song (mem2, uris) disk)
         = inr (mem3, uris)) /\
  (forall window position songs song mem uris disk mem' uris',
     outcome (processSongs env args window position songs (mem, uris) disk)
       = inr (mem', uris') ->
     (exists earlier, In earlier songs /\ songKeyOf earlier = songKeyOf song)
     \/ KnownKey mem (songKeyOf song) ->
     exists mem'',
       outcome (processSongs env args window position (songs ++ [song]) (mem, uris) disk)
         = inr (mem'', uris')).
Proof.
  split; [|split; [|split; [|split; [|split; [|split]]]]].
  - intros window position songs mem uris disk mem' uris'. apply processSongs_grows.
  - intros playlistId windows mem disk mem'. apply processWindows_grows.
  - intros window position song mem uris disk mem' uris' Hout.
    apply processSong_records in Hout as (_ & Hseen & Hcases). split; assumption.
  - intros playlistId window mem disk songs mem'. apply processWindow_records.
  - intros mem1 mem2 window position song uris disk Hg Hk.
    apply processSong_known. apply (Grows_known mem1 mem2 _ Hg Hk).
  - intros mem1 mem2 window position song uris disk found Hg Hfound Hid.
    apply (processSong_known_id env args window position song mem2 uris disk found Hfound).
    destruct Hg as (_ & _ & Hids). set_solver.
  - intros window position songs song mem uris disk mem' uris' Hout Hearlier.
    assert (Hk : KnownKey mem' (songKeyOf song)).
    { destruct Hearlier as [(earlier & Hin & Heq)|Hk].
      - left. rewrite <- Heq.
        apply (processSongs_records env args window songs position mem uris disk mem' uris'
                 Hout earlier Hin).
      - apply processSongs_grows in Hout. apply (Grows_known mem mem' _ Hout Hk). }
    rewrite processSongs_app. rewrite (bind_inr' _ _ _ _ Hout).
    cbn [prepend outcome processSongs].
    destruct (processSong_known env args window (position + length songs) song mem' uris'
                (diskAfter (processSongs env args window position songs (mem, uris) disk))
                Hk) as [mem'' Hstep].
    exists mem''.
    assert (Ho : outcome (processSong env args window (position + length songs) song
                            (mem', uris')
                            (diskAfter (processSongs env args window position songs
                                          (mem, uris) disk)))
                 = inr (mem'', uris')) by (rewrite Hstep; reflexivity).
    rewrite (bind_inr' _ _ _ _ Ho). reflexivity.
Qed.

(** ** The stages of [normalize] *)

Lemma removeBrackets_cons c r :
  removeBrackets (c :: r) =
    match bracketAt c r with
    | Some rest => 32 :: removeBrackets rest
    | None => c :: removeBrackets r
    end.
Proof.
  simp removeBrackets. unfold inspect.
  assert (H : forall o (E : bracketAt c r = o),
            removeBrackets_unfold_clause_2 c r (exist _ o E) =
            match o with
            | Some rest => 32 :: removeBrackets rest
            | None => c :: removeBrackets r
            end).
  { intros [rest|] E; reflexivity. }
  apply H.
Qed.

(** The code units that open a bracketed fragment, and all four brackets. *)
Definition isOpener (c : Z) : bool := (c =? 40) || (c =? 91).
Definition isBracket (c : Z) : bool := (c =? 40) || (c =? 41) || (c =? 91) || (c =? 93).

Definition noOpener (s : jsstring) : bool := forallb (fun c => negb (isOpener c)) s.
Definition noBracket (s : jsstring) : bool := forallb (fun c => negb (isBracket c)) s.

(** The inside of a fragment closed by [close]: no such code unit and no
    line terminator. *)
Definition fragmentFor (close : Z) (f : jsstring) : bool :=
  forallb (fun c => negb (c =? close) && negb (isLineTerminator c)) f.

Lemma bracketAt_plain c r : isOpener c = false -> bracketAt c r = None.
Proof.
  unfold isOpener, bracketAt. intros H. apply orb_false_iff in H as [-> ->]. reflexivity.
Qed.

Lemma removeBrackets_plain_app a s :
  noOpener a = true -> removeBrackets (a ++ s) = a ++ removeBrackets s.
Proof.
  unfold noOpener. induction a as [|c a IH]; cbn [forallb app]; [reflexivity|].
  intros H. apply andb_true_iff in H as [Hc Ha]. apply negb_true_iff in Hc.
  rewrite removeBrackets_cons, (bracketAt_plain c _ Hc), (IH Ha). reflexivity.
Qed.

Lemma removeBrackets_nil : removeBrackets [] = [].
Proof. simp removeBrackets. reflexivity. Qed.

Lemma lazyUntil_fragment close f rest :
  fragmentFor close f = true -> lazyUntil close (f ++ close :: rest) = Some rest.
Proof.
  unfold fragmentFor. induction f as [|c f IH]; cbn [forallb app lazyUntil].
  - rewrite Z.eqb_refl. reflexivity.
  - intros H. apply andb_true_iff in H as [Hc Hf]. apply andb_true_iff in Hc as [Hc Hlt].
    apply negb_true_iff in Hc, Hlt. rewrite Hc, Hlt. apply IH, Hf.
Qed.

Lemma lazyUntil_none close ext :
  forallb (fun c => negb (c =? close)) ext = true -> lazyUntil close ext = None.
Proof.
  induction ext as [|c ext IH]; cbn [forallb lazyUntil]; [reflexivity|].
  intros H. apply andb_true_iff in H as [Hc He]. apply negb_true_iff in Hc. rewrite Hc.
  destruct (isLineTerminator c); [reflexivity|apply IH, He].
Qed.

Lemma lazyUntil_ext close r ext :
  forallb (fun c => negb (c =? close)) ext = true ->
  lazyUntil close (r ++ ext) = option_map (fun x => x ++ ext) (lazyUntil close r).
Proof.
  intros He. induction r as [|c r IH]; cbn [app lazyUntil option_map].
  - apply lazyUntil_none, He.
  - destruct (c =? close); [reflexivity|].
    destruct (isLineTerminator c); [reflexivity|apply IH].
Qed.

Lemma noBracket_no close ext :
  close = 41 \/ close = 93 -> noBracket ext = true ->
  forallb (fun c => negb (c =? close)) ext = true.
Proof.
  intros Hclose. unfold noBracket. rewrite !forallb_forall. intros H c Hin.
  specialize (H c Hin). unfold isBracket in H.
  apply negb_true_iff in H. apply negb_true_iff.
  destruct Hclose as [-> | ->]; lia.
Qed.

Lemma bracketAt_ext c r ext :
  noBracket ext = true ->
  bracketAt c (r ++ ext) = option_map (fun x => x ++ ext) (bracketAt c r).
Proof.
  intros He. unfold bracketAt.
  destruct (c =? 40); [apply lazyUntil_ext, noBracket_no; auto|].
  destruct (c =? 91); [apply lazyUntil_ext, noBracket_no; auto|reflexivity].
Qed.

Lemma noBracket_noOpener ext : noBracket ext = true -> noOpener ext = true.
Proof.
  unfold noBracket, noOpener. rewrite !forallb_forall. intros H c Hin.
  specialize (H c Hin). unfold isBracket in H. unfold isOpener.
  apply negb_true_iff in H. apply negb_true_iff. lia.
Qed.

Lemma removeBrackets_ext ext :
  noBracket ext = true -> forall d, removeBrackets (d ++ ext) = removeBrackets d ++ ext.
Proof.
  intros He d. remember (length d) as n eqn:Hn. revert d Hn.
  induction n as [n IH] using lt_wf_ind. intros [|c r] Hn.
  - cbn [app]. rewrite removeBrackets_nil.
    pose proof (removeBrackets_plain_app ext [] (noBracket_noOpener ext He)) as E.
    rewrite removeBrackets_nil, !app_nil_r in E. rewrite E. reflexivity.
  - cbn [app]. rewrite !removeBrackets_cons, (bracketAt_ext c r ext He).
    destruct (bracketAt c r) as [rest|] eqn:Hb; cbn [option_map].
    + apply bracketAt_length in Hb. cbn [length] in Hn.
      rewrite (IH (length rest) ltac:(lia) rest eq_refl). reflexivity.
    + cbn [length] in Hn. rewrite (IH (length r) ltac:(lia) r eq_refl). reflexivity.
Qed.

(** *** The clauses *)

Definition lowerLetters (w : jsstring) : Prop := List.Forall (fun p => 97 <= p <= 122) w.

Lemma eqIgnoreCase_word p c : 97 <= p <= 122 -> eqIgnoreCase p c = true -> isWordChar c = true.
Proof. unfold eqIgnoreCase, isWordChar. lia. Qed.

Lemma eqIgnoreCase_line p c :
  97 <= p <= 122 -> eqIgnoreCase p c = true -> isLineTerminator c = false.
Proof. unfold eqIgnoreCase, isLineTerminator. lia. Qed.

Lemma removeClauseFrom_eq w prev s :
  removeClauseFrom w prev s =
    if clauseMatchesAt w prev s then [32]
    else match s with
         | [] => []
         | c :: r => c :: removeClauseFrom w (Some c) r
         end.
Proof. destruct s; reflexivity. Qed.

Lemma isWordAt_ext s e : isWordAt (s ++ 32 :: e) = isWordAt s.
Proof. destruct s; reflexivity. Qed.

Lemma noLineTerminator_app a b :
  noLineTerminator (a ++ b) = noLineTerminator a && noLineTerminator b.
Proof. apply forallb_app. Qed.

Lemma clauseTail_boundary rest :
  clauseTail rest = negb (isWordAt rest) && noLineTerminator rest.
Proof.
  unfold clauseTail. destruct rest as [|c r]; [reflexivity|].
  destruct (Z.eqb_spec c 46) as [->|Hc]; [|reflexivity].
  change (isWordAt (46 :: r)) with false.
  change (noLineTerminator (46 :: r)) with (noLineTerminator r).
  destruct (isWordAt r), (noLineTerminator r); reflexivity.
Qed.

Lemma matchWord_ext w : lowerLetters w -> forall s e,
  matchWord w (s ++ 32 :: e) =
    match matchWord w s with
    | Some r => Some (r ++ 32 :: e)
    | None => None
    end.
Proof.
  induction 1 as [|p w Hp _ IH]; intros s e; [reflexivity|].
  destruct s as [|c s]; cbn [app matchWord].
  - destruct (eqIgnoreCase p 32) eqn:E; [|reflexivity].
    apply (eqIgnoreCase_word p 32 Hp) in E. discriminate.
  - destruct (eqIgnoreCase p c); [apply IH|reflexivity].
Qed.

Lemma clauseMatchesAt_ext w prev s e :
  lowerLetters w -> noLineTerminator e = true ->
  clauseMatchesAt w prev (s ++ 32 :: e) = clauseMatchesAt w prev s.
Proof.
  intros Hw He. unfold clauseMatchesAt. rewrite isWordAt_ext, (matchWord_ext w Hw).
  destruct (matchWord w s) as [r|]; [|reflexivity].
  rewrite !clauseTail_boundary, isWordAt_ext, noLineTerminator_app.
  change (noLineTerminator (32 :: e)) with (noLineTerminator e).
  rewrite He, andb_true_r. reflexivity.
Qed.

Lemma clauseMatchesAt_nil w prev : w <> [] -> clauseMatchesAt w prev [] = false.
Proof.
  intros Hw. unfold clauseMatchesAt. destruct w; [contradiction|]. apply andb_false_r.
Qed.

Lemma clauseMatchesAt_other w prev c r :
  lowerLetters w -> w <> [] -> isWordChar c = false -> clauseMatchesAt w prev (c :: r) = false.
Proof.
  intros Hw Hne Hc. unfold clauseMatchesAt. destruct Hw as [|p w Hp _]; [contradiction|].
  cbn [matchWord]. destruct (eqIgnoreCase p c) eqn:E; [|apply andb_false_r].
  apply (eqIgnoreCase_word p c Hp) in E. congruence.
Qed.

Lemma removeClauseFrom_ext w e :
  lowerLetters w -> w <> [] -> noLineTerminator e = true ->
  forall s prev,
    removeClauseFrom w prev (s ++ 32 :: e) = removeClauseFrom w prev s \/
    (removeClauseFrom w prev s = s /\
     removeClauseFrom w prev (s ++ 32 :: e)
       = s ++ 32 :: removeClauseFrom w (Some 32) e).
Proof.
  intros Hw Hne He. induction s as [|c s IH]; intros prev.
  - right. cbn [app]. rewrite !removeClauseFrom_eq with (s := []).
    rewrite (clauseMatchesAt_nil w prev Hne). split; [reflexivity|].
    rewrite removeClauseFrom_eq, (clauseMatchesAt_other w prev 32 e Hw Hne eq_refl).
    reflexivity.
  - cbn [app]. rewrite (removeClauseFrom_eq w prev (c :: s)).
    rewrite (removeClauseFrom_eq w prev (c :: s ++ 32 :: e)).
    change (c :: s ++ 32 :: e) with ((c :: s) ++ 32 :: e).
    rewrite (clauseMatchesAt_ext w prev (c :: s) e Hw He).
    destruct (clauseMatchesAt w prev (c :: s)); [left; reflexivity|].
    destruct (IH (Some c)) as [E|[E1 E2]].
    + left. cbn [app]. rewrite E. reflexivity.
    + right. cbn [app]. rewrite E1, E2. split; reflexivity.
Qed.

Lemma noLineTerminator_spaces n : noLineTerminator (repeat 32 n) = true.
Proof. induction n; [reflexivity|exact IHn]. Qed.

Lemma removeClauseFrom_spaces w n :
  lowerLetters w -> w <> [] -> forall prev,
  removeClauseFrom w prev (repeat 32 n) = repeat 32 n.
Proof.
  intros Hw Hne. induction n as [|n IH]; intros prev; cbn [repeat].
  - rewrite removeClauseFrom_eq, (clauseMatchesAt_nil w prev Hne). reflexivity.
  - rewrite removeClauseFrom_eq, (clauseMatchesAt_other w prev 32 _ Hw Hne eq_refl).
    rewrite IH. reflexivity.
Qed.

(** [y] is [x] followed by spaces. *)
Definition Pad (x y : jsstring) : Prop := exists n, y = x ++ repeat 32 n.

Lemma Pad_refl x : Pad x x.
Proof. exists O. cbn. rewrite app_nil_r. reflexivity. Qed.

Lemma removeClause_pad w x y :
  lowerLetters w -> w <> [] -> Pad x y -> Pad (removeClause w x) (removeClause w y).
Proof.
  intros Hw Hne [n ->]. unfold removeClause. destruct n as [|n]; cbn [repeat].
  - rewrite app_nil_r. apply Pad_refl.
  - destruct (removeClauseFrom_ext w (repeat 32 n) Hw Hne (noLineTerminator_spaces n) x None)
      as [E|[E1 E2]].
    + rewrite E. apply Pad_refl.
    + rewrite E1, E2, (removeClauseFrom_spaces w n Hw Hne). exists (S n). reflexivity.
Qed.

Lemma collapseFrom_spaces n : collapseFrom true (repeat 32 n) = [].
Proof. induction n; [reflexivity|exact IHn]. Qed.

Lemma collapseFrom_pad n : forall x inRun,
  exists t, (t = [] \/ t = [32]) /\
    collapseFrom inRun (x ++ repeat 32 n) = collapseFrom inRun x ++ t.
Proof.
  induction x as [|c x IH]; intros inRun.
  - cbn [app collapseFrom]. destruct n as [|n]; [exists []; split; [left|]; reflexivity|].
    cbn [repeat collapseFrom]. change (isLowerAlnum 32) with false. cbn iota.
    rewrite collapseFrom_spaces. destruct inRun.
    + exists []. split; [left|]; reflexivity.
    + exists [32]. split; [right|]; reflexivity.
  - cbn [app collapseFrom]. destruct (isLowerAlnum c).
    + destruct (IH false) as (t & Ht & E). exists t. split; [exact Ht|]. rewrite E. reflexivity.
    + destruct (IH true) as (t & Ht & E). exists t. split; [exact Ht|].
      destruct inRun; rewrite E; reflexivity.
Qed.

Lemma trimStart_space y :
  trimStart (y ++ [32]) = trimStart y ++ [32] \/
  (trimStart (y ++ [32]) = [] /\ trimStart y = []).
Proof.
  induction y as [|c y IH]; cbn [app trimStart].
  - right. split; reflexivity.
  - destruct (isWhiteSpace c); [exact IH|left; reflexivity].
Qed.

Lemma trim_space y : trim (y ++ [32]) = trim y.
Proof.
  unfold trim, trimEnd. destruct (trimStart_space y) as [E|[E1 E2]].
  - rewrite E, rev_app_distr. reflexivity.
  - rewrite E1, E2. reflexivity.
Qed.

Lemma Pad_collapse x y : Pad x y -> trim (collapse x) = trim (collapse y).
Proof.
  intros [n ->]. unfold collapse.
  destruct (collapseFrom_pad n x false) as (t & [-> | ->] & E); rewrite E.
  - rewrite app_nil_r. reflexivity.
  - symmetry. apply trim_space.
Qed.

Lemma matchWord_app w tail : forall W,
  matchWord w W = Some [] -> matchWord w (W ++ tail) = Some tail.
Proof.
  induction w as [|p w IH]; intros W; cbn [matchWord].
  - intros [= ->]. reflexivity.
  - destruct W as [|c W]; [discriminate|]. cbn [app].
    destruct (eqIgnoreCase p c); [apply IH|discriminate].
Qed.

Lemma matchWord_letters w : lowerLetters w -> forall W,
  matchWord w W = Some [] ->
  noLineTerminator W = true /\ (w <> [] -> forall tail, isWordAt (W ++ tail) = true).
Proof.
  induction 1 as [|p w Hp _ IH]; intros W; cbn [matchWord].
  - intros [= ->]. split; [reflexivity|]. intros []. reflexivity.
  - destruct W as [|c W]; [discriminate|].
    destruct (eqIgnoreCase p c) eqn:E; [|discriminate]. intros HW.
    destruct (IH W HW) as [Hlt _]. split.
    + cbn [noLineTerminator forallb]. rewrite (eqIgnoreCase_line p c Hp E). exact Hlt.
    + intros _ tail. cbn [app isWordAt]. apply (eqIgnoreCase_word p c Hp E).
Qed.

(** A clause appended after a space: the stage of its word cuts it, or
    cuts earlier as it does without the clause. *)
Lemma removeClause_clause w x W tail :
  lowerLetters w -> w <> [] -> matchWord w W = Some [] -> clauseTail tail = true ->
  Pad (removeClause w x) (removeClause w (x ++ 32 :: W ++ tail)).
Proof.
  intros Hw Hne HW Htail. unfold removeClause.
  destruct (matchWord_letters w Hw W HW) as [HltW Hword].
  assert (Hlt : noLineTerminator (W ++ tail) = true).
  { rewrite noLineTerminator_app, HltW. rewrite clauseTail_boundary in Htail.
    apply andb_true_iff in Htail as [_ ->]. reflexivity. }
  destruct (removeClauseFrom_ext w (W ++ tail) Hw Hne Hlt x None) as [E|[E1 E2]].
  - rewrite E. apply Pad_refl.
  - rewrite E1, E2. exists 2%nat. f_equal. cbn [repeat]. f_equal.
    rewrite removeClauseFrom_eq. unfold clauseMatchesAt.
    rewrite (Hword Hne tail), (matchWord_app w tail W HW), Htail. reflexivity.
Qed.

Lemma removeClauseFrom_line w : forall s prev,
  noLineTerminator s = true -> noLineTerminator (removeClauseFrom w prev s) = true.
Proof.
  induction s as [|c s IH]; intros prev Hs; rewrite removeClauseFrom_eq;
    destruct (clauseMatchesAt w prev _); try reflexivity.
  cbn [noLineTerminator forallb] in Hs |- *. apply andb_true_iff in Hs as [-> Hs].
  apply IH, Hs.
Qed.

Lemma removeClauseFrom_tail w prev tail :
  lowerLetters w -> w <> [] -> clauseTail tail = true ->
  clauseTail (removeClauseFrom w prev tail) = true.
Proof.
  intros Hw Hne. rewrite !clauseTail_boundary. intros H.
  apply andb_true_iff in H as [Hword Hlt]. apply negb_true_iff in Hword.
  rewrite (removeClauseFrom_line w tail prev Hlt), andb_true_r.
  destruct tail as [|c r]; rewrite removeClauseFrom_eq.
  - rewrite (clauseMatchesAt_nil w prev Hne). reflexivity.
  - cbn [isWordAt] in Hword. rewrite (clauseMatchesAt_other w prev c r Hw Hne Hword).
    cbn [isWordAt]. rewrite Hword. reflexivity.
Qed.

Lemma lowerLetters_feat : lowerLetters (js "feat").
Proof.
  unfold lowerLetters. change (js "feat") with [102; 101; 97; 116].
  do 4 (constructor; [lia|]). constructor.
Qed.

Lemma lowerLetters_ft : lowerLetters (js "ft").
Proof.
  unfold lowerLetters. change (js "ft") with [102; 116].
  do 2 (constructor; [lia|]). constructor.
Qed.

Lemma feat_word : js "feat" <> [].
Proof. change (js "feat") with [102; 101; 97; 116]. discriminate. Qed.

Lemma ft_word : js "ft" <> [].
Proof. change (js "ft") with [102; 116]. discriminate. Qed.

(** The [feat] stage on an appended [ft] clause: it cuts earlier, or
    leaves the clause with a tail that still ends it. *)
Lemma removeClause_feat_over_ft x W tail :
  matchWord (js "ft") W = Some [] -> clauseTail tail = true ->
  removeClause (js "feat") (x ++ 32 :: W ++ tail) = removeClause (js "feat") x \/
  (removeClause (js "feat") x = x /\
   exists tail',
     removeClause (js "feat") (x ++ 32 :: W ++ tail) = x ++ 32 :: W ++ tail' /\
     clauseTail tail' = true).
Proof.
  intros HW Htail. unfold removeClause.
  destruct (matchWord_letters (js "ft") lowerLetters_ft W HW) as [HltW _].
  assert (Hlt : noLineTerminator (W ++ tail) = true).
  { rewrite noLineTerminator_app, HltW. rewrite clauseTail_boundary in Htail.
    apply andb_true_iff in Htail as [_ ->]. reflexivity. }
  destruct (removeClauseFrom_ext (js "feat") (W ++ tail) lowerLetters_feat feat_word
              Hlt x None) as [E|[E1 E2]]; [left; exact E|].
  right. split; [exact E1|].
  change (js "ft") with [102; 116] in HW.
  destruct W as [|c1 [|c2 [|c3 W]]]; cbn [matchWord] in HW; [discriminate| |
    |destruct (eqIgnoreCase 102 c1), (eqIgnoreCase 116 c2); discriminate].
  { destruct (eqIgnoreCase 102 c1); discriminate. }
  destruct (eqIgnoreCase 102 c1) eqn:H1; [|discriminate].
  destruct (eqIgnoreCase 116 c2) eqn:H2; [|discriminate].
  exists (removeClauseFrom (js "feat") (Some c2) tail).
  split; [|apply removeClauseFrom_tail;
           [apply lowerLetters_feat|apply feat_word|exact Htail]].
  rewrite E2. do 2 f_equal. cbn [app].
  assert (Hc2 : eqIgnoreCase 101 c2 = false /\ eqIgnoreCase 102 c2 = false).
  { unfold eqIgnoreCase in *. lia. }
  destruct Hc2 as [He Hf].
  rewrite removeClauseFrom_eq.
  assert (M1 : clauseMatchesAt (js "feat") (Some 32) (c1 :: c2 :: tail) = false).
  { unfold clauseMatchesAt. change (js "feat") with [102; 101; 97; 116].
    cbn [matchWord]. rewrite H1, He. apply andb_false_r. }
  rewrite M1. f_equal. rewrite removeClauseFrom_eq.
  assert (M2 : clauseMatchesAt (js "feat") (Some c1) (c2 :: tail) = false).
  { unfold clauseMatchesAt. change (js "feat") with [102; 101; 97; 116].
    cbn [matchWord]. rewrite Hf. apply andb_false_r. }
  rewrite M2. reflexivity.
Qed.

Lemma eqIgnoreCase_bracket p c :
  97 <= p <= 122 -> eqIgnoreCase p c = true -> isBracket c = false.
Proof. unfold eqIgnoreCase, isBracket. lia. Qed.

Lemma matchWord_noBracket w : lowerLetters w -> forall W,
  matchWord w W = Some [] -> noBracket W = true.
Proof.
  induction 1 as [|p w Hp _ IH]; intros W; cbn [matchWord].
  - intros [= ->]. reflexivity.
  - destruct W as [|c W]; [discriminate|].
    destruct (eqIgnoreCase p c) eqn:E; [|discriminate]. intros HW.
    unfold noBracket. cbn [forallb]. rewrite (eqIgnoreCase_bracket p c Hp E).
    apply (IH W HW).
Qed.

Lemma stripMarks_mark a c b :
  isCombiningMark c = true -> stripMarks (a ++ c :: b) = stripMarks (a ++ b).
Proof.
  intros Hc. unfold stripMarks. rewrite !List.filter_app. cbn [List.filter].
  rewrite Hc. reflexivity.
Qed.

Lemma repeat_snoc (n : nat) : repeat 32 n ++ [32] = repeat 32 (S n).
Proof. induction n as [|n IH]; [reflexivity|]. cbn [repeat app]. rewrite IH. reflexivity. Qed.

(** What is left of the text after the bracket stage when a fragment, or
    a clause, was appended to it. *)
Lemma removeBrackets_fragment d n opener close f :
  (opener = 40 /\ close = 41) \/ (opener = 91 /\ close = 93) ->
  noOpener d = true -> fragmentFor close f = true ->
  Pad (removeBrackets d) (removeBrackets (d ++ repeat 32 n ++ opener :: f ++ [close])).
Proof.
  intros Hpair Hd Hf.
  assert (Hsp : noOpener (repeat 32 n) = true) by (induction n; [reflexivity|assumption]).
  rewrite !removeBrackets_plain_app by assumption.
  pose proof (removeBrackets_plain_app d [] Hd) as E.
  rewrite removeBrackets_nil, !app_nil_r in E. rewrite E.
  rewrite removeBrackets_cons.
  assert (Hb : bracketAt opener (f ++ [close]) = Some []).
  { unfold bracketAt. destruct Hpair as [[-> ->]|[-> ->]]; cbn [Z.eqb Pos.eqb];
      apply lazyUntil_fragment, Hf. }
  rewrite Hb, removeBrackets_nil. exists (S n). rewrite repeat_snoc. reflexivity.
Qed.

Section NormalizeFacts.
Context {U : UnicodeOps}.

Lemma finish_pad x y :
  Pad (removeBrackets x) (removeBrackets y) -> finish x = finish y.
Proof.
  intros H. unfold finish. apply Pad_collapse.
  apply (removeClause_pad _ _ _ lowerLetters_ft ft_word).
  apply (removeClause_pad _ _ _ lowerLetters_feat feat_word). exact H.
Qed.

Lemma finish_clause d W tail :
  matchWord (js "feat") W = Some [] \/ matchWord (js "ft") W = Some [] ->
  clauseTail tail = true -> noBracket tail = true ->
  finish (d ++ 32 :: W ++ tail) = finish d.
Proof.
  intros HW Htail Hnb. unfold finish.
  assert (Hext : noBracket (32 :: W ++ tail) = true).
  { unfold noBracket. cbn [forallb]. rewrite forallb_app.
    fold (noBracket W) (noBracket tail). rewrite Hnb, andb_true_r.
    destruct HW as [HW|HW].
    - apply (matchWord_noBracket _ lowerLetters_feat W HW).
    - apply (matchWord_noBracket _ lowerLetters_ft W HW). }
  rewrite (removeBrackets_ext _ Hext d). symmetry. apply Pad_collapse.
  destruct HW as [HW|HW].
  - apply (removeClause_pad _ _ _ lowerLetters_ft ft_word).
    apply (removeClause_clause _ _ _ _ lowerLetters_feat feat_word HW Htail).
  - destruct (removeClause_feat_over_ft (removeBrackets d) W tail HW Htail)
      as [E|(E1 & tail' & E2 & Htail')].
    + rewrite E. apply Pad_refl.
    + rewrite E1, E2.
      apply (removeClause_clause _ _ _ _ lowerLetters_ft ft_word HW Htail').
Qed.
End NormalizeFacts.

(** *** Fragments and spaces inside the text *)

(** No match of the bracket pattern that starts in [a] is left open at
    its end: every opening bracket reached by the scan finds its closing
    bracket within [a], before any line terminator. *)
Fixpoint closedFrom (pending : option Z) (a : jsstring) : bool :=
  match a with
  | [] => match pending with None => true | Some _ => false end
  | c :: r =>
      match pending with
      | Some close =>
          if c =? close then closedFrom None r
          else if isLineTerminator c then false
          else closedFrom pending r
      | None =>
          if c =? 40 then closedFrom (Some 41) r
          else if c =? 91 then closedFrom (Some 93) r
          else closedFrom None r
      end
  end.

Definition closedBrackets (a : jsstring) : bool := closedFrom None a.

(** The code unit before the position after [a], [prev] being the one
    before [a]. *)
Fixpoint lastOr (prev : option Z) (a : jsstring) : option Z :=
  match a with
  | [] => prev
  | c :: r => lastOr (Some c) r
  end.

(** The position between [a] and [b] is no place inside a word: [a]
    does not end, or [b] does not start, with a word character. *)
Definition boundaryAfter (prev : option Z) (a b : jsstring) : bool :=
  negb (from_option isWordChar false (lastOr prev a)) || negb (isWordAt b).

Definition boundary (a b : jsstring) : bool := boundaryAfter None a b.

(** [x'] is [x] with one more space, at a position that is no place
    inside a word. *)
Definition SpacedAfter (prev : option Z) (x' x : jsstring) : Prop :=
  x' = x \/
  exists a b, x' = a ++ 32 :: b /\ x = a ++ b /\ boundaryAfter prev a b = true.

Inductive Closed : jsstring -> Prop :=
| Closed_nil : Closed []
| Closed_plain c r : isOpener c = false -> Closed r -> Closed (c :: r)
| Closed_fragment opener close f rest :
    (opener = 40 /\ close = 41) \/ (opener = 91 /\ close = 93) ->
    fragmentFor close f = true -> Closed rest ->
    Closed (opener :: f ++ close :: rest).

Lemma closedFrom_pending close : forall r,
  closedFrom (Some close) r = true ->
  exists f rest, r = f ++ close :: rest /\ fragmentFor close f = true /\
                 closedFrom None rest = true.
Proof.
  induction r as [|c r IH]; cbn [closedFrom]; [discriminate|].
  destruct (Z.eqb_spec c close) as [->|Hc].
  - intros H. exists [], r. repeat split. exact H.
  - destruct (isLineTerminator c) eqn:Hlt; [discriminate|].
    intros H. destruct (IH H) as (f & rest & -> & Hf & Hrest).
    exists (c :: f), rest. split; [reflexivity|]. split; [|exact Hrest].
    unfold fragmentFor. cbn [forallb]. fold (fragmentFor close f).
    rewrite Hf, Hlt. apply Z.eqb_neq in Hc. rewrite Hc. reflexivity.
Qed.

Lemma closedBrackets_Closed a : closedBrackets a = true -> Closed a.
Proof.
  unfold closedBrackets. remember (length a) as n eqn:Hn. revert a Hn.
  induction n as [n IH] using lt_wf_ind. intros [|c r] Hn; [constructor|].
  cbn [closedFrom length] in *.
  destruct (Z.eqb_spec c 40) as [->|H40].
  - intros H. apply closedFrom_pending in H as (f & rest & -> & Hf & Hrest).
    apply (Closed_fragment 40 41); [left; split; reflexivity|exact Hf|].
    apply (IH (length rest)); [subst n; rewrite length_app; cbn [length]; lia|reflexivity|exact Hrest].
  - destruct (Z.eqb_spec c 91) as [->|H91].
    + intros H. apply closedFrom_pending in H as (f & rest & -> & Hf & Hrest).
      apply (Closed_fragment 91 93); [right; split; reflexivity|exact Hf|].
      apply (IH (length rest)); [subst n; rewrite length_app; cbn [length]; lia|reflexivity|exact Hrest].
    + intros H. apply Closed_plain.
      * unfold isOpener. apply Z.eqb_neq in H40, H91. rewrite H40, H91. reflexivity.
      * apply (IH (length r)); [lia|reflexivity|exact H].
Qed.

Lemma bracketAt_fragment opener close f rest :
  (opener = 40 /\ close = 41) \/ (opener = 91 /\ close = 93) ->
  fragmentFor close f = true ->
  bracketAt opener (f ++ close :: rest) = Some rest.
Proof.
  intros Hpair Hf. unfold bracketAt.
  destruct Hpair as [[-> ->]|[-> ->]]; cbn [Z.eqb Pos.eqb]; apply lazyUntil_fragment, Hf.
Qed.

Lemma removeBrackets_fragment_at opener close f rest :
  (opener = 40 /\ close = 41) \/ (opener = 91 /\ close = 93) ->
  fragmentFor close f = true ->
  removeBrackets (opener :: f ++ close :: rest) = 32 :: removeBrackets rest.
Proof.
  intros Hpair Hf. rewrite removeBrackets_cons, (bracketAt_fragment _ _ _ _ Hpair Hf).
  reflexivity.
Qed.

(** The scan of a closed text has come to its end where the text ends. *)
Lemma removeBrackets_closed a :
  Closed a -> forall s, removeBrackets (a ++ s) = removeBrackets a ++ removeBrackets s.
Proof.
  induction 1 as [|c r Hc _ IH|opener close f rest Hpair Hf _ IH]; intros s.
  - rewrite removeBrackets_nil. reflexivity.
  - cbn [app]. rewrite !removeBrackets_cons, !(bracketAt_plain c _ Hc), IH. reflexivity.
  - cbn [app]. rewrite <- app_assoc. cbn [app].
    rewrite !(removeBrackets_fragment_at _ _ _ _ Hpair Hf), IH. reflexivity.
Qed.

Lemma close_plain opener close :
  (opener = 40 /\ close = 41) \/ (opener = 91 /\ close = 93) -> isWordChar close = false.
Proof. intros [[_ ->]|[_ ->]]; reflexivity. Qed.

Lemma lastOr_app a c r : forall prev, lastOr prev (a ++ c :: r) = lastOr (Some c) r.
Proof. induction a as [|x a IH]; intros prev; cbn [app lastOr]; [reflexivity|apply IH]. Qed.

(** The bracket stage keeps the kind of the last code unit of a closed
    text, and that of the first code unit of any text. *)
Lemma removeBrackets_last a :
  Closed a -> forall p p',
  from_option isWordChar false p = from_option isWordChar false p' ->
  from_option isWordChar false (lastOr p (removeBrackets a))
    = from_option isWordChar false (lastOr p' a).
Proof.
  induction 1 as [|c r Hc _ IH|opener close f rest Hpair Hf _ IH]; intros p p' Hp.
  - rewrite removeBrackets_nil. exact Hp.
  - rewrite removeBrackets_cons, (bracketAt_plain c _ Hc). cbn [lastOr]. apply IH. reflexivity.
  - rewrite (removeBrackets_fragment_at _ _ _ _ Hpair Hf). cbn [lastOr].
    rewrite lastOr_app. apply IH. cbn [from_option].
    rewrite (close_plain _ _ Hpair). reflexivity.
Qed.

Lemma bracketAt_opener c r rest : bracketAt c r = Some rest -> isWordChar c = false.
Proof.
  unfold bracketAt. destruct (Z.eqb_spec c 40) as [->|_]; [reflexivity|].
  destruct (Z.eqb_spec c 91) as [->|_]; [reflexivity|discriminate].
Qed.

Lemma removeBrackets_first b : isWordAt (removeBrackets b) = isWordAt b.
Proof.
  destruct b as [|c r]; [rewrite removeBrackets_nil; reflexivity|].
  rewrite removeBrackets_cons. destruct (bracketAt c r) as [rest|] eqn:Hb; [|reflexivity].
  cbn [isWordAt]. rewrite (bracketAt_opener c r rest Hb). reflexivity.
Qed.

Lemma removeBrackets_boundary a b :
  Closed a -> boundary a b = true -> boundary (removeBrackets a) (removeBrackets b) = true.
Proof.
  intros Ha. unfold boundary, boundaryAfter.
  rewrite (removeBrackets_last a Ha None None eq_refl), removeBrackets_first. auto.
Qed.

(** *** A space more, through the clause stages *)

Lemma clauseMatchesAt_plain w prev s :
  lowerLetters w -> w <> [] -> isWordAt s = false -> clauseMatchesAt w prev s = false.
Proof.
  intros Hw Hne Hs. destruct s as [|c r].
  - apply clauseMatchesAt_nil, Hne.
  - apply clauseMatchesAt_other; assumption.
Qed.

Lemma removeClauseFrom_plain w prev s :
  lowerLetters w -> w <> [] -> isWordAt s = false ->
  isWordAt (removeClauseFrom w prev s) = false.
Proof.
  intros Hw Hne Hs. rewrite removeClauseFrom_eq, (clauseMatchesAt_plain w prev s Hw Hne Hs).
  destruct s; [reflexivity|exact Hs].
Qed.

Lemma removeClauseFrom_prev w p p' s :
  from_option isWordChar false p = from_option isWordChar false p' ->
  removeClauseFrom w p s = removeClauseFrom w p' s.
Proof.
  intros Hp. rewrite (removeClauseFrom_eq w p), (removeClauseFrom_eq w p').
  unfold clauseMatchesAt. rewrite Hp. reflexivity.
Qed.

(** The match of the word and of what ends the clause, with the space
    and without it. *)
Lemma matchWord_space w : lowerLetters w -> forall c s b,
  boundaryAfter (Some c) s b = true ->
  match matchWord w ((c :: s) ++ 32 :: b) with
  | Some rest => clauseTail rest
  | None => false
  end =
  match matchWord w ((c :: s) ++ b) with
  | Some rest => clauseTail rest
  | None => false
  end.
Proof.
  induction 1 as [|p w Hp Hw IH]; intros c s b Hb.
  - cbn [matchWord]. rewrite !clauseTail_boundary, !noLineTerminator_app.
    change (noLineTerminator (32 :: b)) with (noLineTerminator b). reflexivity.
  - cbn [app matchWord]. destruct (eqIgnoreCase p c) eqn:E; [|reflexivity].
    destruct s as [|c' s].
    + unfold boundaryAfter in Hb. cbn [lastOr from_option] in Hb.
      rewrite (eqIgnoreCase_word p c Hp E) in Hb. cbn [negb orb] in Hb.
      apply negb_true_iff in Hb. cbn [app].
      destruct Hw as [|p' w' Hp' Hw'].
      * cbn [matchWord]. rewrite !clauseTail_boundary. cbn [isWordAt].
        rewrite Hb. reflexivity.
      * cbn [matchWord].
        assert (E32 : eqIgnoreCase p' 32 = false).
        { destruct (eqIgnoreCase p' 32) eqn:E'; [|reflexivity].
          apply (eqIgnoreCase_word p' 32 Hp') in E'. discriminate. }
        rewrite E32. destruct b as [|x b]; [reflexivity|].
        cbn [isWordAt] in Hb.
        destruct (eqIgnoreCase p' x) eqn:E'; [|reflexivity].
        apply (eqIgnoreCase_word p' x Hp') in E'. congruence.
    + apply (IH c' s b). exact Hb.
Qed.

Lemma clauseMatchesAt_space w prev c s b :
  lowerLetters w -> boundaryAfter (Some c) s b = true ->
  clauseMatchesAt w prev ((c :: s) ++ 32 :: b) = clauseMatchesAt w prev ((c :: s) ++ b).
Proof.
  intros Hw Hb. unfold clauseMatchesAt. rewrite (matchWord_space w Hw c s b Hb). reflexivity.
Qed.

Lemma SpacedAfter_cons prev c x' x :
  SpacedAfter (Some c) x' x -> SpacedAfter prev (c :: x') (c :: x).
Proof.
  intros [->|(a & b & -> & -> & Hb)]; [left; reflexivity|].
  right. exists (c :: a), b. repeat split. exact Hb.
Qed.

Lemma removeClauseFrom_space w :
  lowerLetters w -> w <> [] -> forall a prev b,
  boundaryAfter prev a b = true ->
  SpacedAfter prev (removeClauseFrom w prev (a ++ 32 :: b))
    (removeClauseFrom w prev (a ++ b)).
Proof.
  intros Hw Hne. induction a as [|c a IH]; intros prev b Hb.
  - cbn [app]. rewrite (removeClauseFrom_eq w prev (32 :: b)).
    rewrite (clauseMatchesAt_other w prev 32 b Hw Hne eq_refl).
    unfold boundaryAfter in Hb. cbn [lastOr] in Hb.
    assert (E : removeClauseFrom w (Some 32) b = removeClauseFrom w prev b).
    { destruct (from_option isWordChar false prev) eqn:Hprev.
      - cbn [negb orb] in Hb. apply negb_true_iff in Hb.
        rewrite (removeClauseFrom_eq w (Some 32)), (removeClauseFrom_eq w prev).
        rewrite !(clauseMatchesAt_plain w _ b Hw Hne Hb). reflexivity.
      - apply removeClauseFrom_prev. rewrite Hprev. reflexivity. }
    rewrite E. right. exists [], (removeClauseFrom w prev b). repeat split.
    unfold boundaryAfter. cbn [lastOr].
    destruct (from_option isWordChar false prev); [|reflexivity].
    cbn [negb orb] in *. apply negb_true_iff in Hb.
    rewrite (removeClauseFrom_plain w prev b Hw Hne Hb). reflexivity.
  - change (boundaryAfter prev (c :: a) b) with (boundaryAfter (Some c) a b) in Hb.
    rewrite (removeClauseFrom_eq w prev ((c :: a) ++ 32 :: b)).
    rewrite (removeClauseFrom_eq w prev ((c :: a) ++ b)).
    rewrite (clauseMatchesAt_space w prev c a b Hw Hb).
    destruct (clauseMatchesAt w prev ((c :: a) ++ b)); [left; reflexivity|].
    cbn [app]. apply SpacedAfter_cons, IH, Hb.
Qed.

Lemma removeClause_spaced w x' x :
  lowerLetters w -> w <> [] ->
  SpacedAfter None x' x -> SpacedAfter None (removeClause w x') (removeClause w x).
Proof.
  intros Hw Hne [->|(a & b & -> & -> & Hb)]; [left; reflexivity|].
  apply removeClauseFrom_space; assumption.
Qed.

(** *** A space more, through the collapse of the runs *)

Lemma isLowerAlnum_word c : isLowerAlnum c = true -> isWordChar c = true.
Proof. unfold isLowerAlnum, isWordChar. lia. Qed.

Lemma collapseFrom_plain b :
  isWordAt b = false -> b <> [] ->
  collapseFrom false b = 32 :: collapseFrom true b.
Proof.
  destruct b as [|c r]; [contradiction|]. cbn [isWordAt collapseFrom]. intros Hc _.
  destruct (isLowerAlnum c) eqn:E; [|reflexivity].
  apply isLowerAlnum_word in E. congruence.
Qed.

Lemma collapseFrom_space a : forall c inRun b,
  b <> [] -> boundaryAfter (Some c) a b = true ->
  collapseFrom inRun ((c :: a) ++ 32 :: b) = collapseFrom inRun ((c :: a) ++ b).
Proof.
  induction a as [|c' a IH]; intros c inRun b Hne Hb.
  - cbn [app collapseFrom]. change (isLowerAlnum 32) with false. cbn iota.
    unfold boundaryAfter in Hb. cbn [lastOr from_option] in Hb.
    destruct (isLowerAlnum c) eqn:E.
    + rewrite (isLowerAlnum_word c E) in Hb. cbn [negb orb] in Hb.
      apply negb_true_iff in Hb. rewrite (collapseFrom_plain b Hb Hne). reflexivity.
    + destruct inRun; reflexivity.
  - change (boundaryAfter (Some c) (c' :: a) b) with (boundaryAfter (Some c') a b) in Hb.
    change ((c :: c' :: a) ++ 32 :: b) with (c :: ((c' :: a) ++ 32 :: b)).
    change ((c :: c' :: a) ++ b) with (c :: ((c' :: a) ++ b)).
    cbn [collapseFrom].
    destruct (isLowerAlnum c); [|destruct inRun]; rewrite (IH c' _ b Hne Hb); reflexivity.
Qed.

Lemma collapse_lead b : trim (collapse (32 :: b)) = trim (collapse b).
Proof.
  unfold collapse. cbn [collapseFrom]. change (isLowerAlnum 32) with false. cbn iota.
  destruct b as [|c r]; [reflexivity|]. cbn [collapseFrom].
  destruct (isLowerAlnum c); reflexivity.
Qed.

Lemma Spaced_collapse x' x : SpacedAfter None x' x -> trim (collapse x') = trim (collapse x).
Proof.
  intros [->|(a & b & -> & -> & Hb)]; [reflexivity|].
  destruct b as [|y b].
  - rewrite app_nil_r. symmetry. apply Pad_collapse. exists 1%nat. reflexivity.
  - destruct a as [|c a]; [apply collapse_lead|].
    unfold collapse. rewrite (collapseFrom_space a c false (y :: b)); [reflexivity|discriminate|].
    exact Hb.
Qed.

(** *** The clause after a closed text *)

Lemma lazyUntil_suffix close : forall s rest,
  lazyUntil close s = Some rest -> exists f, s = f ++ close :: rest.
Proof.
  induction s as [|c s IH]; intros rest; cbn [lazyUntil]; [discriminate|].
  destruct (Z.eqb_spec c close) as [->|_].
  - intros [= ->]. exists []. reflexivity.
  - destruct (isLineTerminator c); [discriminate|].
    intros H. destruct (IH rest H) as [f ->]. exists (c :: f). reflexivity.
Qed.

Lemma bracketAt_suffix c r rest :
  bracketAt c r = Some rest -> exists f close, r = f ++ close :: rest.
Proof.
  unfold bracketAt. intros H.
  destruct (c =? 40); [apply lazyUntil_suffix in H as [f ->]; eauto|].
  destruct (c =? 91); [apply lazyUntil_suffix in H as [f ->]; eauto|discriminate].
Qed.

Lemma removeBrackets_line s :
  noLineTerminator s = true -> noLineTerminator (removeBrackets s) = true.
Proof.
  remember (length s) as n eqn:Hn. revert s Hn.
  induction n as [n IH] using lt_wf_ind. intros [|c r] Hn Hs.
  - rewrite removeBrackets_nil. reflexivity.
  - rewrite removeBrackets_cons. cbn [noLineTerminator forallb] in Hs.
    apply andb_true_iff in Hs as [Hc Hr]. fold (noLineTerminator r) in Hr.
    destruct (bracketAt c r) as [rest|] eqn:Hb.
    + pose proof (bracketAt_length c r rest Hb) as Hlen.
      destruct (bracketAt_suffix c r rest Hb) as (f & close & ->).
      rewrite noLineTerminator_app in Hr. apply andb_true_iff in Hr as [_ Hr].
      cbn [noLineTerminator forallb] in Hr. apply andb_true_iff in Hr as [_ Hr].
      cbn [noLineTerminator forallb]. change (isLineTerminator 32) with false. cbn [negb andb].
      cbn [length] in Hn. apply (IH (length rest)); [lia|reflexivity|exact Hr].
    + cbn [noLineTerminator forallb]. rewrite Hc. cbn [andb].
      cbn [length] in Hn. apply (IH (length r)); [lia|reflexivity|exact Hr].
Qed.

Lemma removeBrackets_tail tail :
  clauseTail tail = true -> clauseTail (removeBrackets tail) = true.
Proof.
  rewrite !clauseTail_boundary, removeBrackets_first. intros H.
  apply andb_true_iff in H as [-> Hlt]. rewrite (removeBrackets_line tail Hlt). reflexivity.
Qed.

Section NormalizeMore.
Context {U : UnicodeOps}.

Lemma finish_spaced x' x :
  SpacedAfter None (removeBrackets x') (removeBrackets x) -> finish x' = finish x.
Proof.
  intros H. unfold finish. apply Spaced_collapse.
  apply (removeClause_spaced _ _ _ lowerLetters_ft ft_word).
  apply (removeClause_spaced _ _ _ lowerLetters_feat feat_word). exact H.
Qed.

Lemma finish_fragment a opener close f b :
  (opener = 40 /\ close = 41) \/ (opener = 91 /\ close = 93) ->
  closedBrackets a = true -> fragmentFor close f = true -> boundary a b = true ->
  finish (a ++ opener :: f ++ close :: b) = finish (a ++ b).
Proof.
  intros Hpair Ha Hf Hb. apply closedBrackets_Closed in Ha.
  apply finish_spaced. rewrite !(removeBrackets_closed a Ha).
  rewrite (removeBrackets_fragment_at _ _ _ _ Hpair Hf).
  right. exists (removeBrackets a), (removeBrackets b). repeat split.
  apply removeBrackets_boundary; assumption.
Qed.

Lemma finish_space a b :
  closedBrackets a = true -> boundary a b = true ->
  finish (a ++ 32 :: b) = finish (a ++ b).
Proof.
  intros Ha Hb. apply closedBrackets_Closed in Ha.
  apply finish_spaced. rewrite !(removeBrackets_closed a Ha).
  rewrite removeBrackets_cons, (bracketAt_plain 32 b eq_refl).
  right. exists (removeBrackets a), (removeBrackets b). repeat split.
  apply removeBrackets_boundary; assumption.
Qed.

(** The two clause stages on a clause appended to what the bracket
    stage has left. *)
Lemma clause_stages x W tail :
  matchWord (js "feat") W = Some [] \/ matchWord (js "ft") W = Some [] ->
  clauseTail tail = true ->
  trim (collapse (removeClause (js "ft") (removeClause (js "feat") (x ++ 32 :: W ++ tail))))
  = trim (collapse (removeClause (js "ft") (removeClause (js "feat") x))).
Proof.
  intros HW Htail. symmetry. apply Pad_collapse.
  destruct HW as [HW|HW].
  - apply (removeClause_pad _ _ _ lowerLetters_ft ft_word).
    apply (removeClause_clause _ _ _ _ lowerLetters_feat feat_word HW Htail).
  - destruct (removeClause_feat_over_ft x W tail HW Htail)
      as [E|(E1 & tail' & E2 & Htail')].
    + rewrite E. apply Pad_refl.
    + rewrite E1, E2.
      apply (removeClause_clause _ _ _ _ lowerLetters_ft ft_word HW Htail').
Qed.

Lemma finish_clause_closed a W tail :
  matchWord (js "feat") W = Some [] \/ matchWord (js "ft") W = Some [] ->
  closedBrackets a = true -> clauseTail tail = true ->
  finish (a ++ 32 :: W ++ tail) = finish a.
Proof.
  intros HW Ha Htail. apply closedBrackets_Closed in Ha. unfold finish.
  rewrite (removeBrackets_closed a Ha).
  assert (HWb : noOpener (32 :: W) = true).
  { apply noBracket_noOpener. unfold noBracket. cbn [forallb]. cbn [isBracket Z.eqb orb negb andb].
    destruct HW as [HW|HW].
    - apply (matchWord_noBracket _ lowerLetters_feat W HW).
    - apply (matchWord_noBracket _ lowerLetters_ft W HW). }
  change (32 :: W ++ tail) with ((32 :: W) ++ tail).
  rewrite (removeBrackets_plain_app (32 :: W) tail HWb). cbn [app].
  apply (clause_stages (removeBrackets a) W (removeBrackets tail) HW).
  apply removeBrackets_tail, Htail.
Qed.
End NormalizeMore.

(** One thing more in a decomposed text that the later steps of
    [normalize] take out again: a bracketed fragment or a space, at a
    position that is no place inside a word, after a text whose
    brackets are closed; or, at the end, a space and a clause that
    starts with feat or ft. *)
Inductive Neutral : jsstring -> jsstring -> Prop :=
| NeutralFragment a opener close f b :
    (opener = 40 /\ close = 41) \/ (opener = 91 /\ close = 93) ->
    closedBrackets a = true -> fragmentFor close f = true -> boundary a b = true ->
    Neutral (a ++ opener :: f ++ close :: b) (a ++ b)
| NeutralSpace a b :
    closedBrackets a = true -> boundary a b = true ->
    Neutral (a ++ 32 :: b) (a ++ b)
| NeutralClause a W tail :
    matchWord (js "feat") W = Some [] \/ matchWord (js "ft") W = Some [] ->
    closedBrackets a = true \/ noBracket tail = true ->
    clauseTail tail = true ->
    Neutral (a ++ 32 :: W ++ tail) a.

(** Texts that differ by any number of such things. *)
Inductive SameButNeutral : jsstring -> jsstring -> Prop :=
| SameStep x y : Neutral x y -> SameButNeutral x y
| SameRefl x : SameButNeutral x x
| SameSym x y : SameButNeutral x y -> SameButNeutral y x
| SameTrans x y z : SameButNeutral x y -> SameButNeutral y z -> SameButNeutral x z.

Lemma finish_neutral {U : UnicodeOps} x y : Neutral x y -> finish x = finish y.
Proof.
  intros [a opener close f b Hpair Ha Hf Hb|a b Ha Hb|a W tail HW [Ha|Hnb] Htail].
  - apply finish_fragment; assumption.
  - apply finish_space; assumption.
  - apply finish_clause_closed; assumption.
  - apply finish_clause; assumption.
Qed.

Lemma finish_same {U : UnicodeOps} x y : SameButNeutral x y -> finish x = finish y.
Proof.
  induction 1 as [x y H|x|x y _ IH|x y z _ IH1 _ IH2];
    [apply finish_neutral, H|reflexivity|symmetry; exact IH|congruence].
Qed.

(** The key as the claim has it: the same with and without a bracketed
    fragment, wherever the fragment stands. *)
Definition keyIgnoresBrackets {U : UnicodeOps} : Prop :=
  forall artist before fragment after,
    buildSongKey artist (before ++ js "(" ++ fragment ++ js ")" ++ after)
    = buildSongKey artist (before ++ after).

(** C6, as claimed, fails: the lazy bracket pattern ends a fragment at
    its first closing bracket, and every removed fragment leaves a space,
    so a fragment with a bracket inside or a fragment inside a word
    changes the key. *)
Lemma buildSongKey_brackets_counterexample :
  ~ @keyIgnoresBrackets Latin1 /\
  @buildSongKey Latin1 (js "Beyonce") (js "Halo (Live (2009) Edit)")
    = js "beyonce|halo edit" /\
  @buildSongKey Latin1 (js "Beyonce") (js "Ha(x)lo") = js "beyonce|ha lo" /\
  @buildSongKey Latin1 (js "Beyonce") (js "Halo") = js "beyonce|halo".
Proof.
  split; [|split; [|split]]; try (vm_compute; reflexivity).
  intros H.
  specialize (H (js "Beyonce") (js "Halo ") (js "Live (2009) Edit") []).
  vm_compute in H. discriminate.
Qed.

(** C6 (amended).  The key is [normalize artist], a bar, [normalize
    title], and [normalize] is the chain of its seven steps.  Two texts
    with the same lower-casing have the same [normalize]; so have two
    texts whose lower-cased decompositions are the same apart from
    combining marks (U+0300 to U+036F), as when one has one mark more.
    [normalize] is the same for two texts whose decompositions (lower
    case, without the marks) differ, in either direction and any number
    of times, by a fragment in round or square brackets with no such
    closing bracket and no line terminator inside, or by a space, put
    where the text before has all its brackets closed and a word
    character is not on both sides; or by a space, the word feat or ft
    in any letter case and a tail that ends the clause (it does not
    start with a word character and holds no line terminator) put at
    the end of a text, when the brackets of that text are closed or the
    tail holds no bracket.  In particular, a fragment appended, after
    any number of spaces, to a text without opening bracket changes
    nothing.  On the Latin-1 tables the key of "Beyoncé", "Halo (Live)"
    is "beyonce|halo". *)
Theorem buildSongKey_invariance {U : UnicodeOps} :
  (forall artist title,
     buildSongKey artist title = normalize artist ++ js "|" ++ normalize title) /\
  (forall value,
     normalize value =
       trim (collapse (removeClause (js "ft") (removeClause (js "feat")
         (removeBrackets (stripMarks (normalizeNFKD (toLowerCase value)))))))) /\
  (forall artist artist' title title',
     normalize artist' = normalize artist -> normalize title' = normalize title ->
     buildSongKey artist' title' = buildSongKey artist title) /\
  (forall v v', toLowerCase v' = toLowerCase v -> normalize v' = normalize v) /\
  (forall v v',
     List.filter (fun c => negb (isCombiningMark c)) (normalizeNFKD (toLowerCase v'))
     = List.filter (fun c => negb (isCombiningMark c)) (normalizeNFKD (toLowerCase v)) ->
     normalize v' = normalize v) /\
  (forall v v' a c b,
     isCombiningMark c = true ->
     normalizeNFKD (toLowerCase v') = a ++ c :: b ->
     normalizeNFKD (toLowerCase v) = a ++ b ->
     normalize v' = normalize v) /\
  (forall v v', SameButNeutral (decompose v') (decompose v) -> normalize v' = normalize v) /\
  (forall x y, SameButNeutral x y -> finish x = finish y) /\
  (forall v v' n opener close f,
     (opener = 40 /\ close = 41) \/ (opener = 91 /\ close = 93) ->
     noOpener (decompose v) = true ->
     fragmentFor close f = true ->
     decompose v' = decompose v ++ repeat 32 n ++ opener :: f ++ [close] ->
     normalize v' = normalize v) /\
  @buildSongKey Latin1 (js "Beyonc" ++ [233]) (js "Halo (Live)") = js "beyonce|halo".
Proof.
  split; [|split; [|split; [|split; [|split; [|split; [|split; [|split; [|split]]]]]]]].
  - reflexivity.
  - reflexivity.
  - intros artist artist' title title' Ha Ht. unfold buildSongKey. rewrite Ha, Ht.
    reflexivity.
  - intros v v' H. unfold normalize, decompose. rewrite H. reflexivity.
  - intros v v' H. unfold normalize, decompose, stripMarks. rewrite H. reflexivity.
  - intros v v' a c b Hc Hv' Hv. unfold normalize, decompose.
    rewrite Hv', Hv, (stripMarks_mark a c b Hc). reflexivity.
  - intros v v' H. unfold normalize. apply finish_same, H.
  - intros x y H. apply finish_same, H.
  - intros v v' n opener close f Hpair Hplain Hf Hv'. unfold normalize. rewrite Hv'.
    symmetry. apply finish_pad.
    apply (removeBrackets_fragment (decompose v) n opener close f Hpair Hplain Hf).
  - vm_compute. reflexivity.
Qed.

Lemma buildSongKey_invariance_witness :
  @normalize Latin1 (js "Halo (Live)") = @normalize Latin1 (js "Halo") /\
  @normalize Latin1 (js "Halo [2009 Remaster]") = @normalize Latin1 (js "Halo") /\
  @normalize Latin1 (js "Halo feat. Jay-Z") = @normalize Latin1 (js "Halo") /\
  @normalize Latin1 (js "Halo FT Jay-Z") = @normalize Latin1 (js "Halo") /\
  @normalize Latin1 (js "HALO") = @normalize Latin1 (js "Halo") /\
  @normalize Latin1 (js "Halo (Live) [Remix]") = @normalize Latin1 (js "Halo") /\
  @normalize Latin1 (js "Halo (Live) Tonight") = @normalize Latin1 (js "Halo Tonight") /\
  @normalize Latin1 (js "Artist feat. Guest (Live) [Remix]") = @normalize Latin1 (js "Artist").
Proof.
  destruct (@buildSongKey_invariance Latin1)
    as (_ & _ & _ & Hcase & _ & _ & Hsame & _ & Hfragment & _).
  assert (Hpair40 : (40 = 40 /\ 41 = 41) \/ (40 = 91 /\ 41 = 93)) by (left; split; reflexivity).
  assert (Hpair91 : (91 = 40 /\ 93 = 41) \/ (91 = 91 /\ 93 = 93)) by (right; split; reflexivity).
  split; [|split; [|split; [|split; [|split; [|split; [|split]]]]]].
  - apply (Hfragment (js "Halo") (js "Halo (Live)") 1%nat 40 41 (js "live"));
      [left; split; reflexivity|reflexivity|reflexivity|vm_compute; reflexivity].
  - apply (Hfragment (js "Halo") (js "Halo [2009 Remaster]") 1%nat 91 93
             (js "2009 remaster"));
      [right; split; reflexivity|reflexivity|reflexivity|vm_compute; reflexivity].
  - apply Hsame. apply SameStep.
    exact (NeutralClause (js "halo") (js "feat") (js ". jay-z")
             (or_introl eq_refl) (or_introl eq_refl) eq_refl).
  - apply Hsame. apply SameStep.
    exact (NeutralClause (js "halo") (js "ft") (js " jay-z")
             (or_intror eq_refl) (or_intror eq_refl) eq_refl).
  - apply Hcase. vm_compute. reflexivity.
  - apply Hsame.
    apply (SameTrans _ (js "halo (live) ")).
    { apply SameStep.
      exact (NeutralFragment (js "halo (live) ") 91 93 (js "remix") [] Hpair91
               eq_refl eq_refl eq_refl). }
    apply (SameTrans _ (js "halo  ")).
    { apply SameStep.
      exact (NeutralFragment (js "halo ") 40 41 (js "live") (js " ") Hpair40
               eq_refl eq_refl eq_refl). }
    apply (SameTrans _ (js "halo ")); apply SameStep.
    + exact (NeutralSpace (js "halo ") [] eq_refl eq_refl).
    + exact (NeutralSpace (js "halo") [] eq_refl eq_refl).
  - apply Hsame.
    apply (SameTrans _ (js "halo  tonight")); apply SameStep.
    + exact (NeutralFragment (js "halo ") 40 41 (js "live") (js " tonight") Hpair40
               eq_refl eq_refl eq_refl).
    + exact (NeutralSpace (js "halo") (js " tonight") eq_refl eq_refl).
  - apply Hsame. apply SameStep.
    exact (NeutralClause (js "artist") (js "feat") (js ". guest (live) [remix]")
             (or_introl eq_refl) (or_introl eq_refl) eq_refl).
Defined.

(** ** The summary of a run *)

(** The songs the loop has passed, by what became of them. *)
Definition songsHandled (s : SyncStats) : nat :=
  (songsDuplicateSkipped s + songsAlreadyInPlaylistSkipped s + songsMatched s
   + songsUnmatched s)%nat.

(** The windows the loop has passed. *)
Definition windowsHandled (s : SyncStats) : nat :=
  (windowsSkippedAlreadyDone s + windowsSkippedFuture s + windowsProcessed s)%nat.

(** The URIs of an add request. *)
Definition addCount (e : Event) : nat :=
  match e with
  | EvAddTracks _ uris _ => length uris
  | _ => O
  end.

Fixpoint addedByEvents (evs : list Event) : nat :=
  match evs with
  | [] => O
  | e :: rest => (addCount e + addedByEvents rest)%nat
  end.

Lemma addedByEvents_app a b : addedByEvents (a ++ b) = (addedByEvents a + addedByEvents b)%nat.
Proof. induction a as [|e a IH]; cbn [app addedByEvents]; [reflexivity|]. rewrite IH. lia. Qed.

Lemma matching_adds_nothing evs : Forall Matching evs -> addedByEvents evs = O.
Proof.
  induction 1 as [|e evs He _ IH]; [reflexivity|].
  cbn [addedByEvents]. rewrite IH.
  destruct e; cbn in He |- *; try discriminate; reflexivity.
Qed.

Section Accounting.
Context {U : UnicodeOps}.
Variable env : Env.
Variable args : SyncArgs.

Lemma applyVerdict_counts v song mem uris :
  (forall e, v <> SearchFailed e) ->
  let r := applyVerdict v song (mem, uris) in
  songsHandled (stats r.1) = S (songsHandled (stats mem)) /\
  songsScraped (stats r.1) = songsScraped (stats mem) /\
  (length r.2 + songsMatched (stats mem) = length uris + songsMatched (stats r.1))%nat.
Proof.
  intros Hv. unfold songsHandled.
  destruct v; cbn; rewrite ?length_app; cbn; try lia.
  exfalso. apply (Hv e). reflexivity.
Qed.

Lemma processSongs_counts window songs : forall position mem uris disk mem' uris',
  outcome (processSongs env args window position songs (mem, uris) disk)
    = inr (mem', uris') ->
  songsHandled (stats mem') = (songsHandled (stats mem) + length songs)%nat /\
  songsScraped (stats mem') = songsScraped (stats mem) /\
  (length uris' + songsMatched (stats mem) = length uris + songsMatched (stats mem'))%nat.
Proof.
  induction songs as [|song rest IH]; intros position mem uris disk mem' uris' Hout.
  - cbn in Hout. injection Hout as <- <-. cbn. lia.
  - cbn [processSongs] in Hout.
    pose proof (processSong_verdict env args window position song mem uris disk) as Hv.
    cbn zeta in Hv.
    set (v := verdict env (runSeenSongKeys mem) (playlistIndex mem) window position song)
      in *.
    destruct (outcome (processSong env args window position song (mem, uris) disk))
      as [e|[mem1 uris1]] eqn:Ho.
    + rewrite (bind_inl _ _ _ _ Ho) in Hout. discriminate.
    + rewrite (bind_inr' _ _ _ _ Ho) in Hout. cbn [prepend outcome] in Hout.
      apply IH in Hout as (H1 & H2 & H3).
      rewrite Hv in Ho. cbn [outcome] in Ho.
      assert (Hnf : forall e, v <> SearchFailed e).
      { intros e E. rewrite E in Ho. discriminate. }
      assert (E : applyVerdict v song (mem, uris) = (mem1, uris1)).
      { destruct v; congruence. }
      pose proof (applyVerdict_counts v song mem uris Hnf) as (G1 & G2 & G3).
      cbn zeta in G1, G2, G3. rewrite E in G1, G2, G3. cbn [fst snd] in G1, G2, G3.
      cbn [length]. lia.
Qed.

(** One pass of the loop body that ends well. *)
Lemma processWindow_counts playlistId window mem disk mem' :
  outcome (processWindow env args playlistId window mem disk) = inr mem' ->
  let r := processWindow env args playlistId window mem disk in
  windowsPlanned (stats mem') = windowsPlanned (stats mem) /\
  windowsHandled (stats mem') = S (windowsHandled (stats mem)) /\
  (windowsProcessed (stats mem') + windowsNotMarkedNotInPast (stats mem)
   <= windowsProcessed (stats mem) + windowsNotMarkedNotInPast (stats mem') + 1)%nat /\
  (windowsNotMarkedNotInPast (stats mem) <= windowsNotMarkedNotInPast (stats mem'))%nat /\
  (windowsNotMarkedNotInPast (stats mem') + windowsProcessed (stats mem)
   <= windowsNotMarkedNotInPast (stats mem) + windowsProcessed (stats mem'))%nat /\
  (songsScraped (stats mem') + songsHandled (stats mem)
   = songsScraped (stats mem) + songsHandled (stats mem'))%nat /\
  (tracksAdded (stats mem') + (if dryRun args then songsMatched (stats mem') else songsMatched (stats mem))
   = tracksAdded (stats mem) + songsMatched (stats mem'))%nat /\
  (tracksAdded (stats mem') = tracksAdded (stats mem) + addedByEvents (events r))%nat.
Proof.
  cbn zeta.
  destruct (processWindow_shape env args playlistId window mem disk)
    as [Hfut|Hfut Hdone|Hfut Hdone Hscrape|songs e Hfut Hdone Hscrape Hsongs
       |songs mem1 uris Hfut Hdone Hscrape Hsongs Hd Hne Hadd
       |songs mem1 uris Hfut Hdone Hscrape Hsongs Hadd];
    cbn [outcome events]; try discriminate.
  - intros [= <-]. unfold windowsHandled, songsHandled. cbn. destruct (dryRun args); lia.
  - intros [= <-]. unfold windowsHandled, songsHandled. cbn. destruct (dryRun args); lia.
  - subst marks mem3. intros [= <-].
    pose proof (songLoop_same_window_data env args window songs mem disk mem1 uris Hsongs)
      as (_ & S1 & S2 & S3 & S4 & S5 & S6).
    unfold songLoop in Hsongs.
    pose proof (proj1 (processSongs_frame env args window songs 0
                         (withStats (bump SongsScraped (length songs)) mem, []) disk)) as Hm.
    apply processSongs_counts in Hsongs as (C1 & C2 & C3).
    cbn [withStats stats] in C1, C2, C3.
    change (songsHandled (bump SongsScraped (length songs) (stats mem)))
      with (songsHandled (stats mem)) in C1.
    change (songsMatched (bump SongsScraped (length songs) (stats mem)))
      with (songsMatched (stats mem)) in C3.
    change (songsScraped (bump SongsScraped (length songs) (stats mem)))
      with (songsScraped (stats mem) + length songs)%nat in C2.
    cbn [length] in C3.
    unfold afterMark, afterAdd, windowsHandled, songLoop.
    change (EvScrape (windowUrl args window) :: ?l) with ([EvScrape (windowUrl args window)] ++ l).
    rewrite !addedByEvents_app, (matching_adds_nothing _ Hm).
    destruct (dryRun args), (endIsPast env args window), (0 <? length uris)%nat eqn:Hlen,
      (0 <? sourceDelayMs args);
      cbn; rewrite ?length_rev;
      try apply Nat.ltb_ge in Hlen; unfold songsHandled in *; repeat split; try lia.
Qed.
End Accounting.

Section Ledger.
Context {U : UnicodeOps}.
Variable env : Env.
Variable args : SyncArgs.
Variable playlistId : jsstring.

(** What [n] passes of the loop body that end well do to the counters. *)
Definition Ledger (n : nat) (evs : list Event) (mem mem' : Mem) : Prop :=
  windowsPlanned (stats mem') = windowsPlanned (stats mem) /\
  windowsHandled (stats mem') = (windowsHandled (stats mem) + n)%nat /\
  (windowsNotMarkedNotInPast (stats mem') + windowsProcessed (stats mem)
   <= windowsNotMarkedNotInPast (stats mem) + windowsProcessed (stats mem'))%nat /\
  (songsScraped (stats mem') + songsHandled (stats mem)
   = songsScraped (stats mem) + songsHandled (stats mem'))%nat /\
  (tracksAdded (stats mem')
     + (if dryRun args then songsMatched (stats mem') else songsMatched (stats mem))
   = tracksAdded (stats mem) + songsMatched (stats mem'))%nat /\
  (tracksAdded (stats mem') = tracksAdded (stats mem) + addedByEvents evs)%nat.

Lemma processWindows_ledger windows : forall mem disk mem',
  outcome (processWindows env args playlistId windows mem disk) = inr mem' ->
  Ledger (length windows) (events (processWindows env args playlistId windows mem disk))
    mem mem'.
Proof.
  induction windows as [|w rest IH]; intros mem disk mem' Hout.
  - cbn in Hout |- *. injection Hout as <-. unfold Ledger. cbn.
    destruct (dryRun args); repeat split; lia.
  - cbn [processWindows] in Hout |- *.
    destruct (outcome (processWindow env args playlistId w mem disk)) as [e|mem1] eqn:Ho.
    { rewrite (bind_inl _ _ _ _ Ho) in Hout. discriminate. }
    rewrite (bind_inr' _ _ _ _ Ho) in Hout |- *. cbn [prepend outcome events] in Hout |- *.
    pose proof (processWindow_counts env args playlistId w mem disk mem1 Ho)
      as (A1 & A2 & _ & _ & A3 & A4 & A5 & A6).
    apply IH in Hout as (B1 & B2 & B3 & B4 & B5 & B6).
    unfold Ledger. rewrite addedByEvents_app. cbn [length].
    destruct (dryRun args); repeat split; lia.
Qed.
End Ledger.

Lemma loadEvents_add_nothing args disk : addedByEvents (loadEvents args disk) = O.
Proof. unfold loadEvents. destruct (argTruthy (playlist args)); reflexivity. Qed.

(** The counters at the end of a run that ends well. *)
Lemma runSyncCommand_ledger {U : UnicodeOps} env args disk mem :
  outcome (runSyncCommand env args disk) = inr mem ->
  windowsPlanned (stats mem) = length (plannedWindows args) /\
  windowsHandled (stats mem) = length (plannedWindows args) /\
  (windowsNotMarkedNotInPast (stats mem) <= windowsProcessed (stats mem))%nat /\
  songsScraped (stats mem) = songsHandled (stats mem) /\
  tracksAdded (stats mem) = (if dryRun args then O else songsMatched (stats mem)) /\
  tracksAdded (stats mem) = addedByEvents (events (runSyncCommand env args disk)).
Proof.
  destruct (runSyncCommand_shape env args disk)
    as [e Hv|e tail Hv Htail
       |playlistId currentUserId meta pages windows Hv Hpid Htruthy Huser Hmeta Hwritable
          Hpages Hwin]; cbn [prepend outcome events]; try discriminate.
  intros Hout.
  apply processWindows_ledger in Hout as (B1 & B2 & B3 & B4 & B5 & B6).
  cbn [initialMem stats] in B1, B2, B3, B4, B5, B6.
  unfold plannedWindows. rewrite Hwin. cbn [default].
  rewrite !addedByEvents_app, loadEvents_add_nothing. cbn [addedByEvents addCount].
  unfold windowsHandled, songsHandled in *. cbn in B1, B2, B3, B4, B5, B6.
  unfold id. destruct (dryRun args); repeat split; lia.
Qed.

(** X1.  At the end of a run that ends well, [windowsPlanned] is the
    number of windows of the plan, every planned window was counted once
    as skipped (already done), skipped (future) or processed, and no more
    windows are counted as not marked than were processed. *)
Theorem summary_windows_add_up {U : UnicodeOps} (env : Env) (args : SyncArgs)
    (disk : option State) (mem : Mem) :
  outcome (runSyncCommand env args disk) = inr mem ->
  windowsPlanned (stats mem) = length (plannedWindows args) /\
  windowsPlanned (stats mem)
    = (windowsSkippedAlreadyDone (stats mem) + windowsSkippedFuture (stats mem)
       + windowsProcessed (stats mem))%nat /\
  (windowsNotMarkedNotInPast (stats mem) <= windowsProcessed (stats mem))%nat.
Proof.
  intros Hout. apply runSyncCommand_ledger in Hout as (H1 & H2 & H3 & _).
  unfold windowsHandled in H2. repeat split; lia.
Qed.

Lemma summary_windows_add_up_witness :
  exists mem,
    outcome (@runSyncCommand Latin1 (demoEnv sameDayAt3) (demoArgs false false None) demoDisk)
      = inr mem /\
    windowsPlanned (stats mem) = 2%nat /\
    (windowsSkippedAlreadyDone (stats mem) + windowsSkippedFuture (stats mem)
     + windowsProcessed (stats mem))%nat = 2%nat.
Proof.
  assert (H : exists mem,
            outcome (@runSyncCommand Latin1 (demoEnv sameDayAt3) (demoArgs false false None)
                       demoDisk) = inr mem) by (vm_compute; eexists; reflexivity).
  destruct H as [mem H]. exists mem. split; [exact H|].
  destruct (@summary_windows_add_up Latin1 _ _ _ _ H) as (H1 & H2 & _).
  rewrite <- H2, H1. split; reflexivity.
Defined.

(** X2.  At the end of a run that ends well, every scraped song was
    counted once: as a duplicate within the run, as already in the
    playlist, as matched or as unmatched. *)
Theorem summary_songs_add_up {U : UnicodeOps} (env : Env) (args : SyncArgs)
    (disk : option State) (mem : Mem) :
  outcome (runSyncCommand env args disk) = inr mem ->
  songsScraped (stats mem)
    = (songsDuplicateSkipped (stats mem) + songsAlreadyInPlaylistSkipped (stats mem)
       + songsMatched (stats mem) + songsUnmatched (stats mem))%nat.
Proof.
  intros Hout. apply runSyncCommand_ledger in Hout as (_ & _ & _ & H & _). exact H.
Qed.

Lemma summary_songs_add_up_witness :
  exists mem,
    outcome (@runSyncCommand Latin1 (demoEnv nextDay) (demoArgs false false None) demoDisk)
      = inr mem /\
    songsScraped (stats mem) = 3%nat /\
    (songsDuplicateSkipped (stats mem) + songsAlreadyInPlaylistSkipped (stats mem)
     + songsMatched (stats mem) + songsUnmatched (stats mem))%nat = 3%nat.
Proof.
  assert (H : exists mem,
            outcome (@runSyncCommand Latin1 (demoEnv nextDay) (demoArgs false false None)
                       demoDisk) = inr mem /\ songsScraped (stats mem) = 3%nat)
    by (vm_compute; eexists; split; reflexivity).
  destruct H as (mem & H & Hn). exists mem. split; [exact H|]. split; [exact Hn|].
  rewrite <- (@summary_songs_add_up Latin1 _ _ _ _ H). exact Hn.
Defined.

(** X3.  At the end of a run that ends well without dry-run,
    [tracksAdded] equals [songsMatched]; with dry-run it is 0; in both it
    is the number of URIs the add requests of the run carried. *)
Theorem summary_tracks_added {U : UnicodeOps} (env : Env) (args : SyncArgs)
    (disk : option State) (mem : Mem) :
  outcome (runSyncCommand env args disk) = inr mem ->
  tracksAdded (stats mem) = (if dryRun args then O else songsMatched (stats mem)) /\
  tracksAdded (stats mem) = addedByEvents (events (runSyncCommand env args disk)).
Proof.
  intros Hout. apply runSyncCommand_ledger in Hout as (_ & _ & _ & _ & H1 & H2).
  split; assumption.
Qed.

Lemma summary_tracks_added_witness :
  exists mem,
    outcome (@runSyncCommand Latin1 (demoEnv nextDay) (demoArgs false false None) demoDisk)
      = inr mem /\
    tracksAdded (stats mem) = songsMatched (stats mem) /\
    addedByEvents
      (events (@runSyncCommand Latin1 (demoEnv nextDay) (demoArgs false false None) demoDisk))
    = 1%nat.
Proof.
  assert (H : exists mem,
            outcome (@runSyncCommand Latin1 (demoEnv nextDay) (demoArgs false false None)
                       demoDisk) = inr mem /\ tracksAdded (stats mem) = 1%nat)
    by (vm_compute; eexists; split; reflexivity).
  destruct H as (mem & H & Hn). exists mem. split; [exact H|].
  destruct (@summary_tracks_added Latin1 _ _ _ _ H) as [H1 H2].
  split; [exact H1|]. rewrite <- H2. exact Hn.
Defined.

(** ** Which windows a run scrapes *)

Lemma matching_no_scrape (evs : list Event) :
  Forall Matching evs -> List.filter isScrapeEvent evs = [].
Proof. apply filter_none. intros []; simpl; congruence. Qed.

Section Dispatch.
Context {U : UnicodeOps}.
Variable env : Env.
Variable args : SyncArgs.
Variable playlistId : jsstring.

(** The window is neither fully in the future nor skipped as done. *)
Definition isDue (st : State) (w : TimeWindow) : bool :=
  negb (skipsAsFuture env args w) && negb (skipsAsDone args w st).

Definition isDoneNotFuture (st : State) (w : TimeWindow) : bool :=
  negb (skipsAsFuture env args w) && skipsAsDone args w st.

Definition scrapeOf (w : TimeWindow) : Event := EvScrape (windowUrl args w).

Lemma processWindow_scrapes w mem disk :
  List.filter isScrapeEvent (events (processWindow env args playlistId w mem disk))
  = if isDue (state mem) w then [scrapeOf w] else [].
Proof.
  pose proof (fun songs =>
    proj1 (processSongs_frame env args w songs 0
             (withStats (bump SongsScraped (length songs)) mem, []) disk)) as Hm.
  unfold isDue, scrapeOf.
  destruct (processWindow_shape env args playlistId w mem disk)
    as [Hfut|Hfut Hdone|Hfut Hdone Hscrape|songs e Hfut Hdone Hscrape Hsongs
       |songs mem1 uris Hfut Hdone Hscrape Hsongs Hd Hne Hadd
       |songs mem1 uris Hfut Hdone Hscrape Hsongs Hadd];
    cbn [events]; rewrite ?Hfut, ?Hdone; cbn [negb andb List.filter isScrapeEvent];
    try reflexivity.
  - unfold songLoop. rewrite (matching_no_scrape _ (Hm songs)). reflexivity.
  - unfold songLoop. rewrite List.filter_app, (matching_no_scrape _ (Hm songs)). reflexivity.
  - unfold songLoop. rewrite !List.filter_app, (matching_no_scrape _ (Hm songs)).
    destruct (negb (dryRun args) && (0 <? length uris)%nat), marks,
      (0 <? sourceDelayMs args); reflexivity.
Qed.

Definition flag (b : bool) : nat := if b then 1%nat else O.

Lemma processWindow_dispatch w mem disk mem' :
  outcome (processWindow env args playlistId w mem disk) = inr mem' ->
  windowsSkippedFuture (stats mem')
    = (windowsSkippedFuture (stats mem) + flag (skipsAsFuture env args w))%nat /\
  windowsSkippedAlreadyDone (stats mem')
    = (windowsSkippedAlreadyDone (stats mem) + flag (isDoneNotFuture (state mem) w))%nat /\
  windowsProcessed (stats mem')
    = (windowsProcessed (stats mem) + flag (isDue (state mem) w))%nat /\
  (forall w', windowKeyOf w' <> windowKeyOf w ->
     skipsAsDone args w' (state mem') = skipsAsDone args w' (state mem)).
Proof.
  intros Hout.
  destruct (processWindow_memory env args playlistId w mem disk) as [_ Hok].
  destruct (Hok mem' Hout) as (Hst & _). clear Hok.
  assert (Hother : forall w', windowKeyOf w' <> windowKeyOf w ->
            skipsAsDone args w' (state mem') = skipsAsDone args w' (state mem)).
  { intros w' Hne. rewrite Hst. destruct (marksWindow env args w (state mem)); [|reflexivity].
    apply skipsAsDone_other, Hne. }
  revert Hout. unfold isDue, isDoneNotFuture.
  destruct (processWindow_shape env args playlistId w mem disk)
    as [Hfut|Hfut Hdone|Hfut Hdone Hscrape|songs e Hfut Hdone Hscrape Hsongs
       |songs mem1 uris Hfut Hdone Hscrape Hsongs Hd Hne Hadd
       |songs mem1 uris Hfut Hdone Hscrape Hsongs Hadd];
    cbn [outcome]; try discriminate; rewrite ?Hfut, ?Hdone; cbn [negb andb flag].
  - intros [= <-]. cbn. repeat split; try lia; try exact Hother.
  - intros [= <-]. cbn. repeat split; try lia; try exact Hother.
  - subst marks mem3. intros [= <-].
    pose proof (songLoop_same_window_data env args w songs mem disk mem1 uris Hsongs)
      as (_ & S1 & S2 & S3 & S4 & S5 & S6).
    split; [|split; [|split; [|exact Hother]]];
      unfold afterMark, afterAdd;
      destruct (negb (dryRun args)), (endIsPast env args w), (0 <? length uris)%nat;
      cbn; lia.
Qed.

Lemma filter_same {A} (p q : A -> bool) (l : list A) :
  (forall x, In x l -> p x = q x) -> List.filter p l = List.filter q l.
Proof. intros H. apply List.filter_ext_in. exact H. Qed.

Lemma processWindows_dispatch windows : forall mem disk mem',
  NoDup (map windowKeyOf windows) ->
  outcome (processWindows env args playlistId windows mem disk) = inr mem' ->
  List.filter isScrapeEvent (events (processWindows env args playlistId windows mem disk))
    = map scrapeOf (List.filter (isDue (state mem)) windows) /\
  windowsSkippedFuture (stats mem')
    = (windowsSkippedFuture (stats mem)
       + length (List.filter (skipsAsFuture env args) windows))%nat /\
  windowsSkippedAlreadyDone (stats mem')
    = (windowsSkippedAlreadyDone (stats mem)
       + length (List.filter (isDoneNotFuture (state mem)) windows))%nat /\
  windowsProcessed (stats mem')
    = (windowsProcessed (stats mem)
       + length (List.filter (isDue (state mem)) windows))%nat.
Proof.
  induction windows as [|w rest IH]; intros mem disk mem' Hnd Hout.
  - cbn in Hout |- *. injection Hout as <-. repeat split; lia.
  - cbn [processWindows] in Hout |- *.
    cbn [map] in Hnd. apply NoDup_cons in Hnd as [Hfresh Hnd].
    destruct (outcome (processWindow env args playlistId w mem disk)) as [e|mem1] eqn:Ho.
    { rewrite (bind_inl _ _ _ _ Ho) in Hout. discriminate. }
    rewrite (bind_inr' _ _ _ _ Ho) in Hout |- *. cbn [prepend outcome events] in Hout |- *.
    destruct (processWindow_dispatch w mem disk mem1 Ho) as (A1 & A2 & A3 & Hother).
    destruct (IH mem1 _ mem' Hnd Hout) as (B0 & B1 & B2 & B3).
    assert (Hsame : forall w', In w' rest ->
              skipsAsDone args w' (state mem1) = skipsAsDone args w' (state mem)).
    { intros w' Hin. apply Hother. intros Heq. apply Hfresh.
      apply list_elem_of_In. rewrite <- Heq. apply List.in_map. exact Hin. }
    assert (Edue : List.filter (isDue (state mem1)) rest
                   = List.filter (isDue (state mem)) rest).
    { apply filter_same. intros w' Hin. unfold isDue. rewrite (Hsame w' Hin). reflexivity. }
    assert (Edone : List.filter (isDoneNotFuture (state mem1)) rest
                    = List.filter (isDoneNotFuture (state mem)) rest).
    { apply filter_same. intros w' Hin. unfold isDoneNotFuture.
      rewrite (Hsame w' Hin). reflexivity. }
    rewrite Edue in B0, B3. rewrite Edone in B2.
    rewrite List.filter_app, processWindow_scrapes, B0.
    cbn [List.filter].
    destruct (isDue (state mem) w) eqn:Hdue, (skipsAsFuture env args w) eqn:Hfut,
      (isDoneNotFuture (state mem) w) eqn:Hdn;
      cbn [flag map app length] in *; repeat split; try reflexivity; lia.
Qed.
End Dispatch.

(** X4.  In a run that ends well, the windows scraped are, in the order
    of the plan, exactly the planned windows that are not fully in the
    future when the loop reaches them and are not recorded as processed
    in the state file the run loaded (or all those not in the future,
    with [--force]); the three window counters count the windows in the
    future, those recorded among the rest, and the scraped ones. *)
Theorem completed_run_dispatch {U : UnicodeOps} (env : Env) (args : SyncArgs)
    (disk : option State) (mem : Mem) :
  outcome (runSyncCommand env args disk) = inr mem ->
  let st := parseState disk in
  let plan := plannedWindows args in
  List.filter isScrapeEvent (events (runSyncCommand env args disk))
    = map (scrapeOf args) (List.filter (isDue env args st) plan) /\
  windowsSkippedFuture (stats mem) = length (List.filter (skipsAsFuture env args) plan) /\
  windowsSkippedAlreadyDone (stats mem)
    = length (List.filter (isDoneNotFuture env args st) plan) /\
  windowsProcessed (stats mem) = length (List.filter (isDue env args st) plan) /\
  (force args = true -> windowsSkippedAlreadyDone (stats mem) = O).
Proof.
  intros Hout. cbn zeta.
  assert (Hcore :
    List.filter isScrapeEvent (events (runSyncCommand env args disk))
      = map (scrapeOf args) (List.filter (isDue env args (parseState disk))
                               (plannedWindows args)) /\
    windowsSkippedFuture (stats mem)
      = length (List.filter (skipsAsFuture env args) (plannedWindows args)) /\
    windowsSkippedAlreadyDone (stats mem)
      = length (List.filter (isDoneNotFuture env args (parseState disk))
                  (plannedWindows args)) /\
    windowsProcessed (stats mem)
      = length (List.filter (isDue env args (parseState disk)) (plannedWindows args))).
  { revert Hout.
    destruct (runSyncCommand_shape env args disk)
      as [e Hv|e tail Hv Htail
         |playlistId currentUserId meta pages windows Hv Hpid Htruthy Huser Hmeta Hwritable
            Hpages Hwin]; cbn [prepend outcome events]; try discriminate.
    intros Hout.
    assert (Hnd : NoDup (map windowKeyOf windows)).
    { pose proof (plannedWindows_distinct args Hv) as Hnd. unfold plannedWindows in Hnd.
      rewrite Hwin in Hnd. exact Hnd. }
    destruct (processWindows_dispatch env args playlistId windows _ _ mem Hnd Hout)
      as (B0 & B1 & B2 & B3).
    cbn [initialMem state stats] in B0, B1, B2, B3.
    assert (Est : forall w, skipsAsDone args w (stateAfterLoad args disk)
                            = skipsAsDone args w (parseState disk)).
    { intros w. unfold skipsAsDone. f_equal.
      apply stateAfterLoad_processed. }
    assert (Edue : List.filter (isDue env args (stateAfterLoad args disk)) windows
                   = List.filter (isDue env args (parseState disk)) windows).
    { apply filter_same. intros w _. unfold isDue. rewrite Est. reflexivity. }
    assert (Edone : List.filter (isDoneNotFuture env args (stateAfterLoad args disk)) windows
                    = List.filter (isDoneNotFuture env args (parseState disk)) windows).
    { apply filter_same. intros w _. unfold isDoneNotFuture. rewrite Est. reflexivity. }
    rewrite Edue in B0, B3. rewrite Edone in B2.
    unfold plannedWindows. rewrite Hwin. unfold default, id.
    rewrite !List.filter_app.
    assert (Hload : List.filter isScrapeEvent (loadEvents args disk) = []).
    { unfold loadEvents. destruct (argTruthy (playlist args)); reflexivity. }
    rewrite Hload, B0. cbn in B1, B2, B3 |- *. repeat split; assumption. }
  destruct Hcore as (C0 & C1 & C2 & C3).
  repeat split; try assumption.
  intros Hforce. rewrite C2. clear C0 C1 C2 C3.
  assert (E : List.filter (isDoneNotFuture env args (parseState disk)) (plannedWindows args)
              = []).
  { induction (plannedWindows args) as [|w l IH]; [reflexivity|].
    cbn [List.filter]. unfold isDoneNotFuture at 1, skipsAsDone. rewrite Hforce.
    cbn [negb andb]. rewrite andb_false_r. exact IH. }
  rewrite E. reflexivity.
Qed.

Lemma completed_run_dispatch_witness :
  exists mem,
    outcome (@runSyncCommand Latin1 (demoEnv sameDayAt3) (demoArgs false false None) demoDisk)
      = inr mem /\
    List.filter isScrapeEvent
      (events (@runSyncCommand Latin1 (demoEnv sameDayAt3) (demoArgs false false None)
                 demoDisk))
    = [EvScrape (windowUrl (demoArgs false false None) {| from := 0; to := 2 |});
       EvScrape (windowUrl (demoArgs false false None) {| from := 2; to := 4 |})] /\
    windowsProcessed (stats mem) = 2%nat.
Proof.
  assert (H : exists mem,
            outcome (@runSyncCommand Latin1 (demoEnv sameDayAt3) (demoArgs false false None)
                       demoDisk) = inr mem) by (vm_compute; eexists; reflexivity).
  destruct H as [mem H]. exists mem. split; [exact H|].
  destruct (@completed_run_dispatch Latin1 _ _ _ _ H) as (H0 & _ & _ & H3 & _).
  cbn zeta in H0, H3. rewrite H0, H3. split; vm_compute; reflexivity.
Defined.

(** ** A window that fails *)

(** X5.  A pass of the loop body that fails (the source page, a search
    or the add request) leaves the state file as it was and saves
    nothing, so the window is not recorded as processed; only a window
    that is due can fail; and unless the failure is that of the add
    request itself, no add request was made for the window. *)
Theorem failed_window_leaves_no_mark {U : UnicodeOps} (env : Env) (args : SyncArgs)
    (playlistId : jsstring) (window : TimeWindow) (mem : Mem) (disk : option State)
    (e : Error) :
  outcome (processWindow env args playlistId window mem disk) = inl e ->
  let r := processWindow env args playlistId window mem disk in
  diskAfter r = disk /\
  List.filter isSaveEvent (events r) = [] /\
  isDue env args (state mem) window = true /\
  (List.filter isAddEvent (events r) = [] \/
   (e = SpotifyRequestFailed /\ dryRun args = false /\
    addTracksSucceeds env window = false /\
    exists uris, uris <> [] /\
      List.filter isAddEvent (events r) = [EvAddTracks playlistId (rev uris) (Some 0)])).
Proof.
  intros Hout. cbn zeta.
  destruct (processWindow_memory env args playlistId window mem disk) as [Hfail _].
  destruct (Hfail e Hout) as [Hdisk Hsave]. clear Hfail.
  split; [exact Hdisk|]. split; [exact Hsave|].
  pose proof (fun songs =>
    proj1 (processSongs_frame env args window songs 0
             (withStats (bump SongsScraped (length songs)) mem, []) disk)) as Hm.
  revert Hout. unfold isDue.
  destruct (processWindow_shape env args playlistId window mem disk)
    as [Hfut|Hfut Hdone|Hfut Hdone Hscrape|songs e' Hfut Hdone Hscrape Hsongs
       |songs mem1 uris Hfut Hdone Hscrape Hsongs Hd Hne Hadd
       |songs mem1 uris Hfut Hdone Hscrape Hsongs Hadd];
    cbn [outcome events]; try discriminate; intros [= <-]; rewrite Hfut, Hdone;
    (split; [reflexivity|]).
  - left. reflexivity.
  - left. cbn [List.filter isAddEvent]. unfold songLoop.
    apply matching_no_add, Hm.
  - right. repeat split; try assumption. exists uris. split; [exact Hne|].
    cbn [List.filter isAddEvent]. unfold songLoop.
    rewrite List.filter_app, (matching_no_add _ (Hm songs)). reflexivity.
Qed.

(** The service of the evaluated run with every search failing. *)
Definition searchDownEnv (now : WarsawNowParts) : Env :=
  {| currentUser := currentUser (demoEnv now);
     playlistMeta := playlistMeta (demoEnv now);
     playlistPages := playlistPages (demoEnv now);
     nowAtFutureCheck := nowAtFutureCheck (demoEnv now);
     nowAtPastCheck := nowAtPastCheck (demoEnv now);
     scrapeSongsFromSource := scrapeSongsFromSource (demoEnv now);
     searchTracks := fun _ _ _ _ => None;
     addTracksSucceeds := addTracksSucceeds (demoEnv now) |}.

Lemma failed_window_leaves_no_mark_witness :
  let r := @processWindow Latin1 (searchDownEnv nextDay) (demoArgs false false None)
             (js "pl1") {| from := 0; to := 2 |} demoMem demoDisk in
  outcome r = inl SpotifyRequestFailed /\ diskAfter r = demoDisk /\
  List.filter isSaveEvent (events r) = [].
Proof.
  cbn zeta.
  assert (H : outcome (@processWindow Latin1 (searchDownEnv nextDay)
                         (demoArgs false false None) (js "pl1") {| from := 0; to := 2 |}
                         demoMem demoDisk) = inl SpotifyRequestFailed)
    by (vm_compute; reflexivity).
  split; [exact H|].
  destruct (@failed_window_leaves_no_mark Latin1 _ _ _ _ _ _ _ H) as (H1 & H2 & _).
  split; assumption.
Defined.

(** ** Before the window loop *)

(** The steps of [runSyncCommand] up to the lookup of the mapping. *)
Ltac run_to_mapping Hv :=
  unfold runSyncCommand;
  unfold validRange in Hv; apply andb_true_iff in Hv as [?H1 ?H2];
  apply negb_true_iff in H1, H2; rewrite H1, H2, !bind_ret;
  rewrite bind_loadState;
  match goal with
  | |- context [argTruthy (playlist ?args)] =>
      match goal with
      | |- context [parseState ?disk] =>
          let Hstep := fresh "Hstep" in
          assert (Hstep : forall k : State -> M Mem,
                    bind (if argTruthy (playlist args)
                          then bind (saveState (mapStation args (parseState disk)))
                                 (fun _ => ret (mapStation args (parseState disk)))
                          else ret (parseState disk)) k disk
                    = prepend (if argTruthy (playlist args)
                               then [EvSaveState (mapStation args (parseState disk))] else [])
                        (k (stateAfterLoad args disk) (diskAfterLoad args disk)));
          [ intros k; unfold stateAfterLoad, diskAfterLoad;
            destruct (argTruthy (playlist args));
            [ rewrite bind_assoc, bind_saveState, bind_ret; reflexivity
            | rewrite bind_ret; unfold prepend; destruct (k _ _); reflexivity ]
          | rewrite Hstep, prepend_prepend; clear Hstep;
            change ([EvLoadState]
                    ++ (if argTruthy (playlist args)
                        then [EvSaveState (mapStation args (parseState disk))] else []))
              with (loadEvents args disk) ]
      end
  end.

(** X6.  Write access to the mapped playlist is checked only for a real
    run: when the playlist is neither owned by the current user nor
    collaborative, a run without dry-run stops with the not-writable
    error after asking for the user and the playlist, before the track
    index is read and before any window is touched; a dry run on the
    same playlist goes on to read the index and to run the window loop. *)
Theorem write_access_checked_for_real_runs {U : UnicodeOps} (env : Env) (args : SyncArgs)
    (disk : option State) (playlistId currentUserId : jsstring)
    (meta : SpotifyPlaylistMeta) :
  validRange args = true ->
  stationPlaylists (stateAfterLoad args disk) !! stationId args = Some playlistId ->
  truthy playlistId = true ->
  currentUser env = Some currentUserId ->
  playlistMeta env playlistId = Some meta ->
  canCurrentUserWritePlaylist currentUserId (metaOwnerId meta) (metaCollaborative meta)
    = false ->
  (dryRun args = false ->
     runSyncCommand env args disk =
       mkRes (inl PlaylistNotWritable) (diskAfterLoad args disk)
         (loadEvents args disk ++ [EvGetCurrentUser; EvGetPlaylistMeta playlistId])) /\
  (dryRun args = true ->
     forall pages, playlistPages env playlistId = Some pages ->
     runSyncCommand env args disk =
       prepend
         (loadEvents args disk
          ++ [EvGetCurrentUser; EvGetPlaylistMeta playlistId;
              EvGetPlaylistTrackIndex playlistId])
         (processWindows env args playlistId (plannedWindows args)
            (initialMem (stateAfterLoad args disk) pages (plannedWindows args))
            (diskAfterLoad args disk))).
Proof.
  intros Hv Hpid Htruthy Huser Hmeta Hwrite. split.
  - intros Hdry. run_to_mapping Hv.
    rewrite (getProperty_own _ _ _ Hpid), Htruthy. cbn [negb].
    rewrite bind_emit, prepend_prepend, Huser. cbn [answer].
    rewrite bind_ret, bind_emit, prepend_prepend, Hmeta. cbn [answer].
    rewrite bind_ret, Hwrite, Hdry. cbn [negb andb]. rewrite bind_throw.
    unfold prepend, throw. cbn. rewrite <- !app_assoc, app_nil_r. reflexivity.
  - intros Hdry pages Hpages.
    pose proof (validRange_bounds args Hv) as (Hr & Ht & Hw).
    destruct (buildWindows_spec (timeFrom args) (timeTo args) (windowHours args)
                ltac:(lia)) as (windows & Hwin & _).
    unfold plannedWindows. rewrite Hwin. unfold default, id.
    apply (runSyncCommand_reaches_loop env args disk playlistId currentUserId meta pages
             windows); try assumption.
    + apply getProperty_own. exact Hpid.
    + rewrite Hdry. apply andb_false_r.
Qed.

(** The evaluated service with a playlist of somebody else. *)
Definition foreignPlaylistEnv (now : WarsawNowParts) : Env :=
  {| currentUser := currentUser (demoEnv now);
     playlistMeta := fun pid =>
       Some {| metaId := pid; metaName := js "Theirs"; metaOwnerId := js "them";
               metaCollaborative := false |};
     playlistPages := playlistPages (demoEnv now);
     nowAtFutureCheck := nowAtFutureCheck (demoEnv now);
     nowAtPastCheck := nowAtPastCheck (demoEnv now);
     scrapeSongsFromSource := scrapeSongsFromSource (demoEnv now);
     searchTracks := searchTracks (demoEnv now);
     addTracksSucceeds := addTracksSucceeds (demoEnv now) |}.

Lemma write_access_checked_for_real_runs_witness :
  outcome (@runSyncCommand Latin1 (foreignPlaylistEnv nextDay) (demoArgs false false None)
             demoDisk) = inl PlaylistNotWritable /\
  List.filter isScrapeEvent
    (events (@runSyncCommand Latin1 (foreignPlaylistEnv nextDay) (demoArgs false false None)
               demoDisk)) = [].
Proof.
  destruct (@write_access_checked_for_real_runs Latin1 (foreignPlaylistEnv nextDay)
              (demoArgs false false None) demoDisk (js "pl1") (js "me")
              {| metaId := js "pl1"; metaName := js "Theirs"; metaOwnerId := js "them";
                 metaCollaborative := false |}
              eq_refl eq_refl eq_refl eq_refl eq_refl eq_refl) as [Hreal _].
  rewrite (Hreal eq_refl). split; reflexivity.
Defined.

(** X7.  The arguments are checked before anything is read or called: an
    hour range outside [0 <= from < to <= 24] ends the run with the
    from/to error, else a window size other than 1 or 2 with the window
    error, in both cases with no call made and the state file untouched;
    and a station for which the lookup of the mapping gives nothing
    truthy (no id recorded under a station id that names no member of
    [Object.prototype], or an empty id recorded, and no [--playlist]
    argument) ends the run after the state file is read, before any
    call to the service. *)
Theorem run_stops_before_any_call {U : UnicodeOps} (env : Env) (args : SyncArgs)
    (disk : option State) :
  (~ (0 <= timeFrom args < timeTo args /\ timeTo args <= 24) ->
     runSyncCommand env args disk = mkRes (inl InvalidFromTo) disk []) /\
  (0 <= timeFrom args < timeTo args /\ timeTo args <= 24 ->
   ~ (1 <= windowHours args <= 2) ->
     runSyncCommand env args disk = mkRes (inl InvalidWindow) disk []) /\
  (validRange args = true -> argTruthy (playlist args) = false ->
   from_option truthy false
     (getProperty (stationPlaylists (parseState disk)) (stationId args)) = false ->
     runSyncCommand env args disk = mkRes (inl NoPlaylistMapped) disk [EvLoadState]).
Proof.
  split; [|split].
  - intros Hbad. unfold runSyncCommand.
    assert (E : (timeFrom args <? 0) || (23 <? timeFrom args) || (timeTo args <? 1)
                || (24 <? timeTo args) || (timeTo args <=? timeFrom args) = true) by lia.
    rewrite E, bind_throw. reflexivity.
  - intros Hok Hbad. unfold runSyncCommand.
    assert (E : (timeFrom args <? 0) || (23 <? timeFrom args) || (timeTo args <? 1)
                || (24 <? timeTo args) || (timeTo args <=? timeFrom args) = false) by lia.
    assert (E' : (windowHours args <? 1) || (2 <? windowHours args) = true) by lia.
    rewrite E, bind_ret, E', bind_throw. reflexivity.
  - intros Hv Hpl Hnone. run_to_mapping Hv.
    unfold stateAfterLoad, diskAfterLoad, loadEvents. rewrite Hpl.
    destruct (getProperty (stationPlaylists (parseState disk)) (stationId args))
      as [pid|] eqn:E.
    + cbn [from_option] in Hnone. rewrite Hnone. reflexivity.
    + reflexivity.
Qed.

(** ** The request layer: every attempt *)

(** The calls of [fetch] paced by the delays [ds], from attempt [a] on. *)
Fixpoint paced (a : nat) (ds : list JsNumber) : list FetchEvent :=
  FetchCall a ::
  match ds with
  | [] => []
  | d :: ds' => FetchDelay d :: paced (S a) ds'
  end.

(** A delay of the retry loop: a number of milliseconds from 1500 up to
    [cap]. *)
Definition delayWithin (cap : Z) (d : JsNumber) : Prop :=
  exists q, d = JsFinite q /\ (inject_Z 1500 <= q)%Q /\ (q <= inject_Z cap)%Q.

(** What the caller of [fetchWithRetry] gets: a response, or the
    rejection of [fetch] itself. *)
Definition settled (result : option (FetchError + Response)) : Prop :=
  (exists response, result = Some (inr response)) \/
  (exists reason, result = Some (inl (FetchRejection reason))).

Section FetchAll.
Context {P : JsParsers}.

Lemma getBackoffDelayMilliseconds_value (k : Z) :
  1 <= k -> getBackoffDelayMilliseconds k = JsFinite (inject_Z (k * 1500)).
Proof.
  intros Hk. unfold getBackoffDelayMilliseconds, jsMax, jsOfZ, BACKOFF_STEP_MS,
    MIN_RETRY_AFTER_MS.
  destruct (Qle_bool (inject_Z (k * 1500)) (inject_Z 1500)) eqn:E; [|reflexivity].
  apply Qle_bool_iff in E. rewrite <- Zle_Qle in E.
  replace k with 1 by lia. reflexivity.
Qed.

Lemma hint_within response now :
  jsGt (getRetryAfterMilliseconds response now) (jsOfZ MAX_RETRY_AFTER_MS) = false ->
  delayWithin 10000 (getRetryAfterMilliseconds response now).
Proof.
  destruct (getRetryAfterMilliseconds_clamped response now) as [Hnan Hmin].
  destruct (getRetryAfterMilliseconds response now) as [|q| |]; cbn in *;
    try congruence; try discriminate.
  intros Hmax. exists q. split; [reflexivity|].
  apply negb_false_iff, Qle_bool_iff in Hmax, Hmin. split; assumption.
Qed.

(** One attempt that is not the last: what it leaves to the loop. *)
Lemma attemptOnce_not_last world totalAttempts vars :
  Z.of_nat (attempt vars) < totalAttempts - 1 ->
  let r := attemptOnce world totalAttempts vars in
  attempt r.1 = S (attempt vars) /\
  ((exists response, r.2 = inr response) \/
   (exists d, r.2 = inl (RetryableFetchError d) /\ nextDelayMs r.1 = d /\
      delayWithin (Z.max 10000 (1500 * (totalAttempts - 1))) d)).
Proof.
  intros Hlast. cbn zeta. unfold attemptOnce, tryBlock, catchBlock.
  destruct (Z.leb_spec (totalAttempts - 1) (Z.of_nat (attempt vars))); [lia|].
  cbn [negb].
  assert (Hback : delayWithin (Z.max 10000 (1500 * (totalAttempts - 1)))
                    (getBackoffDelayMilliseconds (Z.of_nat (attempt vars) + 1))).
  { rewrite getBackoffDelayMilliseconds_value by lia. eexists. split; [reflexivity|].
    rewrite <- !Zle_Qle. lia. }
  destruct (fetchOutcome world (attempt vars)) as [response|reason].
  - rewrite !andb_true_r. destruct (status response =? 429).
    + destruct (jsGt _ _) eqn:Hgt; cbn.
      * split; [reflexivity|]. left. eexists. reflexivity.
      * split; [reflexivity|]. right. eexists. split; [reflexivity|]. split; [reflexivity|].
        destruct (hint_within _ _ Hgt) as (q & -> & Hlo & Hhi).
        exists q. split; [reflexivity|]. split; [exact Hlo|].
        eapply Qle_trans; [exact Hhi|]. rewrite <- Zle_Qle. lia.
    + destruct (500 <=? status response); cbn.
      * split; [reflexivity|]. right. eexists. split; [reflexivity|].
        split; [reflexivity|exact Hback].
      * split; [reflexivity|]. left. eexists. reflexivity.
  - cbn. split; [reflexivity|]. right. eexists. split; [reflexivity|].
    split; [reflexivity|exact Hback].
Qed.

(** The last attempt: its response or its rejection goes to the caller. *)
Lemma attemptOnce_last world totalAttempts vars :
  totalAttempts - 1 <= Z.of_nat (attempt vars) ->
  (attemptOnce world totalAttempts vars).2 =
    match fetchOutcome world (attempt vars) with
    | Resolves response => inr response
    | Rejects reason => inl (FetchRejection reason)
    end.
Proof.
  intros Hlast. unfold attemptOnce, tryBlock, catchBlock.
  destruct (Z.leb_spec (totalAttempts - 1) (Z.of_nat (attempt vars))); [|lia].
  destruct (fetchOutcome world (attempt vars)); [|reflexivity].
  cbn [negb]. rewrite !andb_false_r. reflexivity.
Qed.

Lemma retryLoop_paced world totalAttempts : forall remaining vars lastError,
  Z.of_nat (attempt vars) + Z.of_nat remaining = totalAttempts ->
  (0 < remaining)%nat ->
  let run := retryLoop world totalAttempts remaining vars lastError in
  exists ds,
    run.1 = paced (attempt vars) ds /\
    (length ds < remaining)%nat /\
    Forall (delayWithin (Z.max 10000 (1500 * (totalAttempts - 1)))) ds /\
    settled run.2.
Proof.
  induction remaining as [|remaining IH]; intros vars lastError Hsum Hpos; [lia|].
  cbn zeta. cbn [retryLoop].
  destruct remaining as [|remaining'].
  - (* the last attempt *)
    pose proof (attemptOnce_last world totalAttempts vars ltac:(lia)) as Hlast.
    destruct (attemptOnce world totalAttempts vars) as [vars1 r]. cbn [snd] in Hlast.
    subst r. exists []. cbn [paced length].
    destruct (fetchOutcome world (attempt vars)) as [response|reason]; cbn.
    + repeat split; [lia|constructor|left; eexists; reflexivity].
    + repeat split; [lia|constructor|right; eexists; reflexivity].
  - pose proof (attemptOnce_not_last world totalAttempts vars ltac:(lia)) as Hnot.
    cbn zeta in Hnot.
    destruct (attemptOnce world totalAttempts vars) as [vars1 r]. cbn [fst snd] in Hnot.
    destruct Hnot as [Hatt [[response ->]|(d & -> & Hd & Hwithin)]].
    + exists []. cbn. repeat split; [lia|constructor|left; eexists; reflexivity].
    + cbn [shouldRetry].
      specialize (IH {| attempt := attempt vars1; nextDelayMs := jsOfZ 0 |}
                    (Some (RetryableFetchError d))).
      cbn [attempt] in IH. rewrite Hatt in IH.
      destruct (IH ltac:(lia) ltac:(lia)) as (ds & E1 & E2 & E3 & E4). clear IH.
      cbn zeta in E1, E4. rewrite Hatt.
      destruct (retryLoop world totalAttempts (S remaining') _ _) as [evs res].
      cbn [fst snd] in *. subst evs. rewrite Hd.
      exists (d :: ds). cbn [paced length]. repeat split; [lia| |exact E4].
      constructor; assumption.
Qed.
End FetchAll.

(** X8.  Whatever [fetch] does, [fetchWithRetry] calls it at least once
    and at most [max(1, maxRetries)] times, attempt after attempt, with
    exactly one sleep between two calls and none after the last; every
    sleep lasts at least 1500 ms and at most the larger of 10000 ms and
    1500 ms times the number of retries; and the caller gets a response
    or the rejection of [fetch] itself, never the internal retry error. *)
Theorem fetchWithRetry_paced {P : JsParsers} (world : FetchWorld) (maxRetries : Z) :
  exists ds,
    (fetchWithRetry world maxRetries).1 = paced 0 ds /\
    (Z.of_nat (length ds) < Z.max 1 maxRetries) /\
    Forall (delayWithin (Z.max 10000 (1500 * (Z.max 1 maxRetries - 1)))) ds /\
    settled (fetchWithRetry world maxRetries).2.
Proof.
  unfold fetchWithRetry.
  destruct (retryLoop_paced world (Z.max 1 maxRetries) (Z.to_nat (Z.max 1 maxRetries))
              {| attempt := O; nextDelayMs := jsOfZ 0 |} None)
    as (ds & E1 & E2 & E3 & E4); [cbn [attempt]; lia|lia|].
  exists ds. repeat split; try assumption. lia.
Qed.

(** X9.  An attempt that ends in a server error (status 500 or more) or
    in a rejection of [fetch] (network failure, timeout), when it is not
    the last one, is followed by a sleep of 1500 ms times the number of
    the attempt (1500, 3000, 4500, ...) and by the next attempt; on the
    last attempt the response is returned as it is, and the rejection is
    thrown to the caller. *)
Theorem fetchWithRetry_backs_off {P : JsParsers}
    (world : FetchWorld) (totalAttempts : Z) (remaining : nat)
    (vars : RetryVars) (lastError : option FetchError) :
  let k := attempt vars in
  match fetchOutcome world k with
  | Resolves response => 500 <= status response
  | Rejects _ => True
  end ->
  let run := retryLoop world totalAttempts (S remaining) vars lastError in
  (Z.of_nat k < totalAttempts - 1 ->
     let d := jsOfZ ((Z.of_nat k + 1) * 1500) in
     let next :=
       retryLoop world totalAttempts remaining
         {| attempt := S k; nextDelayMs := jsOfZ 0 |} (Some (RetryableFetchError d)) in
     run = (FetchCall k :: FetchDelay d :: next.1, next.2)) /\
  (totalAttempts - 1 <= Z.of_nat k ->
     run = ([FetchCall k],
            Some match fetchOutcome world k with
                 | Resolves response => inr response
                 | Rejects reason => inl (FetchRejection reason)
                 end)).
Proof.
  intros k Hfail run. split.
  - intros Hnot d next. unfold run. cbn [retryLoop].
    unfold attemptOnce, tryBlock, catchBlock. fold k.
    destruct (Z.leb_spec (totalAttempts - 1) (Z.of_nat k)); [lia|]. cbn [negb].
    assert (Hd : getBackoffDelayMilliseconds (Z.of_nat k + 1) = d).
    { rewrite getBackoffDelayMilliseconds_value by lia. reflexivity. }
    destruct (fetchOutcome world k) as [response|reason].
    + rewrite !andb_true_r.
      destruct (Z.eqb_spec (status response) 429) as [E|_]; [lia|].
      destruct (Z.leb_spec 500 (status response)); [|lia].
      rewrite Hd. cbn. fold next. destruct next. reflexivity.
    + rewrite Hd. cbn. fold next. destruct next. reflexivity.
  - intros Hlast. unfold run. cbn [retryLoop].
    pose proof (attemptOnce_last world totalAttempts vars Hlast) as E. fold k in E.
    destruct (attemptOnce world totalAttempts vars) as [vars1 r]. cbn [snd] in E. subst r.
    destruct (fetchOutcome world k); reflexivity.
Qed.

Definition serverErrorOnce : FetchWorld := {|
  fetchOutcome := fun n =>
    match n with
    | O => Resolves {| status := 503; retryAfterHeader := None; responseId := 0 |}
    | _ => Resolves {| status := 200; retryAfterHeader := None; responseId := n |}
    end;
  dateNow := fun _ => 0
|}.

Lemma fetchWithRetry_backs_off_witness :
  @fetchWithRetry DecimalParsers serverErrorOnce 4 =
    ([FetchCall 0; FetchDelay (JsFinite 1500); FetchCall 1],
     Some (inr {| status := 200; retryAfterHeader := None; responseId := 1 |})).
Proof.
  unfold fetchWithRetry.
  change (Z.to_nat (Z.max 1 4)) with 4%nat. change (Z.max 1 4) with 4.
  destruct (@fetchWithRetry_backs_off DecimalParsers serverErrorOnce 4 3
              {| attempt := O; nextDelayMs := jsOfZ 0 |} None) as [Hnot _].
  - cbn. lia.
  - rewrite (Hnot ltac:(cbn; lia)). reflexivity.
Defined.

(** X10.  A response whose status is below 500 and is not 429 (a 404,
    say) is returned by the attempt that got it: nothing is retried and
    nothing is slept. *)
Theorem fetchWithRetry_answers_at_once {P : JsParsers}
    (world : FetchWorld) (maxRetries : Z) (response : Response) :
  fetchOutcome world 0 = Resolves response ->
  status response < 500 -> status response <> 429 ->
  fetchWithRetry world maxRetries = ([FetchCall 0], Some (inr response)).
Proof.
  intros Hout Hlt Hne. unfold fetchWithRetry.
  destruct (Z.to_nat (Z.max 1 maxRetries)) as [|remaining] eqn:E; [lia|].
  cbn [retryLoop]. unfold attemptOnce, tryBlock. cbn [attempt]. rewrite Hout.
  destruct (Z.eqb_spec (status response) 429) as [|_]; [contradiction|].
  destruct (Z.leb_spec 500 (status response)); [lia|]. reflexivity.
Qed.

Definition notFound : FetchWorld := {|
  fetchOutcome := fun n =>
    Resolves {| status := 404; retryAfterHeader := None; responseId := n |};
  dateNow := fun _ => 0
|}.

Lemma fetchWithRetry_answers_at_once_witness :
  @fetchWithRetry DecimalParsers notFound 4 =
    ([FetchCall 0],
     Some (inr {| status := 404; retryAfterHeader := None; responseId := 0 |})).
Proof.
  apply (@fetchWithRetry_answers_at_once DecimalParsers notFound 4);
    [reflexivity|cbn; lia|cbn; lia].
Defined.

(** ** Trimming and tidy spacing *)

Lemma trimEnd_snoc s c :
  trimEnd (s ++ [c]) = if isWhiteSpace c then trimEnd s else s ++ [c].
Proof.
  unfold trimEnd. rewrite rev_app_distr. cbn [rev app trimStart].
  destruct (isWhiteSpace c); [reflexivity|].
  cbn [rev]. rewrite rev_involutive. reflexivity.
Qed.

Lemma trimEnd_nil : trimEnd [] = [].
Proof. reflexivity. Qed.

(** [trimEnd] cuts a run of white space off the end. *)
Lemma trimEnd_cut s :
  exists w, s = trimEnd s ++ w /\ forallb isWhiteSpace w = true.
Proof.
  induction s as [|c s IH] using rev_ind.
  - exists []. split; reflexivity.
  - rewrite trimEnd_snoc. destruct (isWhiteSpace c) eqn:Hc.
    + destruct IH as (w & E & Hw). exists (w ++ [c]). split.
      * rewrite app_assoc, <- E. reflexivity.
      * rewrite forallb_app, Hw. cbn. rewrite Hc. reflexivity.
    + exists []. split; [rewrite app_nil_r; reflexivity|reflexivity].
Qed.

Lemma trimStart_cut s :
  exists w, s = w ++ trimStart s /\ forallb isWhiteSpace w = true.
Proof.
  induction s as [|c s IH]; [exists []; split; reflexivity|].
  cbn [trimStart]. destruct (isWhiteSpace c) eqn:Hc.
  - destruct IH as (w & E & Hw). exists (c :: w). split.
    + cbn [app]. rewrite <- E. reflexivity.
    + cbn. rewrite Hc. exact Hw.
  - exists []. split; reflexivity.
Qed.

(** The text does not start with white space. *)
Definition startsClean (s : jsstring) : bool :=
  match s with
  | [] => true
  | c :: _ => negb (isWhiteSpace c)
  end.

(** The text does not end with white space. *)
Definition endsClean (s : jsstring) : bool := startsClean (rev s).

Lemma trimStart_clean s : startsClean (trimStart s) = true.
Proof.
  induction s as [|c s IH]; [reflexivity|]. cbn [trimStart].
  destruct (isWhiteSpace c) eqn:Hc; [exact IH|]. cbn. rewrite Hc. reflexivity.
Qed.

Lemma trimStart_id s : startsClean s = true -> trimStart s = s.
Proof.
  destruct s as [|c s]; [reflexivity|]. cbn. intros H.
  apply negb_true_iff in H. rewrite H. reflexivity.
Qed.

Lemma trimEnd_clean s : endsClean (trimEnd s) = true.
Proof.
  unfold endsClean, trimEnd. rewrite rev_involutive. apply trimStart_clean.
Qed.

Lemma trimEnd_id s : endsClean s = true -> trimEnd s = s.
Proof.
  unfold endsClean, trimEnd. intros H. rewrite (trimStart_id _ H). apply rev_involutive.
Qed.

Lemma trimEnd_keeps_start s : startsClean s = true -> startsClean (trimEnd s) = true.
Proof.
  intros H. destruct (trimEnd_cut s) as (w & E & _).
  destruct (trimEnd s) as [|c t] eqn:Et; [reflexivity|].
  rewrite E in H. exact H.
Qed.

Lemma trim_clean s : startsClean (trim s) = true /\ endsClean (trim s) = true.
Proof.
  unfold trim. split; [|apply trimEnd_clean].
  apply trimEnd_keeps_start, trimStart_clean.
Qed.

Lemma trim_id s : startsClean s = true -> endsClean s = true -> trim s = s.
Proof. intros Hs He. unfold trim. rewrite (trimStart_id s Hs). apply trimEnd_id, He. Qed.

Lemma trim_idempotent s : trim (trim s) = trim s.
Proof. destruct (trim_clean s) as [Hs He]. apply trim_id; assumption. Qed.

(** White space occurs only as single spaces; [afterSpace] tells that the
    code unit before the text is a space. *)
Fixpoint tidy (afterSpace : bool) (s : jsstring) : bool :=
  match s with
  | [] => true
  | c :: r =>
      if isWhiteSpace c then (c =? 32) && negb afterSpace && tidy true r
      else tidy false r
  end.

Lemma tidy_weaken s : tidy true s = true -> tidy false s = true.
Proof.
  destruct s as [|c r]; [reflexivity|]. cbn [tidy].
  destruct (isWhiteSpace c); [|exact (fun H => H)].
  rewrite andb_false_r. discriminate.
Qed.

Lemma cleanupSpacesFrom_tidy s : forall inRun, tidy inRun (cleanupSpacesFrom inRun s) = true.
Proof.
  induction s as [|c r IH]; intros inRun; [reflexivity|]. cbn [cleanupSpacesFrom].
  destruct (isWhiteSpace c) eqn:Hc.
  - destruct inRun; [apply IH|]. cbn [tidy]. change (isWhiteSpace 32) with true.
    cbn. apply IH.
  - cbn [tidy]. rewrite Hc. apply IH.
Qed.

Lemma cleanupSpacesFrom_id s : forall inRun,
  tidy inRun s = true -> cleanupSpacesFrom inRun s = s.
Proof.
  induction s as [|c r IH]; intros inRun; [reflexivity|]. cbn [tidy cleanupSpacesFrom].
  destruct (isWhiteSpace c).
  - intros H. apply andb_true_iff in H as [H Hr]. apply andb_true_iff in H as [Hc Hrun].
    apply negb_true_iff in Hrun. apply Z.eqb_eq in Hc. subst inRun c.
    rewrite (IH true Hr). reflexivity.
  - intros H. rewrite (IH false H). reflexivity.
Qed.

Lemma tidy_prefix a : forall b afterSpace, tidy afterSpace (a ++ b) = true -> tidy afterSpace a = true.
Proof.
  induction a as [|c a IH]; intros b afterSpace; [reflexivity|]. cbn [app tidy].
  destruct (isWhiteSpace c).
  - intros H. apply andb_true_iff in H as [H Hr]. rewrite H. apply (IH b true Hr).
  - apply IH.
Qed.

Lemma tidy_suffix a : forall b afterSpace,
  tidy afterSpace (a ++ b) = true -> tidy false b = true.
Proof.
  induction a as [|c a IH]; intros b afterSpace; cbn [app].
  - destruct afterSpace; [apply tidy_weaken|exact (fun H => H)].
  - cbn [tidy]. destruct (isWhiteSpace c).
    + intros H. apply andb_true_iff in H as [_ Hr]. apply (IH b true Hr).
    + apply IH.
Qed.

Lemma trim_tidy s : tidy false s = true -> tidy false (trim s) = true.
Proof.
  intros H. unfold trim.
  destruct (trimStart_cut s) as (w & E & _).
  destruct (trimEnd_cut (trimStart s)) as (w' & E' & _).
  rewrite E in H. apply tidy_suffix in H. rewrite E' in H.
  apply (tidy_prefix _ _ _ H).
Qed.

Lemma filter_whitespace_nil w f :
  forallb isWhiteSpace w = true -> (forall c, isWhiteSpace c = true -> f c = false) ->
  List.filter f w = [].
Proof.
  intros Hw Hf. induction w as [|c w IH]; [reflexivity|]. cbn in Hw |- *.
  apply andb_true_iff in Hw as [Hc Hw]. rewrite (Hf c Hc). apply IH, Hw.
Qed.

(** The code units of a text other than white space. *)
Definition inkOf (s : jsstring) : jsstring :=
  List.filter (fun c => negb (isWhiteSpace c)) s.

Lemma cleanupSpacesFrom_ink s : forall inRun, inkOf (cleanupSpacesFrom inRun s) = inkOf s.
Proof.
  induction s as [|c r IH]; intros inRun; [reflexivity|]. cbn [cleanupSpacesFrom].
  unfold inkOf in *. cbn [List.filter].
  destruct (isWhiteSpace c) eqn:Hc; cbn [negb].
  - destruct inRun; [apply IH|]. cbn [List.filter]. change (isWhiteSpace 32) with true.
    cbn [negb]. apply IH.
  - cbn [List.filter]. rewrite Hc. cbn [negb]. rewrite IH. reflexivity.
Qed.

Lemma trim_ink s : inkOf (trim s) = inkOf s.
Proof.
  unfold trim.
  destruct (trimStart_cut s) as (w & E & Hw).
  destruct (trimEnd_cut (trimStart s)) as (w' & E' & Hw').
  assert (Hnil : forall v, forallb isWhiteSpace v = true -> inkOf v = []).
  { intros v Hv. apply filter_whitespace_nil; [exact Hv|]. intros c Hc. rewrite Hc.
    reflexivity. }
  rewrite E at 2. rewrite E' at 2. unfold inkOf in *.
  rewrite !List.filter_app, (Hnil w Hw), (Hnil w' Hw'), app_nil_r. reflexivity.
Qed.

(** X11.  [cleanupSpaces] returns a text in which white space occurs
    only as single spaces between other characters (none at the start,
    none at the end); it keeps the other characters and their order;
    applied to such a text it changes nothing, so applying it twice is
    applying it once; and a text of white space only becomes the empty
    text. *)
Theorem cleanupSpaces_tidies (value : jsstring) :
  tidy false (cleanupSpaces value) = true /\
  startsClean (cleanupSpaces value) = true /\
  endsClean (cleanupSpaces value) = true /\
  inkOf (cleanupSpaces value) = inkOf value /\
  cleanupSpaces (cleanupSpaces value) = cleanupSpaces value /\
  (forall text, tidy false text = true -> startsClean text = true ->
     endsClean text = true -> cleanupSpaces text = text) /\
  (forallb isWhiteSpace value = true -> cleanupSpaces value = []).
Proof.
  assert (Hfix : forall text, tidy false text = true -> startsClean text = true ->
            endsClean text = true -> cleanupSpaces text = text).
  { intros text Ht Hs He. unfold cleanupSpaces.
    rewrite (cleanupSpacesFrom_id text false Ht). apply trim_id; assumption. }
  assert (Htidy : tidy false (cleanupSpaces value) = true).
  { unfold cleanupSpaces. apply trim_tidy, cleanupSpacesFrom_tidy. }
  destruct (trim_clean (cleanupSpacesFrom false value)) as [Hs He].
  split; [exact Htidy|]. split; [exact Hs|]. split; [exact He|].
  split; [|split; [|split]].
  - unfold cleanupSpaces. rewrite trim_ink. apply cleanupSpacesFrom_ink.
  - apply Hfix; assumption.
  - exact Hfix.
  - intros Hw.
    assert (Hink : inkOf (cleanupSpaces value) = []).
    { unfold cleanupSpaces. rewrite trim_ink, cleanupSpacesFrom_ink.
      apply filter_whitespace_nil; [exact Hw|]. intros c Hc. rewrite Hc. reflexivity. }
    destruct (cleanupSpaces value) as [|c r] eqn:E; [reflexivity|].
    unfold cleanupSpaces in E. rewrite E in Hs. cbn in Hs.
    unfold inkOf in Hink. cbn [List.filter] in Hink. rewrite Hs in Hink. discriminate.
Qed.

(** ** Playlist ids *)

Lemma trimEnd_after_ink a c q :
  isWhiteSpace c = false -> trimEnd (a ++ c :: q) = a ++ c :: trimEnd q.
Proof.
  intros Hc. induction q as [|x q IH] using rev_ind.
  - rewrite trimEnd_nil. change (a ++ [c]) with (a ++ [c]).
    rewrite trimEnd_snoc, Hc. reflexivity.
  - replace (a ++ c :: q ++ [x]) with ((a ++ c :: q) ++ [x])
      by (rewrite <- app_assoc; reflexivity).
    rewrite !trimEnd_snoc. destruct (isWhiteSpace x); [exact IH|].
    rewrite <- app_assoc. reflexivity.
Qed.

Lemma indexOf_unit c s rest :
  forallb (fun x => negb (x =? c)) s = true ->
  indexOf (s ++ c :: rest) [c] = Some (length s).
Proof.
  induction s as [|x s IH]; cbn [forallb app indexOf isPrefix length].
  - rewrite Z.eqb_refl. reflexivity.
  - intros H. apply andb_true_iff in H as [Hx Hs]. apply negb_true_iff in Hx.
    rewrite Z.eqb_sym, Hx. cbn [andb]. rewrite (IH Hs). reflexivity.
Qed.

Lemma indexOf_unit_none c s :
  forallb (fun x => negb (x =? c)) s = true -> indexOf s [c] = None.
Proof.
  induction s as [|x s IH]; cbn [forallb indexOf isPrefix]; [reflexivity|].
  intros H. apply andb_true_iff in H as [Hx Hs]. apply negb_true_iff in Hx.
  rewrite Z.eqb_sym, Hx. cbn [andb]. rewrite (IH Hs). reflexivity.
Qed.

Definition playlistUrlPrefix : jsstring := js "https://open.spotify.com/playlist/".

Lemma normalizePlaylistId_url_tail (playlist tail : jsstring) :
  trim playlist = playlistUrlPrefix ++ tail ->
  normalizePlaylistId playlist
  = trim match indexOf tail (js "?") with
         | None => tail
         | Some queryIndex => take queryIndex tail
         end.
Proof.
  intros Htrim. unfold normalizePlaylistId. rewrite Htrim. cbn zeta.
  assert (Hinc : includes (playlistUrlPrefix ++ tail) (js "spotify.com/playlist/") = true).
  { vm_compute playlistUrlPrefix. vm_compute (js "spotify.com/playlist/").
    cbn [app includes isPrefix Z.eqb Pos.eqb andb orb]. reflexivity. }
  rewrite Hinc. cbn [negb].
  assert (Hidx : indexOf (playlistUrlPrefix ++ tail) (js "/playlist/") = Some 24%nat).
  { vm_compute playlistUrlPrefix. vm_compute (js "/playlist/").
    cbn [app indexOf isPrefix Z.eqb Pos.eqb andb orb fmap option_fmap option_map].
    reflexivity. }
  rewrite Hidx.
  assert (Hdrop : drop (24 + 10) (playlistUrlPrefix ++ tail) = tail).
  { vm_compute playlistUrlPrefix. reflexivity. }
  rewrite Hdrop. reflexivity.
Qed.

Lemma endsClean_app a b : b <> [] -> endsClean (a ++ b) = endsClean b.
Proof.
  intros Hb. unfold endsClean. rewrite rev_app_distr.
  destruct (rev b) as [|c r] eqn:E; [|reflexivity].
  apply (f_equal (@rev Z)) in E. rewrite rev_involutive in E. contradiction.
Qed.

(** The text holds no question mark. *)
Definition noQuery (s : jsstring) : bool := forallb (fun x => negb (x =? 63)) s.

(** X12.  [normalizePlaylistId] always returns a text without white
    space at its ends; a text that does not hold "spotify.com/playlist/"
    is returned trimmed; and from a playlist address
    "https://open.spotify.com/playlist/<id>", with or without a query
    after a question mark and with white space around it or not, it
    returns the id (an id without question mark and without white space
    at its ends). *)
Theorem normalizePlaylistId_forms (playlist : jsstring) :
  startsClean (normalizePlaylistId playlist) = true /\
  endsClean (normalizePlaylistId playlist) = true /\
  (includes (trim playlist) (js "spotify.com/playlist/") = false ->
     normalizePlaylistId playlist = trim playlist) /\
  (forall id query before after : jsstring,
     noQuery id = true -> startsClean id = true -> endsClean id = true ->
     forallb isWhiteSpace before = true -> forallb isWhiteSpace after = true ->
     normalizePlaylistId (before ++ playlistUrlPrefix ++ id ++ js "?" ++ query ++ after) = id /\
     normalizePlaylistId (before ++ playlistUrlPrefix ++ id ++ after) = id).
Proof.
  assert (Hclean : startsClean (normalizePlaylistId playlist) = true /\
                   endsClean (normalizePlaylistId playlist) = true).
  { unfold normalizePlaylistId. cbn zeta.
    destruct (negb (includes (trim playlist) (js "spotify.com/playlist/")));
      apply trim_clean. }
  destruct Hclean as [Hs He].
  split; [exact Hs|]. split; [exact He|]. split.
  - intros Hplain. unfold normalizePlaylistId. rewrite Hplain. reflexivity.
  - intros id query before after Hq Hids Hide Hb Ha.
    assert (Hstart : forall rest,
              trimStart (before ++ playlistUrlPrefix ++ rest) = playlistUrlPrefix ++ rest).
    { intros rest. clear -Hb. induction before as [|c w IH]; [reflexivity|].
      cbn in Hb. apply andb_true_iff in Hb as [Hc Hw].
      cbn [app trimStart]. rewrite Hc. apply IH, Hw. }
    assert (Hend : forall text, endsClean text = true ->
              trimEnd (text ++ after) = text).
    { intros text Ht. clear -Ha Ht. induction after as [|c w IH] using rev_ind.
      - rewrite app_nil_r. apply trimEnd_id, Ht.
      - rewrite forallb_app in Ha. apply andb_true_iff in Ha as [Hw Hc].
        cbn in Hc. rewrite andb_true_r in Hc.
        rewrite app_assoc, trimEnd_snoc, Hc. apply IH, Hw. }
    split.
    + assert (Htrim : trim (before ++ playlistUrlPrefix ++ id ++ js "?" ++ query ++ after)
                      = playlistUrlPrefix ++ (id ++ 63 :: trimEnd (query ++ after))).
      { unfold trim. rewrite Hstart.
        change (js "?") with [63]. cbn [app].
        replace (playlistUrlPrefix ++ id ++ 63 :: query ++ after)
          with ((playlistUrlPrefix ++ id) ++ 63 :: (query ++ after))
          by (rewrite <- app_assoc; reflexivity).
        rewrite trimEnd_after_ink by reflexivity. rewrite <- app_assoc. reflexivity. }
      rewrite (normalizePlaylistId_url_tail _ _ Htrim).
      change (js "?") with [63].
      rewrite (indexOf_unit 63 id _ Hq), take_app_length. apply trim_id; assumption.
    + assert (Htrim : trim (before ++ playlistUrlPrefix ++ id ++ after)
                      = playlistUrlPrefix ++ id).
      { unfold trim. rewrite Hstart, app_assoc. apply Hend.
        destruct id as [|c r]; [rewrite app_nil_r; reflexivity|].
        rewrite endsClean_app by discriminate. exact Hide. }
      rewrite (normalizePlaylistId_url_tail _ _ Htrim).
      change (js "?") with [63].
      rewrite (indexOf_unit_none 63 id Hq). apply trim_id; assumption.
Qed.

(** ** Windows against the clock *)

(** The day [(y, m, d)] comes before the day [(y', m', d')]. *)
Definition dayBefore (y m d y' m' d' : Z) : Prop :=
  y < y' \/ (y = y' /\ (m < m' \/ (m = m' /\ d < d'))).

Definition targetDay (t : ParsedInputDate) : Z :=
  dateKey (dateYear t) (dateMonth t) (dateDay t).

(** X13.  [dateKey] orders days as the calendar does, for months 1 to 12
    and days 1 to 31.  No window with [from < to] is at once fully in
    the past and fully in the future; on a day before today every
    window is fully in the past and none in the future, on a day after
    today the reverse; a window that is fully in the past stays so at
    any later reading of the clock, and so does every window that ends
    earlier; a window that is not fully in the future does not become so
    later, nor does a window that starts earlier; and at HH:00 on the
    target day the window ending at HH is in the past, the one starting
    at HH is not in the future. *)
Theorem windows_against_the_clock (now : WarsawNowParts) (target : ParsedInputDate) :
  (forall y m d y' m' d',
     1 <= m <= 12 -> 1 <= d <= 31 -> 1 <= m' <= 12 -> 1 <= d' <= 31 ->
     (dateKey y m d < dateKey y' m' d' <-> dayBefore y m d y' m' d') /\
     (dateKey y m d = dateKey y' m' d' <-> y = y' /\ m = m' /\ d = d')) /\
  (forall fromHour toHour, fromHour < toHour ->
     isWindowFullyInPastInWarsaw now target toHour = true ->
     isWindowFullyInFutureInWarsaw now target fromHour = false) /\
  (targetDay target < clockDay now ->
     forall h, isWindowFullyInPastInWarsaw now target h = true /\
               isWindowFullyInFutureInWarsaw now target h = false) /\
  (clockDay now < targetDay target ->
     forall h, isWindowFullyInPastInWarsaw now target h = false /\
               isWindowFullyInFutureInWarsaw now target h = true) /\
  (forall later toHour toHour',
     notEarlier now later -> toHour' <= toHour ->
     isWindowFullyInPastInWarsaw now target toHour = true ->
     isWindowFullyInPastInWarsaw later target toHour' = true) /\
  (forall later fromHour fromHour',
     notEarlier now later -> fromHour' <= fromHour ->
     isWindowFullyInFutureInWarsaw now target fromHour = false ->
     isWindowFullyInFutureInWarsaw later target fromHour' = false) /\
  (forall h, targetDay target = clockDay now -> hour now = h -> minute now = 0 ->
     isWindowFullyInPastInWarsaw now target h = true /\
     isWindowFullyInFutureInWarsaw now target h = false).
Proof.
  split; [|split; [|split; [|split; [|split; [|split]]]]].
  - intros y m d y' m' d' Hm Hd Hm' Hd'. unfold dateKey, dayBefore. split; split; lia.
  - intros fromHour toHour Hlt.
    unfold isWindowFullyInPastInWarsaw, isWindowFullyInFutureInWarsaw. cbn zeta.
    fold (targetDay target) (clockDay now).
    destruct (Z.ltb_spec (targetDay target) (clockDay now)),
      (Z.ltb_spec (clockDay now) (targetDay target)); try reflexivity; try lia;
      try discriminate.
  - intros Hday h.
    unfold isWindowFullyInPastInWarsaw, isWindowFullyInFutureInWarsaw. cbn zeta.
    fold (targetDay target) (clockDay now).
    destruct (Z.ltb_spec (targetDay target) (clockDay now)),
      (Z.ltb_spec (clockDay now) (targetDay target)); try lia; try (split; reflexivity).
  - intros Hday h.
    unfold isWindowFullyInPastInWarsaw, isWindowFullyInFutureInWarsaw. cbn zeta.
    fold (targetDay target) (clockDay now).
    destruct (Z.ltb_spec (targetDay target) (clockDay now)),
      (Z.ltb_spec (clockDay now) (targetDay target)); try lia; try (split; reflexivity).
  - intros later toHour toHour' Hlater Hle.
    unfold isWindowFullyInPastInWarsaw, notEarlier, clockMinutes in *. cbn zeta.
    fold (targetDay target) (clockDay now) (clockDay later).
    destruct (Z.ltb_spec (targetDay target) (clockDay now)),
      (Z.ltb_spec (clockDay now) (targetDay target)),
      (Z.ltb_spec (targetDay target) (clockDay later)),
      (Z.ltb_spec (clockDay later) (targetDay target));
      try reflexivity; try discriminate; try lia.
  - intros later fromHour fromHour' Hlater Hle.
    unfold isWindowFullyInFutureInWarsaw, notEarlier, clockMinutes in *. cbn zeta.
    fold (targetDay target) (clockDay now) (clockDay later).
    destruct (Z.ltb_spec (targetDay target) (clockDay now)),
      (Z.ltb_spec (clockDay now) (targetDay target)),
      (Z.ltb_spec (targetDay target) (clockDay later)),
      (Z.ltb_spec (clockDay later) (targetDay target));
      try reflexivity; try discriminate; try lia.
  - intros h Hday Hh Hmin.
    unfold isWindowFullyInPastInWarsaw, isWindowFullyInFutureInWarsaw. cbn zeta.
    fold (targetDay target) (clockDay now).
    destruct (Z.ltb_spec (targetDay target) (clockDay now)),
      (Z.ltb_spec (clockDay now) (targetDay target)); try lia;
      try (split; [apply Z.leb_le|apply Z.ltb_ge]; lia).
Qed.

(** ** The index of the playlist *)

(** [item.item ?? item.track] *)
Definition resolvedTrack (item : PlaylistTrackItem) : option SpotifyTrack :=
  match itemItem item with
  | Some t => Some t
  | None => itemTrack item
  end.

(** The track has an id, a name and at least one artist. *)
Definition indexable (track : SpotifyTrack) : bool :=
  truthy (trackId track) && truthy (trackName track)
  && negb (length (artists track) =? 0)%nat.

(** The tracks of the pages that the index takes in. *)
Definition indexedTracks (pages : list (list PlaylistTrackItem)) : list SpotifyTrack :=
  List.filter indexable (omap resolvedTrack (concat pages)).

Section IndexFacts.
Context {U : UnicodeOps}.

Definition extendIndex (index : SpotifyPlaylistTrackIndex) (tracks : list SpotifyTrack)
    : SpotifyPlaylistTrackIndex :=
  {| trackIds := trackIds index ∪ list_to_set (map trackId tracks);
     songKeys := songKeys index ∪ list_to_set (map trackSongKey tracks) |}.

Lemma index_eq (a b : SpotifyPlaylistTrackIndex) :
  trackIds a = trackIds b -> songKeys a = songKeys b -> a = b.
Proof. destruct a, b. cbn. intros -> ->. reflexivity. Qed.

Lemma extendIndex_nil index : extendIndex index [] = index.
Proof.
  apply index_eq; cbn [extendIndex trackIds songKeys map];
    rewrite list_to_set_nil; apply union_empty_r_L.
Qed.

Lemma extendIndex_one index track :
  extendIndex index [track]
  = {| trackIds := trackIds index ∪ {[trackId track]};
       songKeys := songKeys index ∪ {[trackSongKey track]} |}.
Proof.
  apply index_eq; cbn [extendIndex trackIds songKeys map];
    rewrite list_to_set_cons, list_to_set_nil, union_empty_r_L; reflexivity.
Qed.

Lemma indexItem_extend index item :
  indexItem index item
  = extendIndex index (List.filter indexable (omap resolvedTrack [item])).
Proof.
  unfold indexItem. cbn [omap list_omap]. fold (resolvedTrack item).
  destruct (resolvedTrack item) as [track|]; cbn [List.filter];
    [|rewrite extendIndex_nil; reflexivity].
  unfold indexable.
  destruct (truthy (trackId track)), (truthy (trackName track)),
    (length (artists track) =? 0)%nat; cbn [negb andb orb];
    rewrite ?extendIndex_nil, ?extendIndex_one; reflexivity.
Qed.

Lemma extendIndex_app index a b :
  extendIndex (extendIndex index a) b = extendIndex index (a ++ b).
Proof.
  apply index_eq; cbn [extendIndex trackIds songKeys];
    rewrite map_app, list_to_set_app_L, union_assoc_L; reflexivity.
Qed.

Lemma foldl_indexItem items : forall index,
  foldl indexItem index items
  = extendIndex index (List.filter indexable (omap resolvedTrack items)).
Proof.
  induction items as [|item items IH]; intros index.
  - cbn. rewrite extendIndex_nil. reflexivity.
  - cbn [foldl]. rewrite IH, indexItem_extend, extendIndex_app.
    rewrite <- List.filter_app. f_equal. f_equal.
    change (item :: items) with ([item] ++ items). rewrite omap_app. reflexivity.
Qed.

Lemma foldl_pages pages : forall index,
  foldl (fun index page => foldl indexItem index page) index pages
  = extendIndex index (List.filter indexable (omap resolvedTrack (concat pages))).
Proof.
  induction pages as [|page pages IH]; intros index.
  - cbn. rewrite extendIndex_nil. reflexivity.
  - cbn [foldl concat]. rewrite IH, foldl_indexItem, extendIndex_app.
    rewrite <- List.filter_app, omap_app. reflexivity.
Qed.
End IndexFacts.

(** X14.  The index of a playlist holds exactly the ids, and the song
    keys, of the tracks found on its pages under [item], or under
    [track] when [item] is absent, that have an id, a name and at least
    one artist; entries without a track, tracks without id or name and
    tracks without artists leave no trace.  A scraped song whose key is
    the key of such a track is passed by the song loop without a search
    and without a proposal. *)
Theorem playlist_index_contents {U : UnicodeOps} (pages : list (list PlaylistTrackItem)) :
  trackIds (getPlaylistTrackIndex pages) = list_to_set (map trackId (indexedTracks pages)) /\
  songKeys (getPlaylistTrackIndex pages)
    = list_to_set (map trackSongKey (indexedTracks pages)) /\
  (forall env args window position song mem uris disk track,
     In track (indexedTracks pages) ->
     songKeyOf song = trackSongKey track ->
     songKeys (getPlaylistTrackIndex pages) ⊆ songKeys (playlistIndex mem) ->
     exists mem',
       processSong env args window position song (mem, uris) disk
         = mkRes (inr (mem', uris)) disk []).
Proof.
  unfold getPlaylistTrackIndex. rewrite foldl_pages. fold (indexedTracks pages).
  cbn [extendIndex trackIds songKeys]. rewrite !union_empty_l_L.
  split; [reflexivity|]. split; [reflexivity|].
  intros env args window position song mem uris disk track Hin Hkey Hsub.
  apply processSong_known. right. apply Hsub. rewrite Hkey.
  apply elem_of_list_to_set, list_elem_of_In, List.in_map, Hin.
Qed.

(** ** The batches of an add *)

Lemma chunk_sizes {A} (n : nat) (arr : list A) :
  Forall (fun c => (0 < length c <= S n)%nat) (chunk (S n) arr) /\
  (length arr <= length (chunk (S n) arr) * S n)%nat /\
  (length (chunk (S n) arr) * S n < length arr + S n)%nat.
Proof.
  remember (S n) as size eqn:Hsize. revert n Hsize.
  funelim (chunk size arr); intros m Hsize; simp chunk; try discriminate.
  - split; [constructor|]. cbn. lia.
  - injection Hsize as ->.
    destruct (H m eq_refl) as (IH1 & IH2 & IH3).
    split; [|split].
    + constructor; [|exact IH1]. cbn [length]. rewrite length_take.
      pose proof (Nat.le_min_l m (length arr)). lia.
    + cbn [length]. rewrite length_drop in IH2. rewrite Nat.mul_succ_l. lia.
    + cbn [length]. rewrite length_drop in IH3. rewrite Nat.mul_succ_l.
      destruct (chunk (S m) (drop m arr)) as [|c cs] eqn:E.
      * cbn [length] in *. lia.
      * assert (Hne : drop m arr <> []).
        { intros Hnil. rewrite Hnil in E. simp chunk in E. discriminate. }
        assert (m < length arr)%nat.
        { destruct (Nat.lt_ge_cases m (length arr)) as [Hlt|Hge]; [exact Hlt|].
          exfalso. apply Hne. apply drop_ge. exact Hge. }
        lia.
Qed.

Lemma applyPayloads_append (chunks : list (list jsstring)) : forall playlist,
  foldl applyPayload playlist
    (map (fun chunkItem => {| payloadUris := chunkItem; payloadPosition := None |}) chunks)
  = playlist ++ concat chunks.
Proof.
  induction chunks as [|c chunks IH]; intros playlist; cbn [map foldl concat].
  - rewrite app_nil_r. reflexivity.
  - rewrite IH. unfold applyPayload. cbn. rewrite <- app_assoc. reflexivity.
Qed.

Lemma concat_rev_permutation {A} (l : list (list A)) :
  Permutation (concat (rev l)) (concat l).
Proof.
  induction l as [|c l IH]; [reflexivity|]. cbn [rev concat].
  rewrite concat_app. cbn [concat]. rewrite app_nil_r.
  rewrite Permutation_app_comm. apply Permutation_app_head, IH.
Qed.

(** X15.  [addTracksToPlaylist] sends no request for an empty list and
    otherwise one request per batch of 100: every request carries
    between 1 and 100 URIs and the position asked for, all but one carry
    100, and together they carry the URIs given, each once.  When no
    position is asked for the batches go out in order and the playlist
    ends with the URIs in the order given. *)
Theorem addTracksToPlaylist_batches (uris : list jsstring) (position : option Z) :
  let requests := addTracksToPlaylist uris position in
  Forall (fun r => (1 <= length (payloadUris r) <= 100)%nat
                   /\ payloadPosition r = position) requests /\
  (length uris <= length requests * 100)%nat /\
  (length requests * 100 < length uris + 100)%nat /\
  (uris = [] -> requests = []) /\
  Permutation (concat (map payloadUris requests)) uris /\
  (position = None ->
     concat (map payloadUris requests) = uris /\
     forall playlist, foldl applyPayload playlist requests = playlist ++ uris).
Proof.
  cbn zeta. unfold addTracksToPlaylist.
  destruct (chunk_sizes 99 uris) as (Hsize & Hlo & Hhi).
  set (chunks := chunk 100 uris) in *.
  set (ordered := match position with Some 0 => rev chunks | _ => chunks end).
  assert (Hperm : Permutation ordered chunks).
  { unfold ordered. destruct position as [[| |]|]; try reflexivity.
    symmetry. apply Permutation_rev. }
  assert (Hmap : map payloadUris
                   (map (fun chunkItem =>
                           {| payloadUris := chunkItem; payloadPosition := position |})
                        ordered) = ordered).
  { rewrite map_map. cbn. apply map_id. }
  split; [|split; [|split; [|split; [|split]]]].
  - apply List.Forall_forall. intros r Hin. apply List.in_map_iff in Hin as (c & <- & Hc).
    cbn. split; [|reflexivity].
    apply (Permutation_in _ Hperm) in Hc.
    rewrite List.Forall_forall in Hsize. specialize (Hsize c Hc). lia.
  - rewrite length_map, (Permutation_length Hperm). exact Hlo.
  - rewrite length_map, (Permutation_length Hperm). exact Hhi.
  - intros ->. subst ordered chunks. simp chunk. destruct position as [[| |]|]; reflexivity.
  - rewrite Hmap. unfold ordered.
    destruct position as [[| |]|]; try (subst chunks; rewrite chunk_concat; reflexivity).
    rewrite concat_rev_permutation. subst chunks. rewrite chunk_concat. reflexivity.
  - intros ->. subst ordered. cbn iota.
    split; [rewrite Hmap; subst chunks; apply chunk_concat|].
    intros playlist. rewrite applyPayloads_append. subst chunks.
    rewrite chunk_concat. reflexivity.
Qed.

(** ** The plan of windows outside the accepted arguments *)

(** The integers that a double holds exactly, and the bound on the
    length of an array. *)
Definition safeInteger (n : Z) : Prop := Z.abs n <= MAX_SAFE_INTEGER.

Definition MAX_ARRAY_LENGTH : Z := 4294967295.

(** X16.  For safe integers as arguments: [buildWindows] returns no
    window when the range is empty ([timeTo <= timeFrom]), whatever the
    step; for a step of at least 1 and a range covered by no more steps
    than an array holds (memory permitting), it ends and returns the
    windows
    [from + k*step, min(from + (k+1)*step, timeTo)] for [k] below the
    number of steps that cover the range, whose bounds are again safe
    integers within the range; and with a step of 0 or less and a range
    that is not empty the condition of its loop never fails, whatever
    the number of iterations allowed, and no list is returned. *)
Theorem buildWindows_edges (timeFrom timeTo windowHours : Z) :
  safeInteger timeFrom -> safeInteger timeTo -> safeInteger windowHours ->
  (timeTo <= timeFrom -> buildWindows timeFrom timeTo windowHours = Some []) /\
  (0 < windowHours ->
   Z.of_nat (strides (timeTo - timeFrom) windowHours) <= MAX_ARRAY_LENGTH ->
     exists ws,
       buildWindows timeFrom timeTo windowHours = Some ws /\
       length ws = strides (timeTo - timeFrom) windowHours /\
       (forall k, (k < length ws)%nat ->
          ws !! k = Some (nthWindow timeFrom timeTo windowHours k)) /\
       (forall w, In w ws ->
          timeFrom <= from w < to w /\ to w <= timeTo /\
          safeInteger (from w) /\ safeInteger (to w))) /\
  (windowHours <= 0 -> timeFrom < timeTo ->
     (forall fuel, buildWindowsLoop fuel timeFrom timeTo windowHours = None) /\
     buildWindows timeFrom timeTo windowHours = None).
Proof.
  intros Hfrom Hto Hstep. unfold safeInteger in *.
  split; [|split].
  - intros Hle. unfold buildWindows.
    destruct (Z.to_nat (timeTo - timeFrom)); cbn [buildWindowsLoop];
      destruct (Z.ltb_spec timeFrom timeTo); try lia; reflexivity.
  - intros Hpos _.
    destruct (buildWindows_spec timeFrom timeTo windowHours Hpos) as (ws & Hws & Hlen & Hnth).
    exists ws. split; [exact Hws|]. split; [exact Hlen|]. split; [exact Hnth|].
    intros w Hin.
    apply list_elem_of_In, list_elem_of_lookup in Hin as [k Hk].
    pose proof (lookup_lt_Some _ _ _ Hk) as Hlt.
    rewrite Hnth in Hk by assumption. injection Hk as <-.
    rewrite Hlen in Hlt. pose proof (strides_bound _ _ _ Hpos Hlt) as Hbound.
    cbn [nthWindow from to]. nia.
  - intros Hw Hlt.
    assert (Hloop : forall fuel from, from < timeTo ->
              buildWindowsLoop fuel from timeTo windowHours = None).
    { induction fuel as [|fuel IH]; intros from Hfrom'; cbn [buildWindowsLoop];
        destruct (Z.ltb_spec from timeTo); try lia; [reflexivity|].
      rewrite IH by lia. reflexivity. }
    split; [intros fuel; apply Hloop, Hlt|apply Hloop, Hlt].
Qed.

Lemma buildWindows_edges_witness :
  safeInteger 22 /\ safeInteger 24 /\ safeInteger 0 /\
  buildWindows 24 22 0 = Some [] /\ buildWindows 22 24 0 = None.
Proof.
  assert (H22 : safeInteger 22) by (unfold safeInteger, MAX_SAFE_INTEGER; lia).
  assert (H24 : safeInteger 24) by (unfold safeInteger, MAX_SAFE_INTEGER; lia).
  assert (H0 : safeInteger 0) by (unfold safeInteger, MAX_SAFE_INTEGER; lia).
  do 3 (split; [assumption|]). split.
  - apply (buildWindows_edges 24 22 0 H24 H22 H0). lia.
  - apply (buildWindows_edges 22 24 0 H22 H24 H0); lia.
Defined.

(** ** Splitting a song label *)

Lemma isPrefix_split sub : forall s, isPrefix sub s = true -> s = sub ++ drop (length sub) s.
Proof.
  induction sub as [|a sub IH]; intros [|b s] H; cbn in *; try reflexivity; try discriminate.
  apply andb_true_iff in H as [Hab H]. apply Z.eqb_eq in Hab. subst b.
  f_equal. apply IH, H.
Qed.

Lemma indexOf_split sub : forall s i,
  indexOf s sub = Some i -> s = take i s ++ sub ++ drop (i + length sub) s.
Proof.
  induction s as [|c s IH]; intros i H.
  - cbn in H. destruct (isPrefix sub []) eqn:Hp; [|discriminate].
    injection H as <-. cbn [take app Nat.add]. apply isPrefix_split, Hp.
  - cbn [indexOf] in H. destruct (isPrefix sub (c :: s)) eqn:Hp.
    + injection H as <-. cbn [take app Nat.add]. apply isPrefix_split, Hp.
    + destruct (indexOf s sub) as [j|] eqn:Hj; [|discriminate].
      cbn in H. injection H as <-. cbn [take app Nat.add drop]. f_equal. apply IH. reflexivity.
Qed.

Lemma indexOf_length sub : forall s i, indexOf s sub = Some i -> (i <= length s)%nat.
Proof.
  induction s as [|c s IH]; intros i H.
  - cbn in H. destruct (isPrefix sub []); [|discriminate]. injection H as <-. cbn. lia.
  - cbn [indexOf] in H. destruct (isPrefix sub (c :: s)).
    + injection H as <-. lia.
    + destruct (indexOf s sub) as [j|] eqn:Hj; [|discriminate].
      cbn in H. injection H as <-. cbn. specialize (IH j eq_refl). lia.
Qed.

Lemma tidy_before_space a : forall r afterSpace,
  tidy afterSpace (a ++ 32 :: r) = true -> a <> [] -> endsClean a = true.
Proof.
  induction a as [|c a IH]; intros r afterSpace H Hne; [congruence|].
  destruct a as [|c' a].
  - cbn [app tidy] in H. unfold endsClean. cbn [rev app startsClean].
    destruct (isWhiteSpace c); [|reflexivity].
    change (isWhiteSpace 32) with true in H. cbn in H.
    rewrite andb_false_r in H. discriminate.
  - change (c :: c' :: a) with ([c] ++ (c' :: a)). rewrite endsClean_app by discriminate.
    cbn [app tidy] in H.
    destruct (isWhiteSpace c).
    + apply andb_true_iff in H as [_ H]. eapply IH; [exact H|discriminate].
    + eapply IH; [exact H|discriminate].
Qed.

Lemma tidy_after_space r : tidy true r = true -> startsClean r = true.
Proof.
  destruct r as [|c r]; [reflexivity|].
  cbn [tidy startsClean]. destruct (isWhiteSpace c); [|reflexivity].
  rewrite andb_false_r. discriminate.
Qed.

Lemma cleanupSpaces_shape value :
  tidy false (cleanupSpaces value) = true /\
  startsClean (cleanupSpaces value) = true /\
  endsClean (cleanupSpaces value) = true.
Proof.
  unfold cleanupSpaces. split; [|apply trim_clean].
  apply trim_tidy, cleanupSpacesFrom_tidy.
Qed.

(** In a tidy text a separator (a space, a mark, a space) has text on
    both sides, and the two sides need no trimming. *)
Lemma split_at_separator raw mark i :
  tidy false raw = true -> startsClean raw = true -> endsClean raw = true ->
  isWhiteSpace mark = false ->
  indexOf raw [32; mark; 32] = Some i ->
  exists j, i = S j /\
    trim (take i raw) = take i raw /\
    trim (drop (i + 3) raw) = drop (i + 3) raw /\
    take i raw <> [] /\ drop (i + 3) raw <> [] /\
    length (take i raw) = i.
Proof.
  intros Ht Hs He Hm Hi.
  pose proof (indexOf_length _ _ _ Hi) as Hlen.
  pose proof (indexOf_split _ _ _ Hi) as Hsplit. cbn [length] in Hsplit.
  assert (Hla : length (take i raw) = i) by (rewrite length_take; lia).
  set (a := take i raw) in *. set (t := drop (i + 3) raw) in *. clearbody a t.
  assert (Ha : a <> []).
  { intros Ea. rewrite Ea in Hsplit. rewrite Hsplit in Hs. cbn in Hs. discriminate. }
  assert (Htne : t <> []).
  { intros Et. rewrite Et in Hsplit. rewrite Hsplit in He.
    unfold endsClean in He. rewrite rev_app_distr in He. cbn in He. discriminate. }
  destruct i as [|j]; [destruct a; [congruence|discriminate]|].
  exists j. split; [reflexivity|].
  assert (Hsa : startsClean a = true).
  { rewrite Hsplit in Hs. destruct a; [congruence|exact Hs]. }
  assert (Hea : endsClean a = true).
  { rewrite Hsplit in Ht. eapply tidy_before_space; [exact Ht|exact Ha]. }
  assert (Hst : startsClean t = true).
  { rewrite Hsplit in Ht. apply tidy_suffix in Ht.
    cbn [app tidy] in Ht. change (isWhiteSpace 32) with true in Ht. rewrite Hm in Ht.
    cbn in Ht. apply tidy_after_space, Ht. }
  assert (Het : endsClean t = true).
  { rewrite Hsplit in He.
    rewrite (app_assoc a), endsClean_app in He by exact Htne. exact He. }
  repeat split; try assumption.
  - apply trim_id; assumption.
  - apply trim_id; assumption.
Qed.

(** The separator occurs somewhere in the label. *)
Definition occurs (rawLabel separator : jsstring) : bool :=
  match indexOf rawLabel separator with Some _ => true | None => false end.

Lemma splitSongLabelWith_found raw mark rest i :
  tidy false raw = true -> startsClean raw = true -> endsClean raw = true ->
  isWhiteSpace mark = false ->
  indexOf raw [32; mark; 32] = Some i ->
  let parsed := splitSongLabelWith ([32; mark; 32] :: rest) raw in
  raw = splitArtist parsed ++ [32; mark; 32] ++ splitTitle parsed /\
  splitArtist parsed <> [] /\ splitTitle parsed <> [] /\
  indexOf raw [32; mark; 32] = Some (length (splitArtist parsed)).
Proof.
  intros Ht Hs He Hm Hi.
  destruct (split_at_separator raw mark i Ht Hs He Hm Hi)
    as (j & -> & Ha & Hb & Hane & Hbne & Hlen).
  cbn [splitSongLabelWith]. rewrite Hi. cbn [length splitArtist splitTitle].
  rewrite Ha, Hb, Hlen. repeat split; try assumption.
  apply (indexOf_split _ _ _ Hi).
Qed.

Lemma splitSongLabelWith_skip raw separator rest :
  indexOf raw separator = None ->
  splitSongLabelWith (separator :: rest) raw = splitSongLabelWith rest raw.
Proof. intros H. cbn [splitSongLabelWith]. rewrite H. reflexivity. Qed.

(** X17.  On a label as the scraper passes it (the result of
    [cleanupSpaces]), [splitSongLabel] looks for " - ", then for the same
    with an en dash, then with an em dash, and splits at the first
    occurrence of the first of these that occurs: the label is exactly
    artist, separator, title, and neither artist nor title is empty.
    When none occurs the artist is empty and the title is the label. *)
Theorem splitSongLabel_clean_label (value : jsstring) :
  let rawLabel := cleanupSpaces value in
  let parsed := splitSongLabel rawLabel in
  match List.filter (occurs rawLabel) separators with
  | separator :: _ =>
      rawLabel = splitArtist parsed ++ separator ++ splitTitle parsed /\
      splitArtist parsed <> [] /\ splitTitle parsed <> [] /\
      indexOf rawLabel separator = Some (length (splitArtist parsed))
  | [] => splitArtist parsed = [] /\ splitTitle parsed = rawLabel
  end.
Proof.
  intros rawLabel parsed. subst parsed.
  destruct (cleanupSpaces_shape value) as (Ht & Hs & He). fold rawLabel in Ht, Hs, He.
  clearbody rawLabel. unfold splitSongLabel, separators. cbn [List.filter]. unfold occurs.
  destruct (indexOf rawLabel [32; 45; 32]) as [i|] eqn:H1.
  { apply (splitSongLabelWith_found rawLabel 45 _ i); auto. }
  rewrite (splitSongLabelWith_skip _ _ _ H1).
  destruct (indexOf rawLabel [32; 8211; 32]) as [i|] eqn:H2.
  { apply (splitSongLabelWith_found rawLabel 8211 _ i); auto. }
  rewrite (splitSongLabelWith_skip _ _ _ H2).
  destruct (indexOf rawLabel [32; 8212; 32]) as [i|] eqn:H3.
  { apply (splitSongLabelWith_found rawLabel 8212 _ i); auto. }
  rewrite (splitSongLabelWith_skip _ _ _ H3).
  cbn [splitSongLabelWith splitArtist splitTitle]. split; [reflexivity|]. apply trim_id; assumption.
Qed.

(** ** Reading an integer argument *)

Lemma trimStart_padding w : forall s,
  forallb isWhiteSpace w = true -> trimStart (w ++ s) = trimStart s.
Proof.
  induction w as [|c w IH]; intros s H; [reflexivity|].
  cbn in H. apply andb_true_iff in H as [Hc H]. cbn [app trimStart]. rewrite Hc. apply IH, H.
Qed.

Lemma trimEnd_padding s w : forallb isWhiteSpace w = true -> trimEnd (s ++ w) = trimEnd s.
Proof.
  induction w as [|c w IH] using rev_ind; intros H; [rewrite app_nil_r; reflexivity|].
  rewrite forallb_app in H. apply andb_true_iff in H as [Hw Hc]. cbn in Hc.
  rewrite andb_true_r in Hc. rewrite app_assoc, trimEnd_snoc, Hc. apply IH, Hw.
Qed.

Lemma trim_padded w s w' :
  forallb isWhiteSpace w = true -> forallb isWhiteSpace w' = true ->
  startsClean s = true -> endsClean s = true ->
  trim (w ++ s ++ w') = s.
Proof.
  intros Hw Hw' Hs He. unfold trim. rewrite trimStart_padding by exact Hw.
  destruct s as [|c s].
  - cbn [app]. rewrite <- (app_nil_r w'), trimStart_padding by exact Hw'. reflexivity.
  - rewrite trimStart_id by exact Hs. rewrite trimEnd_padding by exact Hw'.
    apply trimEnd_id, He.
Qed.

Lemma digitsValue_app a : forall b acc,
  digitsValue acc (a ++ b) = digitsValue (digitsValue acc a) b.
Proof. induction a as [|c a IH]; intros b acc; [reflexivity|]. cbn. apply IH. Qed.

Lemma pretty_N_char_code d :
  (d < 10)%N -> Z.of_nat (nat_of_ascii (pretty_N_char d)) = 48 + Z.of_N d.
Proof.
  intros H.
  assert (d = 0 \/ d = 1 \/ d = 2 \/ d = 3 \/ d = 4 \/ d = 5 \/ d = 6 \/ d = 7 \/ d = 8
          \/ d = 9)%N as Hd by lia.
  repeat (destruct Hd as [->|Hd]; [reflexivity|]). subst d. reflexivity.
Qed.

(** The decimal digits of [x], as [pretty] writes them. *)
Definition digitsOf (x : N) : jsstring := js (pretty_N_go x EmptyString).

Lemma js_pretty_N_go x : forall s, js (pretty_N_go x s) = digitsOf x ++ js s.
Proof.
  induction (N.lt_wf_0 x) as [x _ IH]. intros s.
  destruct (N.eq_dec x 0%N) as [->|Hx].
  - rewrite pretty_N_go_0. reflexivity.
  - unfold digitsOf. rewrite (pretty_N_go_step x s), (pretty_N_go_step x EmptyString) by lia.
    assert (Hlt : (x `div` 10 < x)%N) by (apply N.div_lt; lia).
    rewrite (IH _ Hlt (String (pretty_N_char (x `mod` 10)) s)).
    rewrite (IH _ Hlt (String (pretty_N_char (x `mod` 10)) EmptyString)).
    rewrite <- app_assoc. reflexivity.
Qed.

Lemma digitsOf_step x :
  (0 < x)%N ->
  digitsOf x = digitsOf (x `div` 10)%N ++ [48 + Z.of_N (x `mod` 10)%N].
Proof.
  intros Hx. unfold digitsOf at 1. rewrite pretty_N_go_step by exact Hx.
  rewrite js_pretty_N_go. f_equal. cbn. rewrite pretty_N_char_code; [reflexivity|].
  apply N.mod_lt. lia.
Qed.

Lemma digitsOf_value x :
  forallb isDecimalDigit (digitsOf x) = true /\ digitsValue 0 (digitsOf x) = Z.of_N x.
Proof.
  induction (N.lt_wf_0 x) as [x _ IH].
  destruct (N.eq_dec x 0%N) as [->|Hx]; [split; reflexivity|].
  rewrite digitsOf_step by lia.
  destruct (IH (x `div` 10)%N) as [Hd Hv]; [apply N.div_lt; lia|].
  pose proof (N.mod_lt x 10 ltac:(lia)) as Hm.
  split.
  - rewrite forallb_app, Hd. cbn. unfold isDecimalDigit.
    rewrite andb_true_r. clear -Hm. apply andb_true_iff.
    set (d := (x `mod` 10)%N) in *. clearbody d.
    split; apply Z.leb_le; lia.
  - rewrite digitsValue_app, Hv. cbn [digitsValue].
    pose proof (N.div_mod x 10 ltac:(lia)) as E. clear -E Hm.
    set (d := (x `mod` 10)%N) in *. set (q := (x `div` 10)%N) in *. clearbody d q. lia.
Qed.

Lemma digitsOf_head x :
  (0 < x)%N -> exists c r, digitsOf x = c :: r /\ isDecimalDigit c = true.
Proof.
  intros Hx. pose proof (digitsOf_value x) as [Hd _].
  destruct (digitsOf x) as [|c r] eqn:E.
  - rewrite digitsOf_step in E by exact Hx. destruct (digitsOf (x `div` 10)%N); discriminate.
  - exists c, r. split; [reflexivity|]. cbn in Hd. apply andb_true_iff in Hd as [Hc _]. exact Hc.
Qed.

Lemma endsClean_digits s :
  s <> [] -> forallb isDecimalDigit s = true -> endsClean s = true.
Proof.
  intros Hne Hd. unfold endsClean.
  assert (Hr : forallb isDecimalDigit (rev s) = true).
  { apply forallb_forall. intros c Hc. apply in_rev in Hc.
    exact (proj1 (forallb_forall _ _) Hd c Hc). }
  destruct (rev s) as [|c r] eqn:E; [reflexivity|].
  cbn in Hr. apply andb_true_iff in Hr as [Hc _]. cbn.
  unfold isDecimalDigit in Hc. apply andb_true_iff in Hc as [H1 H2].
  unfold isWhiteSpace, isLineTerminator.
  repeat match goal with |- context [?a =? ?b] => 
    replace (a =? b) with false by (symmetry; apply Z.eqb_neq; lia) end.
  replace (8192 <=? c) with false by (symmetry; apply Z.leb_gt; lia). reflexivity.
Qed.

Lemma numberToString_forms n :
  (n = 0 /\ numberToString n = [48]) \/
  (0 < n /\ numberToString n = digitsOf (Z.to_N n)) \/
  (n < 0 /\ numberToString n = 45 :: digitsOf (Z.to_N (- n))).
Proof.
  destruct n as [|p|p].
  - left. split; reflexivity.
  - right. left. split; [lia|]. reflexivity.
  - right. right. split; [lia|]. reflexivity.
Qed.

(** X18.  [parseIntegerString] reads back what [String] writes: the
    decimal text of an integer of magnitude at most 2^53 - 1, with any
    white space around it, gives that integer. *)
Theorem parseIntegerString_reads_String (n : Z) (before after : jsstring) :
  Z.abs n <= MAX_SAFE_INTEGER ->
  forallb isWhiteSpace before = true -> forallb isWhiteSpace after = true ->
  parseIntegerString (before ++ numberToString n ++ after) = inr n.
Proof.
  intros Hn Hb Ha. unfold parseIntegerString.
  assert (Hgo : forall x, (0 < x)%N ->
            isIntegerText (digitsOf x) = true /\ parseInt10 (digitsOf x) = Z.of_N x /\
            startsClean (digitsOf x) = true /\ endsClean (digitsOf x) = true).
  { intros x Hx. destruct (digitsOf_head x Hx) as (c & r & E & Hc).
    destruct (digitsOf_value x) as [Hd Hv].
    assert (Hc45 : (c =? 45) = false).
    { unfold isDecimalDigit in Hc. apply andb_true_iff in Hc as [H1 H2].
      apply Z.eqb_neq. lia. }
    repeat split.
    - unfold isIntegerText. rewrite E, Hc45, <- E, Hd.
      rewrite E. reflexivity.
    - unfold parseInt10. rewrite E, Hc45, <- E. exact Hv.
    - rewrite E. cbn. unfold isDecimalDigit in Hc. apply andb_true_iff in Hc as [H1 H2].
      unfold isWhiteSpace, isLineTerminator.
      repeat match goal with |- context [?a =? ?b] =>
        replace (a =? b) with false by (symmetry; apply Z.eqb_neq; lia) end.
      replace (8192 <=? c) with false by (symmetry; apply Z.leb_gt; lia). reflexivity.
    - apply endsClean_digits; [rewrite E; discriminate|exact Hd]. }
  destruct (numberToString_forms n) as [[-> E]|[[Hpos E]|[Hneg E]]]; rewrite E.
  - rewrite trim_padded by (assumption || reflexivity). reflexivity.
  - destruct (Hgo (Z.to_N n) ltac:(lia)) as (Hi & Hv & Hs & He).
    rewrite trim_padded by assumption. rewrite Hi, Hv. cbn [negb].
    replace (Z.abs (Z.of_N (Z.to_N n)) <=? MAX_SAFE_INTEGER) with true
      by (symmetry; apply Z.leb_le; lia).
    cbn [negb]. f_equal. lia.
  - destruct (Hgo (Z.to_N (- n)) ltac:(lia)) as (Hi & Hv & Hs & He).
    destruct (digitsOf_head (Z.to_N (- n)) ltac:(lia)) as (c & r & Ed & Hc).
    destruct (digitsOf_value (Z.to_N (- n))) as [Hd Hval].
    rewrite trim_padded; try assumption.
    + unfold isIntegerText, parseInt10. change (45 =? 45) with true. cbn match.
      rewrite Hd, Hval, Ed. cbn [truthy andb negb].
      replace (Z.abs (- Z.of_N (Z.to_N (- n))) <=? MAX_SAFE_INTEGER) with true
        by (symmetry; apply Z.leb_le; lia).
      cbn [negb]. f_equal. lia.
    + reflexivity.
    + change (45 :: digitsOf (Z.to_N (- n))) with ([45] ++ digitsOf (Z.to_N (- n))).
      rewrite endsClean_app; [exact He|]. rewrite Ed. discriminate.
Qed.

Lemma parseIntegerString_reads_String_witness :
  parseIntegerString (js " " ++ numberToString (-42) ++ [10]) = inr (-42).
Proof.
  apply (parseIntegerString_reads_String (-42) (js " ") [10]).
  - unfold MAX_SAFE_INTEGER. lia.
  - reflexivity.
  - reflexivity.
Defined.

(** ** Choosing the station by name *)

Lemma filter_single {A} (p : A -> bool) (l : list A) (x : A) :
  List.filter p l = [x] <->
  exists before after, l = before ++ x :: after /\ p x = true /\
    List.filter p before = [] /\ List.filter p after = [].
Proof.
  split.
  - induction l as [|y l IH]; [discriminate|]. cbn [List.filter].
    destruct (p y) eqn:Hy.
    + intros [= -> H]. exists [], l. repeat split; auto.
    + intros H. destruct (IH H) as (before & after & -> & Hx & Hb & Ha).
      exists (y :: before), after. cbn [List.filter app]. rewrite Hy. repeat split; auto.
  - intros (before & after & -> & Hx & Hb & Ha).
    rewrite List.filter_app, Hb. cbn [List.filter app]. rewrite Hx, Ha. reflexivity.
Qed.

Section StationChoice.
Context {U : UnicodeOps}.

(** The station answers to the name: the normalised name occurs in the
    normalised "name group id" text of the station, or normalises to
    nothing. *)
Definition answersTo (stationName : jsstring) (stationItem : StationOption) : bool :=
  negb (truthy (normalize stationName)) ||
  includes (normalize (stationSearchText stationItem)) (normalize stationName).

Lemma filterSelectOptionsByName_answers stations stationName :
  truthy stationName = true ->
  filterSelectOptionsByName stationSearchText stations stationName =
    List.filter (answersTo stationName) stations.
Proof.
  intros Hn. unfold filterSelectOptionsByName, answersTo. rewrite Hn. cbn [negb].
  destruct (truthy (normalize stationName)); cbn [negb orb]; [reflexivity|].
  induction stations as [|s l IH]; [reflexivity|]. cbn [List.filter]. rewrite <- IH. reflexivity.
Qed.

(** X19.  [resolveStationForSync] returns a station id in two cases
    only.  With a non-blank [--station] it is that text trimmed, whatever
    the catalog holds and whether or not it could be fetched.  Otherwise
    [--station-name] must be non-blank, the catalog must be available,
    and exactly one station of it must answer to the name: that
    station's id is returned. *)
Theorem resolveStationForSync_picks (catalog : option (list StationOption))
    (station stationNameArg : option ArgValue) (id : jsstring) :
  resolveStationForSync catalog station stationNameArg = inr id <->
  (truthy (stringArg station trim) = true /\ id = stringArg station trim) \/
  (truthy (stringArg station trim) = false /\
   truthy (stringArg stationNameArg cleanupSpaces) = true /\
   exists before chosen after,
     catalog = Some (before ++ chosen :: after) /\
     id = stationOptionId chosen /\
     answersTo (stringArg stationNameArg cleanupSpaces) chosen = true /\
     List.filter (answersTo (stringArg stationNameArg cleanupSpaces)) before = [] /\
     List.filter (answersTo (stringArg stationNameArg cleanupSpaces)) after = []).
Proof.
  unfold resolveStationForSync.
  set (stationIdArg := stringArg station trim).
  set (stationName := stringArg stationNameArg cleanupSpaces).
  destruct (truthy stationIdArg) eqn:Hid.
  { split.
    - intros [= <-]. left. split; reflexivity.
    - intros [[_ ->]|[H _]]; [reflexivity|discriminate]. }
  destruct (truthy stationName) eqn:Hname; cbn [negb].
  2:{ split; [discriminate|]. intros [[H _]|(_ & H & _)]; discriminate. }
  destruct catalog as [stations|].
  2:{ split; [discriminate|].
      intros [[H _]|(_ & _ & before & chosen & after & H & _)]; discriminate. }
  rewrite filterSelectOptionsByName_answers by exact Hname.
  destruct (List.filter (answersTo stationName) stations) as [|s [|s' rest]] eqn:Hf.
  - split; [discriminate|]. intros [[H _]|(_ & _ & before & chosen & after & [= ->] & _ & Hc & Hb & Ha)];
      [discriminate|].
    rewrite List.filter_app, Hb in Hf. cbn [List.filter app] in Hf. rewrite Hc in Hf.
    discriminate.
  - apply filter_single in Hf. destruct Hf as (before & after & -> & Hx & Hb & Ha). split.
    + intros [= <-]. right. repeat split. exists before, s, after. repeat split; auto.
    + intros [[H _]|(_ & _ & before' & chosen & after' & [= E] & -> & Hc & Hb' & Ha')];
        [discriminate|]. f_equal.
      assert (Hs : List.filter (answersTo stationName) (before ++ s :: after) = [s]).
      { rewrite List.filter_app, Hb. cbn [List.filter app]. rewrite Hx, Ha. reflexivity. }
      rewrite E, List.filter_app, Hb' in Hs. cbn [List.filter app] in Hs.
      rewrite Hc, Ha' in Hs. congruence.
  - split; [discriminate|].
    intros [[H _]|(_ & _ & before & chosen & after & [= ->] & _ & Hc & Hb & Ha)];
      [discriminate|].
    rewrite List.filter_app, Hb in Hf. cbn [List.filter app] in Hf. rewrite Hc, Ha in Hf.
    discriminate.
Qed.
End StationChoice.

(** ** Escaping text for HTML *)

(** What [escapeHtml] writes for one character. *)
Definition escapeUnit (c : Z) : jsstring :=
  if c =? 38 then js "&amp;"
  else if c =? 60 then js "&lt;"
  else if c =? 62 then js "&gt;"
  else if c =? 34 then js "&quot;"
  else if c =? 39 then js "&#39;"
  else [c].

Lemma replaceAll_unit p replacement s :
  replaceAll [p] replacement s = flat_map (fun c => if c =? p then replacement else [c]) s.
Proof.
  unfold replaceAll. induction s as [|c s IH]; [reflexivity|].
  cbn [replaceAllFrom isPrefix length Nat.sub flat_map]. rewrite andb_true_r, (Z.eqb_sym p c).
  destruct (c =? p); rewrite IH; reflexivity.
Qed.

Lemma flat_map_flat_map {A B C} (f : A -> list B) (g : B -> list C) (l : list A) :
  flat_map g (flat_map f l) = flat_map (fun x => flat_map g (f x)) l.
Proof.
  induction l as [|x l IH]; [reflexivity|]. cbn [flat_map].
  rewrite flat_map_app, IH. reflexivity.
Qed.

Lemma escapeHtml_units value : escapeHtml value = flat_map escapeUnit value.
Proof.
  unfold escapeHtml. change (js "&") with [38]. change (js "<") with [60].
  change (js ">") with [62]. rewrite !replaceAll_unit, !flat_map_flat_map.
  apply flat_map_ext. intros c. unfold escapeUnit.
  destruct (Z.eqb_spec c 38) as [->|H38]; [reflexivity|].
  destruct (Z.eqb_spec c 60) as [->|H60]; [reflexivity|].
  cbn [flat_map app]. rewrite (proj2 (Z.eqb_neq c 60) H60). cbn [flat_map app].
  destruct (Z.eqb_spec c 62) as [->|H62]; [reflexivity|].
  cbn [flat_map app].
  destruct (Z.eqb_spec c 34) as [->|H34]; [reflexivity|].
  cbn [flat_map app].
  destruct (Z.eqb_spec c 39) as [->|H39]; reflexivity.
Qed.

Lemma escapeUnit_cases c :
  (c = 38 /\ escapeUnit c = [38; 97; 109; 112; 59]) \/
  (c = 60 /\ escapeUnit c = [38; 108; 116; 59]) \/
  (c = 62 /\ escapeUnit c = [38; 103; 116; 59]) \/
  (c = 34 /\ escapeUnit c = [38; 113; 117; 111; 116; 59]) \/
  (c = 39 /\ escapeUnit c = [38; 35; 51; 57; 59]) \/
  (c <> 38 /\ c <> 60 /\ c <> 62 /\ c <> 34 /\ c <> 39 /\ escapeUnit c = [c]).
Proof.
  unfold escapeUnit.
  destruct (Z.eqb_spec c 38); [left; split; [assumption|reflexivity]|right].
  destruct (Z.eqb_spec c 60); [left; split; [assumption|reflexivity]|right].
  destruct (Z.eqb_spec c 62); [left; split; [assumption|reflexivity]|right].
  destruct (Z.eqb_spec c 34); [left; split; [assumption|reflexivity]|right].
  destruct (Z.eqb_spec c 39); [left; split; [assumption|reflexivity]|right].
  repeat split; assumption.
Qed.

Lemma flat_map_escapeUnit_inj a : forall b,
  flat_map escapeUnit a = flat_map escapeUnit b -> a = b.
Proof.
  induction a as [|c a IH]; intros [|d b]; cbn [flat_map].
  - reflexivity.
  - destruct (escapeUnit_cases d) as [[_ E]|[[_ E]|[[_ E]|[[_ E]|[[_ E]|(_&_&_&_&_&E)]]]]];
      rewrite E; discriminate.
  - destruct (escapeUnit_cases c) as [[_ E]|[[_ E]|[[_ E]|[[_ E]|[[_ E]|(_&_&_&_&_&E)]]]]];
      rewrite E; discriminate.
  - destruct (escapeUnit_cases c) as [[-> E]|[[-> E]|[[-> E]|[[-> E]|[[-> E]|(?&?&?&?&?&E)]]]]];
    destruct (escapeUnit_cases d) as [[-> F]|[[-> F]|[[-> F]|[[-> F]|[[-> F]|(?&?&?&?&?&F)]]]]];
    rewrite ?E, ?F; cbn [app]; intros Heq; injection Heq; intros; subst;
    try congruence; f_equal; apply IH; assumption.
Qed.

Definition isMarkup (c : Z) : bool := (c =? 60) || (c =? 62) || (c =? 34) || (c =? 39).

(** X20.  [escapeHtml] rewrites each character on its own: an ampersand,
    [<], [>], a double and a single quote become their entities, every
    other character is kept; the ampersands of the entities written are
    not escaped again.  So the result holds none of [<], [>] and the two
    quotes, and different texts give different results. *)
Theorem escapeHtml_escapes (value : jsstring) :
  escapeHtml value = flat_map escapeUnit value /\
  forallb (fun c => negb (isMarkup c)) (escapeHtml value) = true /\
  (forall other, escapeHtml other = escapeHtml value -> other = value).
Proof.
  split; [apply escapeHtml_units|]. split.
  - rewrite escapeHtml_units. induction value as [|c s IH]; [reflexivity|].
    cbn [flat_map]. rewrite forallb_app, IH, andb_true_r.
    destruct (escapeUnit_cases c) as [[-> E]|[[-> E]|[[-> E]|[[-> E]|[[-> E]|(?&?&?&?&?&E)]]]]];
      rewrite E; try reflexivity.
    cbn. unfold isMarkup. rewrite andb_true_r.
    rewrite (proj2 (Z.eqb_neq c 60)), (proj2 (Z.eqb_neq c 62)), (proj2 (Z.eqb_neq c 34)),
      (proj2 (Z.eqb_neq c 39)) by assumption. reflexivity.
  - intros other H. rewrite !escapeHtml_units in H. apply flat_map_escapeUnit_inj, H.
Qed.

(** ** Decoding HTML entities *)

(** The text holds no ampersand. *)
Definition noAmpersand (s : jsstring) : bool := forallb (fun c => negb (c =? 38)) s.

Lemma noAmpersand_drop k s : noAmpersand s = true -> noAmpersand (drop k s) = true.
Proof.
  revert k. induction s as [|c s IH]; intros [|k] H; try reflexivity; try exact H.
  cbn [drop]. apply IH. cbn in H. apply andb_true_iff in H as [_ H]. exact H.
Qed.

Lemma noAmpersand_app a b :
  noAmpersand (a ++ b) = noAmpersand a && noAmpersand b.
Proof. apply forallb_app. Qed.

Lemma replaceAllFrom_drop pattern replacement s : forall k,
  replaceAllFrom k pattern replacement s = replaceAll pattern replacement (drop k s).
Proof.
  induction s as [|c s IH]; intros [|k]; try reflexivity.
  cbn [replaceAllFrom drop]. apply IH.
Qed.

Lemma replaceAll_plain pattern replacement a s :
  noAmpersand a = true ->
  replaceAll (38 :: pattern) replacement (a ++ s) =
    a ++ replaceAll (38 :: pattern) replacement s.
Proof.
  unfold replaceAll. induction a as [|c a IH]; intros H; [reflexivity|].
  cbn in H. apply andb_true_iff in H as [Hc H]. apply negb_true_iff in Hc.
  cbn [app replaceAllFrom isPrefix]. rewrite (Z.eqb_sym 38 c), Hc. cbn [andb].
  rewrite IH by exact H. reflexivity.
Qed.

Lemma replaceAll_id pattern replacement b :
  noAmpersand b = true -> replaceAll (38 :: pattern) replacement b = b.
Proof.
  intros H. rewrite <- (app_nil_r b) at 1. rewrite replaceAll_plain by exact H.
  rewrite app_nil_r. reflexivity.
Qed.

(** One pass of [replaceAll] over a text with a single ampersand. *)
Lemma replaceAll_single pattern replacement a rest :
  noAmpersand a = true -> noAmpersand rest = true ->
  replaceAll (38 :: pattern) replacement (a ++ 38 :: rest) =
    a ++ (if isPrefix pattern rest then replacement ++ drop (length pattern) rest
          else 38 :: rest).
Proof.
  intros Ha Hr. rewrite replaceAll_plain by exact Ha. f_equal.
  unfold replaceAll. cbn [replaceAllFrom isPrefix length Nat.sub].
  change (38 =? 38) with true. cbn [andb]. rewrite Nat.sub_0_r.
  destruct (isPrefix pattern rest).
  - rewrite replaceAllFrom_drop, replaceAll_id by (apply noAmpersand_drop, Hr). reflexivity.
  - fold (replaceAll (38 :: pattern) replacement rest). rewrite replaceAll_id by exact Hr.
    reflexivity.
Qed.

Section ReferencePass.
Variable matchAt : jsstring -> option (Z * nat).
Hypothesis matchAt_ampersand : forall c r, c <> 38 -> matchAt (c :: r) = None.

Lemma decodeReferencesFrom_drop s : forall k,
  decodeReferencesFrom matchAt k s = decodeReferences matchAt (drop k s).
Proof.
  induction s as [|c s IH]; intros [|k]; try reflexivity.
  cbn [decodeReferencesFrom drop]. apply IH.
Qed.

Lemma decodeReferences_plain a s :
  noAmpersand a = true ->
  decodeReferences matchAt (a ++ s) = app a <$> decodeReferences matchAt s.
Proof.
  unfold decodeReferences. induction a as [|c a IH]; intros H.
  - cbn [app]. destruct (decodeReferencesFrom matchAt 0 s); reflexivity.
  - cbn in H. apply andb_true_iff in H as [Hc H]. apply negb_true_iff, Z.eqb_neq in Hc.
    cbn [app decodeReferencesFrom]. rewrite matchAt_ampersand by exact Hc.
    rewrite IH by exact H. destruct (decodeReferencesFrom matchAt 0 s); reflexivity.
Qed.

Lemma decodeReferences_id b :
  noAmpersand b = true -> decodeReferences matchAt b = Some b.
Proof.
  intros H. rewrite <- (app_nil_r b) at 1. rewrite decodeReferences_plain by exact H.
  cbn. rewrite app_nil_r. reflexivity.
Qed.

(** One pass over a text with a single ampersand. *)
Lemma decodeReferences_single a rest :
  noAmpersand a = true -> noAmpersand rest = true ->
  decodeReferences matchAt (a ++ 38 :: rest) =
    match matchAt (38 :: rest) with
    | Some (codePoint, matched) =>
        text ← fromCodePoint codePoint; Some (a ++ text ++ drop (matched - 1) rest)
    | None => Some (a ++ 38 :: rest)
    end.
Proof.
  intros Ha Hr. rewrite decodeReferences_plain by exact Ha.
  unfold decodeReferences at 1. cbn [decodeReferencesFrom].
  destruct (matchAt (38 :: rest)) as [[codePoint matched]|].
  - rewrite decodeReferencesFrom_drop, decodeReferences_id by (apply noAmpersand_drop, Hr).
    destruct (fromCodePoint codePoint); reflexivity.
  - fold (decodeReferences matchAt rest). rewrite decodeReferences_id by exact Hr. reflexivity.
Qed.
End ReferencePass.

Lemma matchDecimalReference_ampersand c r : c <> 38 -> matchDecimalReference (c :: r) = None.
Proof.
  intros H. unfold matchDecimalReference. change (js "&#") with [38; 35].
  cbn [isPrefix]. rewrite (proj2 (Z.eqb_neq 38 c)) by congruence. reflexivity.
Qed.

Lemma matchHexReference_ampersand c r : c <> 38 -> matchHexReference (c :: r) = None.
Proof.
  intros H. unfold matchHexReference. change (js "&#x") with [38; 35; 120].
  change (js "&#X") with [38; 35; 88].
  cbn [isPrefix]. rewrite (proj2 (Z.eqb_neq 38 c)) by congruence. reflexivity.
Qed.

(** The later passes leave a text without ampersand as it is. *)
Lemma decodeHtmlEntities_id b : noAmpersand b = true -> decodeHtmlEntities b = Some b.
Proof.
  intros H. unfold decodeHtmlEntities.
  change (js "&gt;") with (38 :: js "gt;"). change (js "&lt;") with (38 :: js "lt;").
  change (js "&amp;") with (38 :: js "amp;"). change (js "&#039;") with (38 :: js "#039;").
  change (js "&quot;") with (38 :: js "quot;").
  do 5 (rewrite (replaceAll_id _ _ b) by exact H).
  rewrite (decodeReferences_id _ matchDecimalReference_ampersand) by exact H.
  cbn. apply (decodeReferences_id _ matchHexReference_ampersand), H.
Qed.

Lemma replaceAll_miss pattern replacement a rest :
  noAmpersand a = true -> noAmpersand rest = true -> isPrefix pattern rest = false ->
  replaceAll (38 :: pattern) replacement (a ++ 38 :: rest) = a ++ 38 :: rest.
Proof. intros Ha Hr Hp. rewrite replaceAll_single, Hp by assumption. reflexivity. Qed.

Lemma replaceAll_hit pattern replacement a rest :
  noAmpersand a = true -> noAmpersand rest = true -> isPrefix pattern rest = true ->
  replaceAll (38 :: pattern) replacement (a ++ 38 :: rest) =
    a ++ replacement ++ drop (length pattern) rest.
Proof. intros Ha Hr Hp. rewrite replaceAll_single, Hp by assumption. reflexivity. Qed.

Lemma decodeReferences_miss matchAt a rest :
  (forall c r, c <> 38 -> matchAt (c :: r) = None) ->
  noAmpersand a = true -> noAmpersand rest = true -> matchAt (38 :: rest) = None ->
  decodeReferences matchAt (a ++ 38 :: rest) = Some (a ++ 38 :: rest).
Proof.
  intros Hm Ha Hr Hp. rewrite decodeReferences_single, Hp by assumption. reflexivity.
Qed.

Lemma matchDecimalReference_no_hash rest :
  isPrefix (js "#") rest = false -> matchDecimalReference (38 :: rest) = None.
Proof.
  intros H. unfold matchDecimalReference. change (js "&#") with (38 :: js "#").
  cbn [isPrefix]. rewrite H. reflexivity.
Qed.

Lemma matchHexReference_no_hash rest :
  isPrefix (js "#") rest = false -> matchHexReference (38 :: rest) = None.
Proof.
  intros H. unfold matchHexReference.
  change (js "&#x") with (38 :: 35 :: [120]). change (js "&#X") with (38 :: 35 :: [88]).
  change (js "#") with [35] in H. destruct rest as [|c r]; [reflexivity|].
  cbn [isPrefix] in *. rewrite andb_true_r in H. rewrite H. reflexivity.
Qed.

(** The five [replaceAll] passes of [decodeHtmlEntities]. *)
Definition decodeNamed (value : jsstring) : jsstring :=
  replaceAll (38 :: js "gt;") (js ">")
    (replaceAll (38 :: js "lt;") (js "<")
       (replaceAll (38 :: js "amp;") (js "&")
          (replaceAll (38 :: js "#039;") [39]
             (replaceAll (38 :: js "quot;") [34] value)))).

Lemma decodeHtmlEntities_passes value :
  decodeHtmlEntities value =
    (decimal ← decodeReferences matchDecimalReference (decodeNamed value);
     decodeReferences matchHexReference decimal).
Proof. reflexivity. Qed.

Lemma decodeReferences_both b :
  noAmpersand b = true ->
  (decimal ← decodeReferences matchDecimalReference b;
   decodeReferences matchHexReference decimal) = Some b.
Proof.
  intros H. rewrite (decodeReferences_id _ matchDecimalReference_ampersand) by exact H.
  cbn. apply (decodeReferences_id _ matchHexReference_ampersand), H.
Qed.

Ltac amp_free :=
  rewrite ?noAmpersand_app;
  repeat (apply andb_true_iff; split); try assumption; try reflexivity.

Ltac pass_miss :=
  rewrite replaceAll_miss by (solve [amp_free] || reflexivity || assumption).
Ltac pass_hit :=
  rewrite replaceAll_hit by (solve [amp_free] || reflexivity || assumption);
  rewrite drop_app_length.
Ltac pass_id :=
  match goal with
  | |- context [replaceAll (38 :: ?p) ?r (?a ++ ?t)] =>
      rewrite (replaceAll_id p r (a ++ t)) by (solve [amp_free])
  end.

(** X21.  [decodeHtmlEntities] on a text with one ampersand, the text
    before and after it holding none: a text without ampersand is
    returned as it is; each of the five entities is replaced by its
    character; an ampersand that begins none of them and no numeric
    reference stays.  The text written for [&amp;] is read again by the
    later passes, so [&amp;lt;] decodes to [<]. *)
Theorem decodeHtmlEntities_named (before after : jsstring) :
  noAmpersand before = true -> noAmpersand after = true ->
  decodeHtmlEntities before = Some before /\
  decodeHtmlEntities (before ++ js "&quot;" ++ after) = Some (before ++ [34] ++ after) /\
  decodeHtmlEntities (before ++ js "&#039;" ++ after) = Some (before ++ [39] ++ after) /\
  decodeHtmlEntities (before ++ js "&lt;" ++ after) = Some (before ++ js "<" ++ after) /\
  decodeHtmlEntities (before ++ js "&gt;" ++ after) = Some (before ++ js ">" ++ after) /\
  (isPrefix (js "lt;") after = false -> isPrefix (js "gt;") after = false ->
   isPrefix (js "#") after = false ->
   decodeHtmlEntities (before ++ js "&amp;" ++ after) = Some (before ++ js "&" ++ after)) /\
  (isPrefix (js "quot;") after = false -> isPrefix (js "amp;") after = false ->
   isPrefix (js "lt;") after = false -> isPrefix (js "gt;") after = false ->
   isPrefix (js "#") after = false ->
   decodeHtmlEntities (before ++ js "&" ++ after) = Some (before ++ js "&" ++ after)) /\
  decodeHtmlEntities (before ++ js "&amp;lt;" ++ after) = Some (before ++ js "<" ++ after) /\
  decodeHtmlEntities (before ++ js "&amp;gt;" ++ after) = Some (before ++ js ">" ++ after).
Proof.
  intros Ha Hb. split; [apply decodeHtmlEntities_id, Ha|].
  rewrite !decodeHtmlEntities_passes. unfold decodeNamed.
  repeat split.
  - change (before ++ js "&quot;" ++ after) with (before ++ 38 :: (js "quot;" ++ after)).
    pass_hit. do 4 pass_id. apply decodeReferences_both. amp_free.
  - change (before ++ js "&#039;" ++ after) with (before ++ 38 :: (js "#039;" ++ after)).
    pass_miss. pass_hit. do 3 pass_id. apply decodeReferences_both. amp_free.
  - change (before ++ js "&lt;" ++ after) with (before ++ 38 :: (js "lt;" ++ after)).
    do 3 pass_miss. pass_hit. pass_id. apply decodeReferences_both. amp_free.
  - change (before ++ js "&gt;" ++ after) with (before ++ 38 :: (js "gt;" ++ after)).
    do 4 pass_miss. pass_hit. apply decodeReferences_both. amp_free.
  - intros Hlt Hgt Hhash.
    change (before ++ js "&amp;" ++ after) with (before ++ 38 :: (js "amp;" ++ after)).
    do 2 pass_miss. pass_hit. change (before ++ js "&" ++ after) with (before ++ 38 :: after).
    do 2 pass_miss.
    rewrite (decodeReferences_miss _ _ _ matchDecimalReference_ampersand)
      by (assumption || apply matchDecimalReference_no_hash, Hhash).
    cbn [mbind option_bind].
    apply (decodeReferences_miss _ _ _ matchHexReference_ampersand);
      (assumption || apply matchHexReference_no_hash, Hhash).
  - intros Hquot Hamp Hlt Hgt Hhash.
    change (before ++ js "&" ++ after) with (before ++ 38 :: after).
    assert (H039 : isPrefix (js "#039;") after = false).
    { change (js "#") with [35] in Hhash. change (js "#039;") with (35 :: js "039;").
      destruct after as [|c r]; [reflexivity|]. cbn [isPrefix] in *.
      rewrite andb_true_r in Hhash. rewrite Hhash. reflexivity. }
    do 5 pass_miss.
    rewrite (decodeReferences_miss _ _ _ matchDecimalReference_ampersand)
      by (assumption || apply matchDecimalReference_no_hash, Hhash).
    cbn [mbind option_bind].
    apply (decodeReferences_miss _ _ _ matchHexReference_ampersand);
      (assumption || apply matchHexReference_no_hash, Hhash).
  - change (before ++ js "&amp;lt;" ++ after)
      with (before ++ 38 :: (js "amp;" ++ (js "lt;" ++ after))).
    do 2 pass_miss. pass_hit.
    change (before ++ js "&" ++ js "lt;" ++ after) with (before ++ 38 :: (js "lt;" ++ after)).
    pass_hit. pass_id. apply decodeReferences_both. amp_free.
  - change (before ++ js "&amp;gt;" ++ after)
      with (before ++ 38 :: (js "amp;" ++ (js "gt;" ++ after))).
    do 2 pass_miss. pass_hit.
    change (before ++ js "&" ++ js "gt;" ++ after) with (before ++ 38 :: (js "gt;" ++ after)).
    pass_miss. pass_hit. apply decodeReferences_both. amp_free.
Qed.

Lemma decodeHtmlEntities_named_witness :
  decodeHtmlEntities (js "Tom " ++ js "&amp;" ++ js " Jerry") =
    Some (js "Tom " ++ js "&" ++ js " Jerry").
Proof.
  apply (decodeHtmlEntities_named (js "Tom ") (js " Jerry")); reflexivity.
Defined.

(** *** Numeric references *)

Definition radixValue (digitValue : Z -> option Z) (radix acc : Z) (digits : jsstring) : Z :=
  fold_left (fun acc c => acc * radix + default 0 (digitValue c)) digits acc.

Definition allDigits (digitValue : Z -> option Z) (digits : jsstring) : bool :=
  forallb (fun c => match digitValue c with Some _ => true | None => false end) digits.

Lemma readReference_run digitValue radix digits after :
  digitValue 59 = None -> allDigits digitValue digits = true ->
  forall acc count,
  readReference digitValue radix acc count (digits ++ 59 :: after) =
    if Nat.eqb (count + length digits) 0 then None
    else Some (radixValue digitValue radix acc digits, S (count + length digits)).
Proof.
  intros H59. induction digits as [|c ds IH]; intros Hd acc count.
  - cbn [app readReference length radixValue fold_left]. rewrite H59, Nat.add_0_r.
    change (59 =? 59) with true. cbn [andb]. destruct (Nat.eqb count 0); reflexivity.
  - cbn in Hd. apply andb_true_iff in Hd as [Hc Hd].
    cbn [app readReference length radixValue fold_left].
    destruct (digitValue c) as [d|]; [|discriminate]. cbn [default].
    rewrite (IH Hd). replace (S count + length ds)%nat with (count + S (length ds))%nat by lia.
    reflexivity.
Qed.

Lemma decimalDigitValue_digit c d : decimalDigitValue c = Some d -> 48 <= c <= 57.
Proof.
  unfold decimalDigitValue, isDecimalDigit. destruct (48 <=? c) eqn:H1; [|discriminate].
  destruct (c <=? 57) eqn:H2; [|discriminate]. intros _. lia.
Qed.

Lemma hexDigitValue_digit c d :
  hexDigitValue c = Some d -> 48 <= c <= 57 \/ 97 <= c <= 102 \/ 65 <= c <= 70.
Proof.
  unfold hexDigitValue, isDecimalDigit.
  destruct (48 <=? c) eqn:H1, (c <=? 57) eqn:H2, (97 <=? c) eqn:H3, (c <=? 102) eqn:H4,
    (65 <=? c) eqn:H5, (c <=? 70) eqn:H6; cbn; try discriminate; intros _; lia.
Qed.

Lemma allDigits_noAmpersand digitValue digits :
  digitValue 38 = None -> allDigits digitValue digits = true -> noAmpersand digits = true.
Proof.
  intros H38. unfold noAmpersand, allDigits.
  induction digits as [|c ds IH]; [reflexivity|]. cbn [forallb].
  intros H. apply andb_true_iff in H as [Hc H]. rewrite (IH H), andb_true_r.
  destruct (Z.eqb_spec c 38) as [->|]; [rewrite H38 in Hc; discriminate|reflexivity].
Qed.

Lemma fromCodePoint_noAmpersand codePoint text :
  fromCodePoint codePoint = Some text -> codePoint <> 38 -> noAmpersand text = true.
Proof.
  unfold fromCodePoint. destruct (1114111 <? codePoint); [discriminate|].
  destruct (codePoint <? 65536) eqn:Hlow; intros [= <-] Hne; cbn.
  - rewrite (proj2 (Z.eqb_neq codePoint 38)) by exact Hne. reflexivity.
  - apply Z.ltb_ge in Hlow.
    pose proof (Z.div_pos (codePoint - 65536) 1024 ltac:(lia) ltac:(lia)).
    pose proof (Z.mod_pos_bound (codePoint - 65536) 1024 ltac:(lia)).
    rewrite !andb_true_r. apply andb_true_iff.
    split; apply negb_true_iff, Z.eqb_neq; lia.
Qed.

Lemma drop_reference (lead digits after : jsstring) :
  drop (length lead + length digits + 1) (lead ++ digits ++ 59 :: after) = after.
Proof.
  replace (length lead + length digits + 1)%nat with (length (lead ++ digits ++ [59]))
    by (rewrite !length_app; cbn; lia).
  replace (lead ++ digits ++ 59 :: after) with ((lead ++ digits ++ [59]) ++ after)
    by (rewrite <- !app_assoc; reflexivity).
  apply drop_app_length.
Qed.

Lemma isPrefix_039 digits after :
  allDigits decimalDigitValue digits = true ->
  isPrefix (js "039;") (digits ++ 59 :: after) = true -> digits = js "039".
Proof.
  intros Hd H. change (js "039;") with [48; 51; 57; 59] in H. change (js "039") with [48; 51; 57].
  destruct digits as [|d1 [|d2 [|d3 [|d4 ds]]]]; cbn [app isPrefix] in H;
    repeat (let E := fresh "E" in apply andb_true_iff in H as [E H]; apply Z.eqb_eq in E);
    try discriminate; subst; try reflexivity.
  cbn in Hd. discriminate.
Qed.

Lemma matchDecimalReference_run digits after :
  digits <> [] -> allDigits decimalDigitValue digits = true ->
  matchDecimalReference (38 :: 35 :: digits ++ 59 :: after) =
    Some (radixValue decimalDigitValue 10 0 digits, (3 + length digits)%nat).
Proof.
  intros Hne Hd. unfold matchDecimalReference. change (js "&#") with [38; 35].
  cbn [isPrefix drop]. change (38 =? 38) with true. change (35 =? 35) with true. cbn [andb].
  rewrite drop_0, readReference_run by (reflexivity || exact Hd).
  destruct digits; [congruence|]. reflexivity.
Qed.

Lemma matchHexReference_run x digits after :
  x = 120 \/ x = 88 ->
  digits <> [] -> allDigits hexDigitValue digits = true ->
  matchHexReference (38 :: 35 :: x :: digits ++ 59 :: after) =
    Some (radixValue hexDigitValue 16 0 digits, (4 + length digits)%nat).
Proof.
  intros Hx Hne Hd. unfold matchHexReference.
  change (js "&#x") with [38; 35; 120]. change (js "&#X") with [38; 35; 88].
  assert (E : isPrefix [38; 35; 120] (38 :: 35 :: x :: digits ++ 59 :: after)
              || isPrefix [38; 35; 88] (38 :: 35 :: x :: digits ++ 59 :: after) = true).
  { destruct Hx as [-> | ->]; reflexivity. }
  rewrite E. cbn [drop].
  rewrite drop_0, readReference_run by (reflexivity || exact Hd).
  destruct digits; [congruence|]. reflexivity.
Qed.

(** The passes after the one that decoded the reference. *)
Lemma decodeHtmlEntities_reference_tail matchAt before lead digits after codePoint :
  (forall c r, c <> 38 -> matchAt (c :: r) = None) ->
  noAmpersand before = true -> noAmpersand (lead ++ digits ++ 59 :: after) = true ->
  matchAt (38 :: lead ++ digits ++ 59 :: after) =
    Some (codePoint, S (length lead + length digits + 1)) ->
  decodeReferences matchAt (before ++ 38 :: lead ++ digits ++ 59 :: after) =
    (text ← fromCodePoint codePoint; Some (before ++ text ++ after)).
Proof.
  intros Hm Ha Hr Hhit.
  rewrite (decodeReferences_single _ Hm) by assumption. rewrite Hhit.
  cbn [Nat.sub]. rewrite Nat.sub_0_r, drop_reference. reflexivity.
Qed.

(** X22.  A numeric character reference between texts without
    ampersand, written with decimal digits after [&#] or with
    hexadecimal digits after [&#x] or [&#X], is replaced by the UTF-16
    text of its code point; when the number is above 0x10FFFF the whole
    call throws.  (The decimal reference of the ampersand itself is left
    aside: its result is read again by the hexadecimal pass.) *)
Theorem decodeHtmlEntities_numeric (before after digits : jsstring) :
  noAmpersand before = true -> noAmpersand after = true -> digits <> [] ->
  (allDigits decimalDigitValue digits = true ->
   radixValue decimalDigitValue 10 0 digits <> 38 ->
   decodeHtmlEntities (before ++ js "&#" ++ digits ++ js ";" ++ after) =
     (text ← fromCodePoint (radixValue decimalDigitValue 10 0 digits);
      Some (before ++ text ++ after))) /\
  (allDigits hexDigitValue digits = true ->
   forall x, x = 120 \/ x = 88 ->
   decodeHtmlEntities (before ++ js "&#" ++ [x] ++ digits ++ js ";" ++ after) =
     (text ← fromCodePoint (radixValue hexDigitValue 16 0 digits);
      Some (before ++ text ++ after))).
Proof.
  intros Ha Hb Hne. split.
  - intros Hd Hv.
    pose proof (allDigits_noAmpersand decimalDigitValue digits eq_refl Hd) as Hda.
    assert (Hrest : noAmpersand (35 :: digits ++ 59 :: after) = true).
    { change (35 :: digits ++ 59 :: after) with ([35] ++ digits ++ [59] ++ after). amp_free. }
    change (before ++ js "&#" ++ digits ++ js ";" ++ after)
      with (before ++ 38 :: (35 :: digits ++ 59 :: after)).
    rewrite decodeHtmlEntities_passes. unfold decodeNamed.
    pass_miss.
    destruct (isPrefix (js "#039;") (35 :: digits ++ 59 :: after)) eqn:H039.
    + assert (digits = js "039") as ->.
      { apply (isPrefix_039 digits after Hd). exact H039. }
      rewrite replaceAll_hit by (assumption || reflexivity).
      change (drop (length (js "#039;")) (35 :: js "039" ++ 59 :: after)) with after.
      do 3 pass_id. rewrite decodeReferences_both by amp_free. reflexivity.
    + do 4 pass_miss.
      change (35 :: digits ++ 59 :: after) with ([35] ++ digits ++ 59 :: after).
      rewrite (decodeHtmlEntities_reference_tail matchDecimalReference before [35] digits after
                 (radixValue decimalDigitValue 10 0 digits) matchDecimalReference_ampersand Ha Hrest).
      2:{ cbn [app length]. rewrite matchDecimalReference_run by assumption.
          do 2 f_equal. lia. }
      destruct (fromCodePoint (radixValue decimalDigitValue 10 0 digits)) as [text|] eqn:Ht;
        [|reflexivity].
      cbn [mbind option_bind]. apply (decodeReferences_id _ matchHexReference_ampersand).
      pose proof (fromCodePoint_noAmpersand _ _ Ht Hv). amp_free.
  - intros Hd x Hx.
    pose proof (allDigits_noAmpersand hexDigitValue digits eq_refl Hd) as Hda.
    assert (Hx38 : (x =? 38) = false) by (destruct Hx as [-> | ->]; reflexivity).
    assert (Hrest : noAmpersand (35 :: x :: digits ++ 59 :: after) = true).
    { change (35 :: x :: digits ++ 59 :: after) with ([35] ++ [x] ++ digits ++ [59] ++ after).
      amp_free. cbn. rewrite Hx38. reflexivity. }
    change (before ++ js "&#" ++ [x] ++ digits ++ js ";" ++ after)
      with (before ++ 38 :: (35 :: x :: digits ++ 59 :: after)).
    rewrite decodeHtmlEntities_passes. unfold decodeNamed.
    pass_miss.
    rewrite replaceAll_miss; [|assumption|assumption|destruct Hx as [-> | ->]; reflexivity].
    do 3 pass_miss.
    rewrite (decodeReferences_miss _ _ _ matchDecimalReference_ampersand);
      [|assumption|assumption|destruct Hx as [-> | ->]; reflexivity].
    cbn [mbind option_bind].
    change (35 :: x :: digits ++ 59 :: after) with ([35; x] ++ digits ++ 59 :: after).
    apply (decodeHtmlEntities_reference_tail matchHexReference before [35; x] digits after
             (radixValue hexDigitValue 16 0 digits) matchHexReference_ampersand Ha Hrest).
    cbn [app length]. rewrite matchHexReference_run by assumption.
    do 2 f_equal. lia.
Qed.

Lemma decodeHtmlEntities_numeric_witness :
  decodeHtmlEntities (js "a" ++ js "&#" ++ js "8364" ++ js ";" ++ js "b") =
    Some (js "a" ++ [8364] ++ js "b").
Proof.
  apply (proj1 (decodeHtmlEntities_numeric (js "a") (js "b") (js "8364")
                  eq_refl eq_refl ltac:(discriminate))).
  - reflexivity.
  - vm_compute. discriminate.
Defined.

(** ** Writing a variable into the .env file *)

(** The line defines [key]: after leading white space it starts with "key=". *)
Definition isKeyLine (key line : jsstring) : bool :=
  isPrefix (key ++ js "=") (trimStart line).

Definition keepOthers (key : jsstring) (lines : list jsstring) : list jsstring :=
  List.filter (fun line => negb (isKeyLine key line)) lines.

(** The lines with the first definition of [key] replaced by [entry] and
    the later ones dropped; [None] when no line defines it. *)
Fixpoint replaceDefinition (key entry : jsstring) (lines : list jsstring)
    : option (list jsstring) :=
  match lines with
  | [] => None
  | line :: rest =>
      if isKeyLine key line then Some (entry :: keepOthers key rest)
      else cons line <$> replaceDefinition key entry rest
  end.

Lemma upsertLoop_inserted key entry lines : forall nextLines,
  upsertLoop (key ++ js "=") entry lines nextLines true =
    (nextLines ++ keepOthers key lines, true).
Proof.
  induction lines as [|line rest IH]; intros nextLines.
  - cbn. rewrite app_nil_r. reflexivity.
  - cbn [upsertLoop keepOthers List.filter]. fold (isKeyLine key line).
    fold (keepOthers key rest).
    destruct (isKeyLine key line); cbn [negb].
    + apply IH.
    + rewrite IH, <- app_assoc. reflexivity.
Qed.

Lemma upsertLoop_fresh key entry lines : forall nextLines,
  upsertLoop (key ++ js "=") entry lines nextLines false =
    match replaceDefinition key entry lines with
    | Some replaced => (nextLines ++ replaced, true)
    | None => (nextLines ++ lines, false)
    end.
Proof.
  induction lines as [|line rest IH]; intros nextLines.
  - cbn. rewrite app_nil_r. reflexivity.
  - cbn [upsertLoop replaceDefinition]. fold (isKeyLine key line).
    destruct (isKeyLine key line).
    + rewrite upsertLoop_inserted, <- app_assoc. reflexivity.
    + rewrite IH. destruct (replaceDefinition key entry rest); cbn [fmap option_fmap option_map];
        rewrite <- app_assoc; reflexivity.
Qed.

(** The blank line put before an appended entry. *)
Definition separatorLines (lines : list jsstring) : list jsstring :=
  match last lines with
  | Some lastLine => if truthy lastLine then [[]] else []
  | None => []
  end.

Lemma upsertLines_closed lines key value :
  upsertLines lines key value =
    match replaceDefinition key (key ++ js "=" ++ value) lines with
    | Some replaced => replaced
    | None => lines ++ separatorLines lines ++ [key ++ js "=" ++ value]
    end.
Proof.
  unfold upsertLines. rewrite upsertLoop_fresh. cbn [app].
  destruct (replaceDefinition key (key ++ js "=" ++ value) lines); [reflexivity|].
  unfold separatorLines. destruct (last lines) as [lastLine|]; [|reflexivity].
  destruct (truthy lastLine).
  - rewrite <- app_assoc. reflexivity.
  - reflexivity.
Qed.

Lemma keepOthers_keyless key lines : List.filter (isKeyLine key) (keepOthers key lines) = [].
Proof.
  unfold keepOthers. induction lines as [|line rest IH]; [reflexivity|].
  cbn [List.filter]. destruct (isKeyLine key line) eqn:E; cbn [negb List.filter]; [exact IH|].
  rewrite E. exact IH.
Qed.

Lemma keepOthers_id key lines :
  List.filter (isKeyLine key) lines = [] -> keepOthers key lines = lines.
Proof.
  unfold keepOthers. induction lines as [|line rest IH]; [reflexivity|].
  cbn [List.filter]. destruct (isKeyLine key line); [discriminate|].
  intros H. cbn [negb]. rewrite (IH H). reflexivity.
Qed.

Lemma replaceDefinition_none key entry lines :
  replaceDefinition key entry lines = None -> List.filter (isKeyLine key) lines = [].
Proof.
  induction lines as [|line rest IH]; [reflexivity|]. cbn [replaceDefinition List.filter].
  destruct (isKeyLine key line); [discriminate|].
  destruct (replaceDefinition key entry rest); [discriminate|]. intros _. apply IH. reflexivity.
Qed.

Lemma replaceDefinition_some key entry lines replaced :
  isKeyLine key entry = true ->
  replaceDefinition key entry lines = Some replaced ->
  List.filter (isKeyLine key) replaced = [entry] /\
  keepOthers key replaced = keepOthers key lines.
Proof.
  intros He. revert replaced. induction lines as [|line rest IH]; intros replaced; [discriminate|].
  cbn [replaceDefinition]. destruct (isKeyLine key line) eqn:E.
  - intros [= <-]. cbn [List.filter keepOthers]. rewrite He, E. cbn [negb].
    fold (keepOthers key (keepOthers key rest)). fold (keepOthers key rest).
    rewrite keepOthers_keyless. split; [reflexivity|].
    apply keepOthers_id, keepOthers_keyless.
  - destruct (replaceDefinition key entry rest) as [r|]; [|discriminate].
    intros [= <-]. destruct (IH r eq_refl) as [H1 H2].
    cbn [List.filter keepOthers]. rewrite E. cbn [negb]. split; [exact H1|].
    fold (keepOthers key r). fold (keepOthers key rest). rewrite H2. reflexivity.
Qed.

Lemma replaceDefinition_shape key entry lines : forall replaced,
  replaceDefinition key entry lines = Some replaced ->
  exists before line after,
    lines = before ++ line :: after /\ isKeyLine key line = true /\
    List.filter (isKeyLine key) before = [] /\
    replaced = before ++ entry :: keepOthers key after.
Proof.
  induction lines as [|line rest IH]; intros replaced; [discriminate|].
  cbn [replaceDefinition]. destruct (isKeyLine key line) eqn:E.
  - intros [= <-]. exists [], line, rest. repeat split; auto.
  - destruct (replaceDefinition key entry rest) as [r|]; [|discriminate].
    intros [= <-]. destruct (IH r eq_refl) as (before & l & after & -> & Hl & Hb & ->).
    exists (line :: before), l, after. cbn [List.filter app]. rewrite E. repeat split; auto.
Qed.

Lemma replaceDefinition_fixed key entry lines :
  List.filter (isKeyLine key) lines = [entry] ->
  replaceDefinition key entry lines = Some lines.
Proof.
  induction lines as [|line rest IH]; [discriminate|].
  cbn [List.filter replaceDefinition]. destruct (isKeyLine key line).
  - intros [= -> H]. rewrite keepOthers_id by exact H. reflexivity.
  - intros H. rewrite (IH H). reflexivity.
Qed.

Lemma isKeyLine_entry key value :
  startsClean key = true -> isKeyLine key (key ++ js "=" ++ value) = true.
Proof.
  intros Hk. unfold isKeyLine. rewrite trimStart_id.
  - rewrite app_assoc. generalize (key ++ js "="). intros p.
    induction p as [|c p IH]; [reflexivity|]. cbn [app isPrefix]. rewrite Z.eqb_refl. exact IH.
  - destruct key as [|c k]; [reflexivity|exact Hk].
Qed.

Lemma isKeyLine_empty key : isKeyLine key [] = false.
Proof. unfold isKeyLine. cbn [trimStart]. destruct key; reflexivity. Qed.

Lemma separatorLines_keyless key lines :
  List.filter (isKeyLine key) (separatorLines lines) = [].
Proof.
  unfold separatorLines. destruct (last lines) as [l|]; [|reflexivity].
  destruct (truthy l); [|reflexivity]. cbn [List.filter]. rewrite isKeyLine_empty. reflexivity.
Qed.

Lemma upsertLines_one lines key value :
  startsClean key = true ->
  List.filter (isKeyLine key) (upsertLines lines key value) = [key ++ js "=" ++ value].
Proof.
  intros Hk. pose proof (isKeyLine_entry key value Hk) as He.
  rewrite upsertLines_closed.
  destruct (replaceDefinition key (key ++ js "=" ++ value) lines) as [replaced|] eqn:E.
  - apply (replaceDefinition_some _ _ lines replaced He E).
  - rewrite !List.filter_app, (replaceDefinition_none _ _ _ E), separatorLines_keyless.
    cbn [List.filter app]. rewrite He. reflexivity.
Qed.

Lemma upsertLines_fixed lines key value :
  List.filter (isKeyLine key) lines = [key ++ js "=" ++ value] ->
  upsertLines lines key value = lines.
Proof.
  intros H. rewrite upsertLines_closed, (replaceDefinition_fixed _ _ _ H). reflexivity.
Qed.

(** X23.  The lines [upsertEnvVar] writes.  When a line of the file
    defines the key, the first such line is replaced by "key=value", the
    later ones are dropped and every other line stays in place; when
    none does, the lines are kept and "key=value" is appended, after a
    blank line if the last line is not blank.  Either way exactly one of
    the lines written defines the key, and writing again changes
    nothing.  The key must not start with white space. *)
Theorem upsertLines_defines_once (lines : list jsstring) (key value : jsstring) :
  startsClean key = true ->
  let entry := key ++ js "=" ++ value in
  let written := upsertLines lines key value in
  ((exists before line after,
      lines = before ++ line :: after /\ isKeyLine key line = true /\
      List.filter (isKeyLine key) before = [] /\
      written = before ++ entry :: keepOthers key after) \/
   (List.filter (isKeyLine key) lines = [] /\
    written = lines ++ separatorLines lines ++ [entry])) /\
  List.filter (isKeyLine key) written = [entry] /\
  upsertLines written key value = written.
Proof.
  intros Hk entry written.
  pose proof (upsertLines_one lines key value Hk) as Hone. fold entry written in Hone.
  split; [|split; [exact Hone|]].
  - subst written. rewrite upsertLines_closed. fold entry.
    destruct (replaceDefinition key entry lines) as [replaced|] eqn:E.
    + left. apply replaceDefinition_shape, E.
    + right. split; [apply (replaceDefinition_none _ _ _ E)|reflexivity].
  - apply upsertLines_fixed, Hone.
Qed.

(** *** The content written *)

(** No line feed and no carriage return in the text. *)
Definition noLineBreak (s : jsstring) : bool :=
  forallb (fun c => negb (c =? 10) && negb (c =? 13)) s.

Lemma splitLines_plain l : noLineBreak l = true -> splitLines l = [l].
Proof.
  induction l as [|c r IH]; [reflexivity|]. cbn [noLineBreak forallb].
  intros H. apply andb_true_iff in H as [Hc H]. apply andb_true_iff in Hc as [H10 H13].
  apply negb_true_iff in H10, H13. cbn [splitLines]. rewrite H10, H13. cbn [andb].
  rewrite (IH H). destruct r; reflexivity.
Qed.

Lemma splitLines_line l rest :
  noLineBreak l = true -> splitLines (l ++ 10 :: rest) = l :: splitLines rest.
Proof.
  induction l as [|c r IH]; [reflexivity|]. cbn [noLineBreak forallb].
  intros H. apply andb_true_iff in H as [Hc H]. apply andb_true_iff in Hc as [H10 H13].
  apply negb_true_iff in H10, H13. cbn [app splitLines]. rewrite H10, H13. cbn [andb].
  rewrite (IH H). destruct (r ++ 10 :: rest); reflexivity.
Qed.

Lemma splitLines_join lines :
  lines <> [] -> Forall (fun l => noLineBreak l = true) lines ->
  splitLines (join [10] lines) = lines.
Proof.
  induction lines as [|l rest IH]; [congruence|]. intros _ H.
  apply Forall_cons in H as [Hl H]. destruct rest as [|l2 rest].
  - cbn [join]. apply splitLines_plain, Hl.
  - change (join [10] (l :: l2 :: rest)) with (l ++ 10 :: join [10] (l2 :: rest)).
    rewrite splitLines_line by exact Hl. rewrite IH by (congruence || exact H). reflexivity.
Qed.

Lemma join_snoc sep lines l :
  lines <> [] -> join sep (lines ++ [l]) = join sep lines ++ sep ++ l.
Proof.
  induction lines as [|p rest IH]; [congruence|]. intros _.
  destruct rest as [|q rest]; [reflexivity|].
  change (join sep ((p :: q :: rest) ++ [l])) with (p ++ sep ++ join sep ((q :: rest) ++ [l])).
  rewrite IH by congruence.
  change (join sep (p :: q :: rest)) with (p ++ sep ++ join sep (q :: rest)).
  rewrite <- !app_assoc. reflexivity.
Qed.

Lemma stripTrailingNewlines_snoc s c :
  stripTrailingNewlines (s ++ [c]) =
    if c =? 10 then stripTrailingNewlines s else s ++ [c].
Proof.
  unfold stripTrailingNewlines. rewrite rev_app_distr. cbn [rev app dropNewlines].
  destruct (c =? 10); [reflexivity|]. cbn [rev]. rewrite rev_involutive. reflexivity.
Qed.

Lemma stripTrailingNewlines_kept prefix l :
  l <> [] -> noLineBreak l = true -> stripTrailingNewlines (prefix ++ l) = prefix ++ l.
Proof.
  intros Hne Hl. destruct l as [|c l] using rev_ind; [congruence|]. clear IHl.
  unfold noLineBreak in Hl. rewrite forallb_app in Hl. apply andb_true_iff in Hl as [_ Hc].
  cbn in Hc. rewrite andb_true_r in Hc. apply andb_true_iff in Hc as [Hc _].
  apply negb_true_iff in Hc. rewrite app_assoc, stripTrailingNewlines_snoc, Hc. reflexivity.
Qed.

Lemma stripTrailingNewlines_end s : last (stripTrailingNewlines s) <> Some 10.
Proof.
  induction s as [|c s IH] using rev_ind; [discriminate|].
  rewrite stripTrailingNewlines_snoc. destruct (Z.eqb_spec c 10); [exact IH|].
  rewrite last_snoc. congruence.
Qed.

(** The lines without the blank lines at the end. *)
Fixpoint dropBlank (lines : list jsstring) : list jsstring :=
  match lines with
  | [] => []
  | l :: rest => if truthy l then lines else dropBlank rest
  end.

Definition dropTrailingBlank (lines : list jsstring) : list jsstring :=
  rev (dropBlank (rev lines)).

Lemma dropTrailingBlank_snoc lines l :
  dropTrailingBlank (lines ++ [l]) = if truthy l then lines ++ [l] else dropTrailingBlank lines.
Proof.
  unfold dropTrailingBlank. rewrite rev_app_distr. cbn [rev app dropBlank].
  destruct (truthy l); [|reflexivity]. cbn [rev]. rewrite rev_involutive. reflexivity.
Qed.

Lemma dropTrailingBlank_cut lines :
  exists blanks, lines = dropTrailingBlank lines ++ blanks /\
    Forall (fun l => l = []) blanks.
Proof.
  induction lines as [|l lines IH] using rev_ind.
  - exists []. split; [reflexivity|constructor].
  - rewrite dropTrailingBlank_snoc. destruct l as [|c l]; cbn [truthy].
    + destruct IH as (blanks & E & Hb). exists (blanks ++ [[]]). split.
      * rewrite app_assoc, <- E. reflexivity.
      * apply Forall_app. split; [exact Hb|repeat constructor].
    + exists []. split; [rewrite app_nil_r; reflexivity|constructor].
Qed.

Lemma dropTrailingBlank_idempotent lines :
  dropTrailingBlank (dropTrailingBlank lines) = dropTrailingBlank lines.
Proof.
  induction lines as [|l lines IH] using rev_ind; [reflexivity|].
  rewrite dropTrailingBlank_snoc. destruct (truthy l) eqn:E; [|exact IH].
  rewrite dropTrailingBlank_snoc, E. reflexivity.
Qed.

Lemma stripTrailingNewlines_join lines :
  Forall (fun l => noLineBreak l = true) lines ->
  stripTrailingNewlines (join [10] lines) = join [10] (dropTrailingBlank lines).
Proof.
  induction lines as [|l lines IH] using rev_ind; [reflexivity|].
  intros H. apply Forall_app in H as [H Hl]. apply Forall_cons in Hl as [Hl _].
  rewrite dropTrailingBlank_snoc. destruct lines as [|p rest].
  - cbn [app join]. destruct l as [|c l]; [reflexivity|]. cbn [truthy].
    apply (stripTrailingNewlines_kept [] (c :: l)); [discriminate|exact Hl].
  - rewrite join_snoc by discriminate. destruct l as [|c l]; cbn [truthy].
    + rewrite app_nil_r, stripTrailingNewlines_snoc. cbn. apply IH, H.
    + rewrite join_snoc by discriminate. rewrite app_assoc.
      apply stripTrailingNewlines_kept; [discriminate|exact Hl].
Qed.

Lemma upsertLines_plain lines key value :
  noLineBreak key = true -> noLineBreak value = true ->
  Forall (fun l => noLineBreak l = true) lines ->
  Forall (fun l => noLineBreak l = true) (upsertLines lines key value).
Proof.
  intros Hk Hv Hl.
  assert (He : noLineBreak (key ++ js "=" ++ value) = true).
  { unfold noLineBreak in *. rewrite !forallb_app, Hk, Hv. reflexivity. }
  rewrite upsertLines_closed.
  destruct (replaceDefinition key (key ++ js "=" ++ value) lines) as [replaced|] eqn:E.
  - apply replaceDefinition_shape in E as (before & line & after & -> & _ & _ & ->).
    apply Forall_app in Hl as [Hb Ha]. apply Forall_cons in Ha as [_ Ha].
    apply Forall_app. split; [exact Hb|]. apply Forall_cons. split; [exact He|].
    unfold keepOthers. apply Forall_forall. intros l Hin.
    apply list_elem_of_In, filter_In in Hin as [Hin _].
    exact (proj1 (Forall_forall _ _) Ha l (proj2 (list_elem_of_In _ _) Hin)).
  - apply Forall_app. split; [exact Hl|]. apply Forall_app. split.
    + unfold separatorLines. destruct (last lines) as [l|]; [|constructor].
      destruct (truthy l); repeat constructor.
    + repeat constructor. exact He.
Qed.

(** The content written, as lines: those of [upsertLines] without the
    blank ones at the end, and an empty last line. *)
Lemma upsertEnvVar_lines lines key value :
  startsClean key = true -> noLineBreak key = true -> noLineBreak value = true ->
  Forall (fun l => noLineBreak l = true) lines ->
  let core := dropTrailingBlank (upsertLines lines key value) in
  stripTrailingNewlines (join [10] (upsertLines lines key value)) ++ [10] =
    join [10] (core ++ [[]]) /\
  core <> [] /\
  Forall (fun l => noLineBreak l = true) (core ++ [[]]) /\
  List.filter (isKeyLine key) (core ++ [[]]) = [key ++ js "=" ++ value].
Proof.
  intros Hs Hk Hv Hl core.
  pose proof (upsertLines_plain lines key value Hk Hv Hl) as Hplain.
  pose proof (upsertLines_one lines key value Hs) as Hone.
  destruct (dropTrailingBlank_cut (upsertLines lines key value)) as (blanks & E & Hb).
  fold core in E.
  assert (Hfb : List.filter (isKeyLine key) blanks = []).
  { clear E. induction Hb as [|b bs -> _ IH]; [reflexivity|].
    cbn [List.filter]. rewrite isKeyLine_empty. exact IH. }
  assert (Hcore : List.filter (isKeyLine key) core = [key ++ js "=" ++ value]).
  { rewrite E, List.filter_app, Hfb, app_nil_r in Hone. exact Hone. }
  assert (Hne : core <> []) by (intros E0; rewrite E0 in Hcore; discriminate).
  repeat split.
  - rewrite stripTrailingNewlines_join by exact Hplain. fold core.
    rewrite join_snoc by exact Hne. rewrite app_nil_r. reflexivity.
  - exact Hne.
  - rewrite E in Hplain. apply Forall_app in Hplain as [Hc _].
    apply Forall_app. split; [exact Hc|repeat constructor].
  - rewrite List.filter_app, Hcore. cbn [List.filter]. rewrite isKeyLine_empty. reflexivity.
Qed.

(** X24.  The content [upsertEnvVar] writes, for a key that does not
    start with white space, a key and a value without line break, and a
    file none of whose lines holds a carriage return: it ends with
    exactly one line feed; read back line by line it defines the key
    exactly once, as "key=value"; and writing the same value again
    leaves it unchanged. *)
Theorem upsertEnvVar_settles (content key value : jsstring) :
  startsClean key = true -> noLineBreak key = true -> noLineBreak value = true ->
  Forall (fun line => noLineBreak line = true) (splitLines content) ->
  let written := upsertEnvVar content key value in
  (exists body, written = body ++ [10] /\ last body <> Some 10) /\
  List.filter (isKeyLine key) (splitLines written) = [key ++ js "=" ++ value] /\
  upsertEnvVar written key value = written.
Proof.
  intros Hs Hk Hv Hc written.
  set (lines := if truthy content then splitLines content else []).
  assert (Hl : Forall (fun l => noLineBreak l = true) lines).
  { subst lines. destruct (truthy content); [exact Hc|constructor]. }
  destruct (upsertEnvVar_lines lines key value Hs Hk Hv Hl) as (Hw & Hne & Hplain & Hone).
  set (core := dropTrailingBlank (upsertLines lines key value)) in *.
  assert (Ew : written = join [10] (core ++ [[]])) by exact Hw.
  assert (Hsplit : splitLines written = core ++ [[]]).
  { rewrite Ew. apply splitLines_join; [destruct core; discriminate|exact Hplain]. }
  split; [|split].
  - exists (stripTrailingNewlines (join [10] (upsertLines lines key value))).
    split; [reflexivity|apply stripTrailingNewlines_end].
  - rewrite Hsplit. exact Hone.
  - unfold upsertEnvVar at 1.
    assert (Ht : truthy written = true).
    { rewrite Ew, join_snoc by exact Hne. destruct (join [10] core); reflexivity. }
    rewrite Ht, Hsplit, (upsertLines_fixed _ _ _ Hone).
    rewrite stripTrailingNewlines_join by exact Hplain.
    rewrite dropTrailingBlank_snoc. cbn [truthy]. unfold core.
    rewrite dropTrailingBlank_idempotent. fold core.
    rewrite Ew, join_snoc by exact Hne. rewrite app_nil_r. reflexivity.
Qed.

Definition crlf (s : jsstring) : jsstring := flat_map (fun c => if c =? 124 then [13; 10] else [c]) s.

Lemma upsertEnvVar_settles_witness :
  List.filter (isKeyLine (js "SPOTIFY_REFRESH_TOKEN"))
    (splitLines (upsertEnvVar (crlf (js "A=1|SPOTIFY_REFRESH_TOKEN=old|"))
                   (js "SPOTIFY_REFRESH_TOKEN") (js "new"))) =
    [js "SPOTIFY_REFRESH_TOKEN" ++ js "=" ++ js "new"].
Proof.
  apply (upsertEnvVar_settles (crlf (js "A=1|SPOTIFY_REFRESH_TOKEN=old|"))
           (js "SPOTIFY_REFRESH_TOKEN") (js "new")).
  - reflexivity.
  - reflexivity.
  - reflexivity.
  - vm_compute. repeat constructor.
Defined.

Lemma upsertLines_defines_once_witness :
  List.filter (isKeyLine (js "SPOTIFY_REFRESH_TOKEN"))
    (upsertLines [js "A=1"; js "  SPOTIFY_REFRESH_TOKEN=old"; []] (js "SPOTIFY_REFRESH_TOKEN")
       (js "new")) = [js "SPOTIFY_REFRESH_TOKEN" ++ js "=" ++ js "new"].
Proof.
  apply (upsertLines_defines_once [js "A=1"; js "  SPOTIFY_REFRESH_TOKEN=old"; []]
           (js "SPOTIFY_REFRESH_TOKEN") (js "new")).
  reflexivity.
Defined.

(** ** Mapping a station, then synchronising it *)

Definition withPlaylist (v : option ArgValue) (args : SyncArgs) : SyncArgs :=
  {| stationId := stationId args; date := date args; targetDate := targetDate args;
     timeFrom := timeFrom args; timeTo := timeTo args; windowHours := windowHours args;
     sourceDelayMs := sourceDelayMs args; spotifyDelayMs := spotifyDelayMs args;
     dryRun := dryRun args; force := force args; playlist := v |}.

Section AfterLoad.
Context {U : UnicodeOps} (env : Env).

(** [runSyncCommand] from the lookup of the mapped playlist on. *)
Definition syncAfterLoad (args : SyncArgs) (state : State) : M Mem :=
  match getProperty (stationPlaylists state) (stationId args) with
  | None => throw NoPlaylistMapped
  | Some playlistId =>
      if negb (truthy playlistId) then throw NoPlaylistMapped
      else
        emit EvGetCurrentUser ;;;
        currentUserId <- answer (currentUser env) SpotifyRequestFailed ;;
        emit (EvGetPlaylistMeta playlistId) ;;;
        meta <- answer (playlistMeta env playlistId) SpotifyRequestFailed ;;
        (if negb (canCurrentUserWritePlaylist currentUserId (metaOwnerId meta)
                    (metaCollaborative meta))
            && negb (dryRun args)
         then throw PlaylistNotWritable else ret tt) ;;;
        emit (EvGetPlaylistTrackIndex playlistId) ;;;
        pages <- answer (playlistPages env playlistId) SpotifyRequestFailed ;;
        let playlistIndex := getPlaylistTrackIndex pages in
        match buildWindows (timeFrom args) (timeTo args) (windowHours args) with
        | None => throw WindowLoopDoesNotEnd
        | Some windows =>
            let stats := setWindowsPlanned (length windows) emptyStats in
            processWindows env args playlistId windows
              {| state := state; stats := stats; runSeenSongKeys := ∅;
                 playlistIndex := playlistIndex |}
        end
  end.

Lemma runSyncCommand_after_load args disk :
  validRange args = true ->
  runSyncCommand env args disk =
    prepend (loadEvents args disk)
      (syncAfterLoad args (stateAfterLoad args disk) (diskAfterLoad args disk)).
Proof. intros Hv. run_to_mapping Hv. reflexivity. Qed.

Lemma syncAfterLoad_playlist v args state disk :
  syncAfterLoad (withPlaylist v args) state disk = syncAfterLoad args state disk.
Proof. destruct args. reflexivity. Qed.
End AfterLoad.

Lemma prepend_fields {A} evs (r : Res A) :
  outcome (prepend evs r) = outcome r /\ diskAfter (prepend evs r) = diskAfter r /\
  events (prepend evs r) = evs ++ events r.
Proof. destruct r. repeat split. Qed.

(** X25.  [map --station s --playlist p], with both non-blank once
    trimmed and normalised, never enters the interactive flow: it loads
    the state, assigns the playlist id to the trimmed station and
    saves, keeping the other mappings and the record of processed
    windows; the saved state maps the station to that id unless the
    station is "__proto__" and no key of the loaded mapping, for which
    the assignment does nothing.  A sync of that station run afterwards
    without [--playlist] gets a truthy value from its lookup (the
    mapped id, when it was assigned), so that its first call after
    loading the state is the request for the current user, and ends as
    a sync run directly with [--playlist p] on the original file: same
    outcome, same state file, and the same calls after the state is
    loaded. *)
Theorem map_then_sync {U : UnicodeOps} (env : Env) (args : SyncArgs) (disk : option State)
    (runInteractiveMapFlow : State -> jsstring -> jsstring -> M unit)
    (s p : jsstring) (stationNameArg playlistNameArg : option ArgValue) :
  validRange args = true ->
  stationId args = trim s ->
  truthy (trim s) = true -> truthy (normalizePlaylistId p) = true ->
  let mapped := runMapCommand runInteractiveMapFlow (Some (ArgString s)) (Some (ArgString p))
                  stationNameArg playlistNameArg disk in
  let direct := runSyncCommand env (withPlaylist (Some (ArgString p)) args) disk in
  let later := runSyncCommand env (withPlaylist None args) (diskAfter mapped) in
  outcome mapped = inr tt /\
  (exists st, diskAfter mapped = Some st /\
     events mapped = [EvLoadState; EvSaveState st] /\
     stationPlaylists st =
       setProperty (stationPlaylists (parseState disk)) (trim s) (normalizePlaylistId p) /\
     (trim s <> js "__proto__" \/ is_Some (stationPlaylists (parseState disk) !! trim s) ->
      stationPlaylists st !! trim s = Some (normalizePlaylistId p) /\
      getProperty (stationPlaylists st) (trim s) = Some (normalizePlaylistId p)) /\
     (trim s = js "__proto__" -> stationPlaylists (parseState disk) !! trim s = None ->
      stationPlaylists st = stationPlaylists (parseState disk)) /\
     (forall other, other <> trim s ->
        stationPlaylists st !! other = stationPlaylists (parseState disk) !! other) /\
     scrapedWindows st = scrapedWindows (parseState disk)) /\
  outcome later = outcome direct /\
  diskAfter later = diskAfter direct /\
  exists calls, events later = EvLoadState :: EvGetCurrentUser :: calls /\
    events direct = events mapped ++ EvGetCurrentUser :: calls.
Proof.
  intros Hv Hid Hs Hp mapped direct later.
  set (st := {| version := version (parseState disk);
                stationPlaylists :=
                  setProperty (stationPlaylists (parseState disk)) (trim s)
                    (normalizePlaylistId p);
                scrapedWindows := scrapedWindows (parseState disk);
                inheritedWindows := inheritedWindows (parseState disk) |}).
  assert (Hmapped : mapped = mkRes (inr tt) (Some st) [EvLoadState; EvSaveState st]).
  { subst mapped. unfold runMapCommand. rewrite bind_loadState.
    cbn [stringArg]. rewrite Hs, Hp. reflexivity. }
  assert (Htruthy : truthy p = true).
  { destruct p; [vm_compute in Hp; discriminate|reflexivity]. }
  assert (Hvp : forall v, validRange (withPlaylist v args) = true) by (intros v; exact Hv).
  assert (Hparse : parseState (Some st) = st).
  { unfold parseState, st. destruct disk; reflexivity. }
  assert (Hmap : mapStation (withPlaylist (Some (ArgString p)) args) (parseState disk) = st).
  { unfold mapStation, st. cbn [withPlaylist stationId playlist from_option argToString].
    rewrite Hid. reflexivity. }
  assert (Hdirect : direct =
            prepend [EvLoadState; EvSaveState st] (syncAfterLoad env args st (Some st))).
  { subst direct. rewrite runSyncCommand_after_load by apply Hvp.
    unfold loadEvents, stateAfterLoad, diskAfterLoad.
    cbn [withPlaylist playlist argTruthy]. rewrite Htruthy, Hmap.
    rewrite syncAfterLoad_playlist. reflexivity. }
  assert (Hlater : later = prepend [EvLoadState] (syncAfterLoad env args st (Some st))).
  { subst later. rewrite Hmapped. cbn [diskAfter].
    rewrite runSyncCommand_after_load by apply Hvp.
    unfold loadEvents, stateAfterLoad, diskAfterLoad.
    cbn [withPlaylist playlist argTruthy]. rewrite Hparse, syncAfterLoad_playlist.
    reflexivity. }
  set (rest := syncAfterLoad env args st (Some st)) in *.
  destruct (prepend_fields [EvLoadState; EvSaveState st] rest) as (Do & Dd & De).
  destruct (prepend_fields [EvLoadState] rest) as (Lo & Ld & Le).
  rewrite Hdirect, Hlater, Hmapped. cbn [outcome diskAfter events].
  split; [reflexivity|]. split.
  { exists st. split; [reflexivity|]. split; [reflexivity|]. split; [reflexivity|].
    cbn [st stationPlaylists scrapedWindows].
    split; [|split; [|split; [|reflexivity]]].
    - intros Hassigns. rewrite setProperty_assigns by exact Hassigns.
      split; [|apply getProperty_own]; apply lookup_insert_eq.
    - intros Hproto Hnone. rewrite Hproto in *. apply setProperty_ignored. exact Hnone.
    - intros other Hne. apply setProperty_other. exact Hne. }
  rewrite Do, Dd, De, Lo, Ld, Le.
  split; [reflexivity|]. split; [reflexivity|].
  assert (Hrest : exists calls, events rest = EvGetCurrentUser :: calls).
  { subst rest. unfold syncAfterLoad. cbn [stationPlaylists st].
    rewrite Hid.
    destruct (getProperty_after_set (stationPlaylists (parseState disk)) (trim s)
                (normalizePlaylistId p) Hp) as (found & -> & -> & _).
    cbn [negb]. rewrite bind_emit.
    match goal with |- context [prepend _ ?r] =>
      destruct (prepend_fields [EvGetCurrentUser] r) as (_ & _ & E) end.
    rewrite E. eexists. reflexivity. }
  destruct Hrest as [calls Hcalls]. exists calls. rewrite Hcalls. split; reflexivity.
Qed.

Lemma map_then_sync_witness :
  outcome (runMapCommand (fun _ _ _ => ret tt) (Some (ArgString (js " 40 ")))
             (Some (ArgString (js "https://open.spotify.com/playlist/pl2?si=1"))) None None None)
    = inr tt.
Proof.
  apply (map_then_sync (U := Latin1) (demoEnv nextDay) (demoArgs false false None) None
           (fun _ _ _ => ret tt) (js " 40 ")
           (js "https://open.spotify.com/playlist/pl2?si=1") None None);
    reflexivity.
Defined.

(** ** Calendar dates *)

(** The Gregorian leap-year rule and the lengths of the months. *)
Definition isLeapYear (y : Z) : bool :=
  ((y mod 4 =? 0) && negb (y mod 100 =? 0)) || (y mod 400 =? 0).

Definition daysInMonth (y m : Z) : Z :=
  if m =? 2 then (if isLeapYear y then 29 else 28)
  else if (m =? 4) || (m =? 6) || (m =? 9) || (m =? 11) then 30
  else 31.

Lemma DaysInYear_leap y : DaysInYear y = if isLeapYear y then 366 else 365.
Proof.
  unfold DaysInYear, isLeapYear.
  destruct (Z.eqb_spec (y mod 4) 0), (Z.eqb_spec (y mod 100) 0), (Z.eqb_spec (y mod 400) 0);
    cbn; try reflexivity; exfalso; Z.div_mod_to_equations; lia.
Qed.

Lemma DayFromYear_succ y : DayFromYear (y + 1) = DayFromYear y + DaysInYear y.
Proof.
  unfold DayFromYear, DaysInYear.
  destruct (Z.eqb_spec (y mod 4) 0), (Z.eqb_spec (y mod 100) 0), (Z.eqb_spec (y mod 400) 0);
    cbn [negb]; Z.div_mod_to_equations; lia.
Qed.

Lemma DayFromYear_mono a b : a <= b -> DayFromYear a <= DayFromYear b.
Proof. intros H. unfold DayFromYear. Z.div_mod_to_equations. lia. Qed.

Lemma YearFromDay_spec day :
  DayFromYear (YearFromDay day) <= day < DayFromYear (YearFromDay day + 1).
Proof.
  unfold YearFromDay. cbv zeta.
  set (q := (day * 400) / 146097).
  assert (Hq : 146097 * q <= day * 400 < 146097 * (q + 1)).
  { subst q. pose proof (Z.div_mod (day * 400) 146097 ltac:(lia)).
    pose proof (Z.mod_pos_bound (day * 400) 146097 ltac:(lia)). lia. }
  clearbody q.
  destruct (Z.ltb_spec day (DayFromYear (1970 + q))).
  - unfold DayFromYear in *. Z.div_mod_to_equations. lia.
  - destruct (Z.leb_spec (DayFromYear (1970 + q + 1)) day).
    + unfold DayFromYear in *. Z.div_mod_to_equations. lia.
    + lia.
Qed.

Lemma YearFromDay_unique day y :
  DayFromYear y <= day < DayFromYear (y + 1) -> YearFromDay day = y.
Proof.
  intros H. pose proof (YearFromDay_spec day) as S.
  destruct (Z.lt_trichotomy (YearFromDay day) y) as [Hlt|[Heq|Hgt]]; [|exact Heq|].
  - pose proof (DayFromYear_mono (YearFromDay day + 1) y ltac:(lia)). lia.
  - pose proof (DayFromYear_mono (y + 1) (YearFromDay day) ltac:(lia)). lia.
Qed.

Lemma Day_noon dn : Day (dn * msPerDay + 12 * 3600000) = dn.
Proof. unfold Day, msPerDay. Z.div_mod_to_equations. lia. Qed.

Definition leapDays (y : Z) : Z := if DaysInYear y =? 366 then 1 else 0.

Lemma leapDays_leap y : leapDays y = if isLeapYear y then 1 else 0.
Proof. unfold leapDays. rewrite DaysInYear_leap. destruct (isLeapYear y); reflexivity. Qed.

(** The readings of a time value at noon of day [dn] of year [y]. *)
Lemma noon_readings y dn :
  DayFromYear y <= dn < DayFromYear (y + 1) ->
  let tv := dn * msPerDay + 12 * 3600000 in
  YearFromTime tv = y /\ InLeapYear tv = leapDays y /\
  DayWithinYear tv = dn - DayFromYear y.
Proof.
  intros H tv.
  assert (Hy : YearFromTime tv = y).
  { unfold YearFromTime, tv. rewrite Day_noon. apply YearFromDay_unique, H. }
  split; [exact Hy|]. split.
  - unfold InLeapYear. rewrite Hy. reflexivity.
  - unfold DayWithinYear. rewrite Hy. unfold tv. rewrite Day_noon. reflexivity.
Qed.

Lemma MonthFromTime_range t : 0 <= MonthFromTime t <= 11.
Proof.
  unfold MonthFromTime. cbv zeta.
  repeat match goal with |- context [?a <? ?b] => destruct (a <? b) end; lia.
Qed.

Lemma twelve_months m : 0 <= m <= 11 ->
  m = 0 \/ m = 1 \/ m = 2 \/ m = 3 \/ m = 4 \/ m = 5 \/ m = 6 \/ m = 7 \/ m = 8 \/ m = 9 \/
  m = 10 \/ m = 11.
Proof. lia. Qed.

(** Month and date of the day [monthStart mi + day - 1] of year [y]. *)
Lemma month_date_readings y mi day t :
  0 <= mi <= 11 ->
  InLeapYear t = leapDays y ->
  DayWithinYear t = monthStart mi (leapDays y) + day - 1 ->
  0 <= DayWithinYear t < DaysInYear y ->
  (MonthFromTime t = mi /\ DateFromTime t = day) <-> 1 <= day <= daysInMonth y (mi + 1).
Proof.
  intros Hmi HL Hd Hrange. unfold DateFromTime, MonthFromTime. cbv zeta.
  rewrite HL, Hd in *. rewrite DaysInYear_leap in Hrange. rewrite leapDays_leap in *.
  unfold daysInMonth.
  destruct (twelve_months mi Hmi) as [->|[->|[->|[->|[->|[->|[->|[->|[->|[->|[->| ->]]]]]]]]]]];
    destruct (isLeapYear y); unfold monthStart in *; simpl in *;
    repeat match goal with |- context [?a <? ?b] => destruct (Z.ltb_spec a b) end;
    simpl; lia.
Qed.

Lemma monthStart_fits y mi day :
  0 <= mi <= 11 -> 1 <= day <= daysInMonth y (mi + 1) ->
  0 <= monthStart mi (leapDays y) + day - 1 < DaysInYear y.
Proof.
  intros Hmi. rewrite leapDays_leap, DaysInYear_leap. unfold daysInMonth.
  destruct (twelve_months mi Hmi) as [->|[->|[->|[->|[->|[->|[->|[->|[->|[->|[->| ->]]]]]]]]]]];
    destruct (isLeapYear y); unfold monthStart; simpl; lia.
Qed.

Lemma monthStart_bounds y mi : 0 <= mi <= 11 -> 0 <= monthStart mi (leapDays y) <= 335.
Proof.
  intros Hmi. rewrite leapDays_leap.
  destruct (twelve_months mi Hmi) as [->|[->|[->|[->|[->|[->|[->|[->|[->|[->|[->| ->]]]]]]]]]]];
    destruct (isLeapYear y); unfold monthStart; simpl; lia.
Qed.

Lemma DayFromYear_bounds y :
  0 <= y <= 10000 -> -720000 <= DayFromYear y <= 2940000.
Proof. intros H. unfold DayFromYear. Z.div_mod_to_equations. lia. Qed.

Lemma MakeDay_in_year yr mi day :
  0 <= mi <= 11 ->
  MakeDay yr mi day = DayFromYear yr + monthStart mi (leapDays yr) + day - 1.
Proof.
  intros Hmi. unfold MakeDay. cbv zeta.
  rewrite (Z.div_small mi 12), (Z.mod_small mi 12), Z.add_0_r by lia. reflexivity.
Qed.

(** What [parseInputDate] asks of the numbers read from the text. *)
Definition roundTrips (year month day : Z) : Prop :=
  exists tv, DateUTC year (month - 1) day = Some tv /\
    DateFromTime tv = day /\ MonthFromTime tv + 1 = month /\ YearFromTime tv = year.

Lemma roundTrips_real year month day :
  0 <= year <= 9999 -> 0 <= month <= 99 -> 0 <= day <= 99 ->
  roundTrips year month day <->
  (100 <= year /\ 1 <= month <= 12 /\ 1 <= day <= daysInMonth year month).
Proof.
  intros Hy Hm Hd. unfold roundTrips. split.
  - intros (tv & Htv & HD & HM & HY).
    pose proof (MonthFromTime_range tv) as Hrange.
    assert (Hmi : 0 <= month - 1 <= 11) by lia.
    assert (HM' : MonthFromTime tv = month - 1) by lia.
    unfold DateUTC in Htv. cbv zeta in Htv.
    remember (if (0 <=? year) && (year <=? 99) then 1900 + year else year) as yr eqn:Eyr0.
    rewrite MakeDay_in_year in Htv by exact Hmi.
    remember (DayFromYear yr + monthStart (month - 1) (leapDays yr) + day - 1) as dn eqn:Edn.
    destruct (Z.abs (dn * msPerDay + 12 * 3600000) <=? 8640000000000000); [|discriminate].
    injection Htv as <-.
    pose proof (YearFromDay_spec dn) as Hspec.
    unfold YearFromTime in HY. rewrite Day_noon in HY. rewrite HY in Hspec.
    pose proof (monthStart_bounds yr (month - 1) Hmi) as Hms.
    assert (Hyear : 100 <= year).
    { destruct (Z.le_gt_cases 100 year) as [|Hsmall]; [assumption|exfalso].
      assert (Eyr : yr = 1900 + year).
      { rewrite Eyr0. replace (0 <=? year) with true by (symmetry; apply Z.leb_le; lia).
        replace (year <=? 99) with true by (symmetry; apply Z.leb_le; lia). reflexivity. }
      pose proof (DayFromYear_mono (year + 1) 100 ltac:(lia)) as M1.
      pose proof (DayFromYear_mono 1900 yr ltac:(lia)) as M2.
      assert (C : DayFromYear 100 < DayFromYear 1900 - 1) by (vm_compute; reflexivity).
      lia. }
    assert (Eyr : yr = year).
    { rewrite Eyr0. replace (year <=? 99) with false by (symmetry; apply Z.leb_gt; lia).
      rewrite andb_false_r. reflexivity. }
    clear Eyr0. subst yr.
    destruct (noon_readings year dn Hspec) as (_ & HL & Hdwy). cbv zeta in HL, Hdwy.
    rewrite DayFromYear_succ in Hspec.
    assert (Hd' : DayWithinYear (dn * msPerDay + 12 * 3600000)
                  = monthStart (month - 1) (leapDays year) + day - 1)
      by (rewrite Hdwy; lia).
    assert (Hin : 0 <= DayWithinYear (dn * msPerDay + 12 * 3600000) < DaysInYear year)
      by (rewrite Hdwy; lia).
    pose proof (proj1 (month_date_readings year (month - 1) day _ Hmi HL Hd' Hin)
                  (conj HM' HD)) as Hreal.
    replace (month - 1 + 1) with month in Hreal by lia. lia.
  - intros (Hyear & Hmonth & Hday).
    assert (Hmi : 0 <= month - 1 <= 11) by lia.
    replace month with (month - 1 + 1) in Hday by lia.
    pose proof (monthStart_fits year (month - 1) day Hmi Hday) as Hfit.
    set (dn := DayFromYear year + monthStart (month - 1) (leapDays year) + day - 1).
    assert (Hspec : DayFromYear year <= dn < DayFromYear (year + 1))
      by (rewrite DayFromYear_succ; subst dn; lia).
    exists (dn * msPerDay + 12 * 3600000).
    destruct (noon_readings year dn Hspec) as (HY & HL & Hdwy). cbv zeta in HY, HL, Hdwy.
    assert (Hd' : DayWithinYear (dn * msPerDay + 12 * 3600000)
                  = monthStart (month - 1) (leapDays year) + day - 1)
      by (rewrite Hdwy; subst dn; lia).
    assert (Hin : 0 <= DayWithinYear (dn * msPerDay + 12 * 3600000) < DaysInYear year)
      by (rewrite Hd'; exact Hfit).
    destruct (proj2 (month_date_readings year (month - 1) day _ Hmi HL Hd' Hin) Hday)
      as [HM HD].
    split; [|split; [exact HD|split; [lia|exact HY]]].
    unfold DateUTC. cbv zeta.
    replace (year <=? 99) with false by (symmetry; apply Z.leb_gt; lia).
    rewrite andb_false_r, MakeDay_in_year by exact Hmi. fold dn.
    pose proof (DayFromYear_bounds year ltac:(lia)) as Hb.
    pose proof (DayFromYear_bounds (year + 1) ltac:(lia)) as Hb'.
    replace (Z.abs (dn * msPerDay + 12 * 3600000) <=? 8640000000000000) with true;
      [reflexivity|].
    symmetry. apply Z.leb_le. unfold msPerDay. lia.
Qed.

Lemma isDecimalDigit_range c : isDecimalDigit c = true <-> 48 <= c <= 57.
Proof.
  unfold isDecimalDigit. rewrite andb_true_iff, Z.leb_le, Z.leb_le. reflexivity.
Qed.

Lemma parseInt10_digits c rest :
  isDecimalDigit c = true -> parseInt10 (c :: rest) = digitsValue 0 (c :: rest).
Proof.
  intros H. apply isDecimalDigit_range in H. unfold parseInt10.
  replace (c =? 45) with false by (symmetry; apply Z.eqb_neq; lia). reflexivity.
Qed.

(** The numbers read from the three digit groups. *)
Lemma date_numbers d1 d2 m1 m2 y1 y2 y3 y4 :
  forallb isDecimalDigit [d1; d2; m1; m2; y1; y2; y3; y4] = true ->
  let day := 10 * (d1 - 48) + (d2 - 48) in
  let month := 10 * (m1 - 48) + (m2 - 48) in
  let year := 1000 * (y1 - 48) + 100 * (y2 - 48) + 10 * (y3 - 48) + (y4 - 48) in
  parseInt10 [d1; d2] = day /\ parseInt10 [m1; m2] = month /\
  parseInt10 [y1; y2; y3; y4] = year /\
  0 <= year <= 9999 /\ 0 <= month <= 99 /\ 0 <= day <= 99.
Proof.
  intros H. cbn [forallb] in H.
  repeat (let E := fresh "E" in apply andb_true_iff in H as [E H]).
  rewrite !parseInt10_digits by assumption. cbn [digitsValue].
  repeat match goal with E : isDecimalDigit _ = true |- _ =>
    apply isDecimalDigit_range in E end.
  cbv zeta. repeat split; lia.
Qed.

(** [parseInputDate] on a text of the right shape. *)
Lemma parseInputDate_run d1 d2 m1 m2 y1 y2 y3 y4 parsed :
  forallb isDecimalDigit [d1; d2; m1; m2; y1; y2; y3; y4] = true ->
  let day := 10 * (d1 - 48) + (d2 - 48) in
  let month := 10 * (m1 - 48) + (m2 - 48) in
  let year := 1000 * (y1 - 48) + 100 * (y2 - 48) + 10 * (y3 - 48) + (y4 - 48) in
  parseInputDate [d1; d2; 45; m1; m2; 45; y1; y2; y3; y4] = inr parsed <->
  (roundTrips year month day /\
   parsed = {| dateDay := day; dateMonth := month; dateYear := year |}).
Proof.
  intros H day month year.
  destruct (date_numbers _ _ _ _ _ _ _ _ H) as (Ed & Em & Ey & _).
  fold day in Ed. fold month in Em. fold year in Ey.
  unfold parseInputDate. rewrite H. change (45 =? 45) with true. cbn [andb].
  cbv zeta. rewrite Ed, Em, Ey. unfold roundTrips.
  destruct (DateUTC year (month - 1) day) as [tv|].
  - destruct (Z.eqb_spec (DateFromTime tv) day) as [HD|HD]; cbn [negb orb].
    2:{ split; [discriminate|]. intros [(tv' & [= <-] & HD' & _) _]. contradiction. }
    destruct (Z.eqb_spec (MonthFromTime tv + 1) month) as [HM|HM]; cbn [negb orb].
    2:{ split; [discriminate|]. intros [(tv' & [= <-] & _ & HM' & _) _]. contradiction. }
    destruct (Z.eqb_spec (YearFromTime tv) year) as [HY|HY]; cbn [negb orb].
    2:{ split; [discriminate|]. intros [(tv' & [= <-] & _ & _ & HY') _]. contradiction. }
    split.
    + intros [= <-]. split; [|reflexivity]. exists tv. repeat split; assumption.
    + intros [_ ->]. reflexivity.
  - split; [discriminate|]. intros [(tv' & Habs & _) _]. discriminate.
Qed.

(** X26.  [parseInputDate] accepts exactly the texts DD-MM-YYYY (two,
    two and four decimal digits between hyphens) that name a day of the
    Gregorian calendar in a year from 0100 on, and returns their three
    numbers.  Years 0000 to 0099 are refused, because [Date.UTC] reads
    such a year as 1900 + year. *)
Theorem parseInputDate_real_dates (date : jsstring) (parsed : ParsedInputDate) :
  parseInputDate date = inr parsed <->
  (exists d1 d2 m1 m2 y1 y2 y3 y4,
     date = [d1; d2; 45; m1; m2; 45; y1; y2; y3; y4] /\
     forallb isDecimalDigit [d1; d2; m1; m2; y1; y2; y3; y4] = true /\
     parsed = {| dateDay := 10 * (d1 - 48) + (d2 - 48);
                 dateMonth := 10 * (m1 - 48) + (m2 - 48);
                 dateYear := 1000 * (y1 - 48) + 100 * (y2 - 48) + 10 * (y3 - 48)
                             + (y4 - 48) |}) /\
  100 <= dateYear parsed /\
  1 <= dateMonth parsed <= 12 /\
  1 <= dateDay parsed <= daysInMonth (dateYear parsed) (dateMonth parsed).
Proof.
  split.
  - intros Hparse.
    destruct date as [|d1 [|d2 [|h1 [|m1 [|m2 [|h2 [|y1 [|y2 [|y3 [|y4 [|extra rest]]]]]]]]]]];
      try discriminate.
    assert (Hshape : forallb isDecimalDigit [d1; d2; m1; m2; y1; y2; y3; y4] = true /\
                     h1 = 45 /\ h2 = 45).
    { unfold parseInputDate in Hparse.
      destruct (forallb isDecimalDigit [d1; d2; m1; m2; y1; y2; y3; y4]); [|discriminate].
      destruct (Z.eqb_spec h1 45); [|discriminate].
      destruct (Z.eqb_spec h2 45); [|discriminate]. repeat split; assumption. }
    destruct Hshape as (Hdigits & -> & ->).
    apply (parseInputDate_run _ _ _ _ _ _ _ _ _ Hdigits) in Hparse as [Hrt ->].
    destruct (date_numbers _ _ _ _ _ _ _ _ Hdigits) as (_ & _ & _ & Hy & Hm & Hd).
    apply (roundTrips_real _ _ _ Hy Hm Hd) in Hrt. cbn [dateDay dateMonth dateYear].
    split; [|exact Hrt].
    exists d1, d2, m1, m2, y1, y2, y3, y4. repeat split. exact Hdigits.
  - intros [(d1 & d2 & m1 & m2 & y1 & y2 & y3 & y4 & -> & Hdigits & ->) Hreal].
    cbn [dateDay dateMonth dateYear] in Hreal.
    apply (parseInputDate_run _ _ _ _ _ _ _ _ _ Hdigits). split; [|reflexivity].
    destruct (date_numbers _ _ _ _ _ _ _ _ Hdigits) as (_ & _ & _ & Hy & Hm & Hd).
    apply (roundTrips_real _ _ _ Hy Hm Hd). exact Hreal.
Qed.

(** ** The songs read from a page *)

Lemma splitSongLabel_title raw :
  tidy false raw = true -> startsClean raw = true -> endsClean raw = true -> raw <> [] ->
  let parsed := splitSongLabel raw in
  splitTitle parsed <> [] /\
  (splitArtist parsed = [] /\ splitTitle parsed = raw \/
   exists separator, In separator separators /\
     raw = splitArtist parsed ++ separator ++ splitTitle parsed /\ splitArtist parsed <> []).
Proof.
  intros Ht Hs He Hne. unfold splitSongLabel, separators.
  destruct (indexOf raw [32; 45; 32]) as [i|] eqn:H1.
  { destruct (splitSongLabelWith_found raw 45 [[32; 8211; 32]; [32; 8212; 32]] i Ht Hs He
                eq_refl H1) as (E & Ha & Hb & _).
    split; [exact Hb|]. right. exists [32; 45; 32]. split; [left; reflexivity|].
    split; assumption. }
  rewrite (splitSongLabelWith_skip _ _ _ H1).
  destruct (indexOf raw [32; 8211; 32]) as [i|] eqn:H2.
  { destruct (splitSongLabelWith_found raw 8211 [[32; 8212; 32]] i Ht Hs He eq_refl H2)
      as (E & Ha & Hb & _).
    split; [exact Hb|]. right. exists [32; 8211; 32]. split; [right; left; reflexivity|].
    split; assumption. }
  rewrite (splitSongLabelWith_skip _ _ _ H2).
  destruct (indexOf raw [32; 8212; 32]) as [i|] eqn:H3.
  { destruct (splitSongLabelWith_found raw 8212 [] i Ht Hs He eq_refl H3)
      as (E & Ha & Hb & _).
    split; [exact Hb|]. right. exists [32; 8212; 32].
    split; [right; right; left; reflexivity|]. split; assumption. }
  rewrite (splitSongLabelWith_skip _ _ _ H3).
  cbn [splitSongLabelWith splitArtist splitTitle]. rewrite trim_id by assumption.
  split; [exact Hne|]. left. split; reflexivity.
Qed.

(** X27.  Every song [scrapeSongsFromSource] returns for the rows of a
    page has a label that is not empty and is spaced as [cleanupSpaces]
    leaves it, a title that is not empty, a time of one to five
    characters that holds a colon, and the address of the page; its
    label is its title alone (the artist then being empty) or artist,
    separator, title.  There are at most as many songs as rows. *)
Theorem scraped_songs_well_formed (url : SourceUrl) (rows : list (list TableCell))
    (song : ScrapedSong) :
  In song (songsOfRows url rows) ->
  rawLabel song <> [] /\ cleanupSpaces (rawLabel song) = rawLabel song /\
  title song <> [] /\
  (1 <= length (playedAt song) <= 5)%nat /\ includes (playedAt song) (js ":") = true /\
  sourceUrl song = url /\
  (artist song = [] /\ title song = rawLabel song \/
   exists separator, In separator separators /\
     rawLabel song = artist song ++ separator ++ title song /\ artist song <> []) /\
  (length (songsOfRows url rows) <= length rows)%nat.
Proof.
  intros Hin.
  assert (Hlen : (length (songsOfRows url rows) <= length rows)%nat).
  { unfold songsOfRows. clear Hin. induction rows as [|row rows IH]; [cbn; lia|].
    cbn [omap list_omap]. destruct (songOfRow url row); cbn [length]; lia. }
  assert (Hrow : exists cells, songOfRow url cells = Some song).
  { unfold songsOfRows in Hin. apply list_elem_of_In, list_elem_of_omap in Hin.
    destruct Hin as (cells & _ & H). exists cells. exact H. }
  destruct Hrow as [cells Hrow]. unfold songOfRow in Hrow.
  destruct cells as [|timeCell [|titleCell rest]]; try discriminate. cbv zeta in Hrow.
  set (label := cleanupSpaces (if truthy (titleLinkText titleCell)
                               then titleLinkText titleCell else cellText titleCell)) in *.
  set (time := cleanupSpaces (cellText timeCell)) in *.
  destruct (truthy label) eqn:Hlabel; [|discriminate]. cbn [negb] in Hrow.
  destruct (truthy time) eqn:Htime; [|discriminate].
  destruct (5 <? length time)%nat eqn:Hfive; [discriminate|].
  destruct (includes time (js ":")) eqn:Hcolon; [|discriminate].
  cbn [negb orb] in Hrow. injection Hrow as <-. cbn [rawLabel title artist playedAt sourceUrl].
  assert (Hne : label <> []) by (intros E; rewrite E in Hlabel; discriminate).
  destruct (cleanupSpaces_shape (if truthy (titleLinkText titleCell)
                                 then titleLinkText titleCell else cellText titleCell))
    as (Ht & Hs & He). fold label in Ht, Hs, He.
  destruct (splitSongLabel_title label Ht Hs He Hne) as [Htitle Hform].
  apply Nat.ltb_ge in Hfive.
  repeat split; try assumption.
  - unfold cleanupSpaces. rewrite cleanupSpacesFrom_id by exact Ht. apply trim_id; assumption.
  - destruct time; [discriminate|cbn; lia].
Qed.

Definition demoRows : list (list TableCell) :=
  [[{| cellText := js "12:05"; titleLinkText := [] |};
    {| cellText := js "  Abba  -  Waterloo "; titleLinkText := js "Abba - Waterloo" |}];
   [{| cellText := js "advert"; titleLinkText := [] |}]].

Definition demoUrl : SourceUrl := buildSourceUrl (js "40") (js "24-02-2026") 12 14.

Definition demoScraped : ScrapedSong :=
  {| playedAt := js "12:05"; rawLabel := js "Abba - Waterloo";
     artist := js "Abba"; title := js "Waterloo"; sourceUrl := demoUrl |}.

Lemma scraped_songs_well_formed_witness :
  In demoScraped (songsOfRows demoUrl demoRows) /\ title demoScraped <> [].
Proof.
  assert (Hin : In demoScraped (songsOfRows demoUrl demoRows)) by (left; reflexivity).
  split; [exact Hin|].
  exact (proj1 (proj2 (proj2 (scraped_songs_well_formed demoUrl demoRows demoScraped Hin)))).
Defined.

(** ** The default date *)

Definition twoDigits (d : Z) : bool :=
  match padStart 2 48 (numberToString d) with
  | [a; b] => isDecimalDigit a && isDecimalDigit b && (10 * (a - 48) + (b - 48) =? d)
  | _ => false
  end.

Definition fourDigits (y : Z) : bool :=
  match padStart 4 48 (numberToString y) with
  | [a; b; c; d] =>
      forallb isDecimalDigit [a; b; c; d]
      && (1000 * (a - 48) + 100 * (b - 48) + 10 * (c - 48) + (d - 48) =? y)
  | _ => false
  end.

Lemma below_enumerated (check : Z -> bool) (n : nat) (d : Z) :
  forallb check (map Z.of_nat (seq 0 n)) = true -> 0 <= d < Z.of_nat n -> check d = true.
Proof.
  intros Hall Hd. apply (proj1 (forallb_forall _ _) Hall).
  replace d with (Z.of_nat (Z.to_nat d)) by lia. apply in_map, in_seq. lia.
Qed.

Lemma twoDigits_all d : 0 <= d <= 99 -> twoDigits d = true.
Proof.
  intros H. apply (below_enumerated twoDigits (Z.to_nat 100)); [vm_compute; reflexivity|lia].
Qed.

Lemma fourDigits_all y : 0 <= y <= 9999 -> fourDigits y = true.
Proof.
  intros H. apply (below_enumerated fourDigits (Z.to_nat 10000)); [vm_compute; reflexivity|lia].
Qed.

Lemma daysInMonth_most y m : daysInMonth y m <= 31.
Proof.
  unfold daysInMonth. destruct (m =? 2); [destruct (isLeapYear y); lia|].
  destruct ((m =? 4) || (m =? 6) || (m =? 9) || (m =? 11)); lia.
Qed.

(** X28.  The date [getTodayDateInWarsaw] writes for a clock reading
    that is a calendar day of a year from 100 to 9999 is accepted by
    [parseInputDate] and read back as that day; so when the date of a
    run is today's, a window is fully in the past exactly when its end
    hour has been reached, and fully in the future exactly when its
    start hour is still ahead. *)
Theorem today_is_accepted (now : WarsawNowParts) :
  100 <= year now <= 9999 -> 1 <= month now <= 12 ->
  1 <= day now <= daysInMonth (year now) (month now) ->
  let date := getTodayDateInWarsaw (day now) (month now) (year now) in
  let target := {| dateDay := day now; dateMonth := month now; dateYear := year now |} in
  parseInputDate date = inr target /\
  (forall h, isWindowFullyInPastInWarsaw now target h
             = (h * 60 <=? hour now * 60 + minute now)) /\
  (forall h, isWindowFullyInFutureInWarsaw now target h
             = (hour now * 60 + minute now <? h * 60)).
Proof.
  intros Hy Hm Hd date target. split; [|split].
  - pose proof (daysInMonth_most (year now) (month now)) as Hmost.
    pose proof (twoDigits_all (day now) ltac:(lia)) as Cd.
    pose proof (twoDigits_all (month now) ltac:(lia)) as Cm.
    pose proof (fourDigits_all (year now) ltac:(lia)) as Cy.
    subst date. unfold getTodayDateInWarsaw. unfold twoDigits in Cd, Cm. unfold fourDigits in Cy.
    destruct (padStart 2 48 (numberToString (day now))) as [|d1 [|d2 [|? ?]]]; try discriminate.
    destruct (padStart 2 48 (numberToString (month now))) as [|m1 [|m2 [|? ?]]];
      try discriminate.
    destruct (padStart 4 48 (numberToString (year now))) as [|y1 [|y2 [|y3 [|y4 [|? ?]]]]];
      try discriminate.
    apply andb_true_iff in Cd as [Cd Ed]. apply andb_true_iff in Cd as [Cd1 Cd2].
    apply andb_true_iff in Cm as [Cm Em]. apply andb_true_iff in Cm as [Cm1 Cm2].
    apply andb_true_iff in Cy as [Cy Ey].
    apply Z.eqb_eq in Ed, Em, Ey. cbn [forallb] in Cy.
    repeat (let E := fresh "Cy" in apply andb_true_iff in Cy as [E Cy]).
    assert (Hdigits : forallb isDecimalDigit [d1; d2; m1; m2; y1; y2; y3; y4] = true).
    { cbn [forallb]. rewrite Cd1, Cd2, Cm1, Cm2, Cy0, Cy1, Cy2, Cy3. reflexivity. }
    change ([d1; d2] ++ js "-" ++ [m1; m2] ++ js "-" ++ [y1; y2; y3; y4])
      with [d1; d2; 45; m1; m2; 45; y1; y2; y3; y4].
    apply (parseInputDate_run _ _ _ _ _ _ _ _ _ Hdigits). cbv zeta.
    rewrite Ed, Em, Ey. split; [|reflexivity].
    apply roundTrips_real; lia.
  - intros h. unfold isWindowFullyInPastInWarsaw. subst target.
    cbn [dateDay dateMonth dateYear]. rewrite Z.ltb_irrefl. reflexivity.
  - intros h. unfold isWindowFullyInFutureInWarsaw. subst target.
    cbn [dateDay dateMonth dateYear]. rewrite Z.ltb_irrefl. reflexivity.
Qed.

Lemma today_is_accepted_witness :
  parseInputDate (getTodayDateInWarsaw 24 2 2026)
    = inr {| dateDay := 24; dateMonth := 2; dateYear := 2026 |}.
Proof.
  apply (today_is_accepted sameDayAt3); vm_compute; split; discriminate.
Defined.
